(** * hive-ui: layout, aggregation, object index, search and history

    A shallow embedding of the core of [demos/hive-ui/app.js]: the tree
    layout ([layoutTree]), the visibility resolver and dependency
    aggregation ([buildVisibleModuleDeps]), the object index
    ([buildObjectIndex]) with its search ([renderSearchResults]) and the
    undo history ([pushHistory], [popHistory]).

    Conventions of the embedding.
    - A JavaScript string is a [string] holding one character per UTF-16
      code unit; the strings covered are those whose code units are below
      256.  [charCode] is [charCodeAt], the order [String.le] is the code
      unit order used by [Array.prototype.sort] without a comparator.
    - An optional string field that the program only reads through
      [x || default] or a truthiness test is a [string], the empty string
      standing for an absent (or null) field as well.
    - A [Map] and a [Set] are [gmap] and [gset].  A plain object of the
      snapshot used as a dictionary is a [gmap] of its own properties;
      a read [obj[key]] goes through [member], which also answers the
      names every plain object inherits from [Object.prototype]
      ([toString], [constructor], ...) with a member that is truthy and
      has none of the fields of the snapshot.  [graph.objects] is kept
      as a list in property order because [Object.values] walks it.
    - The snapshot has the dictionary [modules], which the program reads
      unguarded.  The tables [objects], [constructors], [invokers] and
      [decorators] may be missing: the program tests for them before
      each read, and a missing table is walked as an empty one.
    - Where a list is made from a [Map] or a [Set] of the program (the
      edges of [buildVisibleModuleDeps], the tubes of [rebuildEdges]),
      its order here is the key order of the [gmap], not the insertion
      order of the program; statements about such lists hold up to the
      order of their entries.
    - Recursion over the module tree and the parent walk take a [fuel]
      argument; [None] is the run that does not return.
    - Vertical coordinates are stored doubled ([y2] is twice the [y] of
      the program): the layout only halves integers, so every value it
      computes is an integer number of halves. *)

From Stdlib Require Import ZArith Lia Ascii.
From stdpp Require Import base option list gmap sets strings sorting pretty.

Local Open Scope Z_scope.
Local Open Scope nat_scope.

(** ** JavaScript string primitives *)

Definition charCode (c : Ascii.ascii) : Z := Z.of_N (Ascii.N_of_ascii c).

(** [s.startsWith(p)] *)
Definition startsWith (s p : string) : bool := String.prefix p s.

(** [s.slice(n)] for a non-negative [n] *)
Fixpoint slice (n : nat) (s : string) : string :=
  match n, s with
  | O, _ => s
  | S n', String _ s' => slice n' s'
  | S _, EmptyString => EmptyString
  end.

(** [s.includes(q)] *)
Fixpoint includes (s q : string) : bool :=
  String.prefix q s ||
  match s with
  | EmptyString => false
  | String _ s' => includes s' q
  end.

Definition isUpper (n : N) : bool :=
  ((65 <=? n) && (n <=? 90) || (192 <=? n) && (n <=? 222) && negb (n =? 215))%N.

Definition lowerChar (c : Ascii.ascii) : Ascii.ascii :=
  let n := Ascii.N_of_ascii c in
  if isUpper n then Ascii.ascii_of_N (n + 32) else c.

(** [s.toLowerCase()] *)
Fixpoint toLowerCase (s : string) : string :=
  match s with
  | EmptyString => EmptyString
  | String c s' => String (lowerChar c) (toLowerCase s')
  end.

(** White space and line terminators removed by [trim]: TAB, LF, VT, FF,
    CR, SP and NBSP. *)
Definition isWhiteSpace (c : Ascii.ascii) : bool :=
  let n := Ascii.N_of_ascii c in
  ((9 <=? n) && (n <=? 13) || (n =? 32) || (n =? 160))%N.

Fixpoint trimStart (s : string) : string :=
  match s with
  | EmptyString => EmptyString
  | String c s' => if isWhiteSpace c then trimStart s' else s
  end.

Fixpoint trimEnd (s : string) : string :=
  match s with
  | EmptyString => EmptyString
  | String c s' =>
      let t := trimEnd s' in
      if isWhiteSpace c && bool_decide (t = EmptyString) then EmptyString
      else String c t
  end.

(** [s.trim()] *)
Definition trim (s : string) : string := trimEnd (trimStart s).

(** Truthiness of a string: [!s] is [negb (truthy s)]. *)
Definition truthy (s : string) : bool := negb (bool_decide (s = EmptyString)).

(** [s || d] *)
Definition orElse (s d : string) : string := if truthy s then s else d.

(** [Array.prototype.sort]: the stable sorted permutation, here by
    insertion.  [le a b] holds when the comparator does not put [b]
    before [a]. *)
Section JsSort.
Context {A : Type} (le : A → A → bool).

Fixpoint insertSorted (x : A) (l : list A) : list A :=
  match l with
  | [] => [x]
  | y :: l' => if le x y then x :: y :: l' else y :: insertSorted x l'
  end.

Definition jsSortBy (l : list A) : list A := foldr insertSorted [] l.
End JsSort.

(** [list.sort()] on strings: code unit order. *)
Definition jsSort : list string → list string := jsSortBy String.leb.

(** [Array.from(set).sort()] *)
Definition sortedElements (s : gset string) : list string := jsSort (elements s).

(** ** The graph snapshot *)

Definition ROOT_KEY : string := "__root__".

Record Module := mkModule {
  parent : string;
  children : list string;
  description : string;
}.

Module Ref.
Record t := mk {
  type : string;
  name : string;
  group : string;
  optional : bool;
}.
End Ref.

Module Obj.
Record t := mk {
  id : string;
  type : string;
  name : string;
  group : string;
  modulePath : string;
  providedBy : list string;
  consumedBy : list string;
  (** [Some b] when [typeof obj.exported === "boolean"] *)
  exported : option bool;
  (** [Some b] when [typeof obj.Exported === "boolean"] *)
  Exported : option bool;
}.
End Obj.

Module Ctor.
Record t := mk {
  modulePath : string;
  inputs : list Ref.t;
  (** truthiness of [ctor.exported] and of [ctor.Exported] *)
  exported : bool;
  Exported : bool;
}.
End Ctor.

Module Invoker.
Record t := mk {
  modulePath : string;
  inputs : list Ref.t;
}.
End Invoker.

Module Decorator.
Record t := mk {
  modulePath : string;
  inputs : list Ref.t;
  (** truthiness of [decor.exported], which the program never reads *)
  exported : bool;
}.
End Decorator.

Record Edge := mkEdge {
  from : string;
  to : string;
  kind : string;
}.

(** The snapshot.  [None] is a table that the snapshot lacks. *)
Record Graph := mkGraph {
  modules : gmap string Module;
  objectsTable : option (list (string * Obj.t));
  constructorsTable : option (gmap string Ctor.t);
  invokersTable : option (gmap string Invoker.t);
  decoratorsTable : option (gmap string Decorator.t);
  edges : list Edge;
}.

(** [state.graph.objects || {}] and the like: the own properties of a
    table, none for a missing one. *)
Definition objects (g : Graph) : list (string * Obj.t) := default [] (objectsTable g).
Definition constructors (g : Graph) : gmap string Ctor.t := default ∅ (constructorsTable g).
Definition decorators (g : Graph) : gmap string Decorator.t :=
  default ∅ (decoratorsTable g).

(** ** Reads of a plain object *)

(** The names that every plain object answers without having them: the
    members of [Object.prototype]. *)
Definition prototypeMembers : list string :=
  ["constructor"; "hasOwnProperty"; "isPrototypeOf"; "propertyIsEnumerable";
   "toLocaleString"; "toString"; "valueOf"; "__proto__";
   "__defineGetter__"; "__defineSetter__"; "__lookupGetter__"; "__lookupSetter__"].

Definition inherited (key : string) : bool := bool_decide (key ∈ prototypeMembers).

(** What the read [obj[key]] gives: a property of the object itself, a
    member inherited from the prototype (a function, or the prototype
    itself under [__proto__]: truthy, and [undefined] in every field
    that the program reads from an entry of the snapshot, its [name]
    apart), or [undefined]. *)
Inductive Member (A : Type) : Type :=
  | Own (a : A)
  | Inherited
  | Absent.
Global Arguments Own {_} _.
Global Arguments Inherited {_}.
Global Arguments Absent {_}.

Definition member {A : Type} (obj : gmap string A) (key : string) : Member A :=
  match obj !! key with
  | Some a => Own a
  | None => if inherited key then Inherited else Absent
  end.

(** [table && table[key]] *)
Definition memberOf {A : Type} (table : option (gmap string A)) (key : string) : Member A :=
  match table with
  | Some obj => member obj key
  | None => Absent
  end.

(** The [name] of the inherited member under [key]: a function carries
    its name ([Object] under [constructor]), the prototype has none. *)
Definition memberName (key : string) : string :=
  if bool_decide (key = "constructor") then "Object"
  else if bool_decide (key = "__proto__") then EmptyString
  else key.

(** [state.graph.objects && state.graph.objects[id]] *)
Definition objectAt (g : Graph) (id : string) : Member Obj.t :=
  memberOf (list_to_map <$> objectsTable g) id.

(** [state.graph.modules[path]?.parent || ""]: an inherited member has
    no [parent] *)
Definition parentOf (g : Graph) (path : string) : string :=
  from_option parent EmptyString (modules g !! path).

(** [(state.graph.modules[path]?.children || []).slice()]: an inherited
    member has no [children] *)
Definition childrenOf (g : Graph) (path : string) : list string :=
  from_option children [] (modules g !! path).

(** [!!state.graph.modules[path]] *)
Definition isModule (g : Graph) (path : string) : bool :=
  match member (modules g) path with
  | Own _ | Inherited => true
  | Absent => false
  end.

(** ** Labels and signatures *)

(** What [formatObject] reads: graph objects and input references both
    carry [type], [name] and [group]. *)
Class Described (A : Type) := {
  typeOf : A → string;
  nameOf : A → string;
  groupOf : A → string;
}.

Global Instance Obj_described : Described Obj.t :=
  {| typeOf := Obj.type; nameOf := Obj.name; groupOf := Obj.group |}.
Global Instance Ref_described : Described Ref.t :=
  {| typeOf := Ref.type; nameOf := Ref.name; groupOf := Ref.group |}.

(** The inherited member found under a key, as [formatObject] reads it:
    no [type], no [group], the [name] of the member. *)
Record InheritedMember := mkInherited { memberKey : string }.
Global Instance Inherited_described : Described InheritedMember :=
  {| typeOf := λ _, EmptyString;
     nameOf := λ m, memberName (memberKey m);
     groupOf := λ _, EmptyString |}.

Definition namePart (name : string) : string :=
  if truthy name then " (name=" +:+ name +:+ ")" else EmptyString.
Definition groupPart (group : string) : string :=
  if truthy group then " [group=" +:+ group +:+ "]" else EmptyString.

Definition formatObject `{Described A} (obj : A) : string :=
  let label := orElse (typeOf obj) "unknown" in
  let label := label +:+ namePart (nameOf obj) in
  let label := label +:+ groupPart (groupOf obj) in
  label.

Definition objectSignature (type name group : string) : string :=
  orElse type EmptyString +:+ "|" +:+ orElse name EmptyString +:+ "|" +:+ orElse group EmptyString.

Definition signatureForRef (ref : Ref.t) : string :=
  let type := orElse (Ref.type ref) EmptyString in
  let type :=
    if truthy (Ref.group ref) && startsWith type "[]" then slice 2 type
    else type in
  objectSignature type (Ref.name ref) (Ref.group ref).

(** ** Object index *)

Definition isPrivateObject (g : Graph) (obj : Obj.t) : bool :=
  let exportedValue :=
    match Obj.exported obj with
    | Some b => Some b
    | None => match Obj.Exported obj with
              | Some b => Some b
              | None => None
              end
    end in
  match exportedValue with
  | Some e => negb e
  | None =>
      if bool_decide (length (Obj.providedBy obj) = 0) then false
      else
        let '(hasCtor, hasExported) :=
          foldl (λ '(hasCtor, hasExported) providerId,
                   match memberOf (constructorsTable g) providerId with
                   | Own ctor =>
                       (true,
                        if Ctor.exported ctor || Ctor.Exported ctor
                        then true else hasExported)
                   | Inherited => (true, hasExported)
                   | Absent => (hasCtor, hasExported)
                   end)
                (false, false) (Obj.providedBy obj) in
        hasCtor && negb hasExported
  end.

(** The module a provider id stands for in [providerModulesForObject]. *)
Definition providerModule (g : Graph) (providerId : string) : string :=
  match memberOf (constructorsTable g) providerId with
  | Own ctor => orElse (Ctor.modulePath ctor) EmptyString
  | Inherited => EmptyString
  | Absent =>
      match memberOf (decoratorsTable g) providerId with
      | Own decor => orElse (Decorator.modulePath decor) EmptyString
      | Inherited | Absent => EmptyString
      end
  end.

Definition providerModulesForObject (g : Graph) (obj : Obj.t) : list string :=
  let providers :=
    foldl (λ (providers : gset string) providerId,
             let modulePath := providerModule g providerId in
             if truthy modulePath && isModule g modulePath
             then providers ∪ {[modulePath]} else providers)
          ∅ (Obj.providedBy obj) in
  sortedElements providers.

Module Entry.
Record t := mk {
  id : string;
  type : string;
  name : string;
  group : string;
  label : string;
  providers : list string;
  isPrivate : bool;
}.
End Entry.

Module SearchEntry.
Record t := mk {
  label : string;
  modulePath : string;
  signature : string;
  searchKey : string;
  isPrivate : bool;
}.
End SearchEntry.

Record ObjectIndex := mkObjectIndex {
  objectIndex : list Entry.t;
  objectRefIndex : gmap string (list Entry.t);
  searchEntries : list SearchEntry.t;
}.

Section ObjectIndex.
(** [a.localeCompare(b)]: the collation of the host, only its sign is
    used. *)
Variable localeCompare : string → string → Z.

Definition searchEntryLe (a b : SearchEntry.t) : bool :=
  let label := localeCompare (SearchEntry.label a) (SearchEntry.label b) in
  let result :=
    if bool_decide (label ≠ 0%Z) then label
    else localeCompare (SearchEntry.modulePath a) (SearchEntry.modulePath b) in
  bool_decide (result ≤ 0)%Z.

(** One turn of the [forEach] over [Object.values(state.graph.objects)]. *)
Definition indexObject (g : Graph) (idx : ObjectIndex) (obj : Obj.t) : ObjectIndex :=
  let label := formatObject obj in
  let providers := providerModulesForObject g obj in
  if bool_decide (length providers = 0) then idx
  else
    let entry :=
      {| Entry.id := Obj.id obj;
         Entry.type := Obj.type obj;
         Entry.name := orElse (Obj.name obj) EmptyString;
         Entry.group := orElse (Obj.group obj) EmptyString;
         Entry.label := label;
         Entry.providers := providers;
         Entry.isPrivate := isPrivateObject g obj |} in
    let signature := objectSignature (Obj.type obj) (Obj.name obj) (Obj.group obj) in
    {| objectIndex := objectIndex idx ++ [entry];
       objectRefIndex :=
         <[signature := default [] (objectRefIndex idx !! signature) ++ [entry]]>
           (objectRefIndex idx);
       searchEntries :=
         searchEntries idx ++
         map (λ modulePath,
                {| SearchEntry.label := label;
                   SearchEntry.modulePath := modulePath;
                   SearchEntry.signature := signature;
                   SearchEntry.searchKey := toLowerCase label;
                   SearchEntry.isPrivate := isPrivateObject g obj |})
             providers |}.

Definition buildObjectIndex (g : Graph) : ObjectIndex :=
  let idx := foldl (indexObject g) (mkObjectIndex [] ∅ []) (objects g).*2 in
  {| objectIndex := objectIndex idx;
     objectRefIndex := objectRefIndex idx;
     searchEntries := jsSortBy searchEntryLe (searchEntries idx) |}.
End ObjectIndex.

(** ** Search *)

Record ResultRow := mkRow {
  rowTitle : string;
  rowModule : string;
  rowPrivate : bool;
}.

(** What [renderSearchResults] leaves in the results element. *)
Inductive SearchView :=
  | TypeToSearch
  | NoMatches
  | Results (rows : list ResultRow) (more : option nat).

Definition resultRow (entry : SearchEntry.t) : ResultRow :=
  {| rowTitle := SearchEntry.label entry;
     rowModule := SearchEntry.modulePath entry;
     rowPrivate := SearchEntry.isPrivate entry |}.

Definition searchMatches (entries : list SearchEntry.t) (q : string) : list SearchEntry.t :=
  filter (λ entry, includes (SearchEntry.searchKey entry) q = true) entries.

Definition renderSearchResults (entries : list SearchEntry.t) (query : string) : SearchView :=
  let q := toLowerCase (trim (orElse query EmptyString)) in
  if negb (truthy q) then TypeToSearch
  else
    let matches := searchMatches entries q in
    if bool_decide (length matches = 0) then NoMatches
    else
      Results (map resultRow (take 50 matches))
              (if bool_decide (50 < length matches) then Some (length matches)
               else None).

(** ** Loops that may not return *)

(** [list.forEach] with a body that can fail to return: the state is
    threaded from left to right. *)
Fixpoint forEachM {A S : Type} (body : S → A → option S) (l : list A) (s : S) : option S :=
  match l with
  | [] => Some s
  | a :: l' => s' ← body s a; forEachM body l' s'
  end.

(** ** Tree layout *)

Record Pos := mkPos {
  x : Z;
  (** twice the [y] of the program *)
  y2 : Z;
}.

Module Layout.
Record t := mk {
  positions : gmap string Pos;
  edges : list (string * string);
}.
End Layout.

(** The part of the global [state] that layout and aggregation use.
    [nodes] maps a module path to [mesh.visible] of its node (the node id
    is the path behind the prefix [module:]). *)
Module State.
Record t := mk {
  graph : Graph;
  nodes : gmap string bool;
  edges : list (string * string);
  moduleDeps : gmap string (gset string);
  moduleDepObjects : gmap string (gmap string (gset string));
  expandedModules : gset string;
  moduleOrder : list string;
}.
End State.

(** [Object.keys(state.graph.modules)] followed by [sort()] *)
Definition sortedModules (g : Graph) : list string :=
  jsSort (map_to_list (modules g)).*1.

Definition isRootModule (g : Graph) (path : string) : bool :=
  let parent := parentOf g path in
  bool_decide (parent = EmptyString) || negb (isModule g parent).

Definition layoutRoots (st : State.t) : list string :=
  jsSort (filter (λ path, isRootModule (State.graph st) path = true) (State.moduleOrder st)).

Fixpoint countVisible (g : Graph) (expanded : gset string) (fuel : nat)
    (modulePath : string) : option nat :=
  match fuel with
  | O => None
  | S fuel' =>
      let count := 1 in
      if bool_decide (modulePath ∉ expanded) then Some count
      else
        let children := jsSort (childrenOf g modulePath) in
        forEachM (λ count child,
                    n ← countVisible g expanded fuel' child; Some (count + n))
                 children count
  end.

(** [sizes.reduce((sum, val) => sum + val, 0)] *)
Definition sumSizes (sizes : list nat) : nat := foldl (λ sum val, sum + val) 0 sizes.

(** The body of the [forEach] that stacks the children (or the roots)
    below [from], for a recursive call [placeChild]. *)
Definition stackChild (placeChild : string → Z → Layout.t → option Layout.t)
    (from : string) (acc : Layout.t * Z) (item : string * nat) : option (Layout.t * Z) :=
  let '(layout, cursor) := acc in
  let '(child, childSize) := item in
  let childCenter := (cursor + Z.of_nat childSize)%Z in
  let layout :=
    Layout.mk (Layout.positions layout) (Layout.edges layout ++ [(from, child)]) in
  layout ← placeChild child childCenter layout;
  Some (layout, (cursor + 2 * Z.of_nat childSize)%Z).

Fixpoint place (g : Graph) (expanded : gset string) (fuel : nat)
    (modulePath : string) (depth : Z) (centerY : Z) (layout : Layout.t) : option Layout.t :=
  match fuel with
  | O => None
  | S fuel' =>
      let layout :=
        Layout.mk (<[modulePath := mkPos depth centerY]> (Layout.positions layout))
                  (Layout.edges layout) in
      if bool_decide (modulePath ∉ expanded) then Some layout
      else
        let children := jsSort (childrenOf g modulePath) in
        sizes ← mapM (countVisible g expanded fuel') children;
        let total := sumSizes sizes in
        let cursor := (centerY - Z.of_nat total)%Z in
        r ← forEachM
              (stackChild (λ child, place g expanded fuel' child (depth + 1)%Z) modulePath)
              (zip children sizes) (layout, cursor);
        Some r.1
  end.

Definition layoutTree (st : State.t) (fuel : nat) : option Layout.t :=
  let g := State.graph st in
  let expanded := State.expandedModules st in
  let roots := layoutRoots st in
  let layout := Layout.mk {[ ROOT_KEY := mkPos 0 0 ]} [] in
  rootSizes ← mapM (countVisible g expanded fuel) roots;
  let totalRoots := sumSizes rootSizes in
  let cursor := (- Z.of_nat totalRoots)%Z in
  r ← forEachM (stackChild (λ root, place g expanded fuel root 1%Z) ROOT_KEY)
        (zip roots rootSizes) (layout, cursor);
  Some r.1.

(** [collectModuleSubtree]: the module and everything below it. *)
Fixpoint walkSubtree (g : Graph) (fuel : nat) (modules : gset string)
    (path : string) : option (gset string) :=
  match fuel with
  | O => None
  | S fuel' =>
      forEachM (walkSubtree g fuel') (childrenOf g path) (modules ∪ {[path]})
  end.

Definition collectModuleSubtree (g : Graph) (fuel : nat) (modulePath : string)
    : option (gset string) :=
  if negb (truthy modulePath) then Some ∅ else walkSubtree g fuel ∅ modulePath.

(** ** Nodes and their visibility *)

Definition buildNodes (st : State.t) : State.t :=
  let modules := sortedModules (State.graph st) in
  let nodes := foldl (λ nodes path, <[path := true]> nodes) {[ ROOT_KEY := true ]} modules in
  State.mk (State.graph st) nodes (State.edges st) (State.moduleDeps st)
           (State.moduleDepObjects st) (State.expandedModules st) modules.

(** [applyLayout] up to the call of [rebuildEdges]: first every node
    with a position is shown, then every node not shown in this pass is
    hidden. *)
Definition applyLayout (layout : Layout.t) (st : State.t) : State.t :=
  let visible := filter (λ path, is_Some (State.nodes st !! path))
                        (dom (Layout.positions layout)) in
  let shown := map_imap (λ path flag,
                 Some (if bool_decide (is_Some (Layout.positions layout !! path))
                       then true else flag)) (State.nodes st) in
  let nodes := map_imap (λ path flag,
                 Some (if bool_decide (path ∉ visible) then false else flag)) shown in
  State.mk (State.graph st) nodes (Layout.edges layout) (State.moduleDeps st)
           (State.moduleDepObjects st) (State.expandedModules st) (State.moduleOrder st).

(** ** Module dependencies: the pre-pass *)

Definition moduleForNodeId (g : Graph) (id : string) : string :=
  if negb (truthy id) then EmptyString
  else if startsWith id "module:" then slice (String.length "module:") id
  else match memberOf (constructorsTable g) id with
  | Own ctor => orElse (Ctor.modulePath ctor) EmptyString
  | Inherited => EmptyString
  | Absent =>
  match memberOf (invokersTable g) id with
  | Own inv => orElse (Invoker.modulePath inv) EmptyString
  | Inherited => EmptyString
  | Absent =>
  match memberOf (decoratorsTable g) id with
  | Own decor => orElse (Decorator.modulePath decor) EmptyString
  | Inherited => EmptyString
  | Absent =>
  match objectAt g id with
  | Own obj => orElse (Obj.modulePath obj) EmptyString
  | Inherited | Absent => EmptyString
  end end end end.

(** One turn of the [forEach] over [state.graph.edges].  The read
    [state.moduleDeps.get(toModule)] finds no set when [toModule] is not
    a key of the module map; the call of [add] on it throws, and the
    run does not return. *)
Definition addModuleDep (g : Graph)
    (acc : gmap string (gset string) * gmap string (gmap string (gset string)))
    (edge : Edge)
    : option (gmap string (gset string) * gmap string (gmap string (gset string))) :=
  let '(moduleDeps, moduleDepObjects) := acc in
  if bool_decide (kind edge ≠ "depends") && bool_decide (kind edge ≠ "invokes")
  then Some acc
  else
    let fromModule := moduleForNodeId g (from edge) in
    let toModule := moduleForNodeId g (to edge) in
    if negb (truthy fromModule) || negb (truthy toModule)
       || bool_decide (fromModule = toModule) then Some acc
    else if negb (isModule g fromModule) || negb (isModule g toModule) then Some acc
    else
      match moduleDeps !! toModule with
      | None => None
      | Some deps =>
          let moduleDeps := <[toModule := deps ∪ {[fromModule]}]> moduleDeps in
          let providerMap := default ∅ (moduleDepObjects !! toModule) in
          let labels := default ∅ (providerMap !! fromModule) in
          let labels :=
            match objectAt g (from edge) with
            | Own obj => labels ∪ {[formatObject obj]}
            | Inherited => labels ∪ {[formatObject (mkInherited (from edge))]}
            | Absent => labels
            end in
          Some (moduleDeps,
                <[toModule := <[fromModule := labels]> providerMap]> moduleDepObjects)
      end.

Definition buildModuleDeps (st : State.t) : option State.t :=
  let g := State.graph st in
  let moduleDeps : gmap string (gset string) := (λ _, ∅) <$> modules g in
  '(moduleDeps, moduleDepObjects) ← forEachM (addModuleDep g) (edges g) (moduleDeps, ∅);
  Some (State.mk g (State.nodes st) (State.edges st) moduleDeps moduleDepObjects
                 (State.expandedModules st) (State.moduleOrder st)).

(** The state after [bootstrap] has run [buildModuleDeps] and
    [buildNodes] on the fetched graph, with a given expansion set. *)
Definition bootstrap (g : Graph) (expanded : gset string) : option State.t :=
  buildNodes <$> buildModuleDeps (State.mk g ∅ [] ∅ ∅ expanded []).

(** ** Visibility resolver *)

(** [node && node.mesh.visible] for the node of [path] *)
Definition nodeVisible (st : State.t) (path : string) : bool :=
  default false (State.nodes st !! path).

(** The [while (current)] loop of [resolveVisible]; its result is what
    gets cached and returned. *)
Fixpoint walkVisible (st : State.t) (fuel : nat) (current : string) : option string :=
  match fuel with
  | O => None
  | S fuel' =>
      if negb (truthy current) then Some ROOT_KEY
      else if nodeVisible st current then Some current
      else
        let parent := parentOf (State.graph st) current in
        if negb (truthy parent) || bool_decide (parent = current) then Some ROOT_KEY
        else walkVisible st fuel' parent
  end.

(** Computations that read and fill [visibleCache]. *)
Definition Cached (A : Type) : Type :=
  gmap string string → option (A * gmap string string).

Global Instance Cached_ret : MRet Cached := λ A a cache, Some (a, cache).
Global Instance Cached_bind : MBind Cached := λ A B f m cache,
  match m cache with
  | Some (a, cache') => f a cache'
  | None => None
  end.

Fixpoint forEachC {A S : Type} (body : S → A → Cached S) (l : list A) (s : S) : Cached S :=
  match l with
  | [] => mret s
  | a :: l' => s' ← body s a; forEachC body l' s'
  end.

Definition resolveVisible (st : State.t) (fuel : nat) (modulePath : string) : Cached string :=
  λ visibleCache,
    if negb (truthy modulePath) || bool_decide (modulePath = ROOT_KEY)
    then Some (ROOT_KEY, visibleCache)
    else match visibleCache !! modulePath with
    | Some cached => Some (cached, visibleCache)
    | None =>
        resolved ← walkVisible st fuel modulePath;
        Some (resolved, <[modulePath := resolved]> visibleCache)
    end.

(** ** Dependency aggregation *)

Definition edgeKey (fromVisible toVisible : string) : string :=
  fromVisible +:+ "->" +:+ toVisible.

Module Visible.
Record t := mk {
  deps : gmap string (gset string);
  objects : gmap string (list string);
}.
End Visible.

Definition skipEndpoint (visible : string) : bool :=
  negb (truthy visible) || bool_decide (visible = ROOT_KEY).

(** [visibleDeps.get(fromVisible).add(toVisible)], the set being created
    when missing. *)
Definition addVisibleDep (fromVisible toVisible : string)
    (visibleDeps : gmap string (gset string)) : gmap string (gset string) :=
  <[fromVisible := default ∅ (visibleDeps !! fromVisible) ∪ {[toVisible]}]> visibleDeps.

(** Body of [providers.forEach((objects, provider) => ...)]. *)
Definition visitProvider (st : State.t) (fuel : nat) (fromVisible : string)
    (acc : gmap string (gset string) * gmap string (gset string))
    (item : string * gset string)
    : Cached (gmap string (gset string) * gmap string (gset string)) :=
  let '(visibleDeps, objectsByEdge) := acc in
  let '(provider, objects) := item in
  toVisible ← resolveVisible st fuel provider;
  if skipEndpoint toVisible || bool_decide (toVisible = fromVisible) then mret acc
  else
    let visibleDeps := addVisibleDep fromVisible toVisible visibleDeps in
    let edgeKey := edgeKey fromVisible toVisible in
    let labels := default ∅ (objectsByEdge !! edgeKey) in
    mret (visibleDeps, <[edgeKey := labels ∪ objects]> objectsByEdge).

(** Body of [state.moduleDepObjects.forEach((providers, consumer) => ...)];
    [providers] lists the entries of the inner map in the order visited. *)
Definition visitConsumer (st : State.t) (fuel : nat)
    (acc : gmap string (gset string) * gmap string (gset string))
    (item : string * list (string * gset string))
    : Cached (gmap string (gset string) * gmap string (gset string)) :=
  let '(consumer, providers) := item in
  fromVisible ← resolveVisible st fuel consumer;
  if skipEndpoint fromVisible then mret acc
  else forEachC (visitProvider st fuel fromVisible) providers acc.

(** Bodies of the coarser pass over [state.moduleDeps]. *)
Definition visitDep (st : State.t) (fuel : nat) (fromVisible : string)
    (visibleDeps : gmap string (gset string)) (dep : string)
    : Cached (gmap string (gset string)) :=
  toVisible ← resolveVisible st fuel dep;
  if skipEndpoint toVisible || bool_decide (toVisible = fromVisible) then mret visibleDeps
  else mret (addVisibleDep fromVisible toVisible visibleDeps).

Definition visitModule (st : State.t) (fuel : nat)
    (visibleDeps : gmap string (gset string)) (item : string * list string)
    : Cached (gmap string (gset string)) :=
  let '(modulePath, deps) := item in
  fromVisible ← resolveVisible st fuel modulePath;
  if skipEndpoint fromVisible then mret visibleDeps
  else forEachC (visitDep st fuel fromVisible) deps visibleDeps.

(** [buildVisibleModuleDeps] for a given order of visit of the entries of
    [state.moduleDepObjects] ([consumers]) and of [state.moduleDeps]
    ([dependents]). *)
Definition aggregate (st : State.t) (fuel : nat)
    (consumers : list (string * list (string * gset string)))
    (dependents : list (string * list string)) : option Visible.t :=
  let run : Cached Visible.t :=
    acc ← forEachC (visitConsumer st fuel) consumers (∅, ∅);
    let '(visibleDeps, objectsByEdge) := acc in
    visibleDeps ←
      (if bool_decide (size visibleDeps = 0)
       then forEachC (visitModule st fuel) dependents visibleDeps
       else mret visibleDeps);
    mret (Visible.mk visibleDeps (sortedElements <$> objectsByEdge)) in
  fst <$> run ∅.

(** The entries of the two maps of the pre-pass.  A [Map] is visited in
    insertion order and a [gmap] has an order of its own; the result of
    [aggregate] is the same for every order (see
    [aggregate_order_irrelevant]). *)
Definition consumerEntries (st : State.t) : list (string * list (string * gset string)) :=
  (λ '(consumer, providers), (consumer, map_to_list providers))
    <$> map_to_list (State.moduleDepObjects st).

Definition dependentEntries (st : State.t) : list (string * list string) :=
  (λ '(modulePath, deps), (modulePath, elements deps))
    <$> map_to_list (State.moduleDeps st).

Definition buildVisibleModuleDeps (st : State.t) (fuel : nat) : option Visible.t :=
  aggregate st fuel (consumerEntries st) (dependentEntries st).

(** [updateGraph] as far as the dependency edges: [layoutTree], then
    [applyLayout], whose [rebuildEdges] calls [buildVisibleModuleDeps]. *)
Definition updateGraph (st : State.t) (fuel : nat) : option (State.t * Visible.t) :=
  layout ← layoutTree st fuel;
  let st := applyLayout layout st in
  visible ← buildVisibleModuleDeps st fuel;
  Some (st, visible).

(** [curveBias]: the sign of the bend of a dependency edge.  [%] is the
    remainder of the truncated division. *)
Definition keyHash (key : string) : Z :=
  foldl (λ hash c, Z.rem (hash * 31 + charCode c) 97) 0%Z (String.list_ascii_of_string key).

Definition curveBias (key : string) : Z :=
  let hash := keyHash key in
  if bool_decide (Z.rem hash 2 = 0%Z) then 1%Z else (-1)%Z.

(** ** View history *)

Module Snapshot.
Record t (Camera : Type) := mk {
  selectedId : option string;
  expandedModules : list string;
  camera : Camera;
}.
Global Arguments mk {_} _ _ _.
Global Arguments selectedId {_} _.
Global Arguments expandedModules {_} _.
Global Arguments camera {_} _.
End Snapshot.

(** The part of the global state that the history reads and writes.
    [camera] stands for the position and zoom of the camera, three
    numbers that are only copied.  [navBackDisabled] is the [disabled]
    flag of the back button, [None] when the page has no such button. *)
Module View.
Record t (Camera : Type) := mk {
  selectedId : option string;
  expandedModules : gset string;
  camera : Camera;
  history : list (Snapshot.t Camera);
  historyLocked : bool;
  navBackDisabled : option bool;
}.
Global Arguments mk {_} _ _ _ _ _ _.
Global Arguments selectedId {_} _.
Global Arguments expandedModules {_} _.
Global Arguments camera {_} _.
Global Arguments history {_} _.
Global Arguments historyLocked {_} _.
Global Arguments navBackDisabled {_} _.
End View.

Section History.
Context {Camera : Type}.

Definition captureViewState (v : View.t Camera) : Snapshot.t Camera :=
  {| Snapshot.selectedId := View.selectedId v;
     Snapshot.expandedModules := elements (View.expandedModules v);
     Snapshot.camera := View.camera v |}.

Definition updateBackButton (v : View.t Camera) : View.t Camera :=
  match View.navBackDisabled v with
  | None => v
  | Some _ =>
      View.mk (View.selectedId v) (View.expandedModules v) (View.camera v)
              (View.history v) (View.historyLocked v)
              (Some (bool_decide (length (View.history v) = 0)))
  end.

Definition setHistory (history : list (Snapshot.t Camera)) (v : View.t Camera)
    : View.t Camera :=
  View.mk (View.selectedId v) (View.expandedModules v) (View.camera v)
          history (View.historyLocked v) (View.navBackDisabled v).

Definition pushHistory (v : View.t Camera) : View.t Camera :=
  if View.historyLocked v then v
  else
    let snapshot := captureViewState v in
    match last (View.history v) with
    | Some lastEntry =>
        if bool_decide (Snapshot.selectedId lastEntry = Snapshot.selectedId snapshot)
        then v
        else updateBackButton (setHistory (View.history v ++ [snapshot]) v)
    | None => updateBackButton (setHistory (View.history v ++ [snapshot]) v)
    end.

Definition popHistory (v : View.t Camera) : option (Snapshot.t Camera) * View.t Camera :=
  if bool_decide (length (View.history v) = 0) then (None, v)
  else
    match last (View.history v) with
    | Some snapshot =>
        (Some snapshot,
         updateBackButton (setHistory (removelast (View.history v)) v))
    | None => (None, v)
    end.
End History.

(** ** Vocabulary of the statements *)

(** [typeof obj.exported === "boolean" ? obj.exported : typeof
    obj.Exported === "boolean" ? obj.Exported : null] *)
Definition explicitExported (obj : Obj.t) : option bool :=
  match Obj.exported obj with
  | Some b => Some b
  | None => Obj.Exported obj
  end.

(** A provider id names a constructor, exported or not. *)
Definition ctorProvider (g : Graph) (providerId : string) : Prop :=
  is_Some (constructors g !! providerId).
Definition exportedProvider (g : Graph) (providerId : string) : Prop :=
  ∃ ctor, constructors g !! providerId = Some ctor
          ∧ Ctor.exported ctor || Ctor.Exported ctor = true.

(** A provider marked exported in the words of the specification, which
    gives the mark to constructors and decorators alike: the entry that
    the provider id names, a constructor or a decorator, has it. *)
Definition markedExported (g : Graph) (providerId : string) : Prop :=
  exportedProvider g providerId
  ∨ ∃ decor, decorators g !! providerId = Some decor ∧ Decorator.exported decor = true.

(** No provider id of the object is answered by the constructor table
    with an inherited member. *)
Definition ownProviders (g : Graph) (obj : Obj.t) : Prop :=
  ∀ providerId, providerId ∈ Obj.providedBy obj →
                memberOf (constructorsTable g) providerId ≠ Inherited.

(** The snapshot with another list of objects. *)
Definition withObjects (g : Graph) (objs : list (string * Obj.t)) : Graph :=
  mkGraph (modules g) (Some objs) (constructorsTable g) (invokersTable g)
          (decoratorsTable g) (edges g).

(** The snapshot without the objects that have no resolvable provider
    module. *)
Definition withoutUnresolved (g : Graph) : Graph :=
  withObjects g (filter (λ kv, providerModulesForObject g kv.2 ≠ []) (objects g)).

(** A provider id resolves to the module [m] in the words of the
    specification: it names a known constructor, or else a known
    decorator, whose module path is [m], non-empty and a key of the
    module map. *)
Definition resolvesTo (g : Graph) (providerId m : string) : Prop :=
  m ≠ EmptyString ∧ is_Some (modules g !! m) ∧
  ((∃ ctor, constructors g !! providerId = Some ctor ∧ Ctor.modulePath ctor = m)
   ∨ (constructors g !! providerId = None
      ∧ ∃ decor, decorators g !! providerId = Some decor
                 ∧ Decorator.modulePath decor = m)).

(** What makes [providerModulesForObject] add [m] for a provider id: the
    module path read for the id is [m], non-empty, and passes the module
    test of the program. *)
Definition providerOf (g : Graph) (providerId m : string) : Prop :=
  providerModule g providerId = m ∧ m ≠ EmptyString ∧ isModule g m = true.

(** The entry and the search entries that [indexObject] makes of an
    object. *)
Definition entryOf (g : Graph) (obj : Obj.t) : Entry.t :=
  {| Entry.id := Obj.id obj;
     Entry.type := Obj.type obj;
     Entry.name := orElse (Obj.name obj) EmptyString;
     Entry.group := orElse (Obj.group obj) EmptyString;
     Entry.label := formatObject obj;
     Entry.providers := providerModulesForObject g obj;
     Entry.isPrivate := isPrivateObject g obj |}.

Definition searchEntryOf (g : Graph) (obj : Obj.t) (modulePath : string) : SearchEntry.t :=
  {| SearchEntry.label := formatObject obj;
     SearchEntry.modulePath := modulePath;
     SearchEntry.signature :=
       objectSignature (Obj.type obj) (Obj.name obj) (Obj.group obj);
     SearchEntry.searchKey := toLowerCase (formatObject obj);
     SearchEntry.isPrivate := isPrivateObject g obj |}.

(** What every stage of the index holds: entries of resolvable objects
    only. *)
Definition indexSound (g : Graph) (idx : ObjectIndex) : Prop :=
  (∀ entry, entry ∈ objectIndex idx →
     ∃ obj, obj ∈ (objects g).*2 ∧ providerModulesForObject g obj ≠ []
            ∧ entry = entryOf g obj)
  ∧ (∀ signature entries entry,
       objectRefIndex idx !! signature = Some entries → entry ∈ entries →
       ∃ obj, obj ∈ (objects g).*2 ∧ providerModulesForObject g obj ≠ []
              ∧ entry = entryOf g obj
              ∧ signature = objectSignature (Obj.type obj) (Obj.name obj) (Obj.group obj))
  ∧ (∀ entry, entry ∈ searchEntries idx →
       ∃ obj, obj ∈ (objects g).*2
              ∧ SearchEntry.modulePath entry ∈ providerModulesForObject g obj
              ∧ entry = searchEntryOf g obj (SearchEntry.modulePath entry)).

(** Tree validity of the module map, with a witness [level] of the
    absence of cycles: every listed child is a module whose parent pointer
    names the lister, every module whose parent is a module is listed by
    it, no child is listed twice, levels grow from a module to its
    children and stay below [bound], and neither the empty path nor the
    key of the synthetic root is a module. *)
Definition TreeOk (g : Graph) (level : string → nat) (bound : nat) : Prop :=
  map_Forall (λ p m, Forall (λ c, parent <$> modules g !! c = Some p) (children m))
             (modules g)
  ∧ map_Forall (λ p m, is_Some (modules g !! parent m) → p ∈ childrenOf g (parent m))
               (modules g)
  ∧ map_Forall (λ _ m, NoDup (children m)) (modules g)
  ∧ map_Forall (λ p m, Forall (λ c, level p < level c) (children m)) (modules g)
  ∧ map_Forall (λ p _, level p < bound) (modules g)
  ∧ ¬ is_Some (modules g !! EmptyString)
  ∧ ¬ is_Some (modules g !! ROOT_KEY).

Global Instance TreeOk_dec g level bound : Decision (TreeOk g level bound).
Proof. unfold TreeOk. apply _. Defined.

(** [q] is reached from [p] by [k] steps from a module to one of its
    listed children. *)
Inductive chain (g : Graph) : nat → string → string → Prop :=
  | chain_here p : chain g 0 p p
  | chain_step k p q c : chain g k p q → c ∈ childrenOf g q → chain g (S k) p c.

(** The modules shown at and below [p], parents before children, in the
    order of [place]; cut off when the fuel is used up. *)
Fixpoint shownBelow (g : Graph) (expanded : gset string) (fuel : nat) (p : string)
    : list string :=
  match fuel with
  | O => []
  | S fuel' =>
      p :: (if bool_decide (p ∉ expanded) then []
            else jsSort (childrenOf g p) ≫= shownBelow g expanded fuel')
  end.

(** Children (or roots) stacked from [cursor] downwards, each at the
    middle of a span of its size. *)
Fixpoint stacked (placeChild : string → Z → list (string * Pos)) (size : string → nat)
    (items : list string) (cursor : Z) : list (string * Pos) :=
  match items with
  | [] => []
  | child :: items' =>
      placeChild child (cursor + Z.of_nat (size child))%Z
      ++ stacked placeChild size items' (cursor + 2 * Z.of_nat (size child))%Z
  end.

(** The writes to [positions] that [place] makes, in order. *)
Fixpoint placements (g : Graph) (expanded : gset string) (fuel : nat) (p : string)
    (depth centerY : Z) : list (string * Pos) :=
  match fuel with
  | O => []
  | S fuel' =>
      (p, mkPos depth centerY) ::
      (if bool_decide (p ∉ expanded) then []
       else
         let children := jsSort (childrenOf g p) in
         let size := λ c, length (shownBelow g expanded fuel' c) in
         let total := sum_list (size <$> children) in
         stacked (λ child, placements g expanded fuel' child (depth + 1)%Z) size
                 children (centerY - Z.of_nat total)%Z)
  end.

(** A small snapshot used to instantiate the statements: [pkg] with the
    children [pkg.a] (which has the child [pkg.a.x]) and [pkg.b]; the
    object [Service (name=X)] is provided in [pkg.a.x] and in [pkg.b] and
    consumed by a constructor of [pkg.b] and an invoker of [pkg.a]. *)
Definition demoGraph : Graph :=
  {| modules :=
       {[ "pkg" := mkModule EmptyString ["pkg.b"; "pkg.a"] "root package";
          "pkg.a" := mkModule "pkg" ["pkg.a.x"] EmptyString;
          "pkg.a.x" := mkModule "pkg.a" [] EmptyString;
          "pkg.b" := mkModule "pkg" [] EmptyString ]};
     objectsTable := Some
       [("obj:1", Obj.mk "obj:1" "Service" "X" EmptyString "pkg.a.x" ["ctor:x"] ["ctor:b"]
                         None None);
        ("obj:2", Obj.mk "obj:2" "Config" EmptyString EmptyString "pkg.b" ["ctor:b"]
                         ["inv:a"] None None);
        ("obj:3", Obj.mk "obj:3" "Orphan" EmptyString EmptyString "pkg.b" ["ctor:gone"] []
                         None None)];
     constructorsTable := Some
       {[ "ctor:x" := Ctor.mk "pkg.a.x" [] true false;
          "ctor:b" := Ctor.mk "pkg.b" [Ref.mk "Service" "X" EmptyString false] false false ]};
     invokersTable := Some
       {[ "inv:a" := Invoker.mk "pkg.a" [Ref.mk "Config" EmptyString EmptyString false] ]};
     decoratorsTable := Some ∅;
     edges :=
       [mkEdge "obj:1" "ctor:b" "depends";
        mkEdge "obj:2" "inv:a" "invokes";
        mkEdge "ctor:x" "obj:1" "provides"] |}.

Definition demoExpanded : gset string := {[ "pkg"; "pkg.a"; "pkg.a.x"; "pkg.b" ]}.

(** [positions.set] for each write in turn. *)
Definition insertAll (writes : list (string * Pos)) (positions : gmap string Pos)
    : gmap string Pos :=
  foldl (λ m kv, <[kv.1 := kv.2]> m) positions writes.

(** The writes of [layoutTree] after the one for the synthetic root. *)
Definition rootPlacements (st : State.t) (fuel : nat) : list (string * Pos) :=
  let g := State.graph st in
  let expanded := State.expandedModules st in
  let roots := layoutRoots st in
  let size := λ r, length (shownBelow g expanded fuel r) in
  stacked (λ root, placements g expanded fuel root 1%Z) size roots
          (- Z.of_nat (sum_list (size <$> roots)))%Z.

(** The state with nothing built yet. *)
Definition freshState (g : Graph) (expanded : gset string) : State.t :=
  State.mk g ∅ [] ∅ ∅ expanded [].

Definition demoState : State.t :=
  default (freshState demoGraph ∅) (bootstrap demoGraph {[ "pkg" ]}).

(** Every cached answer is what the walk returns. *)
Definition cacheOk (st : State.t) (cache : gmap string string) : Prop :=
  ∀ k v, cache !! k = Some v → ∃ n, walkVisible st n k = Some v.

(** The stand-in that [resolveVisible] returns for a path, when the walk
    returns within the fuel. *)
Definition standIn (st : State.t) (fuel : nat) (modulePath : string) : string :=
  if negb (truthy modulePath) || bool_decide (modulePath = ROOT_KEY) then ROOT_KEY
  else default ROOT_KEY (walkVisible st fuel modulePath).

(** The visible pair that a raw (consumer, provider) pair counts for,
    unless it is discarded. *)
Definition visiblePair (st : State.t) (fuel : nat) (consumer provider : string)
    : option (string * string) :=
  let fromVisible := standIn st fuel consumer in
  let toVisible := standIn st fuel provider in
  if skipEndpoint fromVisible || skipEndpoint toVisible
     || bool_decide (toVisible = fromVisible)
  then None else Some (fromVisible, toVisible).

(** [visibleDeps.get(f)] holds [t]; [objectsByEdge.get(key)] holds a
    label. *)
Definition hasDep (visibleDeps : gmap string (gset string)) (f t : string) : Prop :=
  t ∈ default ∅ (visibleDeps !! f).
Definition hasLabel (objectsByEdge : gmap string (gset string)) (key label : string) : Prop :=
  label ∈ default ∅ (objectsByEdge !! key).

(** The raw pairs among the entries visited, with their label sets, and
    the pairs of the coarser adjacency. *)
Definition rawPair (consumers : list (string * list (string * gset string)))
    (c p : string) (labels : gset string) : Prop :=
  ∃ providers, (c, providers) ∈ consumers ∧ (p, labels) ∈ providers.
Definition rawDep (dependents : list (string * list string)) (m d : string) : Prop :=
  ∃ deps, (m, deps) ∈ dependents ∧ d ∈ deps.

(** [state.moduleDepObjects.get(c).get(p)] is the label set [labels]. *)
Definition recorded (st : State.t) (c p : string) (labels : gset string) : Prop :=
  State.moduleDepObjects st !! c ≫= (.!! p) = Some labels.

(** The two maps of the pre-pass hold the same pairs. *)
Definition prepassConsistent (st : State.t) : Prop :=
  ∀ c p, p ∈ default ∅ (State.moduleDeps st !! c)
         ↔ ∃ labels, recorded st c p labels.

(** The passes of [aggregate] with the resolver replaced by [standIn]. *)
Definition addTriple (st : State.t) (fuel : nat)
    (acc : gmap string (gset string) * gmap string (gset string))
    (item : string * string * gset string)
    : gmap string (gset string) * gmap string (gset string) :=
  let '(c, p, objects) := item in
  match visiblePair st fuel c p with
  | None => acc
  | Some (f, t) =>
      (addVisibleDep f t acc.1,
       <[edgeKey f t := default ∅ (acc.2 !! edgeKey f t) ∪ objects]> acc.2)
  end.

Definition addPair (st : State.t) (fuel : nat) (visibleDeps : gmap string (gset string))
    (item : string * string) : gmap string (gset string) :=
  match visiblePair st fuel item.1 item.2 with
  | None => visibleDeps
  | Some (f, t) => addVisibleDep f t visibleDeps
  end.

Definition triples (consumers : list (string * list (string * gset string)))
    : list (string * string * gset string) :=
  '(c, providers) ← consumers; (λ '(p, objects), (c, p, objects)) <$> providers.

Definition pairs (dependents : list (string * list string)) : list (string * string) :=
  '(m, deps) ← dependents; (λ d, (m, d)) <$> deps.

(** The edges of the result, one by one, in key order. *)
Definition visibleEdges (out : Visible.t) : list (string * string) :=
  '(f, ts) ← map_to_list (Visible.deps out); (λ t, (f, t)) <$> elements ts.

(** No key of [visibleDeps] holds an empty set. *)
Definition tidy (visibleDeps : gmap string (gset string)) : Prop :=
  ∀ f s, visibleDeps !! f = Some s → s ≠ ∅.

(** The result of [aggregate] in terms of the passes over the raw
    pairs. *)
Definition aggregated (st : State.t) (fuel : nat)
    (consumers : list (string * list (string * gset string)))
    (dependents : list (string * list string)) : Visible.t :=
  let main := foldl (addTriple st fuel) (∅, ∅) (triples consumers) in
  Visible.mk
    (if bool_decide (size main.1 = 0)
     then foldl (addPair st fuel) main.1 (pairs dependents) else main.1)
    (sortedElements <$> main.2).

(** What the pre-pass keeps true while it folds over the edges. *)
Definition prepassInv (g : Graph)
    (acc : gmap string (gset string) * gmap string (gmap string (gset string))) : Prop :=
  (∀ m, is_Some (modules g !! m) → is_Some (acc.1 !! m))
  ∧ ∀ c p, p ∈ default ∅ (acc.1 !! c) ↔ ∃ labels, acc.2 !! c ≫= (.!! p) = Some labels.

(** A snapshot in which two pairs of module paths give one edge key:
    [Cache] lives in [c] and is consumed in [a->b], [Store] lives in
    [b->c] and is consumed in [a]. *)
Definition collisionGraph : Graph :=
  {| modules :=
       {[ "a->b" := mkModule EmptyString [] EmptyString;
          "c" := mkModule EmptyString [] EmptyString;
          "a" := mkModule EmptyString [] EmptyString;
          "b->c" := mkModule EmptyString [] EmptyString ]};
     objectsTable := Some
       [("o1", Obj.mk "o1" "Cache" EmptyString EmptyString "c" [] ["k1"] None None);
        ("o2", Obj.mk "o2" "Store" EmptyString EmptyString "b->c" [] ["k2"] None None)];
     constructorsTable := Some
       {[ "k1" := Ctor.mk "a->b" [] false false;
          "k2" := Ctor.mk "a" [] false false ]};
     invokersTable := Some ∅;
     decoratorsTable := Some ∅;
     edges := [mkEdge "o1" "k1" "depends"; mkEdge "o2" "k2" "depends"] |}.

(** The state in which [applyLayout] leaves the nodes after
    [layoutTree]. *)
Definition shownState (st : State.t) (fuel : nat) : State.t :=
  applyLayout (default (Layout.mk ∅ []) (layoutTree st fuel)) st.

Definition demoShown : State.t := shownState demoState 9.
Definition collisionState : State.t :=
  default (freshState collisionGraph ∅) (bootstrap collisionGraph ∅).
Definition collisionShown : State.t := shownState collisionState 2.

(** A snapshot whose only module hangs from a name that plain objects
    inherit, and its state after [bootstrap]. *)
Definition hangingGraph : Graph :=
  {| modules := {[ "m" := mkModule "constructor" [] EmptyString ]};
     objectsTable := None;
     constructorsTable := None;
     invokersTable := None;
     decoratorsTable := None;
     edges := [] |}.

Definition hangingState : State.t :=
  default (freshState hangingGraph ∅) (bootstrap hangingGraph ∅).

(** Two states hold the same snapshot, the same pre-pass maps, the same
    expansion set and nodes for the same paths; the flags of the nodes
    and the tree edges kept from an earlier layout may differ. *)
Definition sameInputs (st1 st2 : State.t) : Prop :=
  State.graph st1 = State.graph st2
  ∧ State.moduleDeps st1 = State.moduleDeps st2
  ∧ State.moduleDepObjects st1 = State.moduleDepObjects st2
  ∧ State.expandedModules st1 = State.expandedModules st2
  ∧ State.moduleOrder st1 = State.moduleOrder st2
  ∧ dom (State.nodes st1) = dom (State.nodes st2).

(** ** Expansion of modules *)

(** The state with another expansion set. *)
Definition withExpanded (expanded : gset string) (st : State.t) : State.t :=
  State.mk (State.graph st) (State.nodes st) (State.edges st) (State.moduleDeps st)
           (State.moduleDepObjects st) expanded (State.moduleOrder st).

(** The [while (current && current !== ROOT_KEY)] loop of
    [expandModulePath]. *)
Fixpoint expandLoop (g : Graph) (fuel : nat) (current : string) (expanded : gset string)
    : option (gset string) :=
  match fuel with
  | O => None
  | S fuel' =>
      if truthy current && bool_decide (current ≠ ROOT_KEY) then
        let expanded := expanded ∪ {[current]} in
        let parent := orElse (parentOf g current) EmptyString in
        if negb (truthy parent) || bool_decide (parent = current) then Some expanded
        else expandLoop g fuel' parent expanded
      else Some expanded
  end.

Definition expandModulePath (st : State.t) (fuel : nat) (path : string) : option State.t :=
  if negb (truthy path) || bool_decide (path = ROOT_KEY) then Some st
  else
    expanded ← expandLoop (State.graph st) fuel path (State.expandedModules st);
    Some (withExpanded expanded st).

(** [focusModulePath] on the layout state: [expandModulePath], then
    [updateGraph]; an empty path changes nothing. *)
Definition focusModulePath (st : State.t) (fuel : nat) (path : string) : option State.t :=
  if negb (truthy path) then Some st
  else
    st ← expandModulePath st fuel path;
    fst <$> updateGraph st fuel.

(** [toggleModule] on the layout state. *)
Definition toggleModule (st : State.t) (fuel : nat) (path : string) : option State.t :=
  if negb (truthy path) || bool_decide (path = ROOT_KEY) then Some st
  else
    let expanded :=
      if bool_decide (path ∈ State.expandedModules st)
      then State.expandedModules st ∖ {[path]}
      else State.expandedModules st ∪ {[path]} in
    fst <$> updateGraph (withExpanded expanded st) fuel.

(** The handlers of the buttons [expand-all] and [collapse-all]. *)
Definition expandAll (st : State.t) (fuel : nat) : option State.t :=
  let expanded := foldl (λ expanded path, expanded ∪ {[path]})
                        (State.expandedModules st) (State.moduleOrder st) in
  fst <$> updateGraph (withExpanded expanded st) fuel.

Definition collapseAll (st : State.t) (fuel : nat) : option State.t :=
  fst <$> updateGraph (withExpanded ∅ st) fuel.

(** Every module on the way from [m] up to its root, [m] excluded, is
    expanded. *)
Definition ancestorsExpanded (g : Graph) (expanded : gset string) (m : string) : Prop :=
  ∀ k, 0 < k → is_Some (modules g !! Nat.iter k (parentOf g) m) →
       Nat.iter k (parentOf g) m ∈ expanded.

(** [a] is a module strictly above [m]. *)
Definition properAncestor (g : Graph) (a m : string) : Prop :=
  is_Some (modules g !! a) ∧ ∃ k, 0 < k ∧ Nat.iter k (parentOf g) m = a.

(** The parent walk from [m] comes to a module that [layoutTree] takes
    for a root: one whose parent is empty or is answered by the module
    map with nothing at all. *)
Definition rooted (g : Graph) (m : string) : Prop :=
  ∃ k, is_Some (modules g !! Nat.iter k (parentOf g) m)
       ∧ isRootModule g (Nat.iter k (parentOf g) m) = true.

(** [q] is reached from [p] through children of expanded modules. *)
Inductive openChain (g : Graph) (expanded : gset string) : string → string → Prop :=
  | openChain_here p : openChain g expanded p p
  | openChain_step p q c :
      openChain g expanded p q → q ∈ expanded → c ∈ childrenOf g q →
      openChain g expanded p c.

(** The state has a node for the synthetic root and for every module,
    and no other, and lists the modules in sorted order. *)
Definition nodesBuilt (st : State.t) : Prop :=
  (∀ m, is_Some (State.nodes st !! m) ↔ m = ROOT_KEY ∨ is_Some (modules (State.graph st) !! m))
  ∧ State.moduleOrder st = sortedModules (State.graph st).

(** In a list of writes, two entries of the same depth are at least one
    unit of the program apart (two halves), the later one below. *)
Fixpoint apart (writes : list (string * Pos)) : Prop :=
  match writes with
  | [] => True
  | a :: writes' =>
      (∀ b, b ∈ writes' → x a.2 = x b.2 → (y2 a.2 + 2 ≤ y2 b.2)%Z) ∧ apart writes'
  end.

(** The pushes to [edges] that [place] makes, in order. *)
Fixpoint drawn (g : Graph) (expanded : gset string) (fuel : nat) (p : string)
    : list (string * string) :=
  match fuel with
  | O => []
  | S fuel' =>
      if bool_decide (p ∉ expanded) then []
      else jsSort (childrenOf g p) ≫= λ c, (p, c) :: drawn g expanded fuel' c
  end.

(** The edge [edge] makes [c] depend on [p]: it is a [depends] or
    [invokes] edge from a node of [p] to a node of [c], two different
    paths that both pass the module test of the program. *)
Definition depEdge (g : Graph) (edge : Edge) (c p : string) : Prop :=
  (kind edge = "depends" ∨ kind edge = "invokes")
  ∧ moduleForNodeId g (from edge) = p ∧ moduleForNodeId g (to edge) = c
  ∧ p ≠ EmptyString ∧ c ≠ EmptyString ∧ p ≠ c
  ∧ isModule g p = true ∧ isModule g c = true.

(** The label that the edge adds to the set of its pair: the label of
    what [state.graph.objects] answers for its [from] end, if anything. *)
Definition edgeLabel (g : Graph) (edge : Edge) : option string :=
  match objectAt g (from edge) with
  | Own obj => Some (formatObject obj)
  | Inherited => Some (formatObject (mkInherited (from edge)))
  | Absent => None
  end.

(** The pre-pass after one more edge. *)
Definition recordEdge (g : Graph) (edge : Edge) (c p : string) (deps : gset string)
    (acc : gmap string (gset string) * gmap string (gmap string (gset string)))
    : gmap string (gset string) * gmap string (gmap string (gset string)) :=
  (<[c := deps ∪ {[p]}]> acc.1,
   <[c := <[p := match edgeLabel g edge with
                 | Some label => default ∅ (default ∅ (acc.2 !! c) !! p) ∪ {[label]}
                 | None => default ∅ (default ∅ (acc.2 !! c) !! p)
                 end]> (default ∅ (acc.2 !! c))]> acc.2).

(** What holds of the two maps after the edges [seen]. *)
Definition prepassAfter (g : Graph) (seen : list Edge)
    (acc : gmap string (gset string) * gmap string (gmap string (gset string))) : Prop :=
  (∀ m, is_Some (acc.1 !! m) ↔ is_Some (modules g !! m))
  ∧ (∀ c p, p ∈ default ∅ (acc.1 !! c) ↔ ∃ e, e ∈ seen ∧ depEdge g e c p)
  ∧ (∀ c p, is_Some (acc.2 !! c ≫= (.!! p)) ↔ ∃ e, e ∈ seen ∧ depEdge g e c p)
  ∧ (∀ c p labels label, acc.2 !! c ≫= (.!! p) = Some labels →
       label ∈ labels ↔
       ∃ e, e ∈ seen ∧ depEdge g e c p ∧ edgeLabel g e = Some label).

(** ** Going back *)

Section Restore.
Context {Camera : Type}.
(** What the three numbers of the camera are restored to:
    [snapshot.camera.x || 0], [snapshot.camera.y || 0] and
    [snapshot.camera.zoom || DEFAULT_ZOOM]. *)
Variable restoreCamera : Camera → Camera.


End Restore.

(** ** Details of an object *)

Definition pickProviderModules (entries : list Entry.t) : list string :=
  let modules :=
    foldl (λ (modules : gset string) entry,
             foldl (λ modules modulePath, modules ∪ {[modulePath]}) modules
                   (Entry.providers entry))
          ∅ entries in
  sortedElements modules.

Module Info.
Record t := mk {
  label : string;
  signature : string;
  providers : list string;
  modulePath : string;
  isPrivate : bool;
  optional : bool;
}.
End Info.

Definition objectInfoFromGraphObject (g : Graph) (obj : Obj.t) : Info.t :=
  let providers := providerModulesForObject g obj in
  {| Info.label := formatObject obj;
     Info.signature := objectSignature (Obj.type obj) (Obj.name obj) (Obj.group obj);
     Info.providers := providers;
     Info.modulePath :=
       orElse (default EmptyString (head providers))
              (orElse (Obj.modulePath obj) EmptyString);
     Info.isPrivate := isPrivateObject g obj;
     Info.optional := false |}.

Definition objectInfoFromRef (idx : ObjectIndex) (ref : Ref.t) : Info.t :=
  let signature := signatureForRef ref in
  let entries := default [] (objectRefIndex idx !! signature) in
  let providers := pickProviderModules entries in
  let isPrivate := bool_decide (0 < length entries) && forallb Entry.isPrivate entries in
  {| Info.label := formatObject ref;
     Info.signature := signature;
     Info.providers := providers;
     Info.modulePath := orElse (default EmptyString (head providers)) EmptyString;
     Info.isPrivate := isPrivate;
     Info.optional := Ref.optional ref |}.

(** [focusObjectBySignature] on the layout state. *)
Definition focusObjectBySignature (idx : ObjectIndex) (st : State.t) (fuel : nat)
    (signature : string) : option State.t :=
  if negb (truthy signature) then Some st
  else
    let entries := default [] (objectRefIndex idx !! signature) in
    let modules := pickProviderModules entries in
    match modules with
    | [] => Some st
    | first :: _ => focusModulePath st fuel first
    end.

(** The object has a provider module, and the signature [signature]. *)
Definition resolvable (g : Graph) (obj : Obj.t) : Prop :=
  providerModulesForObject g obj ≠ [].
Definition hasSignature (signature : string) (obj : Obj.t) : Prop :=
  objectSignature (Obj.type obj) (Obj.name obj) (Obj.group obj) = signature.

Global Instance resolvable_dec g obj : Decision (resolvable g obj).
Proof. unfold resolvable. apply _. Defined.
Global Instance hasSignature_dec signature obj : Decision (hasSignature signature obj).
Proof. unfold hasSignature. apply _. Defined.

(** ** Dependent modules *)

(** [collectDependentModules].  An object without [modulePath] has the
    empty path here, which no subtree of a valid tree holds. *)
Definition collectDependentModules (g : Graph) (fuel : nat) (modulePath : string)
    : option (list string) :=
  modules ← collectModuleSubtree g fuel modulePath;
  let dependents :=
    foldl (λ (dependents : gset string) obj,
             if bool_decide (Obj.modulePath obj ∉ modules) then dependents
             else if bool_decide (length (Obj.providedBy obj) = 0) then dependents
             else
               foldl (λ (dependents : gset string) consumerId,
                        let consumerModule := moduleForNodeId g consumerId in
                        if negb (truthy consumerModule)
                           || bool_decide (consumerModule = ROOT_KEY) then dependents
                        else if bool_decide (consumerModule ∈ modules) then dependents
                        else if isModule g consumerModule
                        then dependents ∪ {[consumerModule]}
                        else dependents)
                     dependents (Obj.consumedBy obj))
          ∅ (objects g).*2 in
  Some (sortedElements dependents).

(** ** The edges drawn *)

(** What [rebuildEdges] keeps of a dependency tube: the two modules, the
    labels and the sign of the bend. *)
Module Tube.
Record t := mk {
  fromModule : string;
  toModule : string;
  objects : list string;
  bias : Z;
}.
End Tube.

(** The tree edges that get a tube: both nodes exist and are visible. *)
Definition treeTubes (st : State.t) : list (string * string) :=
  filter (λ e, nodeVisible st e.1 = true ∧ nodeVisible st e.2 = true) (State.edges st).

(** The dependency tubes, one for each entry of [visibleDeps] that
    passes the tests; the program makes them in the order in which
    [visibleDeps] was filled, the list here has them in key order. *)
Definition depTubes (st : State.t) (out : Visible.t) : list Tube.t :=
  '(modulePath, deps) ← map_to_list (Visible.deps out);
  if bool_decide (modulePath = ROOT_KEY) || negb (isModule (State.graph st) modulePath)
  then []
  else
    dep ← elements deps;
    if bool_decide (dep = ROOT_KEY) || negb (isModule (State.graph st) dep) then []
    else if negb (nodeVisible st modulePath) || negb (nodeVisible st dep) then []
    else
      let key := edgeKey modulePath dep in
      [Tube.mk modulePath dep (default [] (Visible.objects out !! key)) (curveBias key)].

Definition rebuildEdges (st : State.t) (fuel : nat)
    : option (list (string * string) * list Tube.t) :=
  out ← buildVisibleModuleDeps st fuel;
  Some (treeTubes st, depTubes st out).

(** ** Escaping for HTML *)

(** [s.replace(/c/g, rep)] for a pattern of one character *)
Fixpoint replaceAll (c : Ascii.ascii) (rep : string) (s : string) : string :=
  match s with
  | EmptyString => EmptyString
  | String a s' =>
      if Ascii.eqb a c then rep +:+ replaceAll c rep s'
      else String a (replaceAll c rep s')
  end.

(** The double quote and the single quote. *)
Definition dquote : Ascii.ascii := Ascii.ascii_of_nat 34.
Definition squote : Ascii.ascii := Ascii.ascii_of_nat 39.

Definition escapeHtml (value : string) : string :=
  replaceAll squote "&#39;"
    (replaceAll dquote "&quot;"
       (replaceAll ">"%char "&gt;"
          (replaceAll "<"%char "&lt;"
             (replaceAll "&"%char "&amp;" (orElse value EmptyString))))).

(** What one character becomes. *)
Definition escapeChar (a : Ascii.ascii) : string :=
  if Ascii.eqb a "&"%char then "&amp;"
  else if Ascii.eqb a "<"%char then "&lt;"
  else if Ascii.eqb a ">"%char then "&gt;"
  else if Ascii.eqb a dquote then "&quot;"
  else if Ascii.eqb a squote then "&#39;"
  else String a EmptyString.

(** Characters that end text or an attribute value in HTML. *)
Definition htmlSpecial (a : Ascii.ascii) : bool :=
  Ascii.eqb a "<"%char || Ascii.eqb a ">"%char || Ascii.eqb a dquote
  || Ascii.eqb a squote.

(** The string holds no vertical bar, the separator of signatures. *)
Definition barFree (s : string) : Prop :=
  "|"%char ∉ String.list_ascii_of_string s.

(** ** Provided objects *)

(** [map.set(key, value)] on a [Map] kept as the list of its entries in
    insertion order: the value of a key that is present is replaced
    where it stands. *)
Fixpoint mapSet {V : Type} (key : string) (value : V) (entries : list (string * V))
    : list (string * V) :=
  match entries with
  | [] => [(key, value)]
  | (k, v) :: entries' =>
      if bool_decide (k = key) then (k, value) :: entries'
      else (k, v) :: mapSet key value entries'
  end.

(** The key under which [uniqueSortedObjects] files an item. *)
Definition infoKey (info : Info.t) : string :=
  orElse (Info.signature info) (Info.label info) +:+ "|"
  +:+ orElse (Info.modulePath info) EmptyString.

Section Details.
Variable localeCompare : string → string → Z.

Definition uniqueSortedObjects (infos : list Info.t) : list Info.t :=
  let map := foldl (λ map info, mapSet (infoKey info) info map) [] infos in
  jsSortBy (λ a b, bool_decide (localeCompare (Info.label a) (Info.label b) ≤ 0)%Z) map.*2.

(** [collectProvidedObjects]; as in [collectDependentModules] an object
    without [modulePath] has the empty path. *)
Definition collectProvidedObjects (g : Graph) (fuel : nat) (modulePath : string)
    : option (list Info.t) :=
  modules ← collectModuleSubtree g fuel modulePath;
  let items :=
    foldl (λ items obj,
             if bool_decide (Obj.modulePath obj ∉ modules) then items
             else if bool_decide (length (Obj.providedBy obj) = 0) then items
             else items ++ [objectInfoFromGraphObject g obj])
          [] (objects g).*2 in
  Some (uniqueSortedObjects items).
End Details.

(** ** Tooltip of a dependency edge *)

Definition EDGE_TOOLTIP_MAX : nat := 8.

(** The line feed, and [parts.join(sep)]. *)
Definition lineFeed : string := String (Ascii.ascii_of_nat 10) EmptyString.
Definition join (sep : string) (parts : list string) : string := String.concat sep parts.

(** The text that [showEdgeTooltip] puts in the tooltip; a number is
    written in decimal. *)
Definition showEdgeTooltip (data : Tube.t) : string :=
  let objects := Tube.objects data in
  let lines := take EDGE_TOOLTIP_MAX objects in
  let extra := length objects - length lines in
  let header :=
    if truthy (Tube.fromModule data) && truthy (Tube.toModule data)
    then Tube.fromModule data +:+ " depends on " +:+ Tube.toModule data
    else "Dependency" in
  join lineFeed
    (filter (λ line, truthy line = true)
       ([header; EmptyString; "Objects:"]
        ++ map (λ label, "- " +:+ label) lines
        ++ [if bool_decide (0 < extra) then "+" +:+ pretty extra +:+ " more"
            else EmptyString])).

(** ** Display name of a module *)

(** [s.split(".")] *)
Fixpoint splitDot (s : string) : list string :=
  match s with
  | EmptyString => [EmptyString]
  | String c s' =>
      if Ascii.eqb c "."%char then EmptyString :: splitDot s'
      else match splitDot s' with
           | part :: parts => String c part :: parts
           | [] => [String c EmptyString]
           end
  end.

Definition moduleDisplayName (path : string) : string :=
  if negb (truthy path) || bool_decide (path = ROOT_KEY) then "root"
  else
    let parts := splitDot path in
    orElse (default EmptyString (parts !! (length parts - 1))) path.

(** The string holds no dot. *)
Definition dotFree (s : string) : Prop :=
  "."%char ∉ String.list_ascii_of_string s.

(** The parts of a split, each followed by a dot. *)
Definition dotted (parts : list string) : string :=
  foldr (λ part rest, part +:+ "." +:+ rest) EmptyString parts.

(** [r] is the nearest shown ancestor of [m]: the first module on the
    parent walk from [m], itself included, whose node is visible. *)
Definition shownAncestor (st : State.t) (m r : string) : Prop :=
  is_Some (modules (State.graph st) !! r)
  ∧ ∃ k, r = Nat.iter k (parentOf (State.graph st)) m
         ∧ nodeVisible st r = true
         ∧ ∀ j, j < k → nodeVisible st (Nat.iter j (parentOf (State.graph st)) m) = false.

(** ** Order of the search entries *)

(** A comparator that sorts consistently: its sign flips when the
    arguments are exchanged, and being not after is transitive. *)
Definition consistentComparator (compare : string → string → Z) : Prop :=
  (∀ a b, Z.sgn (compare b a) = (- Z.sgn (compare a b))%Z)
  ∧ (∀ a b c, (compare a b ≤ 0)%Z → (compare b c ≤ 0)%Z → (compare a c ≤ 0)%Z).

(** One such comparator, for the examples: the order of the code
    units. *)
Definition codeUnitCompare (a b : string) : Z :=
  match String.compare a b with
  | Eq => 0%Z
  | Lt => (-1)%Z
  | Gt => 1%Z
  end.

(** [a] comes before [b] by label, or they tie on the label and [a] is
    not after [b] by module path. *)
Definition entryBefore (compare : string → string → Z) (a b : SearchEntry.t) : Prop :=
  (compare (SearchEntry.label a) (SearchEntry.label b) < 0)%Z
  ∨ (compare (SearchEntry.label a) (SearchEntry.label b) = 0%Z
     ∧ (compare (SearchEntry.modulePath a) (SearchEntry.modulePath b) ≤ 0)%Z).

(** ** The module list *)

(** The badge of a row: open, closed, or without children. *)
Inductive Badge := BadgeOpen | BadgeClosed | BadgeLeaf.

Module ListRow.
Record t := mk {
  path : string;
  depth : nat;
  title : string;
  description : string;
  badge : Badge;
}.
End ListRow.

(** [state.graph.modules[path].description || ""] where the read of
    the module gives something: an inherited member has no
    [description]. *)
Definition descriptionOf (g : Graph) (path : string) : string :=
  orElse (from_option description EmptyString (modules g !! path)) EmptyString.

(** [buildTreeRow]: the rows appended to the list, in order.  Reading
    the description of a path for which the module map answers nothing
    throws; that run does not return either. *)
Fixpoint buildTreeRow (g : Graph) (expanded : gset string) (fuel : nat)
    (path : string) (depth : nat) (rows : list ListRow.t) : option (list ListRow.t) :=
  match fuel with
  | O => None
  | S fuel' =>
      if negb (isModule g path) then None
      else
        let hasChildren := bool_decide (0 < length (childrenOf g path)) in
        let isOpen := bool_decide (path ∈ expanded) in
        let row :=
          ListRow.mk path depth (moduleDisplayName path) (descriptionOf g path)
                     (if hasChildren then if isOpen then BadgeOpen else BadgeClosed
                      else BadgeLeaf) in
        let rows := rows ++ [row] in
        if hasChildren && bool_decide (path ∈ expanded) then
          forEachM (λ rows child, buildTreeRow g expanded fuel' child (S depth) rows)
                   (childrenOf g path) rows
        else Some rows
  end.

(** [buildModuleList] for the list [rootModules] of the snapshot. *)
Definition buildModuleList (g : Graph) (expanded : gset string) (fuel : nat)
    (rootModules : list string) : option (list ListRow.t) :=
  forEachM (λ rows path, buildTreeRow g expanded fuel path 0 rows) rootModules [].

(** ** Highlighting *)

(** The colours that [applyHighlight] sets on a node: [palette.highlight],
    [palette.connected] and white. *)
Inductive Colour := ColourHighlight | ColourConnected | ColourWhite.

(** The id of the node of a module *)
Definition nodeId (path : string) : string := "module:" +:+ path.

(** The set [connected]: both ends of every tree edge of the state that
    touches the selection. *)
Definition connectedIds (edges : list (string * string)) (selected : string)
    : gset string :=
  if truthy selected then
    foldl (λ connected '(from, to),
             let fromId := nodeId from in
             let toId := nodeId to in
             if bool_decide (fromId = selected) || bool_decide (toId = selected)
             then connected ∪ {[fromId]} ∪ {[toId]}
             else connected)
          ∅ edges
  else ∅.

(** The colour set on the node of [path]; [None] for a node that is
    absent or not visible, which is left as it is. *)
Definition nodeColour (st : State.t) (selected path : string) : option Colour :=
  if negb (nodeVisible st path) then None
  else if truthy selected && bool_decide (nodeId path = selected)
  then Some ColourHighlight
  else if bool_decide (nodeId path ∈ connectedIds (State.edges st) selected)
  then Some ColourConnected
  else Some ColourWhite.

(** A tube of [state.edgeMeshes]: the ids of its ends, whether it is a
    dependency tube, and its visibility and opacity (in hundredths). *)
Module Line.
Record t := mk {
  from : string;
  to : string;
  isDep : bool;
  visible : bool;
  opacity : Z;
}.
End Line.

(** The body of the loop over [state.edgeMeshes]. *)
Definition highlightLine (selected hovered : string) (line : Line.t) : Line.t :=
  let edgeFocus := orElse selected hovered in
  let touches :=
    bool_decide (Line.from line = edgeFocus) || bool_decide (Line.to line = edgeFocus) in
  let withVisible (v : bool) :=
    Line.mk (Line.from line) (Line.to line) (Line.isDep line) v (Line.opacity line) in
  let withOpacity (l : Line.t) :=
    Line.mk (Line.from l) (Line.to l) (Line.isDep l) (Line.visible l)
            (if truthy edgeFocus && touches then 90 else 25) in
  if Line.isDep line then
    if negb (truthy edgeFocus) then withVisible false
    else if negb touches then withVisible false
    else withOpacity (withVisible true)
  else withOpacity line.

(** [applyHighlight]: the colour of every node and the tubes after the
    pass; the selection, the hovered id and the tubes are given. *)
Definition applyHighlight (st : State.t) (selected hovered : string)
    (lines : list Line.t) : (string → option Colour) * list Line.t :=
  (nodeColour st selected, highlightLine selected hovered <$> lines).
(** * Properties *)

(** ** Reads of a plain object *)

Lemma member_Own {A : Type} (obj : gmap string A) (key : string) (a : A) :
  member obj key = Own a ↔ obj !! key = Some a.
Proof.
  unfold member. destruct (obj !! key) as [b|].
  - split; by intros [= ->].
  - split; [by destruct (inherited key)|done].
Qed.

Lemma member_Inherited {A : Type} (obj : gmap string A) (key : string) :
  member obj key = Inherited ↔ obj !! key = None ∧ inherited key = true.
Proof.
  unfold member. destruct (obj !! key) as [b|].
  - split; [done|by intros [? _]].
  - destruct (inherited key); split; try done. by intros [_ ?].
Qed.

Lemma member_Absent {A : Type} (obj : gmap string A) (key : string) :
  member obj key = Absent ↔ obj !! key = None ∧ inherited key = false.
Proof.
  unfold member. destruct (obj !! key) as [b|].
  - split; [done|by intros [? _]].
  - destruct (inherited key); split; try done. by intros [_ ?].
Qed.

Lemma memberOf_Own {A : Type} (table : option (gmap string A)) (key : string) (a : A) :
  memberOf table key = Own a ↔ default ∅ table !! key = Some a.
Proof.
  destruct table as [obj|]; simpl; [apply member_Own|].
  rewrite lookup_empty. done.
Qed.

Lemma memberOf_plain {A : Type} (table : option (gmap string A)) (key : string) :
  inherited key = false →
  memberOf table key = match default ∅ table !! key with
                       | Some a => Own a
                       | None => Absent
                       end.
Proof.
  intros Hkey. destruct table as [obj|]; simpl.
  - unfold member. by rewrite Hkey.
  - by rewrite lookup_empty.
Qed.

Lemma isModule_spec (g : Graph) (path : string) :
  isModule g path = true ↔ is_Some (modules g !! path) ∨ inherited path = true.
Proof.
  unfold isModule, member. destruct (modules g !! path) as [m|].
  - split; [by left; eexists|done].
  - destruct (inherited path); split; try done; [by right|].
    intros [[? ?]|?]; done.
Qed.

Lemma isModule_own (g : Graph) (path : string) :
  is_Some (modules g !! path) → isModule g path = true.
Proof. intros. apply isModule_spec. by left. Qed.

Lemma isModule_plain (g : Graph) (path : string) :
  inherited path = false → isModule g path = true → is_Some (modules g !! path).
Proof. intros Hplain [?|?]%isModule_spec; [done|congruence]. Qed.

Lemma objectAt_Own (g : Graph) (id : string) (obj : Obj.t) :
  objectAt g id = Own obj ↔ (list_to_map (objects g) : gmap string Obj.t) !! id = Some obj.
Proof.
  unfold objectAt, objects. destruct (objectsTable g) as [objs|]; simpl.
  - apply member_Own.
  - by rewrite lookup_empty.
Qed.

Lemma isRootModule_true (g : Graph) (path : string) :
  isRootModule g path = true ↔
  parentOf g path = EmptyString
  ∨ (modules g !! parentOf g path = None ∧ inherited (parentOf g path) = false).
Proof.
  unfold isRootModule. cbv zeta.
  rewrite orb_true_iff, bool_decide_eq_true, negb_true_iff.
  rewrite <- not_true_iff_false, isModule_spec.
  split; (intros [?|H]; [by left|right]).
  - split.
    + apply eq_None_not_Some. intros ?. apply H. by left.
    + apply not_true_iff_false. intros ?. apply H. by right.
  - destruct H as [Hnone Hplain]. intros [[? ?]|?]; congruence.
Qed.

Lemma isRootModule_false (g : Graph) (path : string) :
  isRootModule g path = false ↔
  parentOf g path ≠ EmptyString
  ∧ (is_Some (modules g !! parentOf g path) ∨ inherited (parentOf g path) = true).
Proof.
  unfold isRootModule. cbv zeta.
  rewrite orb_false_iff, bool_decide_eq_false, negb_false_iff, isModule_spec. done.
Qed.

(** ** Loops that may not return *)

Lemma forEachM_invariant {A S : Type} (P : S → Prop) (body : S → A → option S)
    (l : list A) (s s' : S) :
  forEachM body l s = Some s' → P s →
  (∀ s x s', x ∈ l → P s → body s x = Some s' → P s') → P s'.
Proof.
  revert s. induction l as [|x l IH]; intros s Hrun Hs Hstep; simpl in Hrun.
  - by injection Hrun as <-.
  - destruct (body s x) as [s1|] eqn:Hbody; [|done]. simpl in Hrun.
    apply (IH s1 Hrun).
    + apply (Hstep s x); [by left|done|done].
    + intros s2 y s3 Hy. apply Hstep. by right.
Qed.

Lemma forEachM_total {A S : Type} (P : S → Prop) (body : S → A → option S)
    (l : list A) (s : S) :
  P s → (∀ s x, x ∈ l → P s → ∃ s', body s x = Some s' ∧ P s') →
  ∃ s', forEachM body l s = Some s' ∧ P s'.
Proof.
  revert s. induction l as [|x l IH]; intros s Hs Hstep; simpl.
  - by exists s.
  - destruct (Hstep s x) as (s1 & -> & Hs1); [by left|done|]. simpl.
    apply IH; [done|]. intros s2 y Hy. apply Hstep. by right.
Qed.

(** ** Strings *)

Lemma truthy_true (s : string) : truthy s = true ↔ s ≠ EmptyString.
Proof. unfold truthy. by rewrite negb_true_iff, bool_decide_eq_false. Qed.

Lemma truthy_false (s : string) : truthy s = false ↔ s = EmptyString.
Proof. unfold truthy. by rewrite negb_false_iff, bool_decide_eq_true. Qed.

Lemma orElse_empty (s : string) : orElse s EmptyString = s.
Proof. unfold orElse. destruct (truthy s) eqn:E; [done|]. by apply truthy_false in E. Qed.

Lemma orElse_truthy (s d : string) : truthy s = true → orElse s d = s.
Proof. unfold orElse. by intros ->. Qed.

Lemma startsWith_app (p s : string) : startsWith (p +:+ s) p = true.
Proof.
  unfold startsWith. induction p as [|a p IH]; simpl; [by destruct s|].
  by destruct (Ascii.ascii_dec a a).
Qed.

Lemma startsWith_inv (s p : string) :
  startsWith s p = true → ∃ rest, s = p +:+ rest.
Proof.
  unfold startsWith. revert s. induction p as [|a p IH]; intros s H.
  - by exists s.
  - destruct s as [|b s]; simpl in H; [done|].
    destruct (Ascii.ascii_dec a b) as [->|]; [|done].
    destruct (IH s H) as [rest ->]. by exists rest.
Qed.

Lemma slice_app (p s : string) : slice (String.length p) (p +:+ s) = s.
Proof. induction p as [|a p IH]; simpl; [by destruct s|done]. Qed.

(** ** Signatures of references *)

(** C10.  A reference with a non-empty group and a type [[]elem] gets the
    signature of [elem] with its own name and group, which is the
    signature the index gives an object of type [elem] with that name and
    group, while its label still starts with the type as written; every
    other reference gets the signature of its type unchanged. *)
Theorem signatureForRef_group_slice (ref : Ref.t) :
  (∀ elem : string,
     truthy (Ref.group ref) = true →
     Ref.type ref = "[]" +:+ elem →
     signatureForRef ref = objectSignature elem (Ref.name ref) (Ref.group ref)
     ∧ (∀ obj : Obj.t,
          Obj.type obj = elem → Obj.name obj = Ref.name ref →
          Obj.group obj = Ref.group ref →
          signatureForRef ref
          = objectSignature (Obj.type obj) (Obj.name obj) (Obj.group obj))
     ∧ formatObject ref
       = (("[]" +:+ elem) +:+ namePart (Ref.name ref)) +:+ groupPart (Ref.group ref))
  ∧ (truthy (Ref.group ref) && startsWith (Ref.type ref) "[]" = false →
     signatureForRef ref
     = objectSignature (Ref.type ref) (Ref.name ref) (Ref.group ref)).
Proof.
  split.
  - intros elem Hgroup Htype.
    assert (Hsig : signatureForRef ref
                   = objectSignature elem (Ref.name ref) (Ref.group ref)).
    { unfold signatureForRef. rewrite orElse_empty, Hgroup, Htype.
      rewrite startsWith_app. simpl andb. cbv iota.
      by rewrite <- (slice_app "[]" elem) at 2. }
    split; [done|]. split.
    + intros obj Ht Hn Hg. rewrite Ht, Hn, Hg. exact Hsig.
    + unfold formatObject. simpl typeOf. simpl nameOf. simpl groupOf. rewrite Htype.
      rewrite orElse_truthy; [done|apply truthy_true; by cbv].
  - intros Hcase. unfold signatureForRef.
    rewrite orElse_empty, Hcase. done.
Qed.

Lemma signatureForRef_group_slice_witness :
  let ref := Ref.mk "[]Handler" EmptyString "hooks" false in
  signatureForRef ref = "Handler||hooks"
  ∧ formatObject ref = "[]Handler [group=hooks]"
  ∧ signatureForRef (Ref.mk "[]Handler" EmptyString EmptyString false) = "[]Handler||".
Proof.
  intros ref.
  destruct (signatureForRef_group_slice ref) as [Hslice _].
  destruct (Hslice "Handler" eq_refl eq_refl) as (Hsig & _ & Hlabel).
  destruct (signatureForRef_group_slice (Ref.mk "[]Handler" EmptyString EmptyString false)) as [_ Hsame].
  split; [exact Hsig|]. split; [exact Hlabel|]. exact (Hsame eq_refl).
Defined.

(** ** Private objects *)

Lemma isPrivateObject_scan (g : Graph) (providedBy : list string) (hc he : bool) :
  let step := λ '(hasCtor, hasExported) providerId,
    match memberOf (constructorsTable g) providerId with
    | Own ctor =>
        (true, if Ctor.exported ctor || Ctor.Exported ctor then true else hasExported)
    | Inherited => (true, hasExported)
    | Absent => (hasCtor, hasExported)
    end in
  ∀ hc' he', foldl step (hc, he) providedBy = (hc', he') →
    (hc' = true ↔
       hc = true
       ∨ ∃ pid, pid ∈ providedBy ∧ memberOf (constructorsTable g) pid ≠ Absent)
    ∧ (he' = true ↔ he = true ∨ ∃ pid, pid ∈ providedBy ∧ exportedProvider g pid).
Proof.
  intros step. revert hc he.
  induction providedBy as [|pid l IH]; intros hc he hc' he' Hfold; simpl in Hfold.
  - injection Hfold as <- <-. split; split; auto.
    + intros [?|(pid & Hin & _)]; [done|]. by apply elem_of_nil in Hin.
    + intros [?|(pid & Hin & _)]; [done|]. by apply elem_of_nil in Hin.
  - destruct (memberOf (constructorsTable g) pid) as [ctor| |] eqn:Hctor.
    + apply IH in Hfold as [Hc He]. split.
      * rewrite Hc. split; [|by intros; left].
        intros _. right. exists pid. split; [by left|]. by rewrite Hctor.
      * rewrite He. split.
        -- intros [Hex|(pid' & Hin & Hp)].
           ++ destruct (Ctor.exported ctor || Ctor.Exported ctor) eqn:Hflag; [|by left].
              right. exists pid. split; [by left|]. exists ctor.
              split; [by apply memberOf_Own|done].
           ++ right. exists pid'. split; [by right|done].
        -- intros [->|(pid' & Hin & Hp)].
           ++ left. by destruct (Ctor.exported ctor || Ctor.Exported ctor).
           ++ apply elem_of_cons in Hin as [->|Hin].
              ** left. destruct Hp as (ctor' & Hctor' & Hflag).
                 apply memberOf_Own in Hctor'. rewrite Hctor in Hctor'.
                 injection Hctor' as <-. by rewrite Hflag.
              ** right. by exists pid'.
    + apply IH in Hfold as [Hc He]. split.
      * rewrite Hc. split; [|by intros; left].
        intros _. right. exists pid. split; [by left|]. by rewrite Hctor.
      * rewrite He. split.
        -- intros [?|(pid' & Hin & Hp)]; [by left|].
           right. exists pid'. split; [by right|done].
        -- intros [?|(pid' & Hin & Hp)]; [by left|].
           apply elem_of_cons in Hin as [->|Hin].
           ++ destruct Hp as (ctor & Hp%memberOf_Own & _). congruence.
           ++ right. by exists pid'.
    + apply IH in Hfold as [Hc He]. split.
      * rewrite Hc. split.
        -- intros [?|(pid' & Hin & Hp)]; [by left|].
           right. exists pid'. split; [by right|done].
        -- intros [?|(pid' & Hin & Hp)]; [by left|].
           apply elem_of_cons in Hin as [->|Hin]; [done|].
           right. by exists pid'.
      * rewrite He. split.
        -- intros [?|(pid' & Hin & Hp)]; [by left|].
           right. exists pid'. split; [by right|done].
        -- intros [?|(pid' & Hin & Hp)]; [by left|].
           apply elem_of_cons in Hin as [->|Hin].
           ++ destruct Hp as (ctor & Hp%memberOf_Own & _). congruence.
           ++ right. by exists pid'.
Qed.

(** C7, as amended.  With an explicit boolean flag ([exported], else
    [Exported]) the object is private exactly when the flag is false.
    Without one, and when the constructor table answers none of the
    provider ids with an inherited member, the object is private
    exactly when some provider id names a constructor and no provider
    id names a constructor marked exported: the mark of a constructor
    ([exported] or [Exported]) is the only one the program reads, that
    of a decorator is never consulted. *)
Theorem isPrivateObject_spec (g : Graph) (obj : Obj.t) :
  (∀ b, explicitExported obj = Some b → isPrivateObject g obj = negb b)
  ∧ (explicitExported obj = None → ownProviders g obj →
     (isPrivateObject g obj = true ↔
        (∃ pid, pid ∈ Obj.providedBy obj ∧ ctorProvider g pid)
        ∧ ¬ (∃ pid, pid ∈ Obj.providedBy obj ∧ exportedProvider g pid))).
Proof.
  unfold explicitExported, isPrivateObject. split.
  - intros b Hb. destruct (Obj.exported obj); [by injection Hb as ->|].
    by rewrite Hb.
  - intros Hnone Hown. destruct (Obj.exported obj); [done|]. rewrite Hnone.
    assert (Hctor : (∃ pid, pid ∈ Obj.providedBy obj
                            ∧ memberOf (constructorsTable g) pid ≠ Absent)
                    ↔ ∃ pid, pid ∈ Obj.providedBy obj ∧ ctorProvider g pid).
    { split; intros (pid & Hin & Hp); exists pid; (split; [done|]).
      - specialize (Hown pid Hin).
        destruct (memberOf (constructorsTable g) pid) as [ctor| |] eqn:Hmem; [|done|done].
        exists ctor. by apply memberOf_Own.
      - destruct Hp as [ctor Hp%memberOf_Own]. by rewrite Hp. }
    case_bool_decide as Hlen.
    + apply nil_length_inv in Hlen. rewrite Hlen. split; [done|].
      intros [(pid & Hin & _) _]. by apply elem_of_nil in Hin.
    + destruct (foldl _ _ _) as [hc he] eqn:Hfold.
      apply isPrivateObject_scan in Hfold as [Hc He].
      rewrite andb_true_iff, negb_true_iff, <- not_true_iff_false, Hc, He, Hctor.
      split.
      * intros [[?|?] Hn]; [done|]. split; [done|]. intros ?. apply Hn. by right.
      * intros [? Hn]. split; [by right|]. intros [?|?]; [done|]. by apply Hn.
Qed.

Lemma isPrivateObject_spec_witness :
  let g := mkGraph ∅ (Some []) (Some {[ "newStore" := Ctor.mk "pkg.a" [] false false ]})
                   (Some ∅) (Some {[ "wrapStore" := Decorator.mk "pkg.a" [] false ]}) [] in
  isPrivateObject g (Obj.mk "o1" "Store" EmptyString EmptyString "pkg.a" ["newStore"] [] (Some true) None)
  = false
  ∧ isPrivateObject g (Obj.mk "o2" "Store" EmptyString EmptyString "pkg.a" ["newStore"; "wrapStore"] [] None None)
    = true.
Proof.
  intros g. split.
  - exact (proj1 (isPrivateObject_spec g
      (Obj.mk "o1" "Store" EmptyString EmptyString "pkg.a" ["newStore"] [] (Some true) None)) true eq_refl).
  - apply (proj2 (isPrivateObject_spec g
      (Obj.mk "o2" "Store" EmptyString EmptyString "pkg.a" ["newStore"; "wrapStore"] [] None None)) eq_refl).
    + intros pid Hin.
      apply elem_of_cons in Hin as [->|Hin]; [done|].
      apply list_elem_of_singleton in Hin as ->. done.
    + split.
      * exists "newStore". split; [by left|]. by eexists.
      * intros (pid & Hin & ctor & Hctor & Hflag).
        apply elem_of_cons in Hin as [->|Hin].
        -- vm_compute in Hctor. injection Hctor as <-. done.
        -- apply list_elem_of_singleton in Hin as ->. vm_compute in Hctor. done.
Defined.

(** C7, counterexample: an object without explicit flag, provided by a
    constructor that is not marked exported and by a decorator that is,
    is private, although one of its providers is marked exported. *)
Lemma isPrivateObject_decorator_mark_ignored :
  let g := mkGraph ∅ (Some []) (Some {[ "newStore" := Ctor.mk "pkg.a" [] false false ]})
                   (Some ∅) (Some {[ "wrapStore" := Decorator.mk "pkg.a" [] true ]}) [] in
  let obj := Obj.mk "o2" "Store" EmptyString EmptyString "pkg.a"
                    ["newStore"; "wrapStore"] [] None None in
  explicitExported obj = None
  ∧ isPrivateObject g obj = true
  ∧ (∃ pid, pid ∈ Obj.providedBy obj ∧ ctorProvider g pid)
  ∧ ∃ pid, pid ∈ Obj.providedBy obj ∧ markedExported g pid.
Proof.
  intros g obj. split; [done|]. split; [by vm_compute|]. split.
  - exists "newStore". split; [by left|]. by eexists.
  - exists "wrapStore". split; [by right; left|]. right.
    eexists. split; [by vm_compute|done].
Qed.

(** ** View history *)

Section HistoryFacts.
Context {Camera : Type}.
Implicit Types v : View.t Camera.

Lemma updateBackButton_history v :
  View.history (updateBackButton v) = View.history v.
Proof. unfold updateBackButton. by destruct (View.navBackDisabled v). Qed.

Lemma pushHistory_locked v : View.historyLocked v = true → pushHistory v = v.
Proof. unfold pushHistory. by intros ->. Qed.

Lemma pushHistory_same_selection v top :
  last (View.history v) = Some top →
  Snapshot.selectedId top = View.selectedId v →
  pushHistory v = v.
Proof.
  intros Hlast Hsel. unfold pushHistory.
  destruct (View.historyLocked v); [done|].
  rewrite Hlast. simpl. by rewrite bool_decide_eq_true_2.
Qed.

Lemma pushHistory_top v :
  View.historyLocked v = false →
  ∃ top, last (View.history (pushHistory v)) = Some top
         ∧ Snapshot.selectedId top = View.selectedId v.
Proof.
  intros Hlock. unfold pushHistory. rewrite Hlock.
  destruct (last (View.history v)) as [top|] eqn:Hlast.
  - simpl. case_bool_decide as Hsel.
    + exists top. by rewrite Hlast.
    + rewrite updateBackButton_history. simpl. rewrite last_snoc. by eexists.
  - rewrite updateBackButton_history. simpl. rewrite last_snoc. by eexists.
Qed.
End HistoryFacts.

(** C9.  [pushHistory] changes nothing while the lock is set, and nothing
    when the top entry has the selection of the view; hence a push that
    directly follows a push, with the selection unchanged, adds no entry,
    and two pushes on an empty stack leave one entry.  [popHistory]
    returns the last entry and removes it, and on an empty stack returns
    nothing and leaves the view as it is. *)
Theorem history_push_pop {Camera : Type} (v : View.t Camera) :
  (View.historyLocked v = true → pushHistory v = v)
  ∧ (∀ top, last (View.history v) = Some top →
       Snapshot.selectedId top = View.selectedId v → pushHistory v = v)
  ∧ (∀ v2 : View.t Camera,
       View.history v2 = View.history (pushHistory v) →
       View.historyLocked v2 = View.historyLocked v →
       View.selectedId v2 = View.selectedId v →
       pushHistory v2 = v2)
  ∧ (View.history v = [] → View.historyLocked v = false →
       length (View.history (pushHistory (pushHistory v))) = 1)
  ∧ (∀ entries snapshot, View.history v = entries ++ [snapshot] →
       ∃ v', popHistory v = (Some snapshot, v')
             ∧ View.history v' = entries
             ∧ View.selectedId v' = View.selectedId v
             ∧ View.expandedModules v' = View.expandedModules v
             ∧ View.camera v' = View.camera v
             ∧ View.historyLocked v' = View.historyLocked v)
  ∧ (View.history v = [] → popHistory v = (None, v)).
Proof.
  split; [apply pushHistory_locked|].
  split; [apply pushHistory_same_selection|].
  split.
  { intros v2 Hhist Hlock Hsel.
    destruct (View.historyLocked v) eqn:Hl.
    - by apply pushHistory_locked.
    - destruct (pushHistory_top v Hl) as (top & Htop & Htopsel).
      apply (pushHistory_same_selection v2 top); congruence. }
  split.
  { intros Hempty Hlock.
    assert (Hone : View.history (pushHistory v) = [captureViewState v]).
    { unfold pushHistory. rewrite Hlock, Hempty. simpl.
      rewrite updateBackButton_history. simpl. done. }
    assert (Hlock1 : View.historyLocked (pushHistory v) = false).
    { unfold pushHistory. rewrite Hlock, Hempty. simpl.
      unfold updateBackButton. simpl. by destruct (View.navBackDisabled v). }
    assert (Hsel1 : View.selectedId (pushHistory v) = View.selectedId v).
    { unfold pushHistory. rewrite Hlock, Hempty. simpl.
      unfold updateBackButton. simpl. by destruct (View.navBackDisabled v). }
    rewrite (pushHistory_same_selection (pushHistory v) (captureViewState v)).
    - by rewrite Hone.
    - by rewrite Hone.
    - by rewrite Hsel1. }
  split.
  { intros entries snapshot Hhist. unfold popHistory. rewrite Hhist.
    rewrite bool_decide_eq_false_2 by (rewrite length_app; simpl; lia).
    rewrite last_snoc, removelast_last.
    eexists. split; [done|].
    unfold updateBackButton. simpl. by destruct (View.navBackDisabled v). }
  intros Hempty. unfold popHistory. by rewrite Hempty.
Qed.

Lemma history_push_pop_witness :
  let snap := Snapshot.mk (Some "module:pkg.a") ["pkg"] tt in
  let v := View.mk (Some "module:pkg.b") ({[ "pkg" ]} : gset string) tt [snap] true (Some false) in
  let w := View.mk (Some "module:pkg.a") (∅ : gset string) tt [snap] false (Some false) in
  let e := View.mk (None : option string) (∅ : gset string) tt [] false (Some true) in
  pushHistory v = v ∧ pushHistory w = w
  ∧ length (View.history (pushHistory (pushHistory e))) = 1
  ∧ (popHistory w).1 = Some snap ∧ popHistory e = (None, e).
Proof.
  intros snap v w e.
  split; [exact (proj1 (history_push_pop v) eq_refl)|].
  split; [exact (proj1 (proj2 (history_push_pop w)) snap eq_refl eq_refl)|].
  split; [exact (proj1 (proj2 (proj2 (proj2 (history_push_pop e)))) eq_refl eq_refl)|].
  split.
  - destruct (proj1 (proj2 (proj2 (proj2 (proj2 (history_push_pop w))))) [] snap eq_refl)
      as (v' & Hpop & _).
    by rewrite Hpop.
  - exact (proj2 (proj2 (proj2 (proj2 (proj2 (history_push_pop e))))) eq_refl).
Defined.

(** ** Sorting *)

Section JsSortFacts.
Context {A : Type} (le : A → A → bool).

Lemma insertSorted_perm (x : A) (l : list A) : insertSorted le x l ≡ₚ x :: l.
Proof.
  induction l as [|y l IH]; simpl; [done|].
  destruct (le x y); [done|]. rewrite IH. apply Permutation_swap.
Qed.

Lemma jsSortBy_perm (l : list A) : jsSortBy le l ≡ₚ l.
Proof.
  induction l as [|x l IH]; simpl; [done|].
  rewrite insertSorted_perm. by constructor.
Qed.

Lemma elem_of_jsSortBy (x : A) (l : list A) : x ∈ jsSortBy le l ↔ x ∈ l.
Proof. by rewrite jsSortBy_perm. Qed.

Lemma length_jsSortBy (l : list A) : length (jsSortBy le l) = length l.
Proof. by rewrite jsSortBy_perm. Qed.

Lemma NoDup_jsSortBy (l : list A) : NoDup (jsSortBy le l) ↔ NoDup l.
Proof. by rewrite jsSortBy_perm. Qed.
End JsSortFacts.

Lemma elem_of_sortedElements (x : string) (s : gset string) :
  x ∈ sortedElements s ↔ x ∈ s.
Proof. unfold sortedElements, jsSort. by rewrite elem_of_jsSortBy, elem_of_elements. Qed.

Lemma sortedElements_nil (s : gset string) : sortedElements s = [] ↔ s = ∅.
Proof.
  split.
  - intros Hnil. apply set_eq. intros x. rewrite <- elem_of_sortedElements, Hnil.
    rewrite elem_of_nil. set_solver.
  - intros ->. unfold sortedElements. by rewrite elements_empty.
Qed.

(** ** Object index *)

Lemma foldl_invariant {A B : Type} (P : A → Prop) (f : A → B → A) (l : list B) (a : A) :
  P a → (∀ a x, x ∈ l → P a → P (f a x)) → P (foldl f a l).
Proof.
  revert a. induction l as [|x l IH]; intros a Ha Hstep; simpl; [done|].
  apply IH.
  - apply Hstep; [by left|done].
  - intros a' y Hy. apply Hstep. by right.
Qed.

Lemma elem_of_providerModulesForObject (g : Graph) (obj : Obj.t) (m : string) :
  m ∈ providerModulesForObject g obj ↔
  ∃ pid, pid ∈ Obj.providedBy obj ∧ providerOf g pid m.
Proof.
  unfold providerModulesForObject. rewrite elem_of_sortedElements.
  assert (Hstep : ∀ pid, providerOf g pid m ↔
            providerModule g pid = m
            ∧ truthy (providerModule g pid) && isModule g (providerModule g pid) = true).
  { intros pid. unfold providerOf. rewrite andb_true_iff, truthy_true.
    split; [by intros (<- & ? & ?)|by intros (<- & ? & ?)]. }
  assert (Hgen : ∀ l (acc : gset string),
    m ∈ foldl (λ (providers : gset string) providerId,
                 let modulePath := providerModule g providerId in
                 if truthy modulePath && isModule g modulePath
                 then providers ∪ {[modulePath]} else providers) acc l
    ↔ m ∈ acc ∨ ∃ pid, pid ∈ l ∧ providerOf g pid m).
  { induction l as [|pid l IH]; intros acc; simpl.
    - split; [by left|]. intros [?|(pid & Hin & _)]; [done|]. by apply elem_of_nil in Hin.
    - rewrite IH. split.
      + intros [Hacc|(pid' & Hin & Hres)].
        * destruct (truthy _ && isModule g _) eqn:Hok; [|by left].
          apply elem_of_union in Hacc as [?|Hm]; [by left|].
          apply elem_of_singleton in Hm as ->. right. exists pid. split; [by left|].
          by apply Hstep.
        * right. exists pid'. split; [by right|done].
      + intros [Hacc|(pid' & Hin & Hres)].
        * left. destruct (truthy _ && isModule g _); set_solver.
        * apply elem_of_cons in Hin as [->|Hin].
          -- left. apply Hstep in Hres as [Hm Hok].
             rewrite Hok, Hm. set_solver.
          -- right. by exists pid'. }
  rewrite Hgen. set_solver.
Qed.

Lemma providerModulesForObject_nil (g : Graph) (obj : Obj.t) :
  providerModulesForObject g obj = [] ↔
  ∀ pid m, pid ∈ Obj.providedBy obj → ¬ providerOf g pid m.
Proof.
  split.
  - intros Hnil pid m Hin Hres.
    assert (Hm : m ∈ providerModulesForObject g obj).
    { apply elem_of_providerModulesForObject. by exists pid. }
    rewrite Hnil in Hm. by apply elem_of_nil in Hm.
  - intros Hnone. apply elem_of_nil_inv. intros m Hm.
    apply elem_of_providerModulesForObject in Hm as (pid & Hin & Hres).
    by apply (Hnone pid m).
Qed.

(** Away from the names that plain objects inherit, a provider id yields
    a module exactly when it resolves to it in the words of the
    specification. *)
Lemma providerOf_resolvesTo (g : Graph) (pid m : string) :
  inherited pid = false → inherited m = false →
  providerOf g pid m ↔ resolvesTo g pid m.
Proof.
  intros Hpid Hm. unfold providerOf, resolvesTo, providerModule.
  rewrite !(memberOf_plain _ pid Hpid). fold (constructors g) (decorators g).
  assert (Hmod : isModule g m = true ↔ is_Some (modules g !! m)).
  { split; [by apply isModule_plain|apply isModule_own]. }
  rewrite Hmod.
  destruct (constructors g !! pid) as [ctor|].
  - rewrite orElse_empty. split.
    + intros (<- & ? & ?). split; [done|]. split; [done|]. left. by exists ctor.
    + intros (? & ? & [(ctor' & [= <-] & <-)|[? _]]); done.
  - destruct (decorators g !! pid) as [decor|].
    + rewrite orElse_empty. split.
      * intros (<- & ? & ?). split; [done|]. split; [done|]. right. split; [done|].
        by exists decor.
      * intros (? & ? & [(? & ? & _)|(_ & decor' & [= <-] & <-)]); done.
    + split.
      * by intros (<- & ? & _).
      * intros (? & ? & [(? & ? & _)|(_ & ? & ? & _)]); done.
Qed.

Lemma indexObject_unresolved (g : Graph) (idx : ObjectIndex) (obj : Obj.t) :
  providerModulesForObject g obj = [] → indexObject g idx obj = idx.
Proof. intros Hnil. unfold indexObject. by rewrite Hnil. Qed.

Lemma indexObject_resolved (g : Graph) (idx : ObjectIndex) (obj : Obj.t) :
  providerModulesForObject g obj ≠ [] →
  indexObject g idx obj =
  let signature := objectSignature (Obj.type obj) (Obj.name obj) (Obj.group obj) in
  {| objectIndex := objectIndex idx ++ [entryOf g obj];
     objectRefIndex :=
       <[signature := default [] (objectRefIndex idx !! signature) ++ [entryOf g obj]]>
         (objectRefIndex idx);
     searchEntries :=
       searchEntries idx ++ map (searchEntryOf g obj) (providerModulesForObject g obj) |}.
Proof.
  intros Hne. unfold indexObject.
  rewrite bool_decide_eq_false_2; [done|].
  intros Hlen. by apply Hne, nil_length_inv.
Qed.

Lemma indexObject_withObjects (g : Graph) (objs : list (string * Obj.t)) :
  indexObject (withObjects g objs) = indexObject g.
Proof. by destruct g. Qed.

Lemma foldl_indexObject_filter (g : Graph) (objs : list (string * Obj.t)) (idx : ObjectIndex) :
  foldl (indexObject g) idx (filter (λ kv, providerModulesForObject g kv.2 ≠ []) objs).*2
  = foldl (indexObject g) idx objs.*2.
Proof.
  revert idx. induction objs as [|[k obj] objs IH]; intros idx; [done|].
  rewrite filter_cons. simpl.
  destruct (decide (providerModulesForObject g obj = [])) as [Hnil|Hres].
  - rewrite decide_False by (by intros Hne). simpl.
    rewrite (indexObject_unresolved g idx obj Hnil). apply IH.
  - rewrite decide_True by done. simpl. apply IH.
Qed.

Lemma indexSound_fold (g : Graph) :
  indexSound g (foldl (indexObject g) (mkObjectIndex [] ∅ []) (objects g).*2).
Proof.
  apply foldl_invariant.
  - split; [|split]; simpl.
    + intros entry Hin. by apply elem_of_nil in Hin.
    + intros signature entries entry Hlook. by rewrite lookup_empty in Hlook.
    + intros entry Hin. by apply elem_of_nil in Hin.
  - intros idx obj Hobj (Hidx & Href & Hsearch).
    destruct (decide (providerModulesForObject g obj = [])) as [Hnil|Hres].
    { by rewrite indexObject_unresolved. }
    rewrite (indexObject_resolved g idx obj Hres).
    cbv zeta. cbn [objectIndex objectRefIndex searchEntries]. split; [|split].
    + intros entry Hin. cbn [objectIndex] in Hin.
      apply elem_of_app in Hin as [Hin|Hin]; [by apply Hidx|].
      apply list_elem_of_singleton in Hin as ->. by exists obj.
    + intros signature entries entry Hlook Hin. cbn [objectRefIndex] in Hlook.
      destruct (decide (objectSignature (Obj.type obj) (Obj.name obj) (Obj.group obj)
                        = signature)) as [<-|Hne].
      * rewrite lookup_insert_eq in Hlook. injection Hlook as <-.
        apply elem_of_app in Hin as [Hin|Hin].
        -- destruct (objectRefIndex idx !! _) as [old|] eqn:Hold; simpl in Hin.
           ++ by apply (Href _ old).
           ++ by apply elem_of_nil in Hin.
        -- apply list_elem_of_singleton in Hin as ->. by exists obj.
      * rewrite lookup_insert_ne in Hlook by done. by apply (Href _ entries).
    + intros entry Hin. cbn [searchEntries] in Hin.
      apply elem_of_app in Hin as [Hin|Hin]; [by apply Hsearch|].
      apply list_elem_of_fmap in Hin as (m & -> & Hm). by exists obj.
Qed.

(** The index is the one of the snapshot without the objects that have
    no provider module, and every entry of it is made from an object
    with a provider module. *)
Lemma buildObjectIndex_sound (localeCompare : string → string → Z) (g : Graph) :
  buildObjectIndex localeCompare (withoutUnresolved g) = buildObjectIndex localeCompare g
  ∧ indexSound g (buildObjectIndex localeCompare g).
Proof.
  split.
  - unfold buildObjectIndex, withoutUnresolved.
    rewrite indexObject_withObjects.
    change (objects (withObjects g ?l)) with l.
    by rewrite foldl_indexObject_filter.
  - destruct (indexSound_fold g) as (Hidx & Href & Hsearch).
    unfold buildObjectIndex. split; [|split]; simpl; [done|done|].
    intros entry Hin. apply elem_of_jsSortBy in Hin. by apply Hsearch.
Qed.

(** C8, at the failing input.  The only provider of the object [Store]
    is the constructor [newStore], whose module path [toString] is not a
    key of the module map, so the provider ids of the object resolve to
    no module; the read [state.graph.modules["toString"]] all the same
    finds the inherited member, and the object is indexed, with
    [toString] for its provider module, in the entry list, the signature
    map and the search entries. *)
Theorem buildObjectIndex_inherited_module (localeCompare : string → string → Z) :
  let obj := Obj.mk "o1" "Store" EmptyString EmptyString "pkg.a" ["newStore"] []
                    None None in
  let g := mkGraph {[ "pkg.a" := mkModule EmptyString [] EmptyString ]}
                   (Some [("o1", obj)])
                   (Some {[ "newStore" := Ctor.mk "toString" [] false false ]})
                   (Some ∅) (Some ∅) [] in
  let idx := buildObjectIndex localeCompare g in
  (∀ pid m, pid ∈ Obj.providedBy obj → ¬ resolvesTo g pid m)
  ∧ providerModulesForObject g obj = ["toString"]
  ∧ objectIndex idx = [entryOf g obj]
  ∧ objectRefIndex idx !! "Store||" = Some [entryOf g obj]
  ∧ searchEntries idx = [searchEntryOf g obj "toString"].
Proof.
  intros obj g idx. split.
  - intros pid m Hin (Hm & Hmod & Hres).
    apply list_elem_of_singleton in Hin as ->.
    destruct Hres as [(ctor & Hctor & Hpath)|[Hnone _]].
    + vm_compute in Hctor. injection Hctor as <-. simpl in Hpath. subst m.
      destruct Hmod as [? Hmod]. vm_compute in Hmod. done.
    + vm_compute in Hnone. done.
  - assert (Hprov : providerModulesForObject g obj = ["toString"]) by (by vm_compute).
    split; [done|].
    subst idx. unfold buildObjectIndex.
    change (objects g).*2 with [obj]. cbn [foldl].
    rewrite indexObject_resolved by (by rewrite Hprov).
    cbv zeta. cbn [objectIndex objectRefIndex searchEntries]. rewrite Hprov.
    split; [done|]. split; [|done].
    change (objectSignature (Obj.type obj) (Obj.name obj) (Obj.group obj)) with "Store||".
    by rewrite lookup_insert_eq.
Qed.

(** ** Search *)

Lemma isWhiteSpace_lowerChar (c : Ascii.ascii) :
  isWhiteSpace (lowerChar c) = isWhiteSpace c.
Proof. by destruct c as [[] [] [] [] [] [] [] []]. Qed.

Lemma toLowerCase_empty (s : string) :
  toLowerCase s = EmptyString ↔ s = EmptyString.
Proof. by destruct s. Qed.

Lemma trimStart_toLowerCase (s : string) :
  trimStart (toLowerCase s) = toLowerCase (trimStart s).
Proof.
  induction s as [|c s IH]; simpl; [done|].
  rewrite isWhiteSpace_lowerChar. by destruct (isWhiteSpace c).
Qed.

Lemma trimEnd_toLowerCase (s : string) :
  trimEnd (toLowerCase s) = toLowerCase (trimEnd s).
Proof.
  induction s as [|c s IH]; simpl; [done|].
  rewrite isWhiteSpace_lowerChar, IH.
  destruct (isWhiteSpace c); simpl; [|done].
  destruct (trimEnd s); simpl; done.
Qed.

Lemma trim_toLowerCase (s : string) :
  toLowerCase (trim s) = trim (toLowerCase s).
Proof. unfold trim. by rewrite trimStart_toLowerCase, trimEnd_toLowerCase. Qed.

Lemma trimEnd_empty (s : string) :
  trimEnd s = EmptyString ↔
  ∀ c, c ∈ String.list_ascii_of_string s → isWhiteSpace c = true.
Proof.
  induction s as [|c s IH]; simpl.
  - split; [|done]. intros _ c Hc. by apply elem_of_nil in Hc.
  - destruct (isWhiteSpace c) eqn:Hw; simpl.
    + case_bool_decide as Ht.
      * split; [|done]. intros _ c' [->|Hc']%elem_of_cons; [done|].
        by apply IH.
      * split; [done|]. intros Hall. exfalso. apply Ht, IH.
        intros c' Hc'. apply Hall. by right.
    + split; [done|]. intros Hall. specialize (Hall c (list_elem_of_here _ _)).
      congruence.
Qed.

Lemma trimStart_whitespace (s : string) :
  (∀ c, c ∈ String.list_ascii_of_string s → isWhiteSpace c = true) →
  trimStart s = EmptyString.
Proof.
  induction s as [|c s IH]; simpl; [done|]. intros Hall.
  rewrite (Hall c) by left. apply IH. intros c' Hc'. apply Hall. by right.
Qed.

Lemma trim_empty (s : string) :
  trim s = EmptyString ↔
  ∀ c, c ∈ String.list_ascii_of_string s → isWhiteSpace c = true.
Proof.
  unfold trim. split.
  - intros Ht. pose proof (proj1 (trimEnd_empty _) Ht) as Hall. clear Ht.
    induction s as [|c s IH]; simpl in *.
    + intros c Hc. by apply elem_of_nil in Hc.
    + destruct (isWhiteSpace c) eqn:Hw.
      * intros c' [->|Hc']%elem_of_cons; [done|]. by apply IH.
      * specialize (Hall c (list_elem_of_here _ _)). congruence.
  - intros Hall. by rewrite trimStart_whitespace.
Qed.

Lemma string_app_assoc (a b c : string) : (a +:+ b) +:+ c = a +:+ b +:+ c.
Proof. induction a as [|x a IH]; [done|]. unfold String.app in *. simpl. by f_equal. Qed.

Lemma includes_spec (s q : string) :
  includes s q = true ↔ ∃ a b, s = a +:+ q +:+ b.
Proof.
  induction s as [|c s IH].
  - simpl. rewrite orb_false_r. split.
    + intros [rest Hrest]%(startsWith_inv EmptyString q). by exists EmptyString, rest.
    + intros (a & b & Hab). destruct a; [|done]. unfold String.app in Hab. simpl in Hab.
      destruct q; [done|done].
  - cbn [includes]. rewrite orb_true_iff, IH. split.
    + intros [Hp|(a & b & ->)].
      * apply (startsWith_inv (String c s) q) in Hp as [rest Hrest].
        by exists EmptyString, rest.
      * by exists (String c a), b.
    + intros (a & b & Hab). destruct a as [|x a].
      * left. change (EmptyString +:+ q +:+ b) with (q +:+ b) in Hab.
        rewrite Hab. apply (startsWith_app q b).
      * right. unfold String.app in Hab. simpl in Hab. injection Hab as _ ->.
        by exists a, b.
Qed.

Lemma searchEntries_key (localeCompare : string → string → Z) (g : Graph)
    (entry : SearchEntry.t) :
  entry ∈ searchEntries (buildObjectIndex localeCompare g) →
  SearchEntry.searchKey entry = toLowerCase (SearchEntry.label entry).
Proof.
  intros Hin. unfold buildObjectIndex in Hin. simpl in Hin.
  apply elem_of_jsSortBy in Hin.
  destruct (indexSound_fold g) as (_ & _ & Hsearch).
  destruct (Hsearch entry Hin) as (obj & _ & _ & ->). done.
Qed.

(** C6 as the program has it.  The query is trimmed and lowercased (in
    either order); the matches are exactly the entries whose search key
    has it as a substring, in the order of the entries, the search key of
    an entry of the index being its lowercased label; a query that is
    empty or white space only, and no other, gives the type-to-search
    state; without a match the no-matches state is shown; otherwise the
    first 50 matches are shown, and the number of matches is reported
    only when it exceeds 50. *)
Theorem renderSearchResults_spec (entries : list SearchEntry.t) (query : string) :
  let q := toLowerCase (trim query) in
  let matches := searchMatches entries q in
  q = trim (toLowerCase query)
  ∧ (∀ localeCompare g entry,
       entry ∈ searchEntries (buildObjectIndex localeCompare g) →
       SearchEntry.searchKey entry = toLowerCase (SearchEntry.label entry))
  ∧ (∀ entry, entry ∈ matches ↔
       entry ∈ entries ∧ ∃ a b, SearchEntry.searchKey entry = a +:+ q +:+ b)
  ∧ sublist matches entries
  ∧ (renderSearchResults entries query = TypeToSearch ↔
     ∀ c, c ∈ String.list_ascii_of_string query → isWhiteSpace c = true)
  ∧ (q ≠ EmptyString → matches = [] → renderSearchResults entries query = NoMatches)
  ∧ (q ≠ EmptyString → matches ≠ [] →
     ∃ rows more,
       renderSearchResults entries query = Results rows more
       ∧ rows = resultRow <$> take 50 matches
       ∧ length rows ≤ 50
       ∧ (length matches ≤ 50 → more = None ∧ length rows = length matches)
       ∧ (50 < length matches → more = Some (length matches))).
Proof.
  intros q matches.
  split; [apply trim_toLowerCase|].
  split; [apply searchEntries_key|].
  split.
  { intros entry. unfold matches, searchMatches.
    rewrite list_elem_of_filter, includes_spec. tauto. }
  split; [apply sublist_filter|].
  unfold renderSearchResults. rewrite orElse_empty. fold q. fold matches.
  split.
  { rewrite <- trim_empty. split.
    - destruct (truthy q) eqn:Hq; simpl.
      + case_bool_decide; done.
      + intros _. apply truthy_false in Hq. exact (proj1 (toLowerCase_empty _) Hq).
    - intros Hws. assert (Hq : q = EmptyString) by (unfold q; by rewrite Hws).
      by rewrite Hq. }
  split.
  { intros Hq Hm. apply truthy_true in Hq. rewrite Hq. simpl. by rewrite Hm. }
  intros Hq Hm. apply truthy_true in Hq. rewrite Hq. simpl negb. cbv iota.
  rewrite bool_decide_eq_false_2 by (by destruct matches).
  eexists _, _. split; [done|]. split; [done|].
  rewrite length_fmap, length_take. split; [lia|]. split.
  - intros Hle. rewrite bool_decide_eq_false_2 by lia. split; [done|lia].
  - intros Hlt. by rewrite bool_decide_eq_true_2.
Qed.

Lemma renderSearchResults_spec_witness :
  let foo := SearchEntry.mk "Foo" "pkg.a" "Foo||" "foo" false in
  let bar := SearchEntry.mk "Bar" "pkg.b" "Bar||" "bar" false in
  renderSearchResults [foo; bar] "   " = TypeToSearch
  ∧ renderSearchResults [foo; bar] "zz" = NoMatches
  ∧ ∃ rows more, renderSearchResults [foo; bar] " Fo" = Results rows more
                 ∧ rows = [resultRow foo].
Proof.
  intros foo bar.
  destruct (renderSearchResults_spec [foo; bar] "   ") as (_ & _ & _ & _ & Hws & _).
  destruct (renderSearchResults_spec [foo; bar] "zz") as (_ & _ & _ & _ & _ & Hnone & _).
  destruct (renderSearchResults_spec [foo; bar] " Fo") as (_ & _ & _ & _ & _ & _ & Hsome).
  split.
  - apply Hws. intros c Hc. vm_compute in Hc.
    repeat (apply elem_of_cons in Hc as [->|Hc]; [reflexivity|]).
    by apply elem_of_nil in Hc.
  - split; [by apply Hnone|].
    destruct Hsome as (rows & more & Hview & Hrows & _); [done|done|].
    exists rows, more. split; [exact Hview|]. rewrite Hrows. reflexivity.
Defined.

(** C6, counterexample: one match out of two entries is shown without
    any count of the matches. *)
Lemma renderSearchResults_count_not_reported :
  let foo := SearchEntry.mk "Foo" "pkg.a" "Foo||" "foo" false in
  let bar := SearchEntry.mk "Bar" "pkg.b" "Bar||" "bar" false in
  length (searchMatches [foo; bar] "fo") = 1
  ∧ renderSearchResults [foo; bar] "fo" = Results [mkRow "Foo" "pkg.a" false] None.
Proof. split; reflexivity. Qed.

(** ** Tree validity *)

Section TreeFacts.
Context (g : Graph) (level : string → nat) (bound : nat).
Hypothesis Hok : TreeOk g level bound.

Lemma childrenOf_module (p c : string) :
  c ∈ childrenOf g p → ∃ m, modules g !! p = Some m ∧ c ∈ children m.
Proof.
  unfold childrenOf. destruct (modules g !! p) as [m|]; simpl.
  - intros. by exists m.
  - intros Hc. by apply elem_of_nil in Hc.
Qed.

Lemma tree_child (p c : string) :
  c ∈ childrenOf g p → is_Some (modules g !! c) ∧ parentOf g c = p.
Proof.
  intros (m & Hm & Hc)%childrenOf_module.
  destruct Hok as (Hchild & _).
  specialize (Hchild p m Hm). simpl in Hchild.
  rewrite Forall_forall in Hchild. specialize (Hchild c Hc).
  unfold parentOf. destruct (modules g !! c) as [mc|]; simpl in *; [|done].
  split; [by eexists|]. congruence.
Qed.

Lemma tree_parent (m : string) :
  is_Some (modules g !! m) → is_Some (modules g !! parentOf g m) →
  m ∈ childrenOf g (parentOf g m).
Proof.
  intros [mm Hm] Hpm.
  destruct Hok as (_ & Hparent & _).
  specialize (Hparent m mm Hm). simpl in Hparent.
  unfold parentOf in *. rewrite Hm in *. simpl in *. by apply Hparent.
Qed.

Lemma tree_nodup (p : string) : NoDup (childrenOf g p).
Proof.
  unfold childrenOf. destruct (modules g !! p) as [m|] eqn:Hm; simpl.
  - destruct Hok as (_ & _ & Hnodup & _). exact (Hnodup p m Hm).
  - constructor.
Qed.

Lemma tree_level (p c : string) : c ∈ childrenOf g p → level p < level c.
Proof.
  intros (m & Hm & Hc)%childrenOf_module.
  destruct Hok as (_ & _ & _ & Hlevel & _).
  specialize (Hlevel p m Hm). simpl in Hlevel.
  rewrite Forall_forall in Hlevel. by apply Hlevel.
Qed.

Lemma tree_bound (p : string) : is_Some (modules g !! p) → level p < bound.
Proof.
  intros [m Hm]. destruct Hok as (_ & _ & _ & _ & Hbound & _).
  exact (Hbound p m Hm).
Qed.

Lemma tree_no_empty : modules g !! EmptyString = None.
Proof.
  destruct Hok as (_ & _ & _ & _ & _ & Hno & _).
  by apply eq_None_not_Some.
Qed.

Lemma tree_no_root : modules g !! ROOT_KEY = None.
Proof.
  destruct Hok as (_ & _ & _ & _ & _ & _ & Hno).
  by apply eq_None_not_Some.
Qed.

Lemma tree_child_bound (p c : string) : c ∈ childrenOf g p → level p < level c < bound.
Proof.
  intros Hc. split; [by apply tree_level|].
  apply tree_bound. by apply (tree_child p c).
Qed.

Lemma iter_parent_succ (k : nat) (q : string) :
  Nat.iter (S k) (parentOf g) q = Nat.iter k (parentOf g) (parentOf g q).
Proof. induction k as [|k IH]; [done|]. simpl in *. by rewrite IH. Qed.

Lemma chain_parent (k : nat) (p q : string) :
  chain g k p q → Nat.iter k (parentOf g) q = p.
Proof.
  induction 1 as [p|k p q c Hch IH Hc]; [done|].
  rewrite iter_parent_succ. apply tree_child in Hc as [_ ->]. exact IH.
Qed.

Lemma chain_level (k : nat) (p q : string) : chain g k p q → level p + k ≤ level q.
Proof.
  induction 1 as [p|k p q c Hch IH Hc]; [lia|].
  apply tree_level in Hc. lia.
Qed.

Lemma chain_module (k : nat) (p q : string) :
  chain g k p q → is_Some (modules g !! p) → is_Some (modules g !! q).
Proof.
  induction 1 as [p|k p q c Hch IH Hc]; [done|].
  intros _. by apply (tree_child q c).
Qed.

Lemma chain_prefix (k : nat) (p q : string) :
  chain g k p q → ∀ j, j ≤ k → chain g (k - j) p (Nat.iter j (parentOf g) q).
Proof.
  induction 1 as [p|k p q c Hch IH Hc]; intros j Hj.
  - assert (j = 0) as -> by lia. constructor.
  - destruct j as [|j].
    + simpl. by econstructor.
    + rewrite iter_parent_succ. apply tree_child in Hc as [_ ->].
      replace (S k - S j) with (k - j) by lia. apply IH. lia.
Qed.

(** Two chains that end in the same module and start in children of one
    module start in the same child. *)
Lemma chain_siblings (p c1 c2 z : string) (k1 k2 : nat) :
  c1 ∈ childrenOf g p → c2 ∈ childrenOf g p →
  chain g k1 c1 z → chain g k2 c2 z → c1 = c2.
Proof.
  assert (Hlt : ∀ c1 c2 k1 k2,
    c1 ∈ childrenOf g p → c2 ∈ childrenOf g p →
    chain g k1 c1 z → chain g k2 c2 z → k1 < k2 → False).
  { clear c1 c2 k1 k2. intros c1 c2 k1 k2 Hc1 Hc2 Hch1 Hch2 Hlt.
    pose proof (chain_prefix _ _ _ Hch2 (S k1) ltac:(lia)) as Hpre.
    simpl in Hpre. rewrite (chain_parent _ _ _ Hch1) in Hpre.
    apply tree_child in Hc1 as [_ Hp]. rewrite Hp in Hpre.
    apply chain_level in Hpre. apply tree_level in Hc2. lia. }
  intros Hc1 Hc2 Hch1 Hch2.
  destruct (lt_eq_lt_dec k1 k2) as [[Hlt'| ->]|Hlt'].
  - exfalso. by apply (Hlt c1 c2 k1 k2).
  - apply chain_parent in Hch1, Hch2. congruence.
  - exfalso. by apply (Hlt c2 c1 k2 k1).
Qed.

(** Two chains that end in the same module and start in root modules
    start in the same root. *)
Lemma chain_roots (r1 r2 z : string) (k1 k2 : nat) :
  is_Some (modules g !! r1) → is_Some (modules g !! r2) →
  isRootModule g r1 = true → isRootModule g r2 = true →
  chain g k1 r1 z → chain g k2 r2 z → r1 = r2.
Proof.
  assert (Hlt : ∀ r1 r2 k1 k2,
    is_Some (modules g !! r2) → isRootModule g r1 = true →
    chain g k1 r1 z → chain g k2 r2 z → k1 < k2 → False).
  { clear r1 r2 k1 k2. intros r1 r2 k1 k2 Hm2 Hroot Hch1 Hch2 Hlt.
    pose proof (chain_prefix _ _ _ Hch2 (S k1) ltac:(lia)) as Hpre.
    simpl in Hpre. rewrite (chain_parent _ _ _ Hch1) in Hpre.
    pose proof (chain_module _ _ _ Hpre Hm2) as Hpm.
    apply isRootModule_true in Hroot as [Hroot|[Hroot _]].
    - rewrite Hroot, tree_no_empty in Hpm. by destruct Hpm.
    - rewrite Hroot in Hpm. by destruct Hpm. }
  intros Hm1 Hm2 Hr1 Hr2 Hch1 Hch2.
  destruct (lt_eq_lt_dec k1 k2) as [[Hlt'| ->]|Hlt'].
  - exfalso. by apply (Hlt r1 r2 k1 k2).
  - apply chain_parent in Hch1, Hch2. congruence.
  - exfalso. by apply (Hlt r2 r1 k2 k1).
Qed.
End TreeFacts.

(** ** Subtree sizes *)

Lemma forEachM_app {A S : Type} (body : S → A → option S) (l1 l2 : list A) (s : S) :
  forEachM body (l1 ++ l2) s = forEachM body l1 s ≫= forEachM body l2.
Proof.
  revert s. induction l1 as [|a l1 IH]; intros s; simpl; [done|].
  destruct (body s a) as [s'|]; simpl; [apply IH|done].
Qed.

Lemma forEachM_sum {A : Type} (f : A → option nat) (l : list A) (count : nat) :
  forEachM (λ count child, n ← f child; Some (count + n)) l count
  = sizes ← mapM f l; Some (count + sum_list sizes).
Proof.
  revert count. induction l as [|a l IH]; intros count; simpl.
  - f_equal. lia.
  - destruct (f a) as [n|]; simpl; [|done].
    rewrite IH. destruct (mapM f l) as [sizes|]; simpl; [|done].
    f_equal. lia.
Qed.

Lemma sumSizes_sum_list (sizes : list nat) : sumSizes sizes = sum_list sizes.
Proof.
  unfold sumSizes.
  assert (Hgen : ∀ acc, foldl (λ sum val, sum + val) acc sizes = acc + sum_list sizes).
  { induction sizes as [|s sizes IH]; intros acc; simpl; [lia|]. rewrite IH. lia. }
  apply Hgen.
Qed.

Section SizeFacts.
Context (g : Graph) (expanded : gset string).

Lemma countVisible_unfold (fuel : nat) (p : string) :
  countVisible g expanded (S fuel) p =
  if bool_decide (p ∉ expanded) then Some 1
  else sizes ← mapM (countVisible g expanded fuel) (jsSort (childrenOf g p));
       Some (1 + sum_list sizes).
Proof. cbn [countVisible]. case_bool_decide; [done|]. apply forEachM_sum. Qed.

Lemma countVisible_succ (fuel : nat) (p : string) (v : nat) :
  countVisible g expanded fuel p = Some v →
  countVisible g expanded (S fuel) p = Some v.
Proof.
  revert p v. induction fuel as [|fuel IH]; intros p v; [done|].
  rewrite !countVisible_unfold. case_bool_decide; [done|].
  destruct (mapM (countVisible g expanded fuel) _) as [sizes|] eqn:Hsizes; [|done].
  intros Hv. apply mapM_Some in Hsizes.
  assert (Hsizes' : mapM (countVisible g expanded (S fuel))
                      (jsSort (childrenOf g p)) = Some sizes).
  { apply mapM_Some. eapply Forall2_impl; [exact Hsizes|]. intros c s. apply IH. }
  by rewrite Hsizes'.
Qed.

Lemma countVisible_mono (fuel fuel' : nat) (p : string) (v : nat) :
  fuel ≤ fuel' →
  countVisible g expanded fuel p = Some v →
  countVisible g expanded fuel' p = Some v.
Proof. induction 1; [done|]. intros. by apply countVisible_succ, IHle. Qed.

Lemma countVisible_shown (fuel : nat) (p : string) (v : nat) :
  countVisible g expanded fuel p = Some v →
  v = length (shownBelow g expanded fuel p).
Proof.
  revert p v. induction fuel as [|fuel IH]; intros p v; [done|].
  rewrite countVisible_unfold. cbn [shownBelow]. case_bool_decide; [by intros [= <-]|].
  destruct (mapM _ _) as [sizes|] eqn:Hsizes; [|done]. intros [= <-].
  change (1 + sum_list sizes) with (S (sum_list sizes)). cbn [length]. f_equal.
  apply mapM_Some in Hsizes.
  induction Hsizes as [|c s cs sizes Hc _ IHs]; [done|].
  rewrite bind_cons, length_app, <- IHs, <- (IH c s Hc). done.
Qed.

Lemma shownBelow_chain (fuel : nat) (p x : string) :
  x ∈ shownBelow g expanded fuel p → ∃ k, chain g k p x.
Proof.
  revert p. induction fuel as [|fuel IH]; intros p; simpl.
  - intros Hx. by apply elem_of_nil in Hx.
  - intros [->|Hx]%elem_of_cons; [exists 0; constructor|].
    case_bool_decide; [by apply elem_of_nil in Hx|].
    apply list_elem_of_bind in Hx as (c & Hx & Hc).
    apply elem_of_jsSortBy in Hc.
    destruct (IH c Hx) as [k Hk]. exists (S k).
    clear -Hk Hc. induction Hk as [c|k c q c' Hch IHk Hc'].
    + apply (chain_step g 0 p p c); [constructor|done].
    + by apply (chain_step g (S k) p q c'); [apply IHk|].
Qed.

(** Below the head, a shown module is a child of an expanded module. *)
Lemma shownBelow_parent (fuel : nat) (p x : string) :
  x ∈ shownBelow g expanded fuel p →
  x = p ∨ ∃ q, q ∈ expanded ∧ x ∈ childrenOf g q.
Proof.
  revert p. induction fuel as [|fuel IH]; intros p; simpl.
  - intros Hx. by apply elem_of_nil in Hx.
  - intros [->|Hx]%elem_of_cons; [by left|]. right.
    case_bool_decide as Hp; [by apply elem_of_nil in Hx|].
    apply list_elem_of_bind in Hx as (c & Hx & Hc).
    apply elem_of_jsSortBy in Hc.
    destruct (IH c Hx) as [->|Hq]; [by exists p|done].
Qed.
End SizeFacts.

Lemma NoDup_bind_disjoint {A B : Type} (f : A → list B) (l : list A) :
  NoDup l → (∀ x, x ∈ l → NoDup (f x)) →
  (∀ x y z, x ∈ l → y ∈ l → z ∈ f x → z ∈ f y → x = y) →
  NoDup (l ≫= f).
Proof.
  induction 1 as [|x l Hx Hl IH]; intros Hf Hdisj; simpl; [constructor|].
  apply NoDup_app. split; [apply Hf; by left|]. split.
  - intros z Hz Hz'. apply list_elem_of_bind in Hz' as (y & Hzy & Hy).
    assert (x = y) as -> by (apply (Hdisj x y z); [by left|by right|done|done]).
    done.
  - apply IH.
    + intros y Hy. apply Hf. by right.
    + intros y1 y2 z Hy1 Hy2. apply Hdisj; by right.
Qed.

Section SizeTreeFacts.
Context (g : Graph) (expanded : gset string) (level : string → nat) (bound : nat).
Hypothesis Hok : TreeOk g level bound.

Lemma NoDup_shownBelow (fuel : nat) (p : string) :
  NoDup (shownBelow g expanded fuel p).
Proof.
  revert p. induction fuel as [|fuel IH]; intros p; simpl; [constructor|].
  constructor.
  - case_bool_decide; [by intros ?%elem_of_nil|].
    intros (c & Hx & Hc)%list_elem_of_bind. apply elem_of_jsSortBy in Hc.
    apply shownBelow_chain in Hx as [k Hk].
    apply (chain_level g level bound Hok) in Hk.
    apply (tree_level g level bound Hok) in Hc. lia.
  - case_bool_decide; [constructor|].
    apply NoDup_bind_disjoint.
    + apply NoDup_jsSortBy, (tree_nodup g level bound Hok).
    + intros c _. apply IH.
    + intros c1 c2 z Hc1 Hc2 Hz1 Hz2.
      apply elem_of_jsSortBy in Hc1, Hc2.
      apply shownBelow_chain in Hz1 as [k1 Hk1].
      apply shownBelow_chain in Hz2 as [k2 Hk2].
      by apply (chain_siblings g level bound Hok p c1 c2 z k1 k2).
Qed.

Lemma countVisible_total (fuel : nat) (p : string) :
  is_Some (modules g !! p) → bound - level p ≤ fuel →
  is_Some (countVisible g expanded fuel p).
Proof.
  revert p. induction fuel as [|fuel IH]; intros p Hp Hfuel.
  - apply (tree_bound g level bound Hok) in Hp. lia.
  - rewrite countVisible_unfold. case_bool_decide; [done|].
    assert (Hall : is_Some (mapM (countVisible g expanded fuel)
                              (jsSort (childrenOf g p)))).
    { apply mapM_is_Some, Forall_forall. intros c Hc.
      apply elem_of_jsSortBy in Hc. simpl.
      pose proof (tree_child_bound g level bound Hok p c Hc).
      apply IH; [by apply (tree_child g level bound Hok p c)|lia]. }
    destruct Hall as [sizes ->]. done.
Qed.
End SizeTreeFacts.

Lemma demoGraph_ok : TreeOk demoGraph String.length 8.
Proof. apply (bool_decide_unpack _). by vm_compute. Qed.

Section SubtreeFacts.
Context (g : Graph) (expanded : gset string).

Lemma list_to_set_bind_perm (f : string → list string) (l l' : list string) :
  l ≡ₚ l' → (list_to_set (l ≫= f) : gset string) = list_to_set (l' ≫= f).
Proof.
  intros Hperm. apply set_eq. intros x.
  rewrite !elem_of_list_to_set, !list_elem_of_bind.
  by setoid_rewrite Hperm.
Qed.

Lemma walkSubtree_shown (fuel : nat) (p : string) (acc sub : gset string) :
  walkSubtree g fuel acc p = Some sub →
  ∃ D, sub = acc ∪ D ∧ p ∈ D
       ∧ (D ⊆ expanded → D = list_to_set (shownBelow g expanded fuel p)).
Proof.
  revert p acc sub. induction fuel as [|fuel IH]; intros p acc sub; [done|].
  cbn [walkSubtree shownBelow].
  assert (Hloop : ∀ l a s,
    forEachM (walkSubtree g fuel) l a = Some s →
    ∃ D, s = a ∪ D
         ∧ (D ⊆ expanded → D = list_to_set (l ≫= shownBelow g expanded fuel))).
  { induction l as [|c l IHl]; intros a s; simpl.
    - intros [= <-]. exists ∅. split; [set_solver|]. done.
    - destruct (walkSubtree g fuel a c) as [s1|] eqn:Hc; simpl; [|done].
      intros Hl. apply IH in Hc as (D1 & -> & _ & HD1).
      apply IHl in Hl as (DL & -> & HDL).
      exists (D1 ∪ DL). split; [set_solver|].
      intros HD. rewrite list_to_set_app_L.
      rewrite (HD1 ltac:(set_solver)) at 1. rewrite (HDL ltac:(set_solver)) at 1.
      done. }
  intros Hwalk. apply Hloop in Hwalk as (D & -> & HD).
  exists ({[p]} ∪ D). split; [set_solver|]. split; [set_solver|].
  intros Hsub. rewrite bool_decide_eq_false_2 by set_solver.
  rewrite list_to_set_cons.
  rewrite (list_to_set_bind_perm _ _ (childrenOf g p)) by apply jsSortBy_perm.
  rewrite <- HD by set_solver. done.
Qed.
End SubtreeFacts.

Section SubtreeTreeFacts.
Context (g : Graph) (level : string → nat) (bound : nat).
Hypothesis Hok : TreeOk g level bound.

Lemma walkSubtree_total (fuel : nat) (p : string) (acc : gset string) :
  is_Some (modules g !! p) → bound - level p ≤ fuel →
  is_Some (walkSubtree g fuel acc p).
Proof.
  revert p acc. induction fuel as [|fuel IH]; intros p acc Hp Hfuel.
  - apply (tree_bound g level bound Hok) in Hp. lia.
  - cbn [walkSubtree].
    assert (Hloop : ∀ l a, (∀ c, c ∈ l → c ∈ childrenOf g p) →
              is_Some (forEachM (walkSubtree g fuel) l a)).
    { induction l as [|c l IHl]; intros a Hl; simpl; [done|].
      assert (Hc : c ∈ childrenOf g p) by (apply Hl; by left).
      pose proof (tree_child_bound g level bound Hok p c Hc).
      destruct (IH c a) as [s ->]; [by apply (tree_child g level bound Hok p c)|lia|].
      simpl. apply IHl. intros c' Hc'. apply Hl. by right. }
    by apply Hloop.
Qed.
End SubtreeTreeFacts.

(** C2.  For a module of a valid tree and enough fuel, [countVisible]
    returns 1 for a path that is not expanded, and otherwise 1 plus the
    sum of what it returns for the children in sorted order; and when
    every module that [collectModuleSubtree] finds at and below the path
    is expanded, the result is 1 plus the number of those modules other
    than the path itself. *)
Theorem countVisible_spec (g : Graph) (level : string → nat) (bound : nat)
    (expanded : gset string) (fuel : nat) (p : string) :
  TreeOk g level bound → is_Some (modules g !! p) → bound ≤ fuel →
  (p ∉ expanded → countVisible g expanded fuel p = Some 1)
  ∧ (p ∈ expanded →
     ∃ sizes,
       Forall2 (λ child size, countVisible g expanded fuel child = Some size)
               (jsSort (childrenOf g p)) sizes
       ∧ countVisible g expanded fuel p = Some (1 + sum_list sizes))
  ∧ (∃ sub, collectModuleSubtree g fuel p = Some sub ∧ p ∈ sub
            ∧ (sub ⊆ expanded →
               countVisible g expanded fuel p = Some (1 + size (sub ∖ {[p]})))).
Proof.
  intros Hok Hp Hfuel.
  pose proof (tree_bound g level bound Hok p Hp) as Hlevel.
  destruct fuel as [|fuel]; [lia|].
  split; [|split].
  - intros Hclosed. rewrite countVisible_unfold. by rewrite bool_decide_eq_true_2.
  - intros Hopen.
    destruct (countVisible_total g expanded level bound Hok (S fuel) p Hp ltac:(lia))
      as [v Hv].
    rewrite Hv. rewrite countVisible_unfold in Hv.
    rewrite bool_decide_eq_false_2 in Hv by (by intros ?).
    destruct (mapM _ _) as [sizes|] eqn:Hsizes; [|done]. injection Hv as <-.
    exists sizes. split; [|done].
    apply mapM_Some in Hsizes. eapply Forall2_impl; [exact Hsizes|].
    intros c s. apply countVisible_succ.
  - assert (Hne : p ≠ EmptyString).
    { intros ->. rewrite (tree_no_empty g level bound Hok) in Hp. by destruct Hp. }
    unfold collectModuleSubtree.
    rewrite (proj2 (truthy_true p) Hne). simpl negb. cbv iota.
    destruct (walkSubtree_total g level bound Hok (S fuel) p ∅ Hp ltac:(lia))
      as [sub Hsub].
    exists sub. split; [done|].
    destruct (walkSubtree_shown g expanded _ _ _ _ Hsub) as (D & -> & HpD & HD).
    split; [set_solver|]. intros Hexp.
    assert (HDexp : D ⊆ expanded) by set_solver.
    destruct (countVisible_total g expanded level bound Hok (S fuel) p Hp ltac:(lia))
      as [v Hv].
    rewrite Hv. f_equal. apply countVisible_shown in Hv as ->.
    assert (HDeq : ∅ ∪ D = D) by set_solver. rewrite HDeq.
    assert (Hsize : size D = length (shownBelow g expanded (S fuel) p)).
    { rewrite (HD HDexp). apply size_list_to_set.
      apply (NoDup_shownBelow g expanded level bound Hok). }
    rewrite <- Hsize.
    assert (Hsplit : D = {[p]} ∪ D ∖ {[p]}).
    { apply set_eq. intros x. destruct (decide (x = p)); set_solver. }
    rewrite Hsplit at 1. rewrite size_union by set_solver. by rewrite size_singleton.
Qed.

Lemma countVisible_spec_witness :
  countVisible demoGraph ∅ 8 "pkg" = Some 1
  ∧ (∃ sizes, Forall2 (λ child size, countVisible demoGraph {[ "pkg" ]} 8 child = Some size)
                      ["pkg.a"; "pkg.b"] sizes
              ∧ countVisible demoGraph {[ "pkg" ]} 8 "pkg" = Some (1 + sum_list sizes))
  ∧ (∃ sub, collectModuleSubtree demoGraph 8 "pkg" = Some sub
            ∧ countVisible demoGraph demoExpanded 8 "pkg"
              = Some (1 + size (sub ∖ {[ "pkg" ]}))).
Proof.
  assert (Hp : is_Some (modules demoGraph !! "pkg")) by (by eexists).
  split; [|split].
  - apply (countVisible_spec demoGraph String.length 8 ∅ 8 "pkg" demoGraph_ok Hp (le_n 8)).
    set_solver.
  - apply (countVisible_spec demoGraph String.length 8 {[ "pkg" ]} 8 "pkg"
             demoGraph_ok Hp (le_n 8)).
    set_solver.
  - destruct (countVisible_spec demoGraph String.length 8 demoExpanded 8 "pkg"
                demoGraph_ok Hp (le_n 8)) as (_ & _ & sub & Hsub & _ & Hfull).
    exists sub. split; [exact Hsub|]. apply Hfull.
    assert (Hall : collectModuleSubtree demoGraph 8 "pkg" = Some demoExpanded)
      by (by vm_compute).
    rewrite Hall in Hsub. by injection Hsub as <-.
Defined.

(** ** Placement *)

Lemma insertAll_app (l1 l2 : list (string * Pos)) (m : gmap string Pos) :
  insertAll (l1 ++ l2) m = insertAll l2 (insertAll l1 m).
Proof. unfold insertAll. apply foldl_app. Qed.

Lemma insertAll_lookup_notin (l : list (string * Pos)) (m : gmap string Pos) (k : string) :
  k ∉ l.*1 → insertAll l m !! k = m !! k.
Proof.
  revert m. induction l as [|[k' v'] l IH]; intros m Hk; [done|].
  simpl in Hk. apply not_elem_of_cons in Hk as [Hne Hk].
  unfold insertAll in *. simpl. rewrite IH by done. by rewrite lookup_insert_ne.
Qed.

Lemma insertAll_lookup (l : list (string * Pos)) (m : gmap string Pos) (k : string) (v : Pos) :
  NoDup l.*1 → (k, v) ∈ l → insertAll l m !! k = Some v.
Proof.
  revert m. induction l as [|[k' v'] l IH]; intros m Hnd Hin.
  - by apply elem_of_nil in Hin.
  - simpl in Hnd. apply NoDup_cons in Hnd as [Hk' Hnd].
    apply elem_of_cons in Hin as [[= <- <-]|Hin].
    + change (insertAll ((k, v) :: l) m) with (insertAll l (<[k := v]> m)).
      rewrite insertAll_lookup_notin by done. apply lookup_insert_eq.
    + change (insertAll ((k', v') :: l) m) with (insertAll l (<[k' := v']> m)).
      by apply IH.
Qed.

Lemma insertAll_lookup_inv (l : list (string * Pos)) (m : gmap string Pos) (k : string) (v : Pos) :
  insertAll l m !! k = Some v → k ∈ l.*1 ∨ m !! k = Some v.
Proof.
  destruct (decide (k ∈ l.*1)) as [?|Hk]; [by left|].
  rewrite insertAll_lookup_notin by done. by right.
Qed.

Lemma elem_of_stacked (placeChild : string → Z → list (string * Pos)) (size : string → nat)
    (items : list string) (cursor : Z) (w : string * Pos) :
  w ∈ stacked placeChild size items cursor ↔
  ∃ i c, items !! i = Some c
         ∧ w ∈ placeChild c (cursor + 2 * Z.of_nat (sum_list (take i (size <$> items)))
                             + Z.of_nat (size c))%Z.
Proof.
  assert (Hat : ∀ c a b, a = b → w ∈ placeChild c a → w ∈ placeChild c b)
    by (by intros ??? ->).
  revert cursor. induction items as [|c items IH]; intros cursor.
  - split; [by intros ?%elem_of_nil|]. by intros (i & c & Hi & _).
  - cbn [stacked]. rewrite elem_of_app, IH. split.
    + intros [Hw|(i & c' & Hi & Hw)].
      * exists 0, c. split; [done|].
        eapply Hat; [|exact Hw]. rewrite take_0. simpl. lia.
      * exists (S i), c'. split; [done|].
        eapply Hat; [|exact Hw]. rewrite fmap_cons, firstn_cons. simpl sum_list. lia.
    + intros (i & c' & Hi & Hw). destruct i as [|i].
      * injection Hi as <-. left. eapply Hat; [|exact Hw].
        rewrite take_0. simpl. lia.
      * right. exists i, c'. split; [done|]. eapply Hat; [|exact Hw].
        rewrite fmap_cons, firstn_cons. simpl sum_list. lia.
Qed.

Lemma stacked_keys (placeChild : string → Z → list (string * Pos)) (size : string → nat)
    (keys : string → list string) (items : list string) (cursor : Z) :
  (∀ c y, (placeChild c y).*1 = keys c) →
  (stacked placeChild size items cursor).*1 = items ≫= keys.
Proof.
  intros Hkeys. revert cursor. induction items as [|c items IH]; intros cursor; [done|].
  simpl. by rewrite fmap_app, Hkeys, IH.
Qed.

Section PlaceFacts.
Context (g : Graph) (expanded : gset string).

Lemma placements_keys (fuel : nat) (p : string) (d y : Z) :
  (placements g expanded fuel p d y).*1 = shownBelow g expanded fuel p.
Proof.
  revert p d y. induction fuel as [|fuel IH]; intros p d y; [done|].
  cbn [placements shownBelow fmap list_fmap fst]. f_equal.
  case_bool_decide; [done|].
  apply stacked_keys. intros c yc. apply IH.
Qed.

Lemma sizes_shown (fuel : nat) (items : list string) (sizes : list nat) :
  mapM (countVisible g expanded fuel) items = Some sizes →
  sizes = (λ c, length (shownBelow g expanded fuel c)) <$> items.
Proof.
  intros Hsizes%mapM_Some.
  induction Hsizes as [|c s cs sizes Hc _ IH]; [done|].
  simpl. f_equal; [by apply countVisible_shown|done].
Qed.

Lemma forEachM_stackChild (placeChild : string → Z → Layout.t → option Layout.t)
    (trace : string → Z → list (string * Pos)) (size : string → nat) (from : string) :
  (∀ c y L L', placeChild c y L = Some L' →
     Layout.positions L' = insertAll (trace c y) (Layout.positions L)) →
  ∀ items cursor L r,
    forEachM (stackChild placeChild from) (zip items (size <$> items)) (L, cursor) = Some r →
    Layout.positions r.1
    = insertAll (stacked trace size items cursor) (Layout.positions L).
Proof.
  intros Hplace. induction items as [|c items IH]; intros cursor L r; simpl.
  - by intros [= <-].
  - destruct (placeChild c _ _) as [L1|] eqn:Hc; simpl; [|done].
    intros Hrest. apply IH in Hrest. rewrite Hrest.
    apply Hplace in Hc. simpl in Hc. by rewrite insertAll_app, Hc.
Qed.

Lemma place_positions (fuel : nat) (p : string) (d y : Z) (L L' : Layout.t) :
  place g expanded fuel p d y L = Some L' →
  Layout.positions L'
  = insertAll (placements g expanded fuel p d y) (Layout.positions L).
Proof.
  revert p d y L L'. induction fuel as [|fuel IH]; intros p d y L L'; [done|].
  cbn [place placements]. case_bool_decide.
  - by intros [= <-].
  - destruct (mapM _ _) as [sizes|] eqn:Hsizes; [|done]. cbn [mbind option_bind].
    destruct (forEachM _ _ _) as [r|] eqn:Hloop; [|done]. cbn [mbind option_bind].
    intros [= <-]. rewrite sumSizes_sum_list in Hloop.
    rewrite (sizes_shown _ _ _ Hsizes) in Hloop.
    apply (forEachM_stackChild _
             (λ child, placements g expanded fuel child (d + 1)%Z)) in Hloop.
    + rewrite Hloop. done.
    + intros c yc L1 L2. apply IH.
Qed.
End PlaceFacts.

Section PlaceTreeFacts.
Context (g : Graph) (expanded : gset string) (level : string → nat) (bound : nat).
Hypothesis Hok : TreeOk g level bound.

Lemma shown_size (fuel n : nat) (c : string) (s : nat) :
  countVisible g expanded fuel c = Some s → n ≤ fuel →
  is_Some (modules g !! c) → bound - level c ≤ n →
  length (shownBelow g expanded n c) = s.
Proof.
  intros Hs Hn Hc Hneed.
  destruct (countVisible_total g expanded level bound Hok n c Hc Hneed) as [s' Hs'].
  pose proof (countVisible_mono g expanded n fuel c s' Hn Hs') as Hs''.
  rewrite Hs in Hs''. injection Hs'' as ->.
  symmetry. by apply countVisible_shown.
Qed.

Lemma shown_sizes (fuel n : nat) (p : string) (sizes : list nat) :
  Forall2 (λ c s, countVisible g expanded fuel c = Some s)
          (jsSort (childrenOf g p)) sizes →
  n ≤ fuel → bound - level p ≤ S n →
  (λ c, length (shownBelow g expanded n c)) <$> jsSort (childrenOf g p) = sizes.
Proof.
  intros Hsizes Hn Hneed.
  assert (Hall : ∀ c, c ∈ jsSort (childrenOf g p) →
                      is_Some (modules g !! c) ∧ bound - level c ≤ n).
  { intros c Hc%elem_of_jsSortBy.
    pose proof (tree_child_bound g level bound Hok p c Hc).
    split; [by apply (tree_child g level bound Hok p c)|lia]. }
  induction Hsizes as [|c s cs sizes Hc _ IH]; [done|].
  rewrite fmap_cons. f_equal.
  - destruct (Hall c) as [Hm Hneedc]; [by left|]. by apply (shown_size fuel).
  - apply IH. intros c' Hc'. apply Hall. by right.
Qed.

Lemma placements_head (n : nat) (p : string) (d y : Z) :
  0 < n → (p, mkPos d y) ∈ placements g expanded n p d y.
Proof. destruct n; [lia|]. intros _. simpl. by left. Qed.

(** Whatever [place] writes for an expanded module, it also writes each
    child one level deeper, centred in its span. *)
Lemma placements_children (fuel n : nat) (p : string) (d y : Z) :
  is_Some (modules g !! p) → bound - level p ≤ n → n ≤ fuel →
  ∀ q pq, (q, pq) ∈ placements g expanded n p d y → q ∈ expanded →
  ∀ sizes,
    Forall2 (λ c s, countVisible g expanded fuel c = Some s)
            (jsSort (childrenOf g q)) sizes →
    ∀ i c s, jsSort (childrenOf g q) !! i = Some c → sizes !! i = Some s →
      (c, mkPos (x pq + 1)
                (y2 pq - Z.of_nat (sum_list sizes)
                 + 2 * Z.of_nat (sum_list (take i sizes)) + Z.of_nat s)%Z)
      ∈ placements g expanded n p d y.
Proof.
  revert p d y. induction n as [|n IH]; intros p d y Hp Hneed Hfuel q pq Hq Hexp
    sizes Hsizes i c s Hi Hs.
  { by apply elem_of_nil in Hq. }
  cbn [placements] in Hq |- *.
  apply elem_of_cons in Hq as [[= -> ->]|Hq].
  - right. rewrite bool_decide_eq_false_2 by (by intros ?).
    apply elem_of_stacked. exists i, c. split; [done|].
    rewrite (shown_sizes fuel n p sizes Hsizes) by lia.
    assert (Hc : c ∈ childrenOf g p).
    { eapply elem_of_jsSortBy, list_elem_of_lookup_2, Hi. }
    pose proof (tree_child_bound g level bound Hok p c Hc).
    rewrite (shown_size fuel n c s); [|..].
    + simpl. apply placements_head. lia.
    + apply Forall2_lookup_lr with (i := i) (x := c) (y := s) in Hsizes; done.
    + lia.
    + by apply (tree_child g level bound Hok p c).
    + lia.
  - right. case_bool_decide as Hp'; [by apply elem_of_nil in Hq|].
    apply elem_of_stacked in Hq as (j & c' & Hj & Hq).
    apply elem_of_stacked. exists j, c'. split; [done|].
    assert (Hc' : c' ∈ childrenOf g p).
    { eapply elem_of_jsSortBy, list_elem_of_lookup_2, Hj. }
    pose proof (tree_child_bound g level bound Hok p c' Hc').
    eapply IH; try done.
    + by apply (tree_child g level bound Hok p c').
    + lia.
    + lia.
Qed.

Lemma place_total (n : nat) (p : string) (d y : Z) (L : Layout.t) :
  is_Some (modules g !! p) → bound - level p ≤ n →
  is_Some (place g expanded n p d y L).
Proof.
  revert p d y L. induction n as [|n IH]; intros p d y L Hp Hneed.
  - apply (tree_bound g level bound Hok) in Hp. lia.
  - cbn [place]. case_bool_decide; [done|].
    assert (Hall : ∀ c, c ∈ jsSort (childrenOf g p) →
                        is_Some (modules g !! c) ∧ bound - level c ≤ n).
    { intros c Hc%elem_of_jsSortBy.
      pose proof (tree_child_bound g level bound Hok p c Hc).
      split; [by apply (tree_child g level bound Hok p c)|lia]. }
    assert (Hsizes : is_Some (mapM (countVisible g expanded n) (jsSort (childrenOf g p)))).
    { apply mapM_is_Some, Forall_forall. intros c Hc. simpl.
      destruct (Hall c Hc). by apply (countVisible_total g expanded level bound Hok). }
    destruct Hsizes as [sizes Hsizes]. rewrite Hsizes. cbn [mbind option_bind].
    assert (Hloop : ∀ items (ss : list nat) acc,
      (∀ c, c ∈ items → is_Some (modules g !! c) ∧ bound - level c ≤ n) →
      is_Some (forEachM (stackChild (λ child, place g expanded n child (d + 1)%Z) p)
                        (zip items ss) acc)).
    { induction items as [|c items IHi]; intros ss acc Hitems; [done|].
      destruct ss as [|s ss]; [done|]. destruct acc as [L1 cursor].
      cbn [zip zip_with forEachM stackChild].
      destruct (Hitems c) as [Hc Hneedc]; [by left|].
      destruct (IH c (d + 1)%Z (cursor + Z.of_nat s)%Z
                  (Layout.mk (Layout.positions L1) (Layout.edges L1 ++ [(p, c)]))
                  Hc Hneedc) as [L2 ->].
      cbn [mbind option_bind]. apply IHi. intros c' Hc'. apply Hitems. by right. }
    destruct (Hloop (jsSort (childrenOf g p)) sizes
                (Layout.mk (<[p := mkPos d y]> (Layout.positions L)) (Layout.edges L),
                 (y - Z.of_nat (sumSizes sizes))%Z) Hall) as [r ->].
    done.
Qed.
End PlaceTreeFacts.

(** ** The layout as a whole *)

Lemma sortedModules_spec (g : Graph) (p : string) :
  p ∈ sortedModules g ↔ is_Some (modules g !! p).
Proof.
  unfold sortedModules, jsSort. rewrite elem_of_jsSortBy, list_elem_of_fmap. split.
  - intros ([k m] & -> & Hkm). apply elem_of_map_to_list in Hkm. by exists m.
  - intros [m Hm]. exists (p, m). split; [done|]. by apply elem_of_map_to_list.
Qed.

Lemma NoDup_sortedModules (g : Graph) : NoDup (sortedModules g).
Proof. unfold sortedModules, jsSort. apply NoDup_jsSortBy, NoDup_fst_map_to_list. Qed.

Section LayoutFacts.
Context (st : State.t).
Let g := State.graph st.
Let expanded := State.expandedModules st.
Hypothesis Horder : State.moduleOrder st = sortedModules g.

Lemma layoutRoots_spec (r : string) :
  r ∈ layoutRoots st ↔ is_Some (modules g !! r) ∧ isRootModule g r = true.
Proof.
  unfold layoutRoots, jsSort. rewrite elem_of_jsSortBy, list_elem_of_filter.
  rewrite Horder, sortedModules_spec. tauto.
Qed.

Lemma NoDup_layoutRoots : NoDup (layoutRoots st).
Proof.
  unfold layoutRoots, jsSort. apply NoDup_jsSortBy, NoDup_filter.
  rewrite Horder. apply NoDup_sortedModules.
Qed.

Lemma layoutTree_positions (fuel : nat) (layout : Layout.t) :
  layoutTree st fuel = Some layout →
  Layout.positions layout
  = insertAll (rootPlacements st fuel) {[ ROOT_KEY := mkPos 0 0 ]}.
Proof.
  unfold layoutTree, rootPlacements. fold g expanded.
  destruct (mapM _ _) as [sizes|] eqn:Hsizes; [|done]. cbn [mbind option_bind].
  destruct (forEachM _ _ _) as [r|] eqn:Hloop; [|done]. cbn [mbind option_bind].
  intros [= <-]. rewrite sumSizes_sum_list in Hloop.
  rewrite (sizes_shown _ _ _ _ _ Hsizes) in Hloop.
  apply (forEachM_stackChild _
           (λ root, placements g expanded fuel root 1%Z)) in Hloop; [done|].
  intros c yc L1 L2. apply place_positions.
Qed.

Lemma rootPlacements_keys (fuel : nat) :
  (rootPlacements st fuel).*1 = layoutRoots st ≫= shownBelow g expanded fuel.
Proof. apply stacked_keys. intros c y. apply placements_keys. Qed.

Context (level : string → nat) (bound : nat).
Hypothesis Hok : TreeOk g level bound.

Lemma NoDup_rootPlacements (fuel : nat) : NoDup (rootPlacements st fuel).*1.
Proof.
  rewrite rootPlacements_keys. apply NoDup_bind_disjoint.
  - apply NoDup_layoutRoots.
  - intros r _. apply (NoDup_shownBelow g expanded level bound Hok).
  - intros r1 r2 z [Hm1 Hr1]%layoutRoots_spec [Hm2 Hr2]%layoutRoots_spec Hz1 Hz2.
    apply shownBelow_chain in Hz1 as [k1 Hk1].
    apply shownBelow_chain in Hz2 as [k2 Hk2].
    by apply (chain_roots g level bound Hok r1 r2 z k1 k2).
Qed.

Lemma rootPlacements_module (fuel : nat) (q : string) :
  q ∈ (rootPlacements st fuel).*1 → is_Some (modules g !! q).
Proof.
  rewrite rootPlacements_keys.
  intros (r & Hq & [Hm _]%layoutRoots_spec)%list_elem_of_bind.
  apply shownBelow_chain in Hq as [k Hk].
  by apply (chain_module g level bound Hok k r q).
Qed.

Lemma layoutTree_total (fuel : nat) : bound ≤ fuel → is_Some (layoutTree st fuel).
Proof.
  intros Hfuel. unfold layoutTree. fold g expanded.
  assert (Hall : ∀ r, r ∈ layoutRoots st →
                      is_Some (modules g !! r) ∧ bound - level r ≤ fuel).
  { intros r [Hm _]%layoutRoots_spec. split; [done|lia]. }
  assert (Hsizes : is_Some (mapM (countVisible g expanded fuel) (layoutRoots st))).
  { apply mapM_is_Some, Forall_forall. intros r Hr. simpl.
    destruct (Hall r Hr). by apply (countVisible_total g expanded level bound Hok). }
  destruct Hsizes as [sizes Hsizes]. rewrite Hsizes. cbn [mbind option_bind].
  assert (Hloop : ∀ items (ss : list nat) acc,
    (∀ r, r ∈ items → is_Some (modules g !! r) ∧ bound - level r ≤ fuel) →
    is_Some (forEachM (stackChild (λ root, place g expanded fuel root 1%Z) ROOT_KEY)
                      (zip items ss) acc)).
  { induction items as [|r items IHi]; intros ss acc Hitems; [done|].
    destruct ss as [|s ss]; [done|]. destruct acc as [L1 cursor].
    cbn [zip zip_with forEachM stackChild].
    destruct (Hitems r) as [Hr Hneed]; [by left|].
    destruct (place_total g expanded level bound Hok fuel r 1%Z (cursor + Z.of_nat s)%Z
                (Layout.mk (Layout.positions L1) (Layout.edges L1 ++ [(ROOT_KEY, r)]))
                Hr Hneed) as [L2 ->].
    cbn [mbind option_bind]. apply IHi. intros r' Hr'. apply Hitems. by right. }
  destruct (Hloop (layoutRoots st) sizes
              (Layout.mk {[ ROOT_KEY := mkPos 0 0 ]} [],
               (- Z.of_nat (sumSizes sizes))%Z) Hall) as [r ->].
  done.
Qed.

Lemma layout_lookup (fuel : nat) (layout : Layout.t) (q : string) (pq : Pos) :
  layoutTree st fuel = Some layout →
  (q, pq) ∈ rootPlacements st fuel →
  Layout.positions layout !! q = Some pq.
Proof.
  intros Hlayout Hq. rewrite (layoutTree_positions fuel layout Hlayout).
  apply insertAll_lookup; [apply NoDup_rootPlacements|done].
Qed.

Lemma layout_lookup_inv (fuel : nat) (layout : Layout.t) (q : string) (pq : Pos) :
  layoutTree st fuel = Some layout →
  Layout.positions layout !! q = Some pq →
  (q, pq) ∈ rootPlacements st fuel ∨ (q = ROOT_KEY ∧ pq = mkPos 0 0).
Proof.
  intros Hlayout Hq. rewrite (layoutTree_positions fuel layout Hlayout) in Hq.
  destruct (decide (q ∈ (rootPlacements st fuel).*1)) as [Hin|Hout].
  - left. apply list_elem_of_fmap in Hin as ([q' v] & -> & Hin). simpl in *.
    rewrite (insertAll_lookup _ _ q' v) in Hq; [|apply NoDup_rootPlacements|done].
    by injection Hq as <-.
  - right. rewrite insertAll_lookup_notin in Hq by done.
    apply lookup_singleton_Some in Hq as [<- <-]. done.
Qed.
End LayoutFacts.

(** C5.  On a valid tree and with enough fuel [layoutTree] returns a
    layout in which the synthetic root sits at depth 0 and centre 0 and
    every root module at depth 1; for every positioned expanded module
    each child, taken in sorted order, is positioned one level deeper and
    centred in a span of the length of its subtree size, the first span
    starting half the total size before the centre of the parent and
    each next one where the previous ends (so the parent is the midpoint
    of the combined span); and a module whose parent is a module that is
    not expanded has no position.  Coordinates [y2] are doubled. *)
Theorem layoutTree_spec (st : State.t) (level : string → nat) (bound fuel : nat) :
  let g := State.graph st in
  let expanded := State.expandedModules st in
  TreeOk g level bound → State.moduleOrder st = sortedModules g → bound ≤ fuel →
  ∃ layout, layoutTree st fuel = Some layout
    ∧ Layout.positions layout !! ROOT_KEY = Some (mkPos 0 0)
    ∧ (∀ r, r ∈ layoutRoots st →
         ∃ pr, Layout.positions layout !! r = Some pr ∧ x pr = 1%Z)
    ∧ (∀ p pp, p ∈ expanded → Layout.positions layout !! p = Some pp →
         ∃ sizes,
           Forall2 (λ c s, countVisible g expanded fuel c = Some s)
                   (jsSort (childrenOf g p)) sizes
           ∧ ∀ i c s, jsSort (childrenOf g p) !! i = Some c → sizes !! i = Some s →
               Layout.positions layout !! c
               = Some (mkPos (x pp + 1)
                             (y2 pp - Z.of_nat (sum_list sizes)
                              + 2 * Z.of_nat (sum_list (take i sizes)) + Z.of_nat s)%Z))
    ∧ (∀ m, is_Some (modules g !! m) → is_Some (modules g !! parentOf g m) →
         parentOf g m ∉ expanded → Layout.positions layout !! m = None).
Proof.
  intros g expanded Hok Horder Hfuel.
  destruct (layoutTree_total st Horder level bound Hok fuel Hfuel) as [layout Hlayout].
  exists layout. split; [done|].
  assert (Hroot : Layout.positions layout !! ROOT_KEY = Some (mkPos 0 0)).
  { rewrite (layoutTree_positions st fuel layout Hlayout).
    rewrite insertAll_lookup_notin; [apply lookup_singleton_eq|].
    intros Hin%(rootPlacements_module st Horder level bound Hok).
    fold g in Hin. rewrite (tree_no_root g level bound Hok) in Hin. by destruct Hin. }
  split; [done|]. split; [|split].
  - intros r Hr. pose proof Hr as Hi. apply list_elem_of_lookup_1 in Hi as [i Hi].
    eexists. split.
    + apply (layout_lookup st Horder level bound Hok fuel); [done|].
      apply elem_of_stacked. exists i, r. split; [done|].
      apply placements_head.
      apply (layoutRoots_spec st Horder) in Hr as [Hm _].
      apply (tree_bound g level bound Hok) in Hm. lia.
    + done.
  - intros p pp Hp Hpp.
    apply (layout_lookup_inv st Horder level bound Hok fuel layout p pp Hlayout) in Hpp
      as [Hpp|[-> ->]].
    + assert (Hsizes : is_Some (mapM (countVisible g expanded fuel) (jsSort (childrenOf g p)))).
      { apply mapM_is_Some, Forall_forall. intros c Hc%elem_of_jsSortBy. simpl.
        pose proof (tree_child_bound g level bound Hok p c Hc).
        apply (countVisible_total g expanded level bound Hok); [|lia].
        by apply (tree_child g level bound Hok p c). }
      destruct Hsizes as [sizes Hsizes]. apply mapM_Some in Hsizes.
      exists sizes. split; [done|]. intros i c s Hi Hs.
      apply (layout_lookup st Horder level bound Hok fuel); [done|].
      apply elem_of_stacked in Hpp as (j & r & Hj & Hpp).
      apply elem_of_stacked. exists j, r. split; [done|].
      apply list_elem_of_lookup_2, (layoutRoots_spec st Horder) in Hj as [Hm _].
      apply (placements_children g expanded level bound Hok fuel fuel r) with (q := p);
        try done.
      lia.
    + exists []. unfold childrenOf. rewrite (tree_no_root g level bound Hok). simpl.
      split; [constructor|]. intros i c s Hi. done.
  - intros m Hm Hparent Hclosed.
    destruct (Layout.positions layout !! m) as [pm|] eqn:Hpm; [|done]. exfalso.
    apply (layout_lookup_inv st Horder level bound Hok fuel layout m pm Hlayout) in Hpm
      as [Hpm|[-> _]].
    + apply (list_elem_of_fmap_2 fst) in Hpm. simpl in Hpm.
      rewrite (rootPlacements_keys st) in Hpm.
      apply list_elem_of_bind in Hpm as (r & Hpm & [_ Hr]%(layoutRoots_spec st Horder)).
      apply shownBelow_parent in Hpm as [->|(q & Hq & Hc)].
      * apply isRootModule_true in Hr as [Hr|[Hr _]]; fold g in Hr.
        -- rewrite Hr in Hparent.
           rewrite (tree_no_empty g level bound Hok) in Hparent. by destruct Hparent.
        -- rewrite Hr in Hparent. by destruct Hparent.
      * apply (tree_child g level bound Hok) in Hc as [_ Hc]. fold g in Hclosed.
        by rewrite Hc in Hclosed.
    + rewrite (tree_no_root g level bound Hok) in Hm. by destruct Hm.
Qed.

(** ** The state after bootstrap *)

Lemma buildModuleDeps_graph (st st' : State.t) :
  buildModuleDeps st = Some st' →
  State.graph st' = State.graph st
  ∧ State.expandedModules st' = State.expandedModules st
  ∧ State.nodes st' = State.nodes st
  ∧ State.moduleOrder st' = State.moduleOrder st.
Proof.
  unfold buildModuleDeps. destruct (forEachM _ _ _) as [[md mdo]|]; [|done].
  simpl. by intros [= <-].
Qed.

Lemma bootstrap_graph (g : Graph) (expanded : gset string) (st : State.t) :
  bootstrap g expanded = Some st → State.graph st = g.
Proof.
  unfold bootstrap. destruct (buildModuleDeps _) as [st0|] eqn:Hdeps; [|done].
  simpl. intros [= <-]. apply buildModuleDeps_graph in Hdeps as (Hg & _). done.
Qed.

Lemma bootstrap_expanded (g : Graph) (expanded : gset string) (st : State.t) :
  bootstrap g expanded = Some st → State.expandedModules st = expanded.
Proof.
  unfold bootstrap. destruct (buildModuleDeps _) as [st0|] eqn:Hdeps; [|done].
  simpl. intros [= <-]. apply buildModuleDeps_graph in Hdeps as (_ & He & _). done.
Qed.

Lemma bootstrap_order (g : Graph) (expanded : gset string) (st : State.t) :
  bootstrap g expanded = Some st → State.moduleOrder st = sortedModules (State.graph st).
Proof.
  unfold bootstrap. destruct (buildModuleDeps _) as [st0|] eqn:Hdeps; [|done].
  simpl. by intros [= <-].
Qed.

(** The two small snapshots are loaded without an error. *)
Lemma demoState_boot : bootstrap demoGraph {[ "pkg" ]} = Some demoState.
Proof.
  assert (Hsome : is_Some (bootstrap demoGraph {[ "pkg" ]}))
    by (apply (bool_decide_unpack _); vm_compute; exact I).
  unfold demoState. by destruct Hsome as [st ->].
Qed.

Lemma collisionState_boot : bootstrap collisionGraph ∅ = Some collisionState.
Proof.
  assert (Hsome : is_Some (bootstrap collisionGraph ∅))
    by (apply (bool_decide_unpack _); vm_compute; exact I).
  unfold collisionState. by destruct Hsome as [st ->].
Qed.

Lemma demoState_graph : State.graph demoState = demoGraph.
Proof. exact (bootstrap_graph _ _ _ demoState_boot). Qed.

Lemma demoState_order : State.moduleOrder demoState = sortedModules (State.graph demoState).
Proof. exact (bootstrap_order _ _ _ demoState_boot). Qed.

Lemma layoutTree_spec_witness :
  ∃ layout, layoutTree demoState 8 = Some layout
    ∧ (∀ pp, Layout.positions layout !! "pkg" = Some pp →
         Layout.positions layout !! "pkg.b" = Some (mkPos (x pp + 1) (y2 pp + 1)))
    ∧ Layout.positions layout !! "pkg.a.x" = None.
Proof.
  assert (Hok : TreeOk (State.graph demoState) String.length 8)
    by (rewrite demoState_graph; exact demoGraph_ok).
  destruct (layoutTree_spec demoState String.length 8 8 Hok demoState_order (le_n 8))
    as (layout & Hlayout & _ & _ & Hkids & Habsent).
  exists layout. split; [exact Hlayout|]. split.
  - intros pp Hpp.
    destruct (Hkids "pkg" pp) as (sizes & Hsizes & Hchild); [by vm_compute|exact Hpp|].
    assert (Hone : sizes = [1; 1]).
    { change (jsSort (childrenOf (State.graph demoState) "pkg"))
        with ["pkg.a"; "pkg.b"] in Hsizes.
      inversion Hsizes as [|c1 s1 l1 ss1 H1 Hrest1]; subst.
      inversion Hrest1 as [|c2 s2 l2 ss2 H2 Hrest2]; subst.
      inversion Hrest2; subst.
      vm_compute in H1. vm_compute in H2. congruence. }
    subst sizes.
    rewrite (Hchild 1 "pkg.b" 1 eq_refl eq_refl). do 2 f_equal. simpl. lia.
  - apply Habsent; [by eexists|by eexists|by vm_compute].
Defined.

(** ** Visibility resolver *)

Section ResolveFacts.
Context (st : State.t).

Lemma walkVisible_succ (fuel : nat) (p r : string) :
  walkVisible st fuel p = Some r → walkVisible st (S fuel) p = Some r.
Proof.
  revert p. induction fuel as [|fuel IH]; intros p; [done|].
  intros Hwalk. cbn [walkVisible] in Hwalk |- *.
  destruct (negb (truthy p)); [done|].
  destruct (nodeVisible st p); [done|].
  destruct (negb (truthy _) || bool_decide _); [done|]. by apply IH.
Qed.

Lemma walkVisible_mono (fuel fuel' : nat) (p r : string) :
  fuel ≤ fuel' → walkVisible st fuel p = Some r → walkVisible st fuel' p = Some r.
Proof. induction 1; [done|]. intros. by apply walkVisible_succ, IHle. Qed.

Lemma walkVisible_det (n m : nat) (p r r' : string) :
  walkVisible st n p = Some r → walkVisible st m p = Some r' → r = r'.
Proof.
  intros Hn Hm.
  apply (walkVisible_mono n (n `max` m)) in Hn; [|lia].
  apply (walkVisible_mono m (n `max` m)) in Hm; [|lia].
  congruence.
Qed.

Lemma walkVisible_result (fuel : nat) (p r : string) :
  walkVisible st fuel p = Some r →
  r = ROOT_KEY ∨ (truthy r = true ∧ nodeVisible st r = true).
Proof.
  revert p. induction fuel as [|fuel IH]; intros p; [done|].
  cbn [walkVisible].
  destruct (truthy p) eqn:Hp; simpl; [|intros [= <-]; by left].
  destruct (nodeVisible st p) eqn:Hv; [intros [= <-]; by right|].
  destruct (negb (truthy _) || bool_decide _); [intros [= <-]; by left|]. apply IH.
Qed.

Lemma walkVisible_visible (fuel : nat) (r : string) :
  truthy r = true → nodeVisible st r = true → walkVisible st (S fuel) r = Some r.
Proof. intros Ht Hv. cbn [walkVisible]. by rewrite Ht, Hv. Qed.

Lemma cacheOk_empty : cacheOk st ∅.
Proof. intros k v Hk. by rewrite lookup_empty in Hk. Qed.

Lemma resolveVisible_standIn (fuel : nat) (p : string) (cache : gmap string string) :
  cacheOk st cache → is_Some (walkVisible st fuel p) →
  ∃ cache', resolveVisible st fuel p cache = Some (standIn st fuel p, cache')
            ∧ cacheOk st cache'.
Proof.
  intros Hcache [r Hr]. unfold resolveVisible, standIn.
  destruct (negb (truthy p) || bool_decide (p = ROOT_KEY)); [by exists cache|].
  rewrite Hr. simpl.
  destruct (cache !! p) as [v|] eqn:Hv.
  - exists cache. split; [|done]. destruct (Hcache p v Hv) as [n Hn].
    by rewrite (walkVisible_det n fuel p v r Hn Hr).
  - exists (<[p := r]> cache). split; [done|].
    intros k v Hk. destruct (decide (p = k)) as [<-|Hne].
    + rewrite lookup_insert_eq in Hk. injection Hk as <-. by exists fuel.
    + rewrite lookup_insert_ne in Hk by done. by apply Hcache.
Qed.

Lemma standIn_cases (fuel : nat) (p : string) :
  is_Some (walkVisible st fuel p) →
  standIn st fuel p = ROOT_KEY
  ∨ (truthy (standIn st fuel p) = true ∧ nodeVisible st (standIn st fuel p) = true).
Proof.
  intros [r Hr]. unfold standIn.
  destruct (negb (truthy p) || bool_decide (p = ROOT_KEY)); [by left|].
  rewrite Hr. simpl. by apply (walkVisible_result fuel p).
Qed.

Lemma standIn_truthy (fuel : nat) (p : string) :
  is_Some (walkVisible st fuel p) → truthy (standIn st fuel p) = true.
Proof. intros Hp. by destruct (standIn_cases fuel p Hp) as [->|[? _]]. Qed.

Lemma standIn_idempotent (fuel : nat) (p : string) :
  0 < fuel → is_Some (walkVisible st fuel p) →
  standIn st fuel (standIn st fuel p) = standIn st fuel p.
Proof.
  intros Hfuel Hp. destruct (standIn_cases fuel p Hp) as [->|[Ht Hv]]; [done|].
  unfold standIn at 1. rewrite Ht. simpl.
  case_bool_decide as Hroot; [done|].
  destruct fuel as [|fuel]; [lia|]. by rewrite (walkVisible_visible fuel _ Ht Hv).
Qed.

Context (level : string → nat) (bound : nat).
Hypothesis Hok : TreeOk (State.graph st) level bound.

Lemma walkVisible_total (fuel : nat) (p : string) :
  bound < fuel → is_Some (walkVisible st fuel p).
Proof.
  intros Hfuel.
  assert (Hgen : ∀ n p,
    (is_Some (modules (State.graph st) !! p) → level p + 2 ≤ n) → 1 ≤ n →
    is_Some (walkVisible st n p)).
  { clear p. induction n as [|n IH]; intros p Hmod Hn; [lia|].
    cbn [walkVisible].
    destruct (negb (truthy p)); [done|].
    destruct (nodeVisible st p); [done|].
    destruct (truthy (parentOf (State.graph st) p)) eqn:Hparent; simpl; [|done].
    case_bool_decide as Hself; [done|].
    assert (Hp : is_Some (modules (State.graph st) !! p)).
    { unfold parentOf in Hparent.
      destruct (modules (State.graph st) !! p); [done|]. done. }
    specialize (Hmod Hp). apply IH; [|lia].
    intros Hpm.
    pose proof (tree_parent _ level bound Hok p Hp Hpm) as Hchild.
    apply (tree_level _ level bound Hok) in Hchild. lia. }
  apply Hgen; [|lia].
  intros Hp%(tree_bound _ level bound Hok). lia.
Qed.
End ResolveFacts.

(** C4.  On a valid tree and with enough fuel, for every state of the
    nodes (in particular the one [applyLayout] leaves for any expansion
    set), every path and every cache holding answers of the walk,
    [resolveVisible] returns a stand-in, and called on that stand-in, with
    the cache it left or any other such cache, it returns the stand-in
    itself. *)
Theorem resolveVisible_idempotent (st : State.t) (level : string → nat) (bound fuel : nat)
    (p : string) (cache : gmap string string) :
  TreeOk (State.graph st) level bound → bound < fuel → cacheOk st cache →
  ∃ r cache',
    resolveVisible st fuel p cache = Some (r, cache')
    ∧ cacheOk st cache'
    ∧ (∃ cache'', resolveVisible st fuel r cache' = Some (r, cache''))
    ∧ (∀ cache2, cacheOk st cache2 →
         ∃ cache3, resolveVisible st fuel r cache2 = Some (r, cache3)).
Proof.
  intros Hok Hfuel Hcache.
  pose proof (walkVisible_total st level bound Hok fuel) as Hwalk.
  destruct (resolveVisible_standIn st fuel p cache Hcache (Hwalk p Hfuel))
    as (cache' & Hres & Hcache').
  exists (standIn st fuel p), cache'. split; [done|]. split; [done|].
  assert (Hagain : ∀ cache2, cacheOk st cache2 →
    ∃ cache3, resolveVisible st fuel (standIn st fuel p) cache2
              = Some (standIn st fuel p, cache3)).
  { intros cache2 Hcache2.
    destruct (resolveVisible_standIn st fuel (standIn st fuel p) cache2 Hcache2
                (Hwalk _ Hfuel)) as (cache3 & Hres3 & _).
    exists cache3. rewrite Hres3.
    rewrite standIn_idempotent; [done|lia|by apply Hwalk]. }
  split; [by apply Hagain|done].
Qed.

(** ** Sorted lists of strings *)

Lemma insertSorted_sorted (x : string) (l : list string) :
  Sorted String.le l → Sorted String.le (insertSorted String.leb x l).
Proof.
  induction 1 as [|y l Hl IH Hhd]; simpl; [by repeat constructor|].
  destruct (String.leb x y) eqn:Hxy.
  - constructor; [by constructor|]. constructor. unfold String.le. by rewrite Hxy.
  - assert (Hyx : String.le y x).
    { destruct (total String.le x y) as [Hle|Hle]; [|done].
      unfold String.le in Hle. by rewrite Hxy in Hle. }
    constructor; [done|].
    destruct Hhd as [|z l' Hyz]; simpl.
    + by constructor.
    + destruct (String.leb x z); by constructor.
Qed.

Lemma jsSort_sorted (l : list string) : Sorted String.le (jsSort l).
Proof.
  unfold jsSort, jsSortBy. induction l as [|x l IH]; simpl; [constructor|].
  by apply insertSorted_sorted.
Qed.

Lemma sortedElements_sorted (s : gset string) :
  StronglySorted String.le (sortedElements s) ∧ NoDup (sortedElements s).
Proof.
  split.
  - apply Sorted_StronglySorted; [apply _|apply jsSort_sorted].
  - unfold sortedElements, jsSort. apply NoDup_jsSortBy, NoDup_elements.
Qed.

(** ** Aggregation over the raw pairs *)

Lemma hasDep_add (f t f' t' : string) (visibleDeps : gmap string (gset string)) :
  hasDep (addVisibleDep f t visibleDeps) f' t' ↔
  hasDep visibleDeps f' t' ∨ (f' = f ∧ t' = t).
Proof.
  unfold hasDep, addVisibleDep. destruct (decide (f = f')) as [<-|Hne].
  - rewrite lookup_insert_eq. simpl. set_solver.
  - rewrite lookup_insert_ne by done. naive_solver.
Qed.

Lemma elem_of_triples (consumers : list (string * list (string * gset string)))
    (c p : string) (labels : gset string) :
  (c, p, labels) ∈ triples consumers ↔ rawPair consumers c p labels.
Proof.
  unfold triples, rawPair. rewrite list_elem_of_bind. split.
  - intros ([c' ps] & Hin & Hc). apply list_elem_of_fmap in Hin as ([p' ls] & [= -> -> ->] & Hp).
    by exists ps.
  - intros (ps & Hc & Hp). exists (c, ps). split; [|done].
    apply list_elem_of_fmap. by exists (p, labels).
Qed.

Lemma elem_of_pairs (dependents : list (string * list string)) (m d : string) :
  (m, d) ∈ pairs dependents ↔ rawDep dependents m d.
Proof.
  unfold pairs, rawDep. rewrite list_elem_of_bind. split.
  - intros ([m' ds] & Hin & Hm). apply list_elem_of_fmap in Hin as (d' & [= -> ->] & Hd).
    by exists ds.
  - intros (ds & Hm & Hd). exists (m, ds). split; [|done].
    apply list_elem_of_fmap. by exists d.
Qed.

Section TripleFacts.
Context (st : State.t) (fuel : nat).

Lemma tidy_add (f t : string) (visibleDeps : gmap string (gset string)) :
  tidy visibleDeps → tidy (addVisibleDep f t visibleDeps).
Proof.
  intros Htidy f' s. unfold addVisibleDep. destruct (decide (f = f')) as [<-|Hne].
  - rewrite lookup_insert_eq. intros [= <-]. set_solver.
  - rewrite lookup_insert_ne by done. apply Htidy.
Qed.

Lemma foldl_addTriple (T : list (string * string * gset string))
    (acc : gmap string (gset string) * gmap string (gset string)) :
  let acc' := foldl (addTriple st fuel) acc T in
  (∀ f t, hasDep acc'.1 f t ↔
     hasDep acc.1 f t
     ∨ ∃ c p ls, (c, p, ls) ∈ T ∧ visiblePair st fuel c p = Some (f, t))
  ∧ (∀ key label, hasLabel acc'.2 key label ↔
       hasLabel acc.2 key label
       ∨ ∃ c p ls f t, (c, p, ls) ∈ T ∧ visiblePair st fuel c p = Some (f, t)
                       ∧ edgeKey f t = key ∧ label ∈ ls)
  ∧ (∀ key, is_Some (acc'.2 !! key) ↔
       is_Some (acc.2 !! key)
       ∨ ∃ c p ls f t, (c, p, ls) ∈ T ∧ visiblePair st fuel c p = Some (f, t)
                       ∧ edgeKey f t = key)
  ∧ (tidy acc.1 → tidy acc'.1).
Proof.
  revert acc. induction T as [|[[c p] ls] T IH]; intros acc; simpl.
  - split; [|split; [|split]]; try done.
    + intros f t. split; [by left|]. intros [?|(? & ? & ? & ?%elem_of_nil & _)]; done.
    + intros key label. split; [by left|].
      intros [?|(? & ? & ? & ? & ? & ?%elem_of_nil & _)]; done.
    + intros key. split; [by left|].
      intros [?|(? & ? & ? & ? & ? & ?%elem_of_nil & _)]; done.
  - destruct (IH (addTriple st fuel acc (c, p, ls))) as (Hd & Hl & Hk & Ht). clear IH.
    unfold addTriple in Hd, Hl, Hk, Ht.
    destruct (visiblePair st fuel c p) as [[f0 t0]|] eqn:Hpair; simpl in *.
    + split; [|split; [|split]].
      * intros f t. rewrite Hd, hasDep_add. split.
        -- intros [[?|[-> ->]]|(c' & p' & ls' & Hin & Hp)].
           ++ by left.
           ++ right. exists c, p, ls. split; [by left|done].
           ++ right. exists c', p', ls'. split; [by right|done].
        -- intros [?|(c' & p' & ls' & Hin & Hp)]; [by left; left|].
           apply elem_of_cons in Hin as [[= -> -> ->]|Hin].
           ++ left. right. rewrite Hpair in Hp. by injection Hp as <- <-.
           ++ right. by exists c', p', ls'.
      * intros key label. rewrite Hl. unfold hasLabel at 1. split.
        -- intros [Hhere|(c' & p' & ls' & f & t & Hin & Hp & Hkey & Hlab)].
           ++ destruct (decide (edgeKey f0 t0 = key)) as [<-|Hne].
              ** rewrite lookup_insert_eq in Hhere. simpl in Hhere.
                 apply elem_of_union in Hhere as [?|?]; [by left|].
                 right. exists c, p, ls, f0, t0. split; [by left|done].
              ** rewrite lookup_insert_ne in Hhere by done. by left.
           ++ right. exists c', p', ls', f, t. split; [by right|done].
        -- intros [Hold|(c' & p' & ls' & f & t & Hin & Hp & Hkey & Hlab)].
           ++ left. destruct (decide (edgeKey f0 t0 = key)) as [<-|Hne].
              ** rewrite lookup_insert_eq. simpl. apply elem_of_union. by left.
              ** by rewrite lookup_insert_ne.
           ++ apply elem_of_cons in Hin as [[= -> -> ->]|Hin].
              ** left. rewrite Hpair in Hp. injection Hp as <- <-. subst key.
                 rewrite lookup_insert_eq. simpl. apply elem_of_union. by right.
              ** right. by exists c', p', ls', f, t.
      * intros key. rewrite Hk. split.
        -- intros [Hhere|(c' & p' & ls' & f & t & Hin & Hp & Hkey)].
           ++ destruct (decide (edgeKey f0 t0 = key)) as [<-|Hne].
              ** right. exists c, p, ls, f0, t0. split; [by left|done].
              ** rewrite lookup_insert_ne in Hhere by done. by left.
           ++ right. exists c', p', ls', f, t. split; [by right|done].
        -- intros [Hold|(c' & p' & ls' & f & t & Hin & Hp & Hkey)].
           ++ left. destruct (decide (edgeKey f0 t0 = key)) as [<-|Hne].
              ** by rewrite lookup_insert_eq.
              ** by rewrite lookup_insert_ne.
           ++ apply elem_of_cons in Hin as [[= -> -> ->]|Hin].
              ** left. rewrite Hpair in Hp. injection Hp as <- <-. subst key.
                 by rewrite lookup_insert_eq.
              ** right. by exists c', p', ls', f, t.
      * intros Htidy. by apply Ht, tidy_add.
    + split; [|split; [|split]]; [| | |done].
      * intros f t. rewrite Hd. split.
        -- intros [?|(c' & p' & ls' & Hin & Hp)]; [by left|].
           right. exists c', p', ls'. split; [by right|done].
        -- intros [?|(c' & p' & ls' & Hin & Hp)]; [by left|].
           apply elem_of_cons in Hin as [[= -> -> ->]|Hin]; [congruence|].
           right. by exists c', p', ls'.
      * intros key label. rewrite Hl. split.
        -- intros [?|(c' & p' & ls' & f & t & Hin & Hp)]; [by left|].
           right. exists c', p', ls', f, t. split; [by right|done].
        -- intros [?|(c' & p' & ls' & f & t & Hin & Hp & Hrest)]; [by left|].
           apply elem_of_cons in Hin as [[= -> -> ->]|Hin]; [congruence|].
           right. by exists c', p', ls', f, t.
      * intros key. rewrite Hk. split.
        -- intros [?|(c' & p' & ls' & f & t & Hin & Hp)]; [by left|].
           right. exists c', p', ls', f, t. split; [by right|done].
        -- intros [?|(c' & p' & ls' & f & t & Hin & Hp & Hrest)]; [by left|].
           apply elem_of_cons in Hin as [[= -> -> ->]|Hin]; [congruence|].
           right. by exists c', p', ls', f, t.
Qed.

Lemma foldl_addPair (P : list (string * string)) (visibleDeps : gmap string (gset string)) :
  let deps' := foldl (addPair st fuel) visibleDeps P in
  ∀ f t, hasDep deps' f t ↔
    hasDep visibleDeps f t
    ∨ ∃ m d, (m, d) ∈ P ∧ visiblePair st fuel m d = Some (f, t).
Proof.
  revert visibleDeps. induction P as [|[m d] P IH]; intros visibleDeps; simpl.
  - intros f t. split; [by left|]. intros [?|(? & ? & ?%elem_of_nil & _)]; done.
  - intros f t. rewrite IH. unfold addPair. simpl.
    destruct (visiblePair st fuel m d) as [[f0 t0]|] eqn:Hpair.
    + rewrite hasDep_add. split.
      * intros [[?|[-> ->]]|(m' & d' & Hin & Hp)].
        -- by left.
        -- right. exists m, d. split; [by left|done].
        -- right. exists m', d'. split; [by right|done].
      * intros [?|(m' & d' & Hin & Hp)]; [by left; left|].
        apply elem_of_cons in Hin as [[= -> ->]|Hin].
        -- left. right. rewrite Hpair in Hp. by injection Hp as <- <-.
        -- right. by exists m', d'.
    + split.
      * intros [?|(m' & d' & Hin & Hp)]; [by left|].
        right. exists m', d'. split; [by right|done].
      * intros [?|(m' & d' & Hin & Hp)]; [by left|].
        apply elem_of_cons in Hin as [[= -> ->]|Hin]; [congruence|].
        right. by exists m', d'.
Qed.
End TripleFacts.

(** ** The cache does not change the result *)

Section CachedFacts.
Context (st : State.t) (fuel : nat).
Hypothesis Hwalk : ∀ p, is_Some (walkVisible st fuel p).

Lemma forEachC_pure {A S : Type} (body : S → A → Cached S) (pure : S → A → S) (l : list A) :
  (∀ s a cache, a ∈ l → cacheOk st cache →
     ∃ cache', body s a cache = Some (pure s a, cache') ∧ cacheOk st cache') →
  ∀ s cache, cacheOk st cache →
    ∃ cache', forEachC body l s cache = Some (foldl pure s l, cache') ∧ cacheOk st cache'.
Proof.
  induction l as [|a l IH]; intros Hbody s cache Hcache.
  - by exists cache.
  - destruct (Hbody s a cache) as (cache1 & Ha & Hcache1); [by left|done|].
    destruct (IH (λ s a cache Hin, Hbody s a cache (list_elem_of_further _ _ _ Hin))
                (pure s a) cache1 Hcache1) as (cache2 & Hl & Hcache2).
    exists cache2. split; [|done].
    cbn [forEachC]. unfold mbind, Cached_bind. by rewrite Ha.
Qed.

Lemma foldl_bind {A B C : Type} (f : C → B → C) (g : A → list B) (l : list A) (acc : C) :
  foldl f acc (l ≫= g) = foldl (λ acc a, foldl f acc (g a)) acc l.
Proof.
  revert acc. induction l as [|a l IH]; intros acc; [done|].
  rewrite bind_cons, foldl_app. apply IH.
Qed.

Lemma visiblePair_skip (c p : string) :
  skipEndpoint (standIn st fuel c) = true → visiblePair st fuel c p = None.
Proof. unfold visiblePair. by intros ->. Qed.

Lemma visitProvider_pure (c : string)
    (acc : gmap string (gset string) * gmap string (gset string))
    (item : string * gset string) (cache : gmap string string) :
  skipEndpoint (standIn st fuel c) = false → cacheOk st cache →
  ∃ cache',
    visitProvider st fuel (standIn st fuel c) acc item cache
    = Some (addTriple st fuel acc (c, item.1, item.2), cache')
    ∧ cacheOk st cache'.
Proof.
  intros Hskip Hcache. destruct item as [p objects]. destruct acc as [vd obe].
  destruct (resolveVisible_standIn st fuel p cache Hcache (Hwalk p))
    as (cache' & Hres & Hcache').
  exists cache'. split; [|done].
  unfold visitProvider, addTriple, visiblePair. unfold mbind, Cached_bind.
  rewrite Hres, Hskip. simpl.
  by destruct (skipEndpoint (standIn st fuel p) || bool_decide _).
Qed.

Lemma visitConsumer_pure
    (acc : gmap string (gset string) * gmap string (gset string))
    (item : string * list (string * gset string)) (cache : gmap string string) :
  cacheOk st cache →
  ∃ cache',
    visitConsumer st fuel acc item cache
    = Some (foldl (addTriple st fuel) acc
              ((λ '(p, objects), (item.1, p, objects)) <$> item.2), cache')
    ∧ cacheOk st cache'.
Proof.
  intros Hcache. destruct item as [c providers]. simpl.
  destruct (resolveVisible_standIn st fuel c cache Hcache (Hwalk c))
    as (cache1 & Hres & Hcache1).
  unfold visitConsumer. unfold mbind at 1. unfold Cached_bind. rewrite Hres.
  destruct (skipEndpoint (standIn st fuel c)) eqn:Hskip.
  - exists cache1. split; [|done]. do 2 f_equal.
    clear -Hskip. induction providers as [|[p objects] providers IH]; [done|].
    rewrite fmap_cons. cbn [foldl]. unfold addTriple at 2.
    by rewrite (visiblePair_skip c p Hskip).
  - destruct (forEachC_pure (visitProvider st fuel (standIn st fuel c))
                (λ acc item, addTriple st fuel acc (c, item.1, item.2)) providers
                (λ s a k _ Hk, visitProvider_pure c s a k Hskip Hk) acc cache1 Hcache1)
      as (cache2 & Hloop & Hcache2).
    exists cache2. split; [|done]. rewrite Hloop. do 2 f_equal.
    clear. revert acc. induction providers as [|[p objects] providers IH]; intros acc;
      [done|].
    rewrite fmap_cons. cbn [foldl]. apply IH.
Qed.

Lemma visitDep_pure (m : string) (visibleDeps : gmap string (gset string)) (d : string)
    (cache : gmap string string) :
  skipEndpoint (standIn st fuel m) = false → cacheOk st cache →
  ∃ cache',
    visitDep st fuel (standIn st fuel m) visibleDeps d cache
    = Some (addPair st fuel visibleDeps (m, d), cache')
    ∧ cacheOk st cache'.
Proof.
  intros Hskip Hcache.
  destruct (resolveVisible_standIn st fuel d cache Hcache (Hwalk d))
    as (cache' & Hres & Hcache').
  exists cache'. split; [|done].
  unfold visitDep, addPair, visiblePair. unfold mbind, Cached_bind.
  rewrite Hres. simpl. rewrite Hskip. simpl.
  by destruct (skipEndpoint (standIn st fuel d) || bool_decide _).
Qed.

Lemma visitModule_pure (visibleDeps : gmap string (gset string))
    (item : string * list string) (cache : gmap string string) :
  cacheOk st cache →
  ∃ cache',
    visitModule st fuel visibleDeps item cache
    = Some (foldl (addPair st fuel) visibleDeps ((λ d, (item.1, d)) <$> item.2), cache')
    ∧ cacheOk st cache'.
Proof.
  intros Hcache. destruct item as [m deps]. simpl.
  destruct (resolveVisible_standIn st fuel m cache Hcache (Hwalk m))
    as (cache1 & Hres & Hcache1).
  unfold visitModule. unfold mbind at 1. unfold Cached_bind. rewrite Hres.
  destruct (skipEndpoint (standIn st fuel m)) eqn:Hskip.
  - exists cache1. split; [|done]. do 2 f_equal.
    clear -Hskip. induction deps as [|d deps IH]; [done|].
    rewrite fmap_cons. cbn [foldl]. unfold addPair at 2. simpl.
    by rewrite (visiblePair_skip m d Hskip).
  - destruct (forEachC_pure (visitDep st fuel (standIn st fuel m))
                (λ acc d, addPair st fuel acc (m, d)) deps
                (λ s a k _ Hk, visitDep_pure m s a k Hskip Hk) visibleDeps cache1 Hcache1)
      as (cache2 & Hloop & Hcache2).
    exists cache2. split; [|done]. rewrite Hloop. do 2 f_equal.
    clear. revert visibleDeps. induction deps as [|d deps IH]; intros visibleDeps; [done|].
    rewrite fmap_cons. cbn [foldl]. apply IH.
Qed.

Lemma foldl_triples (consumers : list (string * list (string * gset string)))
    (acc : gmap string (gset string) * gmap string (gset string)) :
  foldl (λ acc (item : string * list (string * gset string)),
           foldl (addTriple st fuel) acc
             ((λ '(p, objects), (item.1, p, objects)) <$> item.2)) acc consumers
  = foldl (addTriple st fuel) acc (triples consumers).
Proof.
  unfold triples. rewrite foldl_bind.
  revert acc. induction consumers as [|[c ps] consumers IH]; intros acc; [done|].
  cbn [foldl]. apply IH.
Qed.

Lemma foldl_pairs (dependents : list (string * list string))
    (acc : gmap string (gset string)) :
  foldl (λ acc (item : string * list string),
           foldl (addPair st fuel) acc ((λ d, (item.1, d)) <$> item.2)) acc dependents
  = foldl (addPair st fuel) acc (pairs dependents).
Proof.
  unfold pairs. rewrite foldl_bind.
  revert acc. induction dependents as [|[m ds] dependents IH]; intros acc; [done|].
  cbn [foldl]. apply IH.
Qed.

Lemma aggregate_aggregated (consumers : list (string * list (string * gset string)))
    (dependents : list (string * list string)) :
  aggregate st fuel consumers dependents
  = Some (aggregated st fuel consumers dependents).
Proof.
  unfold aggregate, aggregated.
  destruct (forEachC_pure (visitConsumer st fuel)
              (λ acc item, foldl (addTriple st fuel) acc
                             ((λ '(p, objects), (item.1, p, objects)) <$> item.2))
              consumers (λ s a k _ Hk, visitConsumer_pure s a k Hk) (∅, ∅) ∅
              (cacheOk_empty st)) as (cache1 & Hmain & Hcache1).
  rewrite foldl_triples in Hmain.
  unfold mbind at 1. unfold Cached_bind. rewrite Hmain.
  destruct (foldl (addTriple st fuel) (∅, ∅) (triples consumers)) as [vd obe] eqn:Hacc.
  cbn [fst snd].
  case_bool_decide as Hsize.
  - destruct (forEachC_pure (visitModule st fuel)
                (λ acc item, foldl (addPair st fuel) acc ((λ d, (item.1, d)) <$> item.2))
                dependents (λ s a k _ Hk, visitModule_pure s a k Hk) vd cache1 Hcache1)
      as (cache2 & Hfall & Hcache2).
    rewrite foldl_pairs in Hfall.
    unfold mbind, Cached_bind. rewrite Hfall. done.
  - done.
Qed.
End CachedFacts.

(** ** The aggregated result *)

Lemma tidy_empty : tidy ∅.
Proof. intros f s Hf. by rewrite lookup_empty in Hf. Qed.

Lemma tidy_equal (d1 d2 : gmap string (gset string)) :
  tidy d1 → tidy d2 → (∀ f t, hasDep d1 f t ↔ hasDep d2 f t) → d1 = d2.
Proof.
  intros H1 H2 Hsame. apply map_eq. intros f.
  specialize (H1 f). specialize (H2 f). pose proof (Hsame f) as Hf.
  unfold hasDep in Hf.
  destruct (d1 !! f) as [a|], (d2 !! f) as [b|]; simpl in Hf.
  - f_equal. apply set_eq. intros t. apply Hf.
  - exfalso. apply (H1 a eq_refl). apply set_eq. intros t. rewrite Hf. done.
  - exfalso. apply (H2 b eq_refl). apply set_eq. intros t. rewrite <- Hf. done.
  - done.
Qed.

Section AggregatedFacts.
Context (st : State.t) (fuel : nat).

Lemma foldl_addPair_tidy (P : list (string * string)) (visibleDeps : gmap string (gset string)) :
  tidy visibleDeps → tidy (foldl (addPair st fuel) visibleDeps P).
Proof.
  revert visibleDeps. induction P as [|[m d] P IH]; intros visibleDeps Ht; [done|].
  simpl. apply IH. unfold addPair. simpl.
  destruct (visiblePair st fuel m d) as [[f t]|]; [by apply tidy_add|done].
Qed.

Lemma main_pass (consumers : list (string * list (string * gset string))) :
  let main := foldl (addTriple st fuel) (∅, ∅) (triples consumers) in
  (∀ f t, hasDep main.1 f t ↔
     ∃ c p ls, rawPair consumers c p ls ∧ visiblePair st fuel c p = Some (f, t))
  ∧ (∀ key label, hasLabel main.2 key label ↔
       ∃ c p ls f t, rawPair consumers c p ls ∧ visiblePair st fuel c p = Some (f, t)
                     ∧ edgeKey f t = key ∧ label ∈ ls)
  ∧ (∀ key, is_Some (main.2 !! key) ↔
       ∃ c p ls f t, rawPair consumers c p ls ∧ visiblePair st fuel c p = Some (f, t)
                     ∧ edgeKey f t = key)
  ∧ tidy main.1.
Proof.
  destruct (foldl_addTriple st fuel (triples consumers) (∅, ∅)) as (Hd & Hl & Hk & Ht).
  simpl. split; [|split; [|split]].
  - intros f t. rewrite Hd. unfold hasDep. simpl. rewrite lookup_empty. simpl.
    setoid_rewrite elem_of_triples. set_solver.
  - intros key label. rewrite Hl. unfold hasLabel. simpl. rewrite lookup_empty. simpl.
    setoid_rewrite elem_of_triples. set_solver.
  - intros key. rewrite Hk. simpl. rewrite lookup_empty.
    setoid_rewrite elem_of_triples. split.
    + intros [[? ?]|?]; done.
    + intros ?. by right.
  - apply Ht, tidy_empty.
Qed.

Lemma aggregated_deps (consumers : list (string * list (string * gset string)))
    (dependents : list (string * list string)) :
  (∀ c p, rawDep dependents c p ↔ ∃ ls, rawPair consumers c p ls) →
  ∀ f t, hasDep (Visible.deps (aggregated st fuel consumers dependents)) f t ↔
    ∃ c p ls, rawPair consumers c p ls ∧ visiblePair st fuel c p = Some (f, t).
Proof.
  intros Hcons f t. unfold aggregated.
  destruct (main_pass consumers) as (Hd & _ & _ & Ht). simpl in *.
  case_bool_decide as Hsize; simpl; [|apply Hd].
  apply map_size_empty_inv in Hsize.
  rewrite (foldl_addPair st fuel). rewrite Hsize. unfold hasDep at 1.
  rewrite lookup_empty. simpl. setoid_rewrite elem_of_pairs. split.
  - intros [?%not_elem_of_empty|(m & d & Hmd & Hp)]; [done|].
    apply Hcons in Hmd as [ls Hls]. by exists m, d, ls.
  - intros (c & p & ls & Hraw & Hp). right. exists c, p. split; [|done].
    apply Hcons. by exists ls.
Qed.

Lemma aggregated_tidy (consumers : list (string * list (string * gset string)))
    (dependents : list (string * list string)) :
  tidy (Visible.deps (aggregated st fuel consumers dependents)).
Proof.
  unfold aggregated. destruct (main_pass consumers) as (_ & _ & _ & Ht). simpl in *.
  case_bool_decide; [by apply foldl_addPair_tidy|done].
Qed.

Lemma aggregated_objects (consumers : list (string * list (string * gset string)))
    (dependents : list (string * list string)) (key : string) (labels : list string) :
  Visible.objects (aggregated st fuel consumers dependents) !! key = Some labels →
  StronglySorted String.le labels ∧ NoDup labels
  ∧ ∀ label, label ∈ labels ↔
      ∃ c p ls f t, rawPair consumers c p ls ∧ visiblePair st fuel c p = Some (f, t)
                    ∧ edgeKey f t = key ∧ label ∈ ls.
Proof.
  unfold aggregated. destruct (main_pass consumers) as (_ & Hl & _ & _). simpl in *.
  rewrite lookup_fmap. intros Hkey.
  destruct (_ !! key) as [s|] eqn:Hs; [|done]. injection Hkey as <-.
  split; [apply sortedElements_sorted|]. split; [apply sortedElements_sorted|].
  intros label. rewrite elem_of_sortedElements, <- Hl. unfold hasLabel. by rewrite Hs.
Qed.

Lemma aggregated_objects_key (consumers : list (string * list (string * gset string)))
    (dependents : list (string * list string)) (key : string) :
  is_Some (Visible.objects (aggregated st fuel consumers dependents) !! key) ↔
  ∃ c p ls f t, rawPair consumers c p ls ∧ visiblePair st fuel c p = Some (f, t)
                ∧ edgeKey f t = key.
Proof.
  unfold aggregated. destruct (main_pass consumers) as (_ & _ & Hk & _). simpl in *.
  rewrite lookup_fmap, <- Hk. by rewrite fmap_is_Some.
Qed.

Lemma aggregated_ext (consumers consumers' : list (string * list (string * gset string)))
    (dependents dependents' : list (string * list string)) :
  (∀ c p ls, rawPair consumers c p ls ↔ rawPair consumers' c p ls) →
  (∀ m d, rawDep dependents m d ↔ rawDep dependents' m d) →
  aggregated st fuel consumers dependents = aggregated st fuel consumers' dependents'.
Proof.
  intros Hraw Hdep. unfold aggregated.
  destruct (main_pass consumers) as (Hd & Hl & Hk & Ht).
  destruct (main_pass consumers') as (Hd' & Hl' & Hk' & Ht').
  simpl in *.
  assert (Hmain1 : (foldl (addTriple st fuel) (∅, ∅) (triples consumers)).1
                   = (foldl (addTriple st fuel) (∅, ∅) (triples consumers')).1).
  { apply tidy_equal; [done|done|]. intros f t. rewrite Hd, Hd'.
    by setoid_rewrite Hraw. }
  assert (Hmain2 : (foldl (addTriple st fuel) (∅, ∅) (triples consumers)).2
                   = (foldl (addTriple st fuel) (∅, ∅) (triples consumers')).2).
  { apply map_eq. intros key.
    pose proof (Hk key) as Hkey. pose proof (Hk' key) as Hkey'.
    pose proof (Hl key) as Hlab. pose proof (Hl' key) as Hlab'.
    unfold hasLabel in Hlab, Hlab'.
    set (m1 := (foldl (addTriple st fuel) (∅, ∅) (triples consumers)).2) in *.
    set (m2 := (foldl (addTriple st fuel) (∅, ∅) (triples consumers')).2) in *.
    destruct (m1 !! key) as [a|] eqn:Ha, (m2 !! key) as [b|] eqn:Hb; simpl in *.
    - f_equal. apply set_eq. intros label. rewrite Hlab, Hlab'. by setoid_rewrite Hraw.
    - exfalso. destruct (proj1 Hkey (mk_is_Some _ _ eq_refl)) as (c & p & ls & f & t & Hr & Hrest).
      apply Hraw in Hr. assert (Hnone : is_Some (@None (gset string))) by (apply Hkey'; eauto 10).
      by destruct Hnone.
    - exfalso. destruct (proj1 Hkey' (mk_is_Some _ _ eq_refl)) as (c & p & ls & f & t & Hr & Hrest).
      apply Hraw in Hr. assert (Hnone : is_Some (@None (gset string))) by (apply Hkey; eauto 10).
      by destruct Hnone.
    - done. }
  rewrite <- Hmain1, <- Hmain2. f_equal.
  case_bool_decide; [|done].
  apply tidy_equal; [by apply foldl_addPair_tidy|by apply foldl_addPair_tidy|].
  intros f t. rewrite !(foldl_addPair st fuel). setoid_rewrite elem_of_pairs.
  by setoid_rewrite Hdep.
Qed.

Lemma rawPair_consumerEntries (c p : string) (labels : gset string) :
  rawPair (consumerEntries st) c p labels ↔ recorded st c p labels.
Proof.
  unfold rawPair, consumerEntries, recorded. split.
  - intros (ps & Hc & Hp).
    apply list_elem_of_fmap in Hc as ([c' pm] & [= -> ->] & Hc).
    apply elem_of_map_to_list in Hc, Hp. by rewrite Hc.
  - destruct (State.moduleDepObjects st !! c) as [pm|] eqn:Hc; simpl; [|done].
    intros Hp. exists (map_to_list pm). split.
    + apply list_elem_of_fmap. exists (c, pm). split; [done|]. by apply elem_of_map_to_list.
    + by apply elem_of_map_to_list.
Qed.

Lemma rawDep_dependentEntries (m d : string) :
  rawDep (dependentEntries st) m d ↔ d ∈ default ∅ (State.moduleDeps st !! m).
Proof.
  unfold rawDep, dependentEntries. split.
  - intros (ds & Hm & Hd).
    apply list_elem_of_fmap in Hm as ([m' s] & [= -> ->] & Hm).
    apply elem_of_map_to_list in Hm. rewrite Hm. simpl. by apply elem_of_elements.
  - destruct (State.moduleDeps st !! m) as [s|] eqn:Hm; simpl; [|set_solver].
    intros Hd. exists (elements s). split.
    + apply list_elem_of_fmap. exists (m, s). split; [done|]. by apply elem_of_map_to_list.
    + by apply elem_of_elements.
Qed.
End AggregatedFacts.

Lemma visibleEdges_spec (out : Visible.t) (f t : string) :
  (f, t) ∈ visibleEdges out ↔ hasDep (Visible.deps out) f t.
Proof.
  unfold visibleEdges, hasDep. rewrite list_elem_of_bind. split.
  - intros ([f' ts] & Hin & Hf).
    apply list_elem_of_fmap in Hin as (t' & [= -> ->] & Ht).
    apply elem_of_map_to_list in Hf. rewrite Hf. simpl. by apply elem_of_elements.
  - destruct (Visible.deps out !! f) as [ts|] eqn:Hf; simpl; [|set_solver].
    intros Ht. exists (f, ts). split.
    + apply list_elem_of_fmap. exists t. split; [done|]. by apply elem_of_elements.
    + by apply elem_of_map_to_list.
Qed.

Lemma NoDup_visibleEdges (out : Visible.t) : NoDup (visibleEdges out).
Proof.
  unfold visibleEdges. apply NoDup_bind_disjoint.
  - apply NoDup_map_to_list.
  - intros [f ts] _. apply NoDup_fmap_2; [|apply NoDup_elements].
    by intros ?? [= ->].
  - intros [f1 ts1] [f2 ts2] [f t] H1 H2 Hz1 Hz2.
    apply list_elem_of_fmap in Hz1 as (t1 & [= -> ->] & _).
    apply list_elem_of_fmap in Hz2 as (t2 & [= -> ->] & _).
    apply elem_of_map_to_list in H1, H2. congruence.
Qed.

(** ** The pre-pass *)

Lemma addModuleDep_inv (g : Graph)
    (acc acc' : gmap string (gset string) * gmap string (gmap string (gset string)))
    (edge : Edge) :
  addModuleDep g acc edge = Some acc' → prepassInv g acc → prepassInv g acc'.
Proof.
  destruct acc as [md mdo]. intros Hrun [Hdom Hsame]. unfold addModuleDep in Hrun.
  destruct (bool_decide _ && bool_decide _); [by injection Hrun as <-|].
  destruct (negb (truthy _) || negb (truthy _) || bool_decide _);
    [by injection Hrun as <-|].
  destruct (negb (isModule g _) || negb (isModule g _)); [by injection Hrun as <-|].
  set (fromModule := moduleForNodeId g (from edge)) in *.
  set (toModule := moduleForNodeId g (to edge)) in *.
  destruct (md !! toModule) as [old|] eqn:Hold; [|done].
  set (labels := match objectAt g (from edge) with
                 | Own obj => _ ∪ _
                 | Inherited => _ ∪ _
                 | Absent => _
                 end) in Hrun.
  injection Hrun as <-. simpl in Hsame, Hdom.
  split; simpl.
  - intros m Hm. destruct (decide (toModule = m)) as [<-|Hne].
    + rewrite lookup_insert_eq. by eexists.
    + rewrite lookup_insert_ne by done. by apply Hdom.
  - intros c p. destruct (decide (toModule = c)) as [<-|Hne].
    + rewrite !lookup_insert_eq. simpl.
      destruct (decide (fromModule = p)) as [<-|Hnep].
      * rewrite lookup_insert_eq. split; [by eexists|set_solver].
      * rewrite lookup_insert_ne by done.
        specialize (Hsame toModule p). rewrite Hold in Hsame. simpl in Hsame.
        rewrite elem_of_union, elem_of_singleton, Hsame.
        destruct (mdo !! toModule); simpl; naive_solver.
    + rewrite !lookup_insert_ne by done. apply Hsame.
Qed.

Lemma buildModuleDeps_consistent (st st' : State.t) :
  buildModuleDeps st = Some st' → prepassConsistent st'.
Proof.
  unfold prepassConsistent, recorded, buildModuleDeps.
  destruct (forEachM _ _ _) as [[md mdo]|] eqn:Hrun; [|done]. simpl.
  intros [= <-]. simpl.
  apply (forEachM_invariant (prepassInv (State.graph st))) in Hrun.
  - apply Hrun.
  - split; simpl.
    + intros m Hm. by rewrite lookup_fmap, fmap_is_Some.
    + intros c p. rewrite lookup_fmap, lookup_empty. simpl.
      destruct (modules (State.graph st) !! c); simpl; split; set_solver.
  - intros acc e acc' _ Hacc Hstep. by apply (addModuleDep_inv _ acc acc' e).
Qed.

Lemma bootstrap_consistent (g : Graph) (expanded : gset string) (st : State.t) :
  bootstrap g expanded = Some st → prepassConsistent st.
Proof.
  unfold bootstrap. destruct (buildModuleDeps _) as [st0|] eqn:Hdeps; [|done].
  simpl. intros [= <-]. apply buildModuleDeps_consistent in Hdeps.
  unfold prepassConsistent, recorded in *. unfold buildNodes. simpl. exact Hdeps.
Qed.

Lemma demoState_consistent : prepassConsistent demoState.
Proof. exact (bootstrap_consistent _ _ _ demoState_boot). Qed.

Lemma applyLayout_consistent (layout : Layout.t) (st : State.t) :
  prepassConsistent st → prepassConsistent (applyLayout layout st).
Proof. done. Qed.

(** ** Aggregation of the dependency edges *)

Lemma skipEndpoint_standIn (st : State.t) (fuel : nat) (p : string) :
  is_Some (walkVisible st fuel p) →
  skipEndpoint (standIn st fuel p) = bool_decide (standIn st fuel p = ROOT_KEY).
Proof. intros Hp. unfold skipEndpoint. by rewrite (standIn_truthy st fuel p Hp). Qed.

(** The aggregation as the program does it.  On a valid tree, with
    enough fuel and the two maps of the pre-pass holding the same
    pairs, [buildVisibleModuleDeps] returns; both endpoints of every recorded
    pair are resolved by [resolveVisible] (whose answer is [standIn]); a
    pair counts for the visible pair of its stand-ins unless one of them
    is the synthetic root or they are equal; the edges of the result are
    exactly the visible pairs of the recorded pairs, each once; the labels
    of an edge are kept under the key [from->to], sorted and without
    duplicates, and are the union of the label sets of all recorded pairs
    whose visible pair has that key, which is the union over the pairs
    resolving to this very edge when no other edge has the same key. *)
Theorem buildVisibleModuleDeps_spec (st : State.t) (level : string → nat) (bound fuel : nat) :
  TreeOk (State.graph st) level bound → bound < fuel → prepassConsistent st →
  ∃ out, buildVisibleModuleDeps st fuel = Some out
    ∧ (∀ p cache, cacheOk st cache →
         ∃ cache', resolveVisible st fuel p cache = Some (standIn st fuel p, cache'))
    ∧ (∀ c p, visiblePair st fuel c p =
         if bool_decide (standIn st fuel c = ROOT_KEY ∨ standIn st fuel p = ROOT_KEY
                         ∨ standIn st fuel p = standIn st fuel c)
         then None else Some (standIn st fuel c, standIn st fuel p))
    ∧ (∀ f t, (f, t) ∈ visibleEdges out ↔
         ∃ c p ls, recorded st c p ls ∧ visiblePair st fuel c p = Some (f, t))
    ∧ NoDup (visibleEdges out)
    ∧ (∀ f t, (f, t) ∈ visibleEdges out →
         ∃ labels, Visible.objects out !! edgeKey f t = Some labels
           ∧ StronglySorted String.le labels ∧ NoDup labels
           ∧ (∀ label, label ∈ labels ↔
                ∃ c p ls f' t', recorded st c p ls
                  ∧ visiblePair st fuel c p = Some (f', t')
                  ∧ edgeKey f' t' = edgeKey f t ∧ label ∈ ls)
           ∧ ((∀ f' t', (f', t') ∈ visibleEdges out →
                 edgeKey f' t' = edgeKey f t → f' = f ∧ t' = t) →
              ∀ label, label ∈ labels ↔
                ∃ c p ls, recorded st c p ls
                  ∧ visiblePair st fuel c p = Some (f, t) ∧ label ∈ ls)).
Proof.
  intros Hok Hfuel Hcons.
  assert (Hwalk : ∀ p, is_Some (walkVisible st fuel p))
    by (intros p; by apply (walkVisible_total st level bound Hok)).
  exists (aggregated st fuel (consumerEntries st) (dependentEntries st)).
  split; [by apply aggregate_aggregated|].
  split.
  { intros p cache Hcache.
    destruct (resolveVisible_standIn st fuel p cache Hcache (Hwalk p)) as (cache' & Hres & _).
    by exists cache'. }
  split.
  { intros c p. unfold visiblePair.
    rewrite !skipEndpoint_standIn by done.
    repeat case_bool_decide; simpl; try done; naive_solver. }
  assert (Hedges : ∀ f t,
    (f, t) ∈ visibleEdges (aggregated st fuel (consumerEntries st) (dependentEntries st)) ↔
    ∃ c p ls, recorded st c p ls ∧ visiblePair st fuel c p = Some (f, t)).
  { intros f t. rewrite visibleEdges_spec, aggregated_deps.
    - by setoid_rewrite rawPair_consumerEntries.
    - intros c p. rewrite rawDep_dependentEntries, (Hcons c p).
      by setoid_rewrite rawPair_consumerEntries. }
  split; [done|]. split; [apply NoDup_visibleEdges|].
  intros f t Hft.
  assert (Hkey : is_Some (Visible.objects
            (aggregated st fuel (consumerEntries st) (dependentEntries st))
            !! edgeKey f t)).
  { apply aggregated_objects_key. apply Hedges in Hft as (c & p & ls & Hrec & Hp).
    exists c, p, ls, f, t. by rewrite rawPair_consumerEntries. }
  destruct Hkey as [labels Hlabels]. exists labels. split; [done|].
  destruct (aggregated_objects st fuel _ _ _ _ Hlabels) as (Hsorted & Hnodup & Hin).
  split; [done|]. split; [done|].
  assert (Hin' : ∀ label, label ∈ labels ↔
    ∃ c p ls f' t', recorded st c p ls ∧ visiblePair st fuel c p = Some (f', t')
      ∧ edgeKey f' t' = edgeKey f t ∧ label ∈ ls).
  { intros label. rewrite Hin. by setoid_rewrite rawPair_consumerEntries. }
  split; [done|].
  intros Hinj label. rewrite Hin'. split.
  - intros (c & p & ls & f' & t' & Hrec & Hp & Hk & Hl).
    destruct (Hinj f' t') as [-> ->]; [|done|by exists c, p, ls].
    apply Hedges. by exists c, p, ls.
  - intros (c & p & ls & Hrec & Hp & Hl). by exists c, p, ls, f, t.
Qed.

Lemma shownState_consistent (st : State.t) (fuel : nat) :
  prepassConsistent st → prepassConsistent (shownState st fuel).
Proof. apply applyLayout_consistent. Qed.

Lemma demoShown_ok : TreeOk (State.graph demoShown) String.length 8.
Proof. apply (bool_decide_unpack _). by vm_compute. Qed.

Lemma collisionShown_ok : TreeOk (State.graph collisionShown) (λ _, 0) 1.
Proof. apply (bool_decide_unpack _). by vm_compute. Qed.

Lemma resolveVisible_idempotent_witness :
  ∃ r cache',
    resolveVisible demoShown 9 "pkg.a.x" ∅ = Some (r, cache')
    ∧ r = "pkg.a"
    ∧ ∃ cache'', resolveVisible demoShown 9 r cache' = Some (r, cache'').
Proof.
  destruct (resolveVisible_idempotent demoShown String.length 8 9 "pkg.a.x" ∅
              demoShown_ok (le_n 9) (cacheOk_empty demoShown))
    as (r & cache' & Hres & _ & Hagain & _).
  exists r, cache'. split; [exact Hres|]. split; [|exact Hagain].
  assert (Hfst : fst <$> resolveVisible demoShown 9 "pkg.a.x" ∅ = Some "pkg.a")
    by (vm_compute; reflexivity).
  rewrite Hres in Hfst. by injection Hfst.
Defined.

Lemma buildVisibleModuleDeps_spec_witness :
  ∃ out labels,
    buildVisibleModuleDeps demoShown 9 = Some out
    ∧ ("pkg.b", "pkg.a") ∈ visibleEdges out
    ∧ Visible.objects out !! edgeKey "pkg.b" "pkg.a" = Some labels
    ∧ labels = ["Service (name=X)"]
    ∧ ∀ label, label ∈ labels ↔
        ∃ c p ls, recorded demoShown c p ls
          ∧ visiblePair demoShown 9 c p = Some ("pkg.b", "pkg.a") ∧ label ∈ ls.
Proof.
  destruct (buildVisibleModuleDeps_spec demoShown String.length 8 9 demoShown_ok
              (le_n 9) (shownState_consistent demoState 9 demoState_consistent))
    as (out & Hout & _ & _ & _ & _ & Hlabels).
  assert (Hedges : visibleEdges out = [("pkg.a", "pkg.b"); ("pkg.b", "pkg.a")]).
  { assert (Hsome : visibleEdges <$> buildVisibleModuleDeps demoShown 9
                    = Some [("pkg.a", "pkg.b"); ("pkg.b", "pkg.a")])
      by (vm_compute; reflexivity).
    rewrite Hout in Hsome. by injection Hsome. }
  destruct (Hlabels "pkg.b" "pkg.a") as (labels & Hkey & _ & _ & _ & Hunion).
  { rewrite Hedges. apply elem_of_cons. right. by left. }
  exists out, labels. split; [exact Hout|].
  split; [rewrite Hedges; apply elem_of_cons; right; by left|].
  split; [exact Hkey|]. split.
  - assert (Hsome : (λ o, Visible.objects o !! edgeKey "pkg.b" "pkg.a")
                      <$> buildVisibleModuleDeps demoShown 9
                    = Some (Some ["Service (name=X)"])) by (vm_compute; reflexivity).
    rewrite Hout in Hsome. injection Hsome as Hsome. rewrite Hkey in Hsome.
    by injection Hsome.
  - apply Hunion. intros f' t' Hin Hsame. rewrite Hedges in Hin.
    apply elem_of_cons in Hin as [Hin|Hin].
    + injection Hin as -> ->. exfalso. clear -Hsame. discriminate Hsame.
    + apply list_elem_of_singleton in Hin. injection Hin as -> ->. split; reflexivity.
Defined.

(** C1, at the failing input: the edge from [a] to [b->c] shows the
    label [Cache], which no recorded pair resolving to that edge
    carries; it comes from the pair ([a->b], [c]), whose edge has the
    same key string, so the label sets of two different visible pairs
    are merged where the claim merges those of one pair only. *)
Lemma buildVisibleModuleDeps_key_collision :
  ∃ out,
    buildVisibleModuleDeps collisionShown 2 = Some out
    ∧ ("a", "b->c") ∈ visibleEdges out
    ∧ Visible.objects out !! edgeKey "a" "b->c" = Some ["Cache"; "Store"]
    ∧ ¬ (∃ c p ls, recorded collisionShown c p ls
           ∧ visiblePair collisionShown 2 c p = Some ("a", "b->c") ∧ "Cache" ∈ ls).
Proof.
  assert (Hsome : is_Some (buildVisibleModuleDeps collisionShown 2))
    by (apply (bool_decide_unpack _); vm_compute; exact I).
  destruct Hsome as [out Hout].
  exists out. split; [done|].
  assert (Hedges : visibleEdges <$> buildVisibleModuleDeps collisionShown 2
                   = Some [("a->b", "c"); ("a", "b->c")]) by (vm_compute; reflexivity).
  assert (Hkey : (λ o, Visible.objects o !! edgeKey "a" "b->c")
                   <$> buildVisibleModuleDeps collisionShown 2
                 = Some (Some ["Cache"; "Store"])) by (vm_compute; reflexivity).
  rewrite Hout in Hedges, Hkey.
  injection Hedges as Hedges. injection Hkey as Hkey.
  split; [rewrite Hedges; right; by left|]. split; [exact Hkey|].
  intros (c & p & ls & Hrec & Hpair & Hlabel).
  unfold recorded in Hrec.
  destruct (State.moduleDepObjects collisionShown !! c) as [pm|] eqn:Hc;
    [|discriminate Hrec].
  cbn [mbind option_bind] in Hrec. apply elem_of_map_to_list in Hc.
  assert (Hall : map_to_list (State.moduleDepObjects collisionShown)
                 = [("a->b", {[ "c" := {[ "Cache" ]} ]});
                    ("a", {[ "b->c" := {[ "Store" ]} ]})]) by (vm_compute; reflexivity).
  rewrite Hall in Hc. clear Hall.
  apply elem_of_cons in Hc as [Hc|Hc].
  - injection Hc as -> ->.
    apply lookup_singleton_Some in Hrec as [<- <-].
    assert (Hvis : visiblePair collisionShown 2 "a->b" "c" = Some ("a->b", "c"))
      by (vm_compute; reflexivity).
    rewrite Hvis in Hpair. discriminate Hpair.
  - apply list_elem_of_singleton in Hc. injection Hc as -> ->.
    apply lookup_singleton_Some in Hrec as [<- <-].
    apply elem_of_singleton in Hlabel. discriminate Hlabel.
Qed.

(** ** Repeating the layout *)

Lemma applyLayout_nodes (layout : Layout.t) (st : State.t) (p : string) :
  State.nodes (applyLayout layout st) !! p
  = (λ _, bool_decide (is_Some (Layout.positions layout !! p))) <$> State.nodes st !! p.
Proof.
  unfold applyLayout. simpl. rewrite !map_lookup_imap.
  destruct (State.nodes st !! p) as [flag|] eqn:Hp; simpl; [|done].
  f_equal. case_bool_decide as Hvis.
  - rewrite bool_decide_eq_false_2; [done|]. intros Hpos. apply Hvis.
    apply elem_of_filter. split; [by rewrite Hp|]. by apply elem_of_dom.
  - apply elem_of_filter in Hvis as [_ Hpos].
    apply elem_of_dom in Hpos. by rewrite !bool_decide_eq_true_2.
Qed.

Lemma layoutTree_sameInputs (st1 st2 : State.t) (fuel : nat) :
  sameInputs st1 st2 → layoutTree st1 fuel = layoutTree st2 fuel.
Proof.
  intros (Hg & _ & _ & He & Ho & _). unfold layoutTree, layoutRoots.
  by rewrite Hg, He, Ho.
Qed.

Lemma applyLayout_sameInputs (layout : Layout.t) (st1 st2 : State.t) :
  sameInputs st1 st2 → applyLayout layout st1 = applyLayout layout st2.
Proof.
  intros (Hg & Hd & Hm & He & Ho & Hn).
  assert (Hnodes : State.nodes (applyLayout layout st1)
                   = State.nodes (applyLayout layout st2)).
  { apply map_eq. intros p. rewrite !applyLayout_nodes.
    assert (Hp : is_Some (State.nodes st1 !! p) ↔ is_Some (State.nodes st2 !! p))
      by (by rewrite <- !elem_of_dom, Hn).
    destruct (State.nodes st1 !! p), (State.nodes st2 !! p); simpl; try done.
    - destruct Hp as [Hp _]. by destruct (Hp (mk_is_Some _ _ eq_refl)).
    - destruct Hp as [_ Hp]. by destruct (Hp (mk_is_Some _ _ eq_refl)). }
  unfold applyLayout in *. simpl in Hnodes. rewrite Hnodes.
  by rewrite Hg, Hd, Hm, He, Ho.
Qed.

Lemma applyLayout_sameInputs_self (layout : Layout.t) (st : State.t) :
  sameInputs st (applyLayout layout st).
Proof.
  unfold sameInputs. repeat split; try done.
  apply set_eq. intros p. rewrite !elem_of_dom, applyLayout_nodes.
  by rewrite fmap_is_Some.
Qed.

Lemma updateGraph_sameInputs (st1 st2 : State.t) (fuel : nat) :
  sameInputs st1 st2 → updateGraph st1 fuel = updateGraph st2 fuel.
Proof.
  intros Hsame. unfold updateGraph. rewrite (layoutTree_sameInputs st1 st2 fuel Hsame).
  destruct (layoutTree st2 fuel) as [layout|]; [|done]. simpl.
  by rewrite (applyLayout_sameInputs layout st1 st2 Hsame).
Qed.

Lemma updateGraph_again (st st' : State.t) (fuel : nat) (out : Visible.t) :
  updateGraph st fuel = Some (st', out) → updateGraph st' fuel = Some (st', out).
Proof.
  intros Hupdate. pose proof Hupdate as Hfirst. unfold updateGraph in Hfirst.
  destruct (layoutTree st fuel) as [layout|] eqn:Hlayout; [|done]. simpl in Hfirst.
  destruct (buildVisibleModuleDeps _ _) as [out'|] eqn:Hout; [|done].
  injection Hfirst as <- <-.
  rewrite <- (updateGraph_sameInputs st _ fuel (applyLayout_sameInputs_self layout st)).
  exact Hupdate.
Qed.

Lemma aggregate_sorted (st : State.t) (fuel : nat)
    (consumers : list (string * list (string * gset string)))
    (dependents : list (string * list string)) (out : Visible.t) :
  aggregate st fuel consumers dependents = Some out →
  ∀ key labels, Visible.objects out !! key = Some labels →
    StronglySorted String.le labels ∧ NoDup labels.
Proof.
  unfold aggregate. unfold mbind at 1. unfold Cached_bind.
  destruct (forEachC _ _ _ _) as [[[vd obe] cache]|]; [|done].
  unfold mbind, Cached_bind.
  destruct (if bool_decide (size vd = 0) then _ else _) as [[vd' cache']|]; [|done].
  simpl. intros [= <-] key labels. simpl. rewrite lookup_fmap.
  destruct (obe !! key) as [s|]; [|done]. intros [= <-].
  apply sortedElements_sorted.
Qed.

(** ** The bend of an edge *)

Lemma list_ascii_of_string_app (s1 s2 : string) :
  String.list_ascii_of_string (s1 +:+ s2)
  = String.list_ascii_of_string s1 ++ String.list_ascii_of_string s2.
Proof.
  induction s1 as [|c s1 IH]; [done|]. unfold String.app in *. simpl. by f_equal.
Qed.

Lemma charCode_range (c : Ascii.ascii) : (0 ≤ charCode c < 256)%Z.
Proof.
  unfold charCode. pose proof (Ascii.N_ascii_bounded c). lia.
Qed.

Lemma keyHash_range (key : string) : (0 ≤ keyHash key < 97)%Z.
Proof.
  unfold keyHash. apply foldl_invariant; [lia|].
  intros hash c _ Hhash. pose proof (charCode_range c).
  apply Z.rem_bound_pos; lia.
Qed.

Lemma keyHash_snoc (key : string) (c : Ascii.ascii) :
  keyHash (key +:+ String c EmptyString)
  = ((keyHash key * 31 + charCode c) `mod` 97)%Z.
Proof.
  unfold keyHash at 1. rewrite list_ascii_of_string_app, foldl_app. simpl.
  fold (keyHash key). pose proof (keyHash_range key). pose proof (charCode_range c).
  apply Z.rem_mod_nonneg; lia.
Qed.

Lemma curveBias_sign (key : string) :
  (curveBias key = 1%Z ∨ curveBias key = (-1)%Z)
  ∧ (curveBias key = 1%Z ↔ Z.even (keyHash key) = true)
  ∧ (curveBias key = (-1)%Z ↔ Z.odd (keyHash key) = true).
Proof.
  unfold curveBias. pose proof (keyHash_range key) as Hrange.
  assert (Hrem : Z.rem (keyHash key) 2 = (keyHash key `mod` 2)%Z)
    by (apply Z.rem_mod_nonneg; lia).
  rewrite Hrem. rewrite <- Z.negb_even.
  destruct (Z.even (keyHash key)) eqn:Heven.
  - apply Z.even_spec in Heven. destruct Heven as [k Hk].
    rewrite bool_decide_eq_true_2 by (rewrite Hk, Z.mul_comm; apply Z.mod_mul; lia).
    split; [by left|]. split; [done|]. split; done.
  - assert (Hodd : Z.odd (keyHash key) = true) by (by rewrite <- Z.negb_even, Heven).
    apply Z.odd_spec in Hodd. destruct Hodd as [k Hk].
    rewrite bool_decide_eq_false_2.
    + split; [by right|]. split; [|done]. split; done.
    + rewrite Hk. rewrite Z.add_comm, Z.mul_comm, Z.mod_add by lia. done.
Qed.

(** C3.  For two states with the same snapshot, pre-pass maps and
    expansion set (whatever flags an earlier layout left on the nodes),
    on a valid tree and with enough fuel, [updateGraph] returns, and
    returns the same state and the same edges for both; run again on the
    state it returned it returns that state and those edges again; the
    edges are the same for every order in which the entries of the two
    pre-pass maps are visited; every label list is sorted and without
    duplicates; and the bend of an edge is +1 or -1, +1 exactly when the
    hash of its key is even, the hash starting at 0 and becoming
    [(hash * 31 + charCode) mod 97] with each character. *)
Theorem updateGraph_deterministic (st1 st2 : State.t) (level : string → nat)
    (bound fuel : nat) :
  TreeOk (State.graph st1) level bound →
  State.moduleOrder st1 = sortedModules (State.graph st1) →
  bound < fuel → sameInputs st1 st2 →
  ∃ st' out,
    updateGraph st1 fuel = Some (st', out)
    ∧ updateGraph st2 fuel = Some (st', out)
    ∧ updateGraph st' fuel = Some (st', out)
    ∧ (∀ consumers dependents,
         (∀ c p ls, rawPair consumers c p ls ↔ recorded st' c p ls) →
         (∀ m d, rawDep dependents m d ↔ d ∈ default ∅ (State.moduleDeps st' !! m)) →
         aggregate st' fuel consumers dependents = Some out)
    ∧ (∀ key labels, Visible.objects out !! key = Some labels →
         StronglySorted String.le labels ∧ NoDup labels)
    ∧ (∀ key, (curveBias key = 1%Z ∨ curveBias key = (-1)%Z)
              ∧ (curveBias key = 1%Z ↔ Z.even (keyHash key) = true)
              ∧ (curveBias key = (-1)%Z ↔ Z.odd (keyHash key) = true))
    ∧ keyHash EmptyString = 0%Z
    ∧ (∀ key c, keyHash (key +:+ String c EmptyString)
                = ((keyHash key * 31 + charCode c) `mod` 97)%Z).
Proof.
  intros Hok Horder Hfuel Hsame.
  destruct (layoutTree_total st1 Horder level bound Hok fuel ltac:(lia)) as [layout Hlayout].
  set (st' := applyLayout layout st1).
  assert (Hwalk : ∀ p, is_Some (walkVisible st' fuel p))
    by (intros p; by apply (walkVisible_total st' level bound Hok)).
  set (out := aggregated st' fuel (consumerEntries st') (dependentEntries st')).
  assert (Hout : buildVisibleModuleDeps st' fuel = Some out)
    by (by apply aggregate_aggregated).
  assert (Hupdate : updateGraph st1 fuel = Some (st', out)).
  { unfold updateGraph. rewrite Hlayout. simpl. fold st'. by rewrite Hout. }
  exists st', out. split; [done|].
  split; [by rewrite <- (updateGraph_sameInputs st1 st2 fuel Hsame)|].
  split; [by apply (updateGraph_again st1)|].
  split.
  { intros consumers dependents Hraw Hdep.
    rewrite (aggregate_aggregated st' fuel Hwalk). f_equal.
    apply aggregated_ext.
    - intros c p ls. by rewrite Hraw, rawPair_consumerEntries.
    - intros m d. by rewrite Hdep, rawDep_dependentEntries. }
  split; [by apply (aggregate_sorted st' fuel _ _ out Hout)|].
  split; [apply curveBias_sign|]. split; [done|]. apply keyHash_snoc.
Qed.

Lemma updateGraph_deterministic_witness :
  ∃ st' out,
    updateGraph demoState 9 = Some (st', out)
    ∧ updateGraph demoShown 9 = Some (st', out)
    ∧ updateGraph st' 9 = Some (st', out)
    ∧ Visible.objects out !! edgeKey "pkg.b" "pkg.a" = Some ["Service (name=X)"]
    ∧ curveBias (edgeKey "pkg.b" "pkg.a") = 1%Z.
Proof.
  assert (Hok : TreeOk (State.graph demoState) String.length 8)
    by (rewrite demoState_graph; exact demoGraph_ok).
  destruct (updateGraph_deterministic demoState demoShown String.length 8 9 Hok
              demoState_order (le_n 9)
              (applyLayout_sameInputs_self _ demoState))
    as (st' & out & H1 & H2 & H3 & _ & _ & Hbias & _).
  exists st', out. split; [exact H1|]. split; [exact H2|]. split; [exact H3|]. split.
  - assert (Hsome : (λ r, Visible.objects r.2 !! edgeKey "pkg.b" "pkg.a")
                      <$> updateGraph demoState 9
                    = Some (Some ["Service (name=X)"])) by (vm_compute; reflexivity).
    rewrite H1 in Hsome. by injection Hsome.
  - destruct (Hbias (edgeKey "pkg.b" "pkg.a")) as (_ & Heven & _).
    apply Heven. vm_compute. reflexivity.
Defined.

(** ** Which modules are laid out *)

Section OpenFacts.
Context (g : Graph) (expanded : gset string).

Lemma openChain_cons (p c x : string) :
  p ∈ expanded → c ∈ childrenOf g p → openChain g expanded c x →
  openChain g expanded p x.
Proof.
  intros Hp Hc. induction 1 as [c|c q c' _ IH Hq Hc'].
  - eapply openChain_step; [constructor|done|done].
  - eapply openChain_step; [by apply IH|done|done].
Qed.

Lemma shownBelow_open (fuel : nat) (p x : string) :
  x ∈ shownBelow g expanded fuel p → openChain g expanded p x.
Proof.
  revert p. induction fuel as [|fuel IH]; intros p; simpl.
  - by intros ?%elem_of_nil.
  - intros [->|Hin]%elem_of_cons; [constructor|].
    case_bool_decide as He; [by apply elem_of_nil in Hin|].
    apply list_elem_of_bind in Hin as (c & Hx & Hc).
    apply elem_of_jsSortBy in Hc.
    eapply openChain_cons; [done|done|by apply IH].
Qed.

Context (level : string → nat) (bound : nat).
Hypothesis Hok : TreeOk g level bound.

Lemma shownBelow_closed (n : nat) (p q c : string) :
  is_Some (modules g !! p) → bound - level p ≤ n →
  q ∈ shownBelow g expanded n p → q ∈ expanded → c ∈ childrenOf g q →
  c ∈ shownBelow g expanded n p.
Proof.
  revert p. induction n as [|n IH]; intros p Hp Hn Hq HqE Hc.
  { apply (tree_bound _ _ _ Hok) in Hp. lia. }
  simpl in Hq |- *. apply elem_of_cons in Hq as [->|Hq].
  - rewrite bool_decide_eq_false_2 by (intros Hne; by apply Hne).
    apply elem_of_cons. right. apply list_elem_of_bind. exists c.
    split; [|by apply elem_of_jsSortBy].
    pose proof (tree_child_bound _ _ _ Hok p c Hc) as Hlv.
    destruct n as [|n]; [lia|]. simpl. by left.
  - case_bool_decide as He; [by apply elem_of_nil in Hq|].
    apply list_elem_of_bind in Hq as (c' & Hq & Hc').
    apply elem_of_cons. right. apply list_elem_of_bind. exists c'. split; [|done].
    apply elem_of_jsSortBy in Hc'.
    pose proof (tree_child_bound _ _ _ Hok p c' Hc') as Hlv.
    apply IH; [by apply (tree_child _ _ _ Hok p c')|lia|done|done|done].
Qed.

Lemma open_shown (n : nat) (p x : string) :
  is_Some (modules g !! p) → bound - level p ≤ n →
  openChain g expanded p x → x ∈ shownBelow g expanded n p.
Proof.
  intros Hp Hn. induction 1 as [p|p q c _ IH Hq Hc].
  - apply (tree_bound _ _ _ Hok) in Hp. destruct n as [|n]; [lia|]. simpl. by left.
  - apply (shownBelow_closed n p q c); auto.
Qed.

Lemma iter_nonmodule (p : string) (k : nat) :
  ¬ is_Some (modules g !! p) → ¬ is_Some (modules g !! Nat.iter k (parentOf g) p).
Proof.
  intros Hp. induction k as [|k IH]; [done|]. simpl.
  unfold parentOf at 1.
  destruct (modules g !! Nat.iter k (parentOf g) p) as [m|] eqn:Hm.
  { exfalso. apply IH. by eexists. }
  simpl. rewrite (tree_no_empty _ _ _ Hok). by intros [? ?].
Qed.

Lemma root_no_ancestor (r : string) (k : nat) :
  isRootModule g r = true → 0 < k →
  ¬ is_Some (modules g !! Nat.iter k (parentOf g) r).
Proof.
  intros Hroot Hk. destruct k as [|k]; [lia|].
  rewrite iter_parent_succ. apply iter_nonmodule.
  apply isRootModule_true in Hroot as [Hroot|[Hroot _]].
  - rewrite Hroot, (tree_no_empty _ _ _ Hok). by intros [? ?].
  - rewrite Hroot. by intros [? ?].
Qed.

Lemma rooted_root (r : string) :
  is_Some (modules g !! r) → isRootModule g r = true → rooted g r.
Proof. intros Hr Hroot. by exists 0. Qed.

Lemma rooted_child (q c : string) :
  c ∈ childrenOf g q → rooted g q → rooted g c.
Proof.
  intros Hc (k & Hmod & Hroot).
  destruct (tree_child _ _ _ Hok q c Hc) as [_ Hpar].
  exists (S k). by rewrite iter_parent_succ, Hpar.
Qed.

Lemma rooted_parent (m : string) :
  isRootModule g m = false → rooted g m →
  is_Some (modules g !! parentOf g m) ∧ rooted g (parentOf g m).
Proof.
  intros Hnot (k & Hmod & Hroot).
  destruct k as [|k]; [simpl in Hroot; congruence|].
  rewrite iter_parent_succ in Hmod, Hroot.
  split; [|by exists k].
  destruct (decide (is_Some (modules g !! parentOf g m))) as [?|Hno]; [done|].
  by apply (iter_nonmodule _ k) in Hno.
Qed.

Lemma ancestorsExpanded_parent (m : string) :
  ancestorsExpanded g expanded m → ancestorsExpanded g expanded (parentOf g m).
Proof.
  intros Hanc k Hk Hmod. rewrite <- iter_parent_succ in Hmod |- *.
  apply Hanc; [lia|done].
Qed.

Lemma ancestorsExpanded_child (s m : string) :
  is_Some (modules g !! s) → ancestorsExpanded g expanded s → s ∈ expanded →
  m ∈ childrenOf g s → ancestorsExpanded g expanded m.
Proof.
  intros Hs Hanc HE Hm. destruct (tree_child _ _ _ Hok s m Hm) as [_ Hpar].
  intros k Hk Hmod. destruct k as [|k]; [lia|].
  rewrite iter_parent_succ, Hpar in Hmod |- *.
  destruct k as [|k]; [done|]. apply Hanc; [lia|done].
Qed.

Lemma child_not_root (s m : string) :
  m ∈ childrenOf g s → isRootModule g m = false.
Proof.
  intros Hm. destruct (tree_child _ _ _ Hok s m Hm) as [_ Hpar].
  apply childrenOf_module in Hm as (ms & Hs & _).
  apply isRootModule_false. rewrite Hpar. split.
  - intros ->. rewrite (tree_no_empty _ _ _ Hok) in Hs. done.
  - left. by eexists.
Qed.

Lemma rooted_module (m : string) : rooted g m → is_Some (modules g !! m).
Proof.
  intros (k & Hmod & _).
  destruct (decide (is_Some (modules g !! m))) as [?|Hno]; [done|].
  by apply (iter_nonmodule _ k) in Hno.
Qed.

Lemma open_ancestors (r m : string) :
  is_Some (modules g !! r) → isRootModule g r = true → openChain g expanded r m →
  is_Some (modules g !! m) ∧ ancestorsExpanded g expanded m ∧ rooted g m.
Proof.
  intros Hr Hroot. induction 1 as [r|r q c _ IH Hq Hc].
  - split; [done|]. split; [|by apply rooted_root].
    intros k Hk Hmod. by apply root_no_ancestor in Hmod.
  - destruct (IH Hr Hroot) as (Hqm & Hanc & Hrooted).
    destruct (tree_child _ _ _ Hok q c Hc) as [Hcm Hpar].
    split; [done|]. split; [|by apply (rooted_child q c)].
    intros k Hk Hmod.
    destruct k as [|k]; [lia|]. rewrite iter_parent_succ, Hpar in Hmod |- *.
    destruct k as [|k]; [done|]. apply Hanc; [lia|done].
Qed.

Lemma ancestors_open (m : string) :
  is_Some (modules g !! m) → ancestorsExpanded g expanded m → rooted g m →
  ∃ r, is_Some (modules g !! r) ∧ isRootModule g r = true ∧ openChain g expanded r m.
Proof.
  remember (level m) as n eqn:Hn. revert m Hn.
  induction n as [n IH] using lt_wf_ind. intros m -> Hm Hanc Hrooted.
  destruct (isRootModule g m) eqn:Hroot.
  { exists m. split; [done|]. split; [done|constructor]. }
  destruct (rooted_parent m Hroot Hrooted) as [Hpm Hprooted].
  pose proof (tree_parent _ _ _ Hok m Hm Hpm) as Hchild.
  pose proof (tree_level _ _ _ Hok _ _ Hchild) as Hlv.
  destruct (IH (level (parentOf g m)) Hlv (parentOf g m) eq_refl Hpm)
    as (r & Hr & Hroot' & Hopen); [|done|].
  { intros k Hk Hmod. rewrite <- iter_parent_succ in Hmod |- *.
    apply Hanc; [lia|done]. }
  exists r. split; [done|]. split; [done|].
  eapply openChain_step; [done| |done].
  apply (Hanc 1); [lia|done].
Qed.
End OpenFacts.

Section ShownFacts.
Context (st : State.t) (level : string → nat) (bound : nat).
Let g := State.graph st.
Let expanded := State.expandedModules st.
Hypothesis Hok : TreeOk g level bound.
Hypothesis Horder : State.moduleOrder st = sortedModules g.

Lemma layout_shown (fuel : nat) (layout : Layout.t) (m : string) :
  bound ≤ fuel → layoutTree st fuel = Some layout →
  is_Some (Layout.positions layout !! m) ↔
  m = ROOT_KEY
  ∨ (is_Some (modules g !! m) ∧ ancestorsExpanded g expanded m ∧ rooted g m).
Proof.
  intros Hfuel Hlayout. split.
  - intros [pm Hpm].
    destruct (layout_lookup_inv st Horder level bound Hok fuel layout m pm Hlayout Hpm)
      as [Hin|[-> _]]; [|by left].
    right.
    assert (Hkey : m ∈ (rootPlacements st fuel).*1).
    { apply list_elem_of_fmap. by exists (m, pm). }
    rewrite rootPlacements_keys in Hkey.
    apply list_elem_of_bind in Hkey as (r & Hm & Hr).
    apply (layoutRoots_spec st Horder) in Hr as [Hr Hroot].
    apply shownBelow_open in Hm.
    by apply (open_ancestors g expanded level bound Hok r m).
  - intros [->|(Hm & Hanc & Hrooted)].
    + rewrite (layoutTree_positions st fuel layout Hlayout).
      rewrite insertAll_lookup_notin.
      * rewrite lookup_singleton_eq. by eexists.
      * intros Hin%(rootPlacements_module st Horder level bound Hok).
        fold g in Hin. rewrite (tree_no_root _ _ _ Hok) in Hin. by destruct Hin.
    + destruct (ancestors_open g expanded level bound Hok m Hm Hanc Hrooted)
        as (r & Hr & Hroot & Hopen).
      assert (Hkey : m ∈ (rootPlacements st fuel).*1).
      { rewrite rootPlacements_keys. apply list_elem_of_bind. exists r. split.
        - apply (open_shown g expanded level bound Hok); [done| |done].
          apply (tree_bound _ _ _ Hok) in Hr. lia.
        - by apply (layoutRoots_spec st Horder). }
      apply list_elem_of_fmap in Hkey as ([m' pm] & -> & Hin). simpl.
      exists pm. by apply (layout_lookup st Horder level bound Hok fuel layout).
Qed.
End ShownFacts.

(** ** Nodes and their visibility after [updateGraph] *)

Lemma foldl_insert_true (l : list string) (init : gmap string bool) (m : string) :
  foldl (λ nodes path, <[path := true]> nodes) init l !! m
  = if decide (m ∈ l) then Some true else init !! m.
Proof.
  revert init. induction l as [|p l IH]; intros init; cbn [foldl].
  - by rewrite decide_False by apply not_elem_of_nil.
  - rewrite IH. destruct (decide (m ∈ l)) as [Hin|Hin].
    + by rewrite decide_True by (by right).
    + destruct (decide (m = p)) as [->|Hne].
      * rewrite decide_True by (by left). by rewrite lookup_insert_eq.
      * rewrite decide_False by (intros [?|?]%elem_of_cons; done).
        by rewrite lookup_insert_ne.
Qed.

Lemma buildNodes_lookup (st : State.t) (m : string) :
  State.nodes (buildNodes st) !! m
  = if bool_decide (m = ROOT_KEY ∨ is_Some (modules (State.graph st) !! m))
    then Some true else None.
Proof.
  unfold buildNodes. cbn [State.nodes]. rewrite foldl_insert_true.
  destruct (decide (m ∈ sortedModules (State.graph st))) as [Hin|Hin].
  - apply sortedModules_spec in Hin. by rewrite bool_decide_eq_true_2 by (by right).
  - destruct (decide (m = ROOT_KEY)) as [->|Hne].
    + rewrite lookup_singleton_eq. by rewrite bool_decide_eq_true_2 by (by left).
    + rewrite lookup_singleton_ne by done.
      rewrite bool_decide_eq_false_2; [done|].
      intros [?|Hm]; [done|]. by apply sortedModules_spec in Hm.
Qed.

Lemma nodesBuilt_buildNodes (st : State.t) : nodesBuilt (buildNodes st).
Proof.
  split; [|done]. intros m. rewrite buildNodes_lookup.
  case_bool_decide as H; [|split; [by intros [? ?]|done]].
  split; [done|by eexists].
Qed.

Lemma nodesBuilt_bootstrap (g : Graph) (expanded : gset string) (st : State.t) :
  bootstrap g expanded = Some st → nodesBuilt st.
Proof.
  unfold bootstrap. destruct (buildModuleDeps _) as [st0|]; [|done].
  simpl. intros [= <-]. apply nodesBuilt_buildNodes.
Qed.

Lemma demoState_built : nodesBuilt demoState.
Proof. exact (nodesBuilt_bootstrap _ _ _ demoState_boot). Qed.

Lemma nodesBuilt_applyLayout (layout : Layout.t) (st : State.t) :
  nodesBuilt st → nodesBuilt (applyLayout layout st).
Proof.
  intros [Hnodes Horder]. split; [|done]. intros m.
  rewrite applyLayout_nodes, fmap_is_Some. apply Hnodes.
Qed.

Lemma nodesBuilt_withExpanded (expanded : gset string) (st : State.t) :
  nodesBuilt st → nodesBuilt (withExpanded expanded st).
Proof. done. Qed.

Lemma nodeVisible_applyLayout (layout : Layout.t) (st : State.t) (m : string) :
  nodeVisible (applyLayout layout st) m = true
  ↔ is_Some (State.nodes st !! m) ∧ is_Some (Layout.positions layout !! m).
Proof.
  unfold nodeVisible. rewrite applyLayout_nodes.
  destruct (State.nodes st !! m) as [flag|]; simpl.
  - rewrite bool_decide_eq_true. split; [by split; [eexists|]|by intros [_ ?]].
  - split; [done|]. by intros [[? ?] _].
Qed.

Lemma buildVisibleModuleDeps_total (st : State.t) (level : string → nat) (bound fuel : nat) :
  TreeOk (State.graph st) level bound → bound < fuel →
  is_Some (buildVisibleModuleDeps st fuel).
Proof.
  intros Hok Hfuel. unfold buildVisibleModuleDeps.
  rewrite aggregate_aggregated; [by eexists|].
  intros p. by apply (walkVisible_total st level bound Hok).
Qed.

Lemma updateGraph_visible (st : State.t) (level : string → nat) (bound fuel : nat) :
  TreeOk (State.graph st) level bound → nodesBuilt st → bound < fuel →
  ∃ st' out,
    updateGraph st fuel = Some (st', out)
    ∧ State.graph st' = State.graph st
    ∧ State.expandedModules st' = State.expandedModules st
    ∧ nodesBuilt st'
    ∧ ∀ m, nodeVisible st' m = true ↔
           m = ROOT_KEY
           ∨ (is_Some (modules (State.graph st) !! m)
              ∧ ancestorsExpanded (State.graph st) (State.expandedModules st) m
              ∧ rooted (State.graph st) m).
Proof.
  intros Hok Hbuilt Hfuel. pose proof Hbuilt as [Hnodes Horder].
  destruct (layoutTree_total st Horder level bound Hok fuel) as [layout Hlayout]; [lia|].
  destruct (buildVisibleModuleDeps_total (applyLayout layout st) level bound fuel)
    as [out Hout]; [done|done|].
  exists (applyLayout layout st), out. unfold updateGraph. rewrite Hlayout. simpl.
  rewrite Hout. simpl. split; [done|]. split; [done|]. split; [done|].
  split; [by apply nodesBuilt_applyLayout|].
  intros m. rewrite nodeVisible_applyLayout.
  rewrite (layout_shown st level bound Hok Horder fuel layout m) by (lia || done).
  rewrite Hnodes. tauto.
Qed.

(** ** Expanding the way to a module *)

Section ExpandFacts.
Context (g : Graph) (level : string → nat) (bound : nat).
Hypothesis Hok : TreeOk g level bound.

Lemma expandLoop_spec (n : nat) (p : string) (expanded : gset string) :
  (is_Some (modules g !! p) → level p + 2 ≤ n) → 1 ≤ n →
  ∃ expanded',
    expandLoop g n p expanded = Some expanded'
    ∧ expanded ⊆ expanded'
    ∧ (∀ x, x ∈ expanded' → x ∈ expanded ∨ ∃ k, x = Nat.iter k (parentOf g) p)
    ∧ (p ≠ EmptyString → p ≠ ROOT_KEY → p ∈ expanded')
    ∧ (∀ k, is_Some (modules g !! Nat.iter k (parentOf g) p) →
            Nat.iter k (parentOf g) p ∈ expanded').
Proof.
  revert p expanded. induction n as [|n IH]; intros p expanded Hlevel Hn; [lia|].
  cbn [expandLoop]. rewrite orElse_empty.
  destruct (truthy p && bool_decide (p ≠ ROOT_KEY)) eqn:Hp.
  2:{ exists expanded. split; [done|]. split; [done|]. split; [by left|].
      apply andb_false_iff in Hp.
      split.
      - intros Hne Hroot. destruct Hp as [Hp|Hp].
        + by apply truthy_false in Hp.
        + by apply bool_decide_eq_false in Hp.
      - intros k Hmod. exfalso. revert Hmod.
        apply (iter_nonmodule g level bound Hok). destruct Hp as [Hp|Hp].
        + apply truthy_false in Hp. rewrite Hp, (tree_no_empty _ _ _ Hok).
          by intros [? ?].
        + apply bool_decide_eq_false in Hp. apply dec_stable in Hp.
          rewrite Hp, (tree_no_root _ _ _ Hok). by intros [? ?]. }
  apply andb_true_iff in Hp as [Hne Hroot].
  destruct (negb (truthy (parentOf g p)) || bool_decide (parentOf g p = p)) eqn:Hstop.
  - exists (expanded ∪ {[p]}). split; [done|]. split; [set_solver|].
    split; [intros x [?| ->%elem_of_singleton]%elem_of_union;
            [by left|right; by exists 0]|].
    split; [set_solver|].
    intros k Hmod. apply orb_true_iff in Hstop as [Hstop|Hstop].
    + apply negb_true_iff, truthy_false in Hstop.
      destruct k as [|k]; [set_solver|].
      exfalso. revert Hmod. rewrite iter_parent_succ, Hstop.
      apply (iter_nonmodule g level bound Hok).
      rewrite (tree_no_empty _ _ _ Hok). by intros [? ?].
    + apply bool_decide_eq_true in Hstop.
      assert (Hk : Nat.iter k (parentOf g) p = p).
      { clear Hmod. induction k as [|k IHk]; [done|]. simpl. by rewrite IHk. }
      rewrite Hk. set_solver.
  - apply orb_false_iff in Hstop as [Hpar Hself].
    apply negb_false_iff in Hpar. apply bool_decide_eq_false in Hself.
    assert (Hpm : is_Some (modules g !! p)).
    { unfold parentOf in Hpar. destruct (modules g !! p); [by eexists|done]. }
    specialize (Hlevel Hpm).
    destruct (IH (parentOf g p) (expanded ∪ {[p]})) as (E' & Hrun & Hsub & Hfrom & _ & Hanc).
    { intros Hparent.
      pose proof (tree_parent _ _ _ Hok p Hpm Hparent) as Hchild.
      apply (tree_level _ _ _ Hok) in Hchild. lia. }
    { lia. }
    exists E'. split; [done|]. split; [set_solver|].
    split.
    { intros x Hx. destruct (Hfrom x Hx) as [[?| ->%elem_of_singleton]%elem_of_union|[k ->]].
      - by left.
      - right. by exists 0.
      - right. exists (S k). by rewrite iter_parent_succ. }
    split; [set_solver|].
    intros k Hmod. destruct k as [|k]; [set_solver|].
    rewrite iter_parent_succ in Hmod |- *. by apply Hanc.
Qed.
End ExpandFacts.

Lemma expandModulePath_ok (st : State.t) (level : string → nat) (bound fuel : nat)
    (path : string) :
  TreeOk (State.graph st) level bound → bound < fuel →
  ∃ expanded',
    expandModulePath st fuel path = Some (withExpanded expanded' st)
    ∧ State.expandedModules st ⊆ expanded'
    ∧ (∀ x, x ∈ expanded' →
         x ∈ State.expandedModules st ∨ ∃ k, x = Nat.iter k (parentOf (State.graph st)) path)
    ∧ (is_Some (modules (State.graph st) !! path) →
       path ∈ expanded' ∧ ancestorsExpanded (State.graph st) expanded' path).
Proof.
  intros Hok Hfuel. unfold expandModulePath.
  destruct (negb (truthy path) || bool_decide (path = ROOT_KEY)) eqn:Hskip.
  - exists (State.expandedModules st). split; [by destruct st|]. split; [done|].
    split; [by left|]. intros Hmod. exfalso.
    apply orb_true_iff in Hskip as [Hskip|Hskip].
    + apply negb_true_iff, truthy_false in Hskip.
      rewrite Hskip, (tree_no_empty _ _ _ Hok) in Hmod. by destruct Hmod.
    + apply bool_decide_eq_true in Hskip.
      rewrite Hskip, (tree_no_root _ _ _ Hok) in Hmod. by destruct Hmod.
  - destruct (expandLoop_spec (State.graph st) level bound Hok fuel path
                (State.expandedModules st)) as (E' & Hrun & Hsub & Hfrom & _ & Hanc).
    { intros Hmod%(tree_bound _ _ _ Hok). lia. }
    { lia. }
    exists E'. rewrite Hrun. simpl. split; [done|]. split; [done|]. split; [done|].
    intros Hmod. split; [by apply (Hanc 0)|].
    intros k _ Hk. by apply Hanc.
Qed.

Lemma updateGraph_total (st : State.t) (level : string → nat) (bound fuel : nat) :
  TreeOk (State.graph st) level bound →
  State.moduleOrder st = sortedModules (State.graph st) → bound < fuel →
  ∃ layout out,
    layoutTree st fuel = Some layout
    ∧ updateGraph st fuel = Some (applyLayout layout st, out).
Proof.
  intros Hok Horder Hfuel.
  destruct (layoutTree_total st Horder level bound Hok fuel) as [layout Hlayout]; [lia|].
  destruct (buildVisibleModuleDeps_total (applyLayout layout st) level bound fuel)
    as [out Hout]; [done|done|].
  exists layout, out. split; [done|].
  unfold updateGraph. rewrite Hlayout. simpl. by rewrite Hout.
Qed.

Lemma demoState_ok : TreeOk (State.graph demoState) String.length 8.
Proof. rewrite demoState_graph. exact demoGraph_ok. Qed.

(** No module hangs from a name that plain objects inherit: then every
    module is rooted. *)
Lemma rooted_plain (g : Graph) (level : string → nat) (bound : nat) (m : string) :
  TreeOk g level bound →
  (∀ a, is_Some (modules g !! a) → inherited (parentOf g a) = true →
        is_Some (modules g !! parentOf g a)) →
  is_Some (modules g !! m) → rooted g m.
Proof.
  intros Hok Hplain. remember (level m) as n eqn:Hn. revert m Hn.
  induction n as [n IH] using lt_wf_ind. intros m -> Hm.
  destruct (isRootModule g m) eqn:Hroot; [by exists 0|].
  apply isRootModule_false in Hroot as [Hne Hparent].
  assert (Hpm : is_Some (modules g !! parentOf g m)).
  { destruct Hparent as [?|?]; [done|by apply Hplain]. }
  pose proof (tree_parent _ _ _ Hok m Hm Hpm) as Hchild.
  pose proof (tree_level _ _ _ Hok _ _ Hchild) as Hlv.
  destruct (IH (level (parentOf g m)) Hlv (parentOf g m) eq_refl Hpm) as (k & Hk & Hrk).
  exists (S k). by rewrite iter_parent_succ.
Qed.

Lemma demoState_rooted (m : string) :
  is_Some (modules (State.graph demoState) !! m) → rooted (State.graph demoState) m.
Proof.
  apply (rooted_plain _ _ _ _ demoState_ok).
  intros a [ma Ha] Hinh. rewrite demoState_graph in Ha |- *.
  apply elem_of_map_to_list in Ha.
  assert (Hall : Forall (λ kv, inherited (parent kv.2) = false)
                        (map_to_list (modules demoGraph)))
    by (apply (bool_decide_unpack _); vm_compute; exact I).
  rewrite Forall_forall in Hall. specialize (Hall _ Ha). simpl in Hall.
  rewrite demoState_graph in Hinh. unfold parentOf in Hinh.
  apply elem_of_map_to_list in Ha. rewrite Ha in Hinh. simpl in Hinh. congruence.
Qed.

Lemma hangingState_boot : bootstrap hangingGraph ∅ = Some hangingState.
Proof.
  assert (Hsome : is_Some (bootstrap hangingGraph ∅))
    by (apply (bool_decide_unpack _); vm_compute; exact I).
  unfold hangingState. by destruct Hsome as [st ->].
Qed.

Lemma hangingState_graph : State.graph hangingState = hangingGraph.
Proof. exact (bootstrap_graph _ _ _ hangingState_boot). Qed.

Lemma hangingState_ok : TreeOk (State.graph hangingState) String.length 8.
Proof. rewrite hangingState_graph. apply (bool_decide_unpack _). by vm_compute. Qed.

Lemma hangingState_order :
  State.moduleOrder hangingState = sortedModules (State.graph hangingState).
Proof. exact (bootstrap_order _ _ _ hangingState_boot). Qed.

Lemma hangingState_built : nodesBuilt hangingState.
Proof. exact (nodesBuilt_bootstrap _ _ _ hangingState_boot). Qed.

(** The module of [hangingGraph] is no root for the program, and its
    parent walk leaves the module map at once. *)
Lemma hanging_not_rooted : ¬ rooted (State.graph hangingState) "m".
Proof.
  intros (k & Hmod & Hroot). rewrite hangingState_graph in Hmod, Hroot.
  destruct k as [|k]; [vm_compute in Hroot; discriminate Hroot|].
  rewrite iter_parent_succ in Hmod. revert Hmod.
  apply (iter_nonmodule hangingGraph String.length 8).
  - rewrite <- hangingState_graph. exact hangingState_ok.
  - apply (bool_decide_unpack _). by vm_compute.
Qed.

Lemma ancestorsExpanded_mono (g : Graph) (E E' : gset string) (m : string) :
  E ⊆ E' → ancestorsExpanded g E m → ancestorsExpanded g E' m.
Proof. intros Hsub Hanc k Hk Hmod. apply Hsub. by apply Hanc. Qed.

(** X1.  On a valid tree [layoutTree] returns, and it gives a position to
    the synthetic root and to exactly the modules all of whose ancestors
    are expanded and whose parent walk ends in a root of the program: a
    module whose parent is empty or is a name for which the module map
    answers nothing.  A module that hangs, itself or through its
    ancestors, from a name that plain objects inherit (such as
    [constructor]) is never placed. *)
Theorem layoutTree_positions_iff (st : State.t) (level : string → nat) (bound fuel : nat) :
  TreeOk (State.graph st) level bound →
  State.moduleOrder st = sortedModules (State.graph st) → bound ≤ fuel →
  ∃ layout,
    layoutTree st fuel = Some layout
    ∧ ∀ m, is_Some (Layout.positions layout !! m) ↔
           m = ROOT_KEY
           ∨ (is_Some (modules (State.graph st) !! m)
              ∧ ancestorsExpanded (State.graph st) (State.expandedModules st) m
              ∧ rooted (State.graph st) m).
Proof.
  intros Hok Horder Hfuel.
  destruct (layoutTree_total st Horder level bound Hok fuel Hfuel) as [layout Hlayout].
  exists layout. split; [done|]. intros m.
  by apply (layout_shown st level bound Hok Horder fuel layout m).
Qed.

Lemma layoutTree_positions_iff_witness :
  (∃ layout,
     layoutTree demoState 8 = Some layout
     ∧ is_Some (Layout.positions layout !! "pkg")
     ∧ ¬ is_Some (Layout.positions layout !! "pkg.a.x"))
  ∧ ∃ layout,
      layoutTree hangingState 8 = Some layout
      ∧ ¬ is_Some (Layout.positions layout !! "m").
Proof.
  split.
  - destruct (layoutTree_positions_iff demoState String.length 8 8 demoState_ok
                demoState_order (le_n 8)) as (layout & Hlayout & Hiff).
    exists layout. split; [exact Hlayout|]. split.
    + apply Hiff. right. split; [apply (bool_decide_unpack _); vm_compute; exact I|].
      split; [|exists 0; split; [apply (bool_decide_unpack _); vm_compute; exact I
                                |vm_compute; reflexivity]].
      intros [|k] Hk Hmod; [lia|].
      exfalso. revert Hmod. rewrite iter_parent_succ.
      apply (iter_nonmodule _ _ _ demoState_ok).
      apply (bool_decide_unpack _); vm_compute; exact I.
    + intros [Hroot|(_ & Hanc & _)]%Hiff; [discriminate Hroot|].
      assert (Hnot : "pkg.a" ∉ State.expandedModules demoState)
        by (apply (bool_decide_unpack _); vm_compute; exact I).
      apply Hnot, (Hanc 1); [lia|apply (bool_decide_unpack _); vm_compute; exact I].
  - destruct (layoutTree_positions_iff hangingState String.length 8 8 hangingState_ok
                hangingState_order (le_n 8)) as (layout & Hlayout & Hiff).
    exists layout. split; [exact Hlayout|].
    intros [Hroot|(_ & _ & Hrooted)]%Hiff; [discriminate Hroot|].
    exact (hanging_not_rooted Hrooted).
Defined.



(** X3.  [buildNodes] makes a node, visible, for the synthetic root and
    for every module and for nothing else, and lists the modules sorted
    and without duplicates.  The snapshot, the expansion set, the tree
    edges and the two dependency maps are left as they are. *)
Theorem buildNodes_spec (st : State.t) :
  let st' := buildNodes st in
  (∀ m, State.nodes st' !! m
        = if bool_decide (m = ROOT_KEY ∨ is_Some (modules (State.graph st) !! m))
          then Some true else None)
  ∧ (∀ m, m ∈ State.moduleOrder st' ↔ is_Some (modules (State.graph st) !! m))
  ∧ NoDup (State.moduleOrder st')
  ∧ Sorted String.le (State.moduleOrder st')
  ∧ State.graph st' = State.graph st
  ∧ State.expandedModules st' = State.expandedModules st
  ∧ State.edges st' = State.edges st
  ∧ State.moduleDeps st' = State.moduleDeps st
  ∧ State.moduleDepObjects st' = State.moduleDepObjects st.
Proof.
  intros st'. split; [apply buildNodes_lookup|].
  split; [apply sortedModules_spec|]. split; [apply NoDup_sortedModules|].
  split; [apply jsSort_sorted|]. done.
Qed.

(** X4.  On a valid tree [expandModulePath] returns; it only adds to the
    expansion set, what it adds lies on the parent walk from the path,
    and for a module the module itself and all its ancestors end up
    expanded.  Nothing else of the state changes. *)
Theorem expandModulePath_spec (st : State.t) (level : string → nat) (bound fuel : nat)
    (path : string) :
  TreeOk (State.graph st) level bound → bound < fuel →
  ∃ expanded',
    expandModulePath st fuel path = Some (withExpanded expanded' st)
    ∧ State.expandedModules st ⊆ expanded'
    ∧ (∀ x, x ∈ expanded' →
         x ∈ State.expandedModules st ∨ ∃ k, x = Nat.iter k (parentOf (State.graph st)) path)
    ∧ (is_Some (modules (State.graph st) !! path) →
       path ∈ expanded' ∧ ancestorsExpanded (State.graph st) expanded' path).
Proof. apply expandModulePath_ok. Qed.

Lemma expandModulePath_spec_witness :
  ∃ expanded',
    expandModulePath demoState 9 "pkg.a.x" = Some (withExpanded expanded' demoState)
    ∧ "pkg.a.x" ∈ expanded' ∧ "pkg.a" ∈ expanded' ∧ "pkg.b" ∉ expanded'.
Proof.
  destruct (expandModulePath_spec demoState String.length 8 9 "pkg.a.x" demoState_ok (le_n 9))
    as (E' & Hrun & _ & Hfrom & Hmod).
  destruct Hmod as [Hself Hanc]; [apply (bool_decide_unpack _); vm_compute; exact I|].
  exists E'. split; [exact Hrun|]. split; [exact Hself|]. split.
  - apply (Hanc 1); [lia|apply (bool_decide_unpack _); vm_compute; exact I].
  - intros [Hin|[k Hk]]%Hfrom.
    + assert (Hnot : "pkg.b" ∉ State.expandedModules demoState) by (apply (bool_decide_unpack _); vm_compute; exact I).
      by apply Hnot.
    + destruct k as [|[|[|k]]]; [discriminate Hk..|].
      assert (Hnot : ¬ is_Some (modules (State.graph demoState)
                                 !! Nat.iter (S (S (S k))) (parentOf (State.graph demoState)) "pkg.a.x")).
      { rewrite !iter_parent_succ.
        apply (iter_nonmodule _ _ _ demoState_ok). apply (bool_decide_unpack _); vm_compute; exact I. }
      apply Hnot. rewrite <- Hk. apply (bool_decide_unpack _); vm_compute; exact I.
Defined.

Lemma focusModulePath_ok (st : State.t) (level : string → nat) (bound fuel : nat)
    (path : string) :
  TreeOk (State.graph st) level bound → nodesBuilt st → bound < fuel →
  is_Some (modules (State.graph st) !! path) → rooted (State.graph st) path →
  ∃ st',
    focusModulePath st fuel path = Some st'
    ∧ nodeVisible st' path = true
    ∧ State.expandedModules st ⊆ State.expandedModules st'
    ∧ (∀ m, is_Some (modules (State.graph st) !! m) →
            ancestorsExpanded (State.graph st) (State.expandedModules st) m →
            rooted (State.graph st) m →
            nodeVisible st' m = true)
    ∧ ∀ cache, cacheOk st' cache →
        ∃ cache', resolveVisible st' fuel path cache = Some (path, cache').
Proof.
  intros Hok Hbuilt Hfuel Hmod Hrooted.
  assert (Hne : truthy path = true).
  { apply truthy_true. intros ->. rewrite (tree_no_empty _ _ _ Hok) in Hmod.
    by destruct Hmod. }
  destruct (expandModulePath_ok st level bound fuel path Hok Hfuel)
    as (E' & Hexp & Hsub & _ & Hpath).
  destruct (Hpath Hmod) as [Hin Hanc].
  destruct (updateGraph_visible (withExpanded E' st) level bound fuel)
    as (st' & out & Hrun & Hgraph & Hexpanded & _ & Hvis); [done|done|done|].
  exists st'. unfold focusModulePath. rewrite Hne, Hexp. simpl. rewrite Hrun. simpl.
  assert (Hshown : nodeVisible st' path = true) by (apply Hvis; by right).
  split; [done|]. split; [done|]. split; [by rewrite Hexpanded|]. split.
  - intros m Hm Hm' Hmr. apply Hvis. right. split; [done|]. split; [|done].
    by apply (ancestorsExpanded_mono _ (State.expandedModules st)).
  - intros cache Hcache.
    assert (Hwalk : walkVisible st' fuel path = Some path).
    { destruct fuel as [|fuel]; [lia|]. by apply walkVisible_visible. }
    destruct (resolveVisible_standIn st' fuel path cache Hcache) as (cache' & Hres & _).
    { rewrite Hwalk. by eexists. }
    exists cache'. rewrite Hres. unfold standIn. rewrite Hne, Hwalk. simpl.
    rewrite bool_decide_eq_false_2; [done|].
    intros ->. rewrite (tree_no_root _ _ _ Hok) in Hmod. by destruct Hmod.
Qed.

(** X5.  Focusing a module of a valid tree whose parent walk ends in a
    root of the program makes its node visible and its own stand-in for
    the dependency edges; the expansion set only grows, so every such
    module whose ancestors were expanded stays visible. *)
Theorem focusModulePath_reveals (st : State.t) (level : string → nat) (bound fuel : nat)
    (path : string) :
  TreeOk (State.graph st) level bound → nodesBuilt st → bound < fuel →
  is_Some (modules (State.graph st) !! path) → rooted (State.graph st) path →
  ∃ st',
    focusModulePath st fuel path = Some st'
    ∧ nodeVisible st' path = true
    ∧ State.expandedModules st ⊆ State.expandedModules st'
    ∧ (∀ m, is_Some (modules (State.graph st) !! m) →
            ancestorsExpanded (State.graph st) (State.expandedModules st) m →
            rooted (State.graph st) m →
            nodeVisible st' m = true)
    ∧ ∀ cache, cacheOk st' cache →
        ∃ cache', resolveVisible st' fuel path cache = Some (path, cache').
Proof. apply focusModulePath_ok. Qed.

Lemma demoShown_built : nodesBuilt demoShown.
Proof. apply nodesBuilt_applyLayout, demoState_built. Qed.

Lemma focusModulePath_reveals_witness :
  nodeVisible demoShown "pkg.a.x" = false
  ∧ ∃ st', focusModulePath demoShown 9 "pkg.a.x" = Some st'
           ∧ nodeVisible st' "pkg.a.x" = true.
Proof.
  split; [vm_compute; reflexivity|].
  assert (Hmod : is_Some (modules (State.graph demoState) !! "pkg.a.x"))
    by (apply (bool_decide_unpack _); vm_compute; exact I).
  destruct (focusModulePath_reveals demoShown String.length 8 9 "pkg.a.x" demoShown_ok
              demoShown_built (le_n 9) Hmod (demoState_rooted "pkg.a.x" Hmod))
    as (st' & Hrun & Hvis & _).
  exists st'. split; [exact Hrun|exact Hvis].
Defined.

(** ** Toggling, expanding and collapsing *)

Lemma sameInputs_toggle_back (layout : Layout.t) (expanded : gset string) (st : State.t) :
  sameInputs
    (withExpanded (State.expandedModules st) (applyLayout layout (withExpanded expanded st)))
    st.
Proof.
  unfold sameInputs. repeat split; try done.
  apply set_eq. intros p. rewrite !elem_of_dom.
  unfold withExpanded at 1. cbn [State.nodes].
  rewrite applyLayout_nodes. by rewrite fmap_is_Some.
Qed.

Lemma toggle_back (path : string) (E : gset string) :
  (if bool_decide (path ∈ (if bool_decide (path ∈ E) then E ∖ {[path]} else E ∪ {[path]}))
   then (if bool_decide (path ∈ E) then E ∖ {[path]} else E ∪ {[path]}) ∖ {[path]}
   else (if bool_decide (path ∈ E) then E ∖ {[path]} else E ∪ {[path]}) ∪ {[path]})
  = E.
Proof.
  destruct (decide (path ∈ E)) as [Hin|Hin].
  - rewrite (bool_decide_eq_true_2 (path ∈ E)) by done.
    rewrite bool_decide_eq_false_2 by set_solver.
    apply set_eq. intros x. destruct (decide (x = path)); set_solver.
  - rewrite (bool_decide_eq_false_2 (path ∈ E)) by done.
    rewrite bool_decide_eq_true_2 by set_solver.
    set_solver.
Qed.

(** X6.  [toggleModule] ignores the empty path and the synthetic root.
    For any other path it flips the membership of that path in the
    expansion set and of no other, and toggling twice leaves the state
    that a plain [updateGraph] leaves. *)
Theorem toggleModule_twice (st : State.t) (level : string → nat) (bound fuel : nat)
    (path : string) :
  TreeOk (State.graph st) level bound →
  State.moduleOrder st = sortedModules (State.graph st) → bound < fuel →
  (path = EmptyString ∨ path = ROOT_KEY → toggleModule st fuel path = Some st)
  ∧ (path ≠ EmptyString → path ≠ ROOT_KEY →
     ∃ st1,
       toggleModule st fuel path = Some st1
       ∧ (path ∈ State.expandedModules st1 ↔ path ∉ State.expandedModules st)
       ∧ (∀ q, q ≠ path →
            q ∈ State.expandedModules st1 ↔ q ∈ State.expandedModules st)
       ∧ toggleModule st1 fuel path = fst <$> updateGraph st fuel
       ∧ is_Some (updateGraph st fuel)).
Proof.
  intros Hok Horder Hfuel. split.
  - intros [->| ->]; reflexivity.
  - intros Hne Hroot. unfold toggleModule.
    rewrite (proj2 (truthy_true path) Hne). rewrite bool_decide_eq_false_2 by done.
    cbn [negb orb].
    set (E1 := if bool_decide (path ∈ State.expandedModules st)
               then State.expandedModules st ∖ {[path]}
               else State.expandedModules st ∪ {[path]}).
    destruct (updateGraph_total (withExpanded E1 st) level bound fuel Hok Horder Hfuel)
      as (layout & out & Hlayout & Hrun).
    exists (applyLayout layout (withExpanded E1 st)). rewrite Hrun.
    split; [done|].
    change (State.expandedModules (applyLayout layout (withExpanded E1 st))) with E1.
    split; [|split; [|split]].
    + subst E1. case_bool_decide; set_solver.
    + intros q Hq. subst E1. case_bool_decide; set_solver.
    + subst E1. rewrite toggle_back.
      f_equal. apply updateGraph_sameInputs, sameInputs_toggle_back.
    + destruct (updateGraph_total st level bound fuel Hok Horder Hfuel)
        as (layout' & out' & _ & Hrun').
      rewrite Hrun'. by eexists.
Qed.

Lemma toggleModule_twice_witness :
  toggleModule demoState 9 ROOT_KEY = Some demoState
  ∧ ∃ st1, toggleModule demoState 9 "pkg.a" = Some st1
           ∧ "pkg.a" ∈ State.expandedModules st1
           ∧ toggleModule st1 9 "pkg.a" = fst <$> updateGraph demoState 9.
Proof.
  destruct (toggleModule_twice demoState String.length 8 9 "pkg.a" demoState_ok
              demoState_order (le_n 9)) as [_ Hflip].
  destruct (toggleModule_twice demoState String.length 8 9 ROOT_KEY demoState_ok
              demoState_order (le_n 9)) as [Hnoop _].
  split; [apply Hnoop; by right|].
  destruct Hflip as (st1 & Hrun & Hin & _ & Hback & _); [discriminate|discriminate|].
  exists st1. split; [exact Hrun|]. split; [|exact Hback].
  apply Hin. apply (bool_decide_unpack _); vm_compute; exact I.
Defined.

Lemma properAncestor_root (g : Graph) (level : string → nat) (bound : nat) (a : string) :
  TreeOk g level bound → ¬ properAncestor g a ROOT_KEY.
Proof.
  intros Hok [Ha (k & _ & Hk)]. revert Ha. rewrite <- Hk.
  apply (iter_nonmodule g level bound Hok).
  rewrite (tree_no_root _ _ _ Hok). by intros [? ?].
Qed.

(** X7.  Toggling a module of a valid tree that is expanded collapses
    it: afterwards the visible nodes are those that [updateGraph] shows
    for the old expansion set (the root, and the modules whose
    ancestors were all expanded and whose parent walk ends in a root of
    the program), except the modules strictly below the toggled one.
    Toggling a module that is collapsed expands it: the modules become
    visible whose parent walk ends in a root of the program and all of
    whose ancestors other than the toggled one are expanded. *)
Theorem toggleModule_visible (st : State.t) (level : string → nat) (bound fuel : nat)
    (path : string) :
  TreeOk (State.graph st) level bound → nodesBuilt st → bound < fuel →
  is_Some (modules (State.graph st) !! path) →
  ∃ st1,
    toggleModule st fuel path = Some st1
    ∧ (path ∈ State.expandedModules st →
       ∀ m, nodeVisible st1 m = true ↔
            (m = ROOT_KEY
             ∨ (is_Some (modules (State.graph st) !! m)
                ∧ ancestorsExpanded (State.graph st) (State.expandedModules st) m
                ∧ rooted (State.graph st) m))
            ∧ ¬ properAncestor (State.graph st) path m)
    ∧ (path ∉ State.expandedModules st →
       ∀ m, nodeVisible st1 m = true ↔
            m = ROOT_KEY
            ∨ (is_Some (modules (State.graph st) !! m)
               ∧ (∀ k, 0 < k →
                    is_Some (modules (State.graph st)
                               !! Nat.iter k (parentOf (State.graph st)) m) →
                    Nat.iter k (parentOf (State.graph st)) m = path
                    ∨ Nat.iter k (parentOf (State.graph st)) m ∈ State.expandedModules st)
               ∧ rooted (State.graph st) m)).
Proof.
  intros Hok Hbuilt Hfuel Hmod.
  assert (Hne : path ≠ EmptyString).
  { intros ->. rewrite (tree_no_empty _ _ _ Hok) in Hmod. by destruct Hmod. }
  assert (Hroot : path ≠ ROOT_KEY).
  { intros ->. rewrite (tree_no_root _ _ _ Hok) in Hmod. by destruct Hmod. }
  unfold toggleModule.
  rewrite (proj2 (truthy_true path) Hne). rewrite bool_decide_eq_false_2 by done.
  cbn [negb orb].
  set (E1 := if bool_decide (path ∈ State.expandedModules st)
             then State.expandedModules st ∖ {[path]}
             else State.expandedModules st ∪ {[path]}).
  destruct (updateGraph_visible (withExpanded E1 st) level bound fuel)
    as (st1 & out & Hrun & _ & _ & _ & Hvis); [done|done|done|].
  exists st1. rewrite Hrun. split; [done|].
  change (State.graph (withExpanded E1 st)) with (State.graph st) in Hvis.
  change (State.expandedModules (withExpanded E1 st)) with E1 in Hvis.
  split.
  - intros Hin m. rewrite Hvis. subst E1. rewrite bool_decide_eq_true_2 by done.
    split.
    + intros [->|(Hm & Hanc & Hrooted)].
      * split; [by left|]. by apply (properAncestor_root _ level bound).
      * split.
        { right. split; [done|]. split; [|done].
          apply (ancestorsExpanded_mono _ (State.expandedModules st ∖ {[path]}));
            [set_solver|done]. }
        intros [_ (k & Hk & Hiter)].
        assert (Hbad : Nat.iter k (parentOf (State.graph st)) m
                       ∈ State.expandedModules st ∖ {[path]}).
        { apply Hanc; [done|]. by rewrite Hiter. }
        set_solver.
    + intros [[->|(Hm & Hanc & Hrooted)] Hnot]; [by left|]. right.
      split; [done|]. split; [|done].
      intros k Hk Hiter. apply elem_of_difference. split; [by apply Hanc|].
      intros Heq%elem_of_singleton. apply Hnot. split; [done|]. by exists k.
  - intros Hnin m. rewrite Hvis. subst E1. rewrite bool_decide_eq_false_2 by done.
    split.
    + intros [->|(Hm & Hanc & Hrooted)]; [by left|]. right.
      split; [done|]. split; [|done].
      intros k Hk Hiter. specialize (Hanc k Hk Hiter). set_solver.
    + intros [->|(Hm & Hanc & Hrooted)]; [by left|]. right.
      split; [done|]. split; [|done].
      intros k Hk Hiter. specialize (Hanc k Hk Hiter). set_solver.
Qed.

Lemma toggleModule_visible_witness :
  ∃ st1, toggleModule demoState 9 "pkg" = Some st1
         ∧ nodeVisible st1 "pkg" = true ∧ nodeVisible st1 "pkg.a" = false.
Proof.
  destruct (toggleModule_visible demoState String.length 8 9 "pkg" demoState_ok
              demoState_built (le_n 9))
    as (st1 & Hrun & Hcollapse & _); [apply (bool_decide_unpack _); vm_compute; exact I|].
  assert (Hin : "pkg" ∈ State.expandedModules demoState)
    by (apply (bool_decide_unpack _); vm_compute; exact I).
  exists st1. split; [exact Hrun|]. split.
  - apply (Hcollapse Hin). split.
    + right. split; [apply (bool_decide_unpack _); vm_compute; exact I|].
      split; [|apply demoState_rooted; apply (bool_decide_unpack _); vm_compute; exact I].
      intros [|k] Hk Hmod; [lia|].
      exfalso. revert Hmod. rewrite iter_parent_succ.
      apply (iter_nonmodule _ _ _ demoState_ok).
      apply (bool_decide_unpack _); vm_compute; exact I.
    + intros [_ (k & Hk & Hiter)]. destruct k as [|k]; [lia|].
      assert (Hnot : ¬ is_Some (modules (State.graph demoState)
                     !! Nat.iter (S k) (parentOf (State.graph demoState)) "pkg")).
      { rewrite iter_parent_succ. apply (iter_nonmodule _ _ _ demoState_ok).
        apply (bool_decide_unpack _); vm_compute; exact I. }
      apply Hnot. rewrite Hiter. apply (bool_decide_unpack _); vm_compute; exact I.
  - apply not_true_is_false. intros [_ Hnot]%(Hcollapse Hin). apply Hnot.
    split; [apply (bool_decide_unpack _); vm_compute; exact I|].
    exists 1. split; [lia|reflexivity].
Defined.

Lemma foldl_union_singletons (l : list string) (E : gset string) (x : string) :
  x ∈ foldl (λ expanded path, expanded ∪ {[path]}) E l ↔ x ∈ E ∨ x ∈ l.
Proof.
  revert E. induction l as [|p l IH]; intros E; cbn [foldl].
  - rewrite elem_of_nil. tauto.
  - rewrite IH, elem_of_cons. set_solver.
Qed.

(** X8.  On a valid tree the button [expand-all] puts every module in
    the expansion set and makes visible the node of every module whose
    parent walk ends in a root of the program, and of no other module;
    [collapse-all] empties the expansion set and leaves visible the
    synthetic root and exactly the modules that the program takes for
    roots. *)
Theorem expandAll_collapseAll (st : State.t) (level : string → nat) (bound fuel : nat) :
  TreeOk (State.graph st) level bound → nodesBuilt st → bound < fuel →
  (∃ st', expandAll st fuel = Some st'
     ∧ (∀ m, is_Some (modules (State.graph st) !! m) → m ∈ State.expandedModules st')
     ∧ ∀ m, nodeVisible st' m = true ↔
            m = ROOT_KEY
            ∨ (is_Some (modules (State.graph st) !! m) ∧ rooted (State.graph st) m))
  ∧ (∃ st', collapseAll st fuel = Some st'
       ∧ State.expandedModules st' = ∅
       ∧ ∀ m, nodeVisible st' m = true ↔
              m = ROOT_KEY
              ∨ (is_Some (modules (State.graph st) !! m)
                 ∧ isRootModule (State.graph st) m = true)).
Proof.
  intros Hok Hbuilt Hfuel. split.
  - unfold expandAll.
    set (E1 := foldl _ _ _).
    destruct (updateGraph_visible (withExpanded E1 st) level bound fuel)
      as (st1 & out & Hrun & _ & Hexp & _ & Hvis); [done|done|done|].
    exists st1. rewrite Hrun. split; [done|].
    assert (Hall : ∀ m, is_Some (modules (State.graph st) !! m) → m ∈ E1).
    { intros m Hm. subst E1. apply foldl_union_singletons. right.
      rewrite (proj2 Hbuilt). by apply sortedModules_spec. }
    split; [by rewrite Hexp|].
    intros m. rewrite Hvis. split; [tauto|].
    intros [->|[Hm Hrooted]]; [by left|]. right. split; [done|]. split; [|done].
    intros k _ Hk. by apply Hall.
  - unfold collapseAll.
    destruct (updateGraph_visible (withExpanded ∅ st) level bound fuel)
      as (st1 & out & Hrun & _ & Hexp & _ & Hvis); [done|done|done|].
    exists st1. rewrite Hrun. split; [done|]. split; [done|].
    intros m. rewrite Hvis. split.
    + intros [->|(Hm & Hanc & Hrooted)]; [by left|]. right. split; [done|].
      destruct (isRootModule (State.graph st) m) eqn:Hroot; [done|].
      destruct (rooted_parent _ level bound Hok m Hroot Hrooted) as [Hpm _].
      specialize (Hanc 1 (le_n 1) Hpm). set_solver.
    + intros [->|[Hm Hroot]]; [by left|]. right. split; [done|].
      split; [|by apply rooted_root].
      intros k Hk Hmod. exfalso. revert Hmod.
      by apply (root_no_ancestor _ level bound Hok).
Qed.

Lemma expandAll_collapseAll_witness :
  nodeVisible demoShown "pkg.a.x" = false
  ∧ nodeVisible demoShown "pkg.a" = true
  ∧ (∃ st', expandAll demoShown 9 = Some st' ∧ nodeVisible st' "pkg.a.x" = true)
  ∧ (∃ st', collapseAll demoShown 9 = Some st' ∧ nodeVisible st' "pkg" = true
            ∧ nodeVisible st' "pkg.a" = false).
Proof.
  destruct (expandAll_collapseAll demoShown String.length 8 9 demoShown_ok
              demoShown_built (le_n 9))
    as [(st1 & Hrun1 & _ & Hvis1) (st2 & Hrun2 & _ & Hvis2)].
  split; [vm_compute; reflexivity|]. split; [vm_compute; reflexivity|]. split.
  - exists st1. split; [exact Hrun1|]. apply Hvis1. right.
    assert (Hmod : is_Some (modules (State.graph demoState) !! "pkg.a.x"))
      by (apply (bool_decide_unpack _); vm_compute; exact I).
    split; [exact Hmod|exact (demoState_rooted _ Hmod)].
  - exists st2. split; [exact Hrun2|]. split.
    + apply Hvis2. right. split; [apply (bool_decide_unpack _); vm_compute; exact I|].
      vm_compute. reflexivity.
    + apply not_true_is_false. intros [Hroot|[_ Hroot]]%Hvis2; [discriminate Hroot|].
      revert Hroot. vm_compute. discriminate.
Defined.

(** ** Separation of the laid out modules *)

Lemma apart_app (l1 l2 : list (string * Pos)) :
  apart (l1 ++ l2) ↔
  apart l1 ∧ apart l2
  ∧ ∀ a b, a ∈ l1 → b ∈ l2 → x a.2 = x b.2 → (y2 a.2 + 2 ≤ y2 b.2)%Z.
Proof.
  induction l1 as [|a l1 IH]; cbn [app apart].
  - split; [intros H; split; [done|split; [done|]]|tauto].
    by intros a b ?%elem_of_nil.
  - rewrite IH. split.
    + intros (Ha & H1 & H2 & Hcross). split; [split; [|done]|split; [done|]].
      * intros b Hb. apply Ha. apply elem_of_app. by left.
      * intros a' b [->|Ha']%elem_of_cons Hb; [|by apply Hcross].
        apply Ha. apply elem_of_app. by right.
    + intros ((Ha & H1) & H2 & Hcross). split; [|split; [done|split; [done|]]].
      * intros b [Hb|Hb]%elem_of_app; [by apply Ha|].
        apply Hcross; [by left|done].
      * intros a' b Ha' Hb. apply Hcross; [by right|done].
Qed.

Lemma apart_elem (l : list (string * Pos)) (a b : string * Pos) :
  apart l → a ∈ l → b ∈ l → a ≠ b → x a.2 = x b.2 →
  (2 ≤ Z.abs (y2 a.2 - y2 b.2))%Z.
Proof.
  induction l as [|c l IH]; [by intros _ ?%elem_of_nil|].
  intros [Hc Hl] [->|Ha]%elem_of_cons [->|Hb]%elem_of_cons Hne Hx.
  - done.
  - specialize (Hc b Hb Hx). lia.
  - specialize (Hc a Ha (eq_sym Hx)). lia.
  - by apply IH.
Qed.

Lemma stacked_apart (placeChild : string → Z → list (string * Pos)) (size : string → nat)
    (items : list string) (cursor : Z) :
  (∀ c y, c ∈ items →
     apart (placeChild c y)
     ∧ ∀ w, w ∈ placeChild c y →
            (y - Z.of_nat (size c) + 1 ≤ y2 w.2 ≤ y + Z.of_nat (size c) - 1)%Z) →
  apart (stacked placeChild size items cursor)
  ∧ ∀ w, w ∈ stacked placeChild size items cursor →
         (cursor + 1 ≤ y2 w.2
          ≤ cursor + 2 * Z.of_nat (sum_list (size <$> items)) - 1)%Z.
Proof.
  revert cursor. induction items as [|c items IH]; intros cursor Hchild.
  - split; [done|]. by intros w ?%elem_of_nil.
  - cbn [stacked]. rewrite fmap_cons. cbn [sum_list_with id].
    destruct (Hchild c (cursor + Z.of_nat (size c))%Z) as [Hc Hspan]; [by left|].
    destruct (IH (cursor + 2 * Z.of_nat (size c))%Z) as [Hrest Hspan'].
    { intros c' y Hc'. apply Hchild. by right. }
    split.
    + apply apart_app. split; [done|]. split; [done|].
      intros a b Ha Hb _. specialize (Hspan a Ha). specialize (Hspan' b Hb). lia.
    + intros w [Hw|Hw]%elem_of_app.
      * specialize (Hspan w Hw). lia.
      * specialize (Hspan' w Hw). lia.
Qed.

Lemma length_bind_sum {A B : Type} (f : A → list B) (l : list A) :
  length (l ≫= f) = sum_list ((λ a, length (f a)) <$> l).
Proof.
  induction l as [|a l IH]; [done|].
  cbn [mbind list_bind]. rewrite length_app. rewrite fmap_cons. cbn [sum_list_with id].
  f_equal. exact IH.
Qed.

Lemma placements_apart (g : Graph) (expanded : gset string) (fuel : nat) (p : string)
    (d y : Z) :
  apart (placements g expanded fuel p d y)
  ∧ ∀ w, w ∈ placements g expanded fuel p d y →
         (d ≤ x w.2)%Z
         ∧ (y - Z.of_nat (length (shownBelow g expanded fuel p)) + 1 ≤ y2 w.2
            ≤ y + Z.of_nat (length (shownBelow g expanded fuel p)) - 1)%Z.
Proof.
  revert p d y. induction fuel as [|fuel IH]; intros p d y.
  { split; [done|]. by intros w ?%elem_of_nil. }
  cbn [placements shownBelow]. case_bool_decide as He.
  - split.
    + split; [|done]. by intros b ?%elem_of_nil.
    + intros w ->%list_elem_of_singleton. simpl. lia.
  - set (kids := jsSort (childrenOf g p)).
    set (size := λ c, length (shownBelow g expanded fuel c)).
    destruct (stacked_apart (λ child, placements g expanded fuel child (d + 1)%Z) size kids
                (y - Z.of_nat (sum_list (size <$> kids)))%Z) as [Hap Hspan].
    { intros c yc _. split; [apply IH|]. intros w Hw. by apply (IH c (d + 1)%Z yc). }
    assert (Hlen : length (kids ≫= shownBelow g expanded fuel) = sum_list (size <$> kids))
      by apply length_bind_sum.
    assert (Hdepth : ∀ w, w ∈ stacked (λ child, placements g expanded fuel child (d + 1)%Z)
                              size kids (y - Z.of_nat (sum_list (size <$> kids)))%Z →
                          (d + 1 ≤ x w.2)%Z).
    { intros w (i & c & _ & Hw)%elem_of_stacked. by apply IH in Hw as [? _]. }
    split.
    + split; [|done]. intros b Hb Hx. apply Hdepth in Hb. simpl in Hx. lia.
    + intros w [->|Hw]%elem_of_cons.
      * simpl. lia.
      * split; [apply Hdepth in Hw; lia|].
        specialize (Hspan w Hw). cbn [length]. rewrite Hlen. lia.
Qed.

Lemma rootPlacements_apart (st : State.t) (fuel : nat) :
  apart (rootPlacements st fuel)
  ∧ ∀ w, w ∈ rootPlacements st fuel → (1 ≤ x w.2)%Z.
Proof.
  unfold rootPlacements. split.
  - apply stacked_apart. intros c y _. split; [apply placements_apart|].
    intros w Hw. by apply placements_apart in Hw as [_ ?].
  - intros w (i & c & _ & Hw)%elem_of_stacked. by apply placements_apart in Hw as [? _].
Qed.

(** X9.  No two positions of a layout coincide or overlap: two different
    modules placed at the same depth are at least one unit apart
    vertically, and only the synthetic root is at depth 0. *)
Theorem layoutTree_no_overlap (st : State.t) (level : string → nat) (bound fuel : nat) :
  TreeOk (State.graph st) level bound →
  State.moduleOrder st = sortedModules (State.graph st) → bound ≤ fuel →
  ∃ layout,
    layoutTree st fuel = Some layout
    ∧ (∀ m1 m2 p1 p2,
         m1 ≠ m2 →
         Layout.positions layout !! m1 = Some p1 →
         Layout.positions layout !! m2 = Some p2 →
         x p1 = x p2 → (2 ≤ Z.abs (y2 p1 - y2 p2))%Z)
    ∧ (∀ m pm, Layout.positions layout !! m = Some pm →
         (0 ≤ x pm)%Z ∧ (x pm = 0%Z ↔ m = ROOT_KEY)).
Proof.
  intros Hok Horder Hfuel.
  destruct (layoutTree_total st Horder level bound Hok fuel Hfuel) as [layout Hlayout].
  exists layout. split; [done|].
  pose proof (rootPlacements_apart st fuel) as [Hap Hdepth].
  assert (Hinv : ∀ m pm, Layout.positions layout !! m = Some pm →
            ((m, pm) ∈ rootPlacements st fuel ∧ m ≠ ROOT_KEY ∧ (1 ≤ x pm)%Z)
            ∨ (m = ROOT_KEY ∧ pm = mkPos 0 0)).
  { intros m pm Hm.
    destruct (layout_lookup_inv st Horder level bound Hok fuel layout m pm Hlayout Hm)
      as [Hin|?]; [left|by right].
    split; [done|]. split; [|by apply (Hdepth (m, pm))].
    intros ->.
    assert (Hkey : ROOT_KEY ∈ (rootPlacements st fuel).*1).
    { apply list_elem_of_fmap. by exists (ROOT_KEY, pm). }
    apply (rootPlacements_module st Horder level bound Hok) in Hkey.
    rewrite (tree_no_root _ _ _ Hok) in Hkey. by destruct Hkey. }
  split.
  - intros m1 m2 p1 p2 Hne H1 H2 Hx.
    destruct (Hinv m1 p1 H1) as [(Hin1 & _ & Hd1)|[-> ->]],
             (Hinv m2 p2 H2) as [(Hin2 & _ & Hd2)|[-> ->]].
    + apply (apart_elem (rootPlacements st fuel) (m1, p1) (m2, p2)); try done.
      congruence.
    + simpl in Hx. lia.
    + simpl in Hx. lia.
    + done.
  - intros m pm Hm. destruct (Hinv m pm Hm) as [(_ & Hne & Hd)|[-> ->]].
    + split; [lia|]. split; [lia|done].
    + done.
Qed.

Lemma layoutTree_no_overlap_witness :
  ∃ layout,
    layoutTree demoState 8 = Some layout
    ∧ ∀ p1 p2,
        Layout.positions layout !! "pkg.a" = Some p1 →
        Layout.positions layout !! "pkg.b" = Some p2 →
        x p1 = x p2 → (2 ≤ Z.abs (y2 p1 - y2 p2))%Z.
Proof.
  destruct (layoutTree_no_overlap demoState String.length 8 8 demoState_ok
              demoState_order (le_n 8)) as (layout & Hlayout & Hgap & _).
  exists layout. split; [exact Hlayout|].
  intros p1 p2. apply Hgap. discriminate.
Defined.

(** ** The tree edges of a layout *)

Lemma forEachM_stackChild_edges (placeChild : string → Z → Layout.t → option Layout.t)
    (trace : string → list (string * string)) (size : string → nat) (from : string) :
  (∀ c y L L', placeChild c y L = Some L' →
     Layout.edges L' = Layout.edges L ++ trace c) →
  ∀ items cursor L r,
    forEachM (stackChild placeChild from) (zip items (size <$> items)) (L, cursor) = Some r →
    Layout.edges r.1 = Layout.edges L ++ (items ≫= λ c, (from, c) :: trace c).
Proof.
  intros Hplace. induction items as [|c items IH]; intros cursor L r; simpl.
  - intros [= <-]. simpl. by rewrite app_nil_r.
  - destruct (placeChild c _ _) as [L1|] eqn:Hc; simpl; [|done].
    intros Hrest. apply IH in Hrest. rewrite Hrest.
    apply Hplace in Hc. simpl in Hc. rewrite Hc.
    by rewrite <- !app_assoc.
Qed.

Lemma bind_ext_in {A B : Type} (f h : A → list B) (l : list A) :
  (∀ a, a ∈ l → f a = h a) → l ≫= f = l ≫= h.
Proof.
  induction l as [|a l IH]; intros Heq; [done|].
  cbn [mbind list_bind]. rewrite (Heq a) by (by left).
  f_equal. apply IH. intros b Hb. apply Heq. by right.
Qed.

Lemma fmap_bind_list {A B C : Type} (f : B → C) (h : A → list B) (l : list A) :
  f <$> (l ≫= h) = l ≫= λ a, f <$> h a.
Proof.
  induction l as [|a l IH]; [done|].
  cbn [mbind list_bind]. by rewrite fmap_app, IH.
Qed.

Section DrawnFacts.
Context (g : Graph) (expanded : gset string).

Lemma place_edges (fuel : nat) (p : string) (d y : Z) (L L' : Layout.t) :
  place g expanded fuel p d y L = Some L' →
  Layout.edges L' = Layout.edges L ++ drawn g expanded fuel p.
Proof.
  revert p d y L L'. induction fuel as [|fuel IH]; intros p d y L L'; [done|].
  cbn [place drawn]. case_bool_decide.
  - intros [= <-]. simpl. by rewrite app_nil_r.
  - destruct (mapM _ _) as [sizes|] eqn:Hsizes; [|done]. cbn [mbind option_bind].
    destruct (forEachM _ _ _) as [r|] eqn:Hloop; [|done]. cbn [mbind option_bind].
    intros [= <-].
    rewrite (sizes_shown _ _ _ _ _ Hsizes) in Hloop.
    apply (forEachM_stackChild_edges _ (drawn g expanded fuel)) in Hloop.
    + rewrite Hloop. done.
    + intros c yc L1 L2. apply IH.
Qed.

Lemma elem_of_drawn (fuel : nat) (p a b : string) :
  (a, b) ∈ drawn g expanded fuel p ↔
  a ∈ shownBelow g expanded fuel p ∧ a ∈ expanded ∧ b ∈ childrenOf g a.
Proof.
  revert p. induction fuel as [|fuel IH]; intros p; cbn [drawn shownBelow].
  { rewrite !elem_of_nil. tauto. }
  case_bool_decide as He.
  - rewrite elem_of_nil, list_elem_of_singleton. split; [done|].
    by intros (-> & ? & _).
  - rewrite list_elem_of_bind, elem_of_cons, list_elem_of_bind. split.
    + intros (c & Hab & Hc). apply elem_of_cons in Hab as [[= -> ->]|Hab].
      * split; [by left|]. split; [done|]. by apply elem_of_jsSortBy in Hc.
      * apply IH in Hab as (Ha & HaE & Hb). split; [|done]. right. by exists c.
    + intros ([->|(c & Ha & Hc)] & HaE & Hb).
      * exists b. split; [by left|]. by apply elem_of_jsSortBy.
      * exists c. split; [|done]. right. by apply IH.
Qed.

Context (level : string → nat) (bound : nat).
Hypothesis Hok : TreeOk g level bound.

Lemma drawn_targets (n : nat) (p : string) :
  is_Some (modules g !! p) → bound - level p ≤ n →
  p :: (drawn g expanded n p).*2 = shownBelow g expanded n p.
Proof.
  revert p. induction n as [|n IH]; intros p Hp Hn.
  { apply (tree_bound _ _ _ Hok) in Hp. lia. }
  cbn [drawn shownBelow]. f_equal. case_bool_decide as He; [done|].
  rewrite fmap_bind_list. apply bind_ext_in. intros c Hc%elem_of_jsSortBy.
  rewrite fmap_cons. simpl.
  pose proof (tree_child_bound _ _ _ Hok p c Hc) as Hlv.
  apply IH; [by apply (tree_child _ _ _ Hok p c)|lia].
Qed.
End DrawnFacts.

Lemma layoutTree_edges (st : State.t) (fuel : nat) (layout : Layout.t) :
  layoutTree st fuel = Some layout →
  Layout.edges layout
  = layoutRoots st
    ≫= λ r, (ROOT_KEY, r) :: drawn (State.graph st) (State.expandedModules st) fuel r.
Proof.
  unfold layoutTree.
  destruct (mapM _ _) as [sizes|] eqn:Hsizes; [|done]. cbn [mbind option_bind].
  destruct (forEachM _ _ _) as [r|] eqn:Hloop; [|done]. cbn [mbind option_bind].
  intros [= <-].
  rewrite (sizes_shown _ _ _ _ _ Hsizes) in Hloop.
  apply (forEachM_stackChild_edges _
           (drawn (State.graph st) (State.expandedModules st) fuel)) in Hloop.
  - by rewrite Hloop.
  - intros c yc L1 L2. apply place_edges.
Qed.

Lemma size_insertAll (l : list (string * Pos)) (m : gmap string Pos) :
  NoDup l.*1 → (∀ k, k ∈ l.*1 → m !! k = None) →
  size (insertAll l m) = length l + size m.
Proof.
  revert m. induction l as [|[k v] l IH]; intros m Hnd Hfresh; [done|].
  change (insertAll ((k, v) :: l) m) with (insertAll l (<[k:=v]> m)).
  apply NoDup_cons in Hnd as [Hk Hnd]. rewrite IH; [|done|].
  - rewrite map_size_insert_None by (apply Hfresh; by left). simpl. lia.
  - intros k' Hk'. rewrite lookup_insert_ne; [apply Hfresh; by right|].
    intros <-. done.
Qed.

Lemma rootPlacements_shown (st : State.t) (level : string → nat) (bound fuel : nat) (layout : Layout.t) :
  TreeOk (State.graph st) level bound →
  State.moduleOrder st = sortedModules (State.graph st) → bound ≤ fuel →
  layoutTree st fuel = Some layout →
  ∀ m, m ∈ (rootPlacements st fuel).*1 ↔
       is_Some (modules (State.graph st) !! m)
       ∧ ancestorsExpanded (State.graph st) (State.expandedModules st) m
       ∧ rooted (State.graph st) m.
Proof.
  intros Hok Horder Hfuel Hlayout.
  assert (Hnr : modules (State.graph st) !! ROOT_KEY = None) by apply (tree_no_root _ _ _ Hok).
  pose proof (layout_shown st level bound Hok Horder fuel layout) as Hshown.
  intros m. split.
    - intros Hm. apply list_elem_of_fmap in Hm as ([m' pm] & -> & Hin).
      pose proof (layout_lookup st Horder level bound Hok fuel layout m' pm Hlayout Hin)
        as Hpos.
      destruct (proj1 (Hshown m' Hfuel Hlayout)) as [->|?]; [by eexists| |done].
      assert (Hkey : ROOT_KEY ∈ (rootPlacements st fuel).*1).
      { apply list_elem_of_fmap. by exists (ROOT_KEY, pm). }
      apply (rootPlacements_module st Horder level bound Hok) in Hkey.
      rewrite Hnr in Hkey. by destruct Hkey.
    - intros Hm.
      destruct (proj2 (Hshown m Hfuel Hlayout)) as [pm Hpm]; [by right|].
      destruct (layout_lookup_inv st Horder level bound Hok fuel layout m pm Hlayout Hpm)
        as [Hin|[-> _]].
      + apply list_elem_of_fmap. by exists (m, pm).
      + destruct Hm as [Hm _]. rewrite Hnr in Hm. by destruct Hm.
Qed.

Lemma rootPlacements_parent (st : State.t) (level : string → nat) (bound fuel : nat)
    (layout : Layout.t) (b : string) :
  TreeOk (State.graph st) level bound →
  State.moduleOrder st = sortedModules (State.graph st) → bound ≤ fuel →
  layoutTree st fuel = Some layout →
  b ∈ (rootPlacements st fuel).*1 → isRootModule (State.graph st) b = false →
  parentOf (State.graph st) b ∈ (rootPlacements st fuel).*1
  ∧ parentOf (State.graph st) b ∈ State.expandedModules st
  ∧ b ∈ childrenOf (State.graph st) (parentOf (State.graph st) b).
Proof.
  intros Hok Horder Hfuel Hlayout Hb Hroot.
  pose proof (rootPlacements_shown st level bound fuel layout Hok Horder Hfuel Hlayout)
    as Hkeys.
  apply Hkeys in Hb as (Hbm & Hanc & Hrooted).
  destruct (rooted_parent _ level bound Hok b Hroot Hrooted) as [Hpm Hprooted].
  split; [|split].
  - apply Hkeys. split; [done|]. split; [|done].
    by apply ancestorsExpanded_parent.
  - apply (Hanc 1); [lia|done].
  - by apply (tree_parent _ _ _ Hok).
Qed.

Lemma layoutTree_edges_iff (st : State.t) (level : string → nat) (bound fuel : nat) (layout : Layout.t) :
  TreeOk (State.graph st) level bound →
  State.moduleOrder st = sortedModules (State.graph st) → bound ≤ fuel →
  layoutTree st fuel = Some layout →
  ∀ a b, (a, b) ∈ Layout.edges layout ↔
            b ≠ ROOT_KEY ∧ is_Some (Layout.positions layout !! b)
            ∧ a = if isRootModule (State.graph st) b then ROOT_KEY else parentOf (State.graph st) b.
Proof.
  intros Hok Horder Hfuel Hlayout.
  assert (Hnr : modules (State.graph st) !! ROOT_KEY = None) by apply (tree_no_root _ _ _ Hok).
  assert (Hnz : modules (State.graph st) !! EmptyString = None) by apply (tree_no_empty _ _ _ Hok).
  pose proof (layout_shown st level bound Hok Horder fuel layout) as Hshown.
  pose proof (rootPlacements_shown st level bound fuel layout Hok Horder Hfuel Hlayout) as Hkeys.
  intros a b. rewrite (layoutTree_edges st fuel layout Hlayout).
    rewrite list_elem_of_bind. split.
    - intros (r & Hab & Hr). pose proof Hr as Hr'.
      apply (layoutRoots_spec st Horder) in Hr as [Hr Hroot].
      apply elem_of_cons in Hab as [[= -> ->]|Hab].
      + split; [intros ->; rewrite Hnr in Hr; by destruct Hr|].
        rewrite Hroot. split; [|done].
        apply Hshown; [done|done|]. right. split; [done|].
        split; [|by apply rooted_root].
        intros k Hk Hmod. by apply (root_no_ancestor _ level bound Hok) in Hmod.
      + apply elem_of_drawn in Hab as (Ha & HaE & Hb).
        destruct (tree_child _ _ _ Hok a b Hb) as [Hbm Hpar].
        assert (Hbin : b ∈ (rootPlacements st fuel).*1).
        { rewrite rootPlacements_keys. apply list_elem_of_bind. exists r.
          split; [|done].
          apply (shownBelow_closed _ _ level bound Hok fuel r a b); try done.
          apply (tree_bound _ _ _ Hok) in Hr. lia. }
        split; [intros ->; rewrite Hnr in Hbm; by destruct Hbm|].
        split.
        { apply Hshown; [done|done|]. right. by apply Hkeys. }
        rewrite (child_not_root _ level bound Hok a b Hb). by rewrite Hpar.
    - intros (Hne & Hpos & ->).
      destruct (proj1 (Hshown b Hfuel Hlayout) Hpos) as [?|Hb]; [done|].
      destruct (isRootModule (State.graph st) b) eqn:Hroot.
      + exists b. split; [by left|]. apply (layoutRoots_spec st Horder).
        by destruct Hb as [? _].
      + apply Hkeys in Hb.
        destruct (rootPlacements_parent st level bound fuel layout b Hok Horder Hfuel
                    Hlayout Hb Hroot) as (Hq & HqE & Hchild).
        rewrite rootPlacements_keys in Hq. apply list_elem_of_bind in Hq as (r & Hq & Hr).
        exists r. split; [|done]. right. apply elem_of_drawn. done.
Qed.

(** X10.  The tree edges of a layout: every positioned module has exactly
    one edge coming in, from the synthetic root if it is a root module
    and from its parent otherwise; there are no other edges, both ends
    of every edge have a position, and the edges are one fewer than the
    positions. *)
Theorem layoutTree_edges_spec (st : State.t) (level : string → nat) (bound fuel : nat) :
  TreeOk (State.graph st) level bound →
  State.moduleOrder st = sortedModules (State.graph st) → bound ≤ fuel →
  ∃ layout,
    layoutTree st fuel = Some layout
    ∧ (∀ a b, (a, b) ∈ Layout.edges layout ↔
         b ≠ ROOT_KEY ∧ is_Some (Layout.positions layout !! b)
         ∧ a = if isRootModule (State.graph st) b then ROOT_KEY
               else parentOf (State.graph st) b)
    ∧ (∀ a b, (a, b) ∈ Layout.edges layout → is_Some (Layout.positions layout !! a))
    ∧ NoDup (Layout.edges layout).*2
    ∧ length (Layout.edges layout) + 1 = size (Layout.positions layout).
Proof.
  intros Hok Horder Hfuel.
  assert (Hnr : modules (State.graph st) !! ROOT_KEY = None) by apply (tree_no_root _ _ _ Hok).
  assert (Hnz : modules (State.graph st) !! EmptyString = None) by apply (tree_no_empty _ _ _ Hok).
  destruct (layoutTree_total st Horder level bound Hok fuel Hfuel) as [layout Hlayout].
  exists layout. split; [done|].
  pose proof (layout_shown st level bound Hok Horder fuel layout) as Hshown.
  pose proof (rootPlacements_shown st level bound fuel layout Hok Horder Hfuel Hlayout) as Hkeys.
  pose proof (layoutTree_edges_iff st level bound fuel layout Hok Horder Hfuel Hlayout) as Hedge.
  assert (Htargets : (Layout.edges layout).*2 = (rootPlacements st fuel).*1).
  { rewrite (layoutTree_edges st fuel layout Hlayout), rootPlacements_keys.
    rewrite fmap_bind_list. apply bind_ext_in.
    intros r [Hr Hroot]%(layoutRoots_spec st Horder).
    rewrite fmap_cons. simpl.
    apply (drawn_targets _ _ level bound Hok); [done|].
    apply (tree_bound _ _ _ Hok) in Hr. lia. }
  split; [done|]. split.
  - intros a b (Hne & Hpos & ->)%Hedge.
    destruct (proj1 (Hshown b Hfuel Hlayout) Hpos) as [?|Hb]; [done|].
    apply Hshown; [done|done|].
    destruct (isRootModule (State.graph st) b) eqn:Hroot; [by left|]. right.
    apply Hkeys. apply Hkeys in Hb.
    by destruct (rootPlacements_parent st level bound fuel layout b Hok Horder Hfuel
                   Hlayout Hb Hroot) as (Hq & _).
  - split.
    + rewrite Htargets. apply (NoDup_rootPlacements st Horder level bound Hok).
    + rewrite (layoutTree_positions st fuel layout Hlayout).
      rewrite size_insertAll.
      * rewrite map_size_singleton.
        rewrite <- (length_fmap snd (Layout.edges layout)), Htargets, length_fmap. lia.
      * apply (NoDup_rootPlacements st Horder level bound Hok).
      * intros k Hk. apply lookup_singleton_ne. intros <-.
        apply (rootPlacements_module st Horder level bound Hok) in Hk.
        rewrite Hnr in Hk. by destruct Hk.
Qed.

Lemma layoutTree_edges_spec_witness :
  ∃ layout,
    layoutTree demoState 8 = Some layout
    ∧ (ROOT_KEY, "pkg") ∈ Layout.edges layout
    ∧ length (Layout.edges layout) + 1 = size (Layout.positions layout).
Proof.
  destruct (layoutTree_edges_spec demoState String.length 8 8 demoState_ok
              demoState_order (le_n 8))
    as (layout & Hlayout & Hedge & Hfrom & _ & Hlen).
  exists layout. split; [exact Hlayout|]. split; [|exact Hlen].
  assert (Hin : ("pkg", "pkg.a") ∈ Layout.edges layout).
  { assert (Hsome : Layout.edges <$> layoutTree demoState 8
                    = Some [(ROOT_KEY, "pkg"); ("pkg", "pkg.a"); ("pkg", "pkg.b")])
      by (vm_compute; reflexivity).
    rewrite Hlayout in Hsome. injection Hsome as ->. apply elem_of_cons. right. by left. }
  apply Hedge. split; [discriminate|]. split; [|vm_compute; reflexivity].
  exact (Hfrom _ _ Hin).
Defined.

(** ** The pre-pass, edge by edge *)

Lemma lookup2_insert (m : gmap string (gmap string (gset string))) (c p c' p' : string)
    (v : gset string) :
  <[c := <[p := v]> (default ∅ (m !! c))]> m !! c' ≫= (.!! p')
  = if decide (c' = c ∧ p' = p) then Some v else m !! c' ≫= (.!! p').
Proof.
  destruct (decide (c' = c)) as [->|Hc].
  - rewrite lookup_insert_eq. simpl. destruct (decide (p' = p)) as [->|Hp].
    + rewrite lookup_insert_eq. by rewrite decide_True.
    + rewrite lookup_insert_ne by done. rewrite decide_False by (by intros [_ ?]).
      destruct (m !! c); simpl; [done|]. by rewrite lookup_empty.
  - rewrite lookup_insert_ne by done. by rewrite decide_False by (by intros [? _]).
Qed.

Lemma depEdge_fun (g : Graph) (edge : Edge) (c p : string) :
  depEdge g edge c p →
  c = moduleForNodeId g (to edge) ∧ p = moduleForNodeId g (from edge).
Proof. by intros (_ & <- & <- & _). Qed.

Lemma addModuleDep_cases (g : Graph)
    (acc : gmap string (gset string) * gmap string (gmap string (gset string)))
    (edge : Edge) :
  ((∀ c p, ¬ depEdge g edge c p) ∧ addModuleDep g acc edge = Some acc)
  ∨ (∃ c p, depEdge g edge c p
       ∧ addModuleDep g acc edge = (λ deps, recordEdge g edge c p deps acc) <$> acc.1 !! c).
Proof.
  destruct acc as [md mdo]. unfold addModuleDep.
  destruct (bool_decide (kind edge ≠ "depends") && bool_decide (kind edge ≠ "invokes"))
    eqn:Hkind.
  { left. split; [|done]. intros c p ([Hk|Hk] & _).
    - apply andb_true_iff in Hkind as [Hkind%bool_decide_eq_true _]. done.
    - apply andb_true_iff in Hkind as [_ Hkind%bool_decide_eq_true]. done. }
  destruct (negb (truthy (moduleForNodeId g (from edge)))
            || negb (truthy (moduleForNodeId g (to edge)))
            || bool_decide (moduleForNodeId g (from edge) = moduleForNodeId g (to edge)))
    eqn:Hskip.
  { left. split; [|done]. intros c p (_ & <- & <- & Hp & Hc & Hne & _).
    apply orb_true_iff in Hskip as [Hskip|Hskip%bool_decide_eq_true]; [|done].
    apply orb_true_iff in Hskip as [Hskip|Hskip];
      apply negb_true_iff, truthy_false in Hskip; done. }
  destruct (negb (isModule g (moduleForNodeId g (from edge)))
            || negb (isModule g (moduleForNodeId g (to edge)))) eqn:Hmod.
  { left. split; [|done]. intros c p (_ & <- & <- & _ & _ & _ & Hp & Hc).
    apply orb_true_iff in Hmod as [Hmod|Hmod];
      apply negb_true_iff in Hmod; congruence. }
  right. exists (moduleForNodeId g (to edge)), (moduleForNodeId g (from edge)).
  split.
  - apply andb_false_iff in Hkind.
    apply orb_false_iff in Hskip as [Hskip Hne]. apply orb_false_iff in Hskip as [Hf Ht].
    apply orb_false_iff in Hmod as [Hfm Htm].
    apply negb_false_iff, truthy_true in Hf, Ht.
    apply negb_false_iff in Hfm, Htm.
    apply bool_decide_eq_false in Hne.
    split; [|done].
    destruct (decide (kind edge = "depends")) as [?|Hd]; [by left|right].
    destruct (decide (kind edge = "invokes")) as [?|Hi]; [done|].
    destruct Hkind as [Hk|Hk]; apply bool_decide_eq_false in Hk; by destruct Hk.
  - cbn [fst]. destruct (md !! moduleForNodeId g (to edge)) as [deps|]; [|done].
    cbn [fmap option_fmap option_map]. unfold recordEdge, edgeLabel. cbn [fst snd].
    by destruct (objectAt g (from edge)).
Qed.

Lemma prepassAfter_step (g : Graph) (seen : list Edge) (edge : Edge)
    (acc acc' : gmap string (gset string) * gmap string (gmap string (gset string))) :
  prepassAfter g seen acc → addModuleDep g acc edge = Some acc' →
  prepassAfter g (seen ++ [edge]) acc'.
Proof.
  intros (Hdom & Hdeps & Hkeys & Hlabels) Hstep.
  assert (Hsnoc : ∀ P : Edge → Prop,
            (∃ e, e ∈ seen ++ [edge] ∧ P e) ↔ (∃ e, e ∈ seen ∧ P e) ∨ P edge).
  { intros P. split.
    - intros (e & [He| ->%list_elem_of_singleton]%elem_of_app & HP); [left|right]; eauto.
    - intros [(e & He & HP)|HP]; [exists e|exists edge];
        (split; [apply elem_of_app|done]); [by left|right; by left]. }
  destruct (addModuleDep_cases g acc edge) as [[Hno Hsame]|(c0 & p0 & Hedge & Hrun)].
  - rewrite Hsame in Hstep. injection Hstep as <-.
    split; [done|]. split; [|split].
    + intros c p. rewrite Hdeps, Hsnoc. split; [by left|]. intros [?|?]; [done|].
      by destruct (Hno c p).
    + intros c p. rewrite Hkeys, Hsnoc. split; [by left|]. intros [?|?]; [done|].
      by destruct (Hno c p).
    + intros c p labels label Hlook. rewrite (Hlabels c p labels label Hlook).
      rewrite (Hsnoc (λ e, depEdge g e c p ∧ edgeLabel g e = Some label)).
      split; [by left|]. intros [?|[? _]]; [done|]. by destruct (Hno c p).
  - rewrite Hrun in Hstep.
    destruct (acc.1 !! c0) as [old|] eqn:Hold; [|done].
    injection Hstep as <-. unfold recordEdge.
    assert (Hsame : ∀ c p, depEdge g edge c p ↔ c = c0 ∧ p = p0).
    { intros c p. split.
      - intros [-> ->]%depEdge_fun. by apply depEdge_fun in Hedge as [-> ->].
      - by intros [-> ->]. }
    split; [|split; [|split]]; cbn [fst snd].
    + intros m. destruct (decide (c0 = m)) as [<-|Hne].
      * rewrite lookup_insert_eq. rewrite <- Hdom, Hold. split; by eexists.
      * rewrite lookup_insert_ne by done. apply Hdom.
    + intros c p. rewrite Hsnoc, Hsame, <- Hdeps.
      destruct (decide (c0 = c)) as [<-|Hne].
      * rewrite lookup_insert_eq, Hold. simpl. rewrite elem_of_union, elem_of_singleton.
        clear. naive_solver.
      * rewrite lookup_insert_ne by done. split; [by left|]. by intros [?|[? _]].
    + intros c p. rewrite lookup2_insert, Hsnoc, Hsame, <- Hkeys.
      destruct (decide (c = c0 ∧ p = p0)) as [Heq|Hne].
      * split; [by right|by eexists].
      * split; [by left|]. by intros [?|?].
    + intros c p labels label. rewrite lookup2_insert.
      rewrite (Hsnoc (λ e, depEdge g e c p ∧ edgeLabel g e = Some label)).
      destruct (decide (c = c0 ∧ p = p0)) as [[-> ->]|Hne].
      * intros [= <-].
        assert (Hold' : label ∈ default ∅ (default ∅ (acc.2 !! c0) !! p0) ↔
                  ∃ e, e ∈ seen ∧ depEdge g e c0 p0 ∧ edgeLabel g e = Some label).
        { destruct (acc.2 !! c0 ≫= (.!! p0)) as [ls|] eqn:Hlook.
          - assert (default ∅ (default ∅ (acc.2 !! c0) !! p0) = ls) as ->.
            { destruct (acc.2 !! c0); simpl in *; [by rewrite Hlook|done]. }
            by apply Hlabels.
          - assert (default ∅ (default ∅ (acc.2 !! c0) !! p0) = ∅) as ->.
            { destruct (acc.2 !! c0); simpl in *; [by rewrite Hlook|].
              by rewrite lookup_empty. }
            split; [by intros ?%elem_of_empty|]. intros (e & He & Hd & _).
            assert (Hsome : is_Some (acc.2 !! c0 ≫= (.!! p0))) by (apply Hkeys; eauto).
            rewrite Hlook in Hsome. by destruct Hsome. }
        rewrite <- Hold'.
        destruct (edgeLabel g edge) as [label0|].
        -- rewrite elem_of_union, elem_of_singleton. split.
           ++ intros [?| ->]; [by left|right; done].
           ++ intros [?|[_ [= ->]]]; [by left|by right].
        -- split; [by left|]. by intros [?|[_ ?]].
      * intros Hlook. rewrite (Hlabels c p labels label Hlook).
        split; [by left|]. intros [?|[Hd _]]; [done|]. by apply Hsame in Hd.
Qed.

Lemma forEachM_addModuleDep (g : Graph) (l : list Edge) :
  ∀ (seen : list Edge)
    (acc : gmap string (gset string) * gmap string (gmap string (gset string))),
  prepassAfter g seen acc →
  match forEachM (addModuleDep g) l acc with
  | Some acc' => prepassAfter g (seen ++ l) acc'
                 ∧ ¬ ∃ e c p, e ∈ l ∧ depEdge g e c p ∧ modules g !! c = None
  | None => ∃ e c p, e ∈ l ∧ depEdge g e c p ∧ modules g !! c = None
  end.
Proof.
  induction l as [|edge l IH]; intros seen acc Hacc.
  { simpl. rewrite app_nil_r. split; [done|].
    intros (e & c & p & He & _). by apply elem_of_nil in He. }
  cbn [forEachM].
  destruct (addModuleDep g acc edge) as [acc1|] eqn:Hstep; cbn [mbind option_bind].
  - pose proof (prepassAfter_step g seen edge acc acc1 Hacc Hstep) as Hacc1.
    specialize (IH (seen ++ [edge]) acc1 Hacc1). rewrite <- app_assoc in IH.
    destruct (forEachM (addModuleDep g) l acc1) as [acc'|].
    + destruct IH as [Hafter Hnone]. split; [done|].
      intros (e & c & p & [->|He]%elem_of_cons & Hd & Hc).
      * destruct (addModuleDep_cases g acc edge) as [[Hno _]|(c0 & p0 & Hedge & Hrun)].
        { by destruct (Hno c p). }
        apply depEdge_fun in Hd as [-> ->]. apply depEdge_fun in Hedge as [-> ->].
        destruct Hacc as (Hdom & _).
        rewrite Hrun in Hstep.
        destruct (acc.1 !! moduleForNodeId g (to edge)) as [old|] eqn:Hold; [|done].
        assert (Hsome : is_Some (modules g !! moduleForNodeId g (to edge)))
          by (apply Hdom; by eexists).
        rewrite Hc in Hsome. by destruct Hsome.
      * apply Hnone. by exists e, c, p.
    + destruct IH as (e & c & p & He & Hd & Hc). exists e, c, p. split; [by right|done].
  - destruct (addModuleDep_cases g acc edge) as [[_ Hsame]|(c0 & p0 & Hedge & Hrun)].
    { congruence. }
    rewrite Hrun in Hstep.
    destruct (acc.1 !! c0) as [old|] eqn:Hold; [done|].
    exists edge, c0, p0. split; [by left|]. split; [done|].
    destruct Hacc as (Hdom & _). apply eq_None_not_Some. intros Hsome.
    apply Hdom in Hsome. rewrite Hold in Hsome. by destruct Hsome.
Qed.

(** X11.  [buildModuleDeps] fails to return exactly when some [depends]
    or [invokes] edge between two different paths that pass the module
    test ends in a path that is not a key of the module map (it passes
    the test as a name that plain objects inherit): no set is stored
    for it.  When it returns, [moduleDeps] has a key for every module
    and no other; [c] depends on [p] exactly when such an edge runs
    from a node of [p] to a node of [c]; the pair then has a label set
    in [moduleDepObjects], which holds exactly the labels that the
    edges of the pair add.  Nothing depends on itself, and the rest of
    the state is left as it is. *)
Theorem buildModuleDeps_spec (st : State.t) :
  let g := State.graph st in
  (buildModuleDeps st = None ↔
     ∃ e c p, e ∈ edges g ∧ depEdge g e c p ∧ modules g !! c = None)
  ∧ ∀ st', buildModuleDeps st = Some st' →
      (∀ m, is_Some (State.moduleDeps st' !! m) ↔ is_Some (modules g !! m))
      ∧ (∀ c p, p ∈ default ∅ (State.moduleDeps st' !! c) ↔
           ∃ e, e ∈ edges g ∧ depEdge g e c p)
      ∧ (∀ c p, (∃ labels, recorded st' c p labels) ↔
           ∃ e, e ∈ edges g ∧ depEdge g e c p)
      ∧ (∀ c p labels label, recorded st' c p labels →
           label ∈ labels ↔
           ∃ e, e ∈ edges g ∧ depEdge g e c p ∧ edgeLabel g e = Some label)
      ∧ (∀ c, c ∉ default ∅ (State.moduleDeps st' !! c))
      ∧ State.graph st' = g ∧ State.nodes st' = State.nodes st
      ∧ State.edges st' = State.edges st
      ∧ State.expandedModules st' = State.expandedModules st
      ∧ State.moduleOrder st' = State.moduleOrder st.
Proof.
  intros g.
  pose proof (forEachM_addModuleDep g (edges g) [] ((λ _, ∅) <$> modules g, ∅)) as Hfold.
  assert (Hinit : prepassAfter g [] ((λ _, ∅) <$> modules g, ∅)).
  { split; [|split; [|split]]; cbn [fst snd].
    - intros m. by rewrite lookup_fmap, fmap_is_Some.
    - intros c p. rewrite lookup_fmap. split.
      + destruct (modules g !! c); simpl; set_solver.
      + by intros (e & ?%elem_of_nil & _).
    - intros c p. rewrite lookup_empty. simpl. split; [by intros [? ?]|].
      by intros (e & ?%elem_of_nil & _).
    - intros c p labels label. by rewrite lookup_empty. }
  specialize (Hfold Hinit). unfold buildModuleDeps. fold g.
  destruct (forEachM (addModuleDep g) (edges g) _) as [[md mdo]|];
    cbn [mbind option_bind].
  - destruct Hfold as [(Hdom & Hdeps & Hkeys & Hlabels) Hnone]. cbn [fst snd] in *.
    split; [split; [done|by intros ?]|].
    intros st' [= <-]. unfold recorded.
    cbn [State.moduleDeps State.moduleDepObjects State.graph State.nodes State.edges
         State.expandedModules State.moduleOrder].
    split; [done|]. split; [done|]. split; [apply Hkeys|]. split; [done|].
    split; [|done].
    intros c (e & _ & Hedge)%Hdeps. by destruct Hedge as (_ & _ & _ & _ & _ & ? & _).
  - split; [done|]. intros st' Hst'. done.
Qed.

Lemma buildModuleDeps_spec_witness :
  (∃ st', buildModuleDeps (freshState demoGraph ∅) = Some st'
          ∧ "pkg.a.x" ∈ default ∅ (State.moduleDeps st' !! "pkg.b")
          ∧ "pkg.b" ∉ default ∅ (State.moduleDeps st' !! "pkg.b"))
  ∧ buildModuleDeps
      (freshState
         (mkGraph {[ "pkg.a" := mkModule EmptyString [] EmptyString ]} None None None None
                  [mkEdge "module:pkg.a" "module:toString" "depends"]) ∅)
    = None.
Proof.
  split.
  - assert (Hsome : is_Some (buildModuleDeps (freshState demoGraph ∅)))
      by (apply (bool_decide_unpack _); vm_compute; exact I).
    destruct Hsome as [st' Hrun]. exists st'. split; [exact Hrun|].
    destruct (proj2 (buildModuleDeps_spec (freshState demoGraph ∅)) st' Hrun)
      as (_ & Hdeps & _ & _ & Hself & _).
    split; [|apply Hself].
    apply Hdeps. exists (mkEdge "obj:1" "ctor:b" "depends").
    split; [by left|]. unfold depEdge.
    split; [by left|]. repeat split; try (vm_compute; reflexivity); discriminate.
  - apply (proj1 (buildModuleDeps_spec _)).
    exists (mkEdge "module:pkg.a" "module:toString" "depends"), "toString", "pkg.a".
    split; [by left|]. split; [|reflexivity]. unfold depEdge.
    split; [by left|]. repeat split; try (vm_compute; reflexivity); discriminate.
Defined.

(** ** Node ids *)



(** ** Going back *)

Section RestoreFacts.
Context {Camera : Type} (restoreCamera : Camera → Camera).
Implicit Types v : View.t Camera.


End RestoreFacts.



(** ** Provider modules *)

(** X14.  [providerModulesForObject] returns a sorted list without
    duplicates.  It holds exactly the non-empty module paths read for
    the provider ids of the object that pass the module test of the
    program: the keys of the module map and, the test being a plain
    read, the names that plain objects inherit.  An object without
    providers has none. *)
Theorem providerModulesForObject_sorted (g : Graph) (obj : Obj.t) :
  StronglySorted String.le (providerModulesForObject g obj)
  ∧ NoDup (providerModulesForObject g obj)
  ∧ (∀ m, m ∈ providerModulesForObject g obj ↔
       m ≠ EmptyString
       ∧ (is_Some (modules g !! m) ∨ inherited m = true)
       ∧ ∃ pid, pid ∈ Obj.providedBy obj ∧ providerModule g pid = m)
  ∧ (Obj.providedBy obj = [] → providerModulesForObject g obj = []).
Proof.
  split; [apply sortedElements_sorted|]. split; [apply sortedElements_sorted|]. split.
  - intros m. rewrite elem_of_providerModulesForObject. unfold providerOf.
    setoid_rewrite isModule_spec. split.
    + intros (pid & Hpid & Hpm & Hne & Hmod). split; [done|]. split; [done|].
      by exists pid.
    + intros (Hne & Hmod & pid & Hpid & Hpm). by exists pid.
  - intros Hnil. apply providerModulesForObject_nil.
    intros pid m Hpid. rewrite Hnil in Hpid. by apply elem_of_nil in Hpid.
Qed.

Lemma providerModulesForObject_sorted_witness :
  let obj := Obj.mk "o" "T" EmptyString EmptyString "pkg.b" ["ctor:b"; "ctor:x"; "ctor:b"] []
                    None None in
  providerModulesForObject demoGraph obj = ["pkg.a.x"; "pkg.b"]
  ∧ ∃ pid, pid ∈ Obj.providedBy obj ∧ providerModule demoGraph pid = "pkg.b".
Proof.
  intros obj. split; [vm_compute; reflexivity|].
  destruct (providerModulesForObject_sorted demoGraph obj) as (_ & _ & Hin & _).
  destruct (proj1 (Hin "pkg.b")) as (_ & _ & Hpid); [|exact Hpid].
  apply (bool_decide_unpack _). vm_compute. exact I.
Defined.

(** ** Lookups in the object index *)

Lemma foldl_indexObject (g : Graph) (objs : list Obj.t) (idx0 : ObjectIndex) :
  objectIndex (foldl (indexObject g) idx0 objs)
  = objectIndex idx0 ++ (entryOf g <$> filter (resolvable g) objs)
  ∧ searchEntries (foldl (indexObject g) idx0 objs)
    = searchEntries idx0
      ++ (filter (resolvable g) objs
          ≫= λ obj, searchEntryOf g obj <$> providerModulesForObject g obj)
  ∧ ∀ signature,
      objectRefIndex (foldl (indexObject g) idx0 objs) !! signature
      = match entryOf g <$> filter (λ obj, resolvable g obj ∧ hasSignature signature obj) objs
        with
        | [] => objectRefIndex idx0 !! signature
        | found => Some (default [] (objectRefIndex idx0 !! signature) ++ found)
        end.
Proof.
  revert idx0. induction objs as [|obj objs IH]; intros idx0; cbn [foldl].
  { cbn. by rewrite !app_nil_r. }
  destruct (IH (indexObject g idx0 obj)) as (Hindex & Hsearch & Href).
  rewrite Hindex, Hsearch. setoid_rewrite Href. clear Hindex Hsearch Href IH.
  destruct (decide (resolvable g obj)) as [Hres|Hres].
  - rewrite indexObject_resolved by done.
    cbn [objectIndex searchEntries objectRefIndex].
    split; [|split].
    + rewrite filter_cons_True by done. rewrite fmap_cons. by rewrite <- app_assoc.
    + rewrite filter_cons_True by done. cbn [mbind list_bind]. by rewrite <- app_assoc.
    + intros signature.
      destruct (decide (hasSignature signature obj)) as [Hsig|Hsig].
      * rewrite (filter_cons_True _ obj objs) by done.
        rewrite fmap_cons. unfold hasSignature in Hsig. rewrite Hsig.
        rewrite lookup_insert_eq. cbn [default].
        destruct (entryOf g <$> filter _ objs) as [|e found]; [done|].
        unfold id. by rewrite <- app_assoc.
      * rewrite (filter_cons_False _ obj objs) by (by intros [_ ?]).
        unfold hasSignature in Hsig. by rewrite lookup_insert_ne.
  - assert (Hnil : providerModulesForObject g obj = []).
    { apply dec_stable. exact Hres. }
    rewrite indexObject_unresolved by done.
    split; [|split].
    + by rewrite filter_cons_False by done.
    + by rewrite filter_cons_False by done.
    + intros signature.
      by rewrite (filter_cons_False _ obj objs) by (by intros [? _]).
Qed.

Lemma objectRefIndex_found (localeCompare : string → string → Z) (g : Graph)
    (signature : string) :
  default [] (objectRefIndex (buildObjectIndex localeCompare g) !! signature)
  = entryOf g <$> filter (λ obj, resolvable g obj ∧ hasSignature signature obj)
                         (objects g).*2.
Proof.
  unfold buildObjectIndex. cbn [objectRefIndex].
  destruct (foldl_indexObject g (objects g).*2 (mkObjectIndex [] ∅ [])) as (_ & _ & Href).
  rewrite Href. cbn [objectRefIndex]. rewrite lookup_empty.
  by destruct (entryOf g <$> filter _ _).
Qed.

(** X15.  What [buildObjectIndex] holds: the index lists the entries of
    the objects with a provider module, in the order of the objects; the
    lookup by signature finds exactly the entries of those among them
    with that signature, in the same order, and nothing for a signature
    that none of them has; the search entries are a rearrangement of one
    entry per object and provider module. *)
Theorem buildObjectIndex_lookup (localeCompare : string → string → Z) (g : Graph) :
  let idx := buildObjectIndex localeCompare g in
  objectIndex idx = entryOf g <$> filter (resolvable g) (objects g).*2
  ∧ (∀ signature,
       objectRefIndex idx !! signature
       = match entryOf g <$> filter (λ obj, resolvable g obj ∧ hasSignature signature obj)
                                    (objects g).*2
         with
         | [] => None
         | found => Some found
         end)
  ∧ searchEntries idx
    ≡ₚ (filter (resolvable g) (objects g).*2
        ≫= λ obj, searchEntryOf g obj <$> providerModulesForObject g obj).
Proof.
  intros idx. subst idx. unfold buildObjectIndex.
  cbn [objectIndex objectRefIndex searchEntries].
  destruct (foldl_indexObject g (objects g).*2 (mkObjectIndex [] ∅ []))
    as (Hindex & Hsearch & Href).
  cbn [objectIndex objectRefIndex searchEntries] in Hindex, Hsearch, Href.
  split; [done|]. split.
  - intros signature. rewrite Href, lookup_empty.
    by destruct (entryOf g <$> filter _ _).
  - rewrite jsSortBy_perm. by rewrite Hsearch.
Qed.

Lemma elem_of_pickProviderModules (entries : list Entry.t) (m : string) :
  m ∈ pickProviderModules entries ↔ ∃ entry, entry ∈ entries ∧ m ∈ Entry.providers entry.
Proof.
  unfold pickProviderModules. rewrite elem_of_sortedElements.
  assert (Hgen : ∀ acc : gset string,
    m ∈ foldl (λ (modules : gset string) entry,
                 foldl (λ modules modulePath, modules ∪ {[modulePath]}) modules
                       (Entry.providers entry)) acc entries
    ↔ m ∈ acc ∨ ∃ entry, entry ∈ entries ∧ m ∈ Entry.providers entry).
  { induction entries as [|entry entries IH]; intros acc; cbn [foldl].
    - split; [by left|]. intros [?|(? & ?%elem_of_nil & _)]; done.
    - rewrite IH, foldl_union_singletons. split.
      + intros [[?|?]|(e & He & Hm)]; [by left|right..].
        * exists entry. split; [by left|done].
        * exists e. split; [by right|done].
      + intros [?|(e & [->|He]%elem_of_cons & Hm)].
        * left. by left.
        * left. by right.
        * right. by exists e. }
  rewrite Hgen. split; [|by right]. intros [?%elem_of_empty|?]; done.
Qed.

Lemma pickProviderModules_found (localeCompare : string → string → Z) (g : Graph)
    (signature m : string) :
  m ∈ pickProviderModules
        (default [] (objectRefIndex (buildObjectIndex localeCompare g) !! signature))
  ↔ ∃ obj, obj ∈ (objects g).*2 ∧ hasSignature signature obj
           ∧ m ∈ providerModulesForObject g obj.
Proof.
  rewrite elem_of_pickProviderModules, objectRefIndex_found. split.
  - intros (entry & Hentry & Hm).
    apply list_elem_of_fmap in Hentry as (obj & -> & Hobj).
    apply list_elem_of_filter in Hobj as [[_ Hsig] Hobj]. by exists obj.
  - intros (obj & Hobj & Hsig & Hm). exists (entryOf g obj). split; [|done].
    apply list_elem_of_fmap. exists obj. split; [done|].
    apply list_elem_of_filter. split; [|done]. split; [|done].
    unfold resolvable. intros Hnil. rewrite Hnil in Hm. by apply elem_of_nil in Hm.
Qed.

(** X16.  The details of an input reference, looked up in the index of
    the snapshot: its provider modules are, sorted and without
    duplicates, the provider modules of the objects whose signature is
    the signature of the reference; its module is the first of them, or
    empty when there is none; it is private when there is such an object
    with a provider module and every one of them is private. *)
Theorem objectInfoFromRef_spec (localeCompare : string → string → Z) (g : Graph)
    (ref : Ref.t) :
  let info := objectInfoFromRef (buildObjectIndex localeCompare g) ref in
  Info.label info = formatObject ref
  ∧ Info.signature info = signatureForRef ref
  ∧ Info.optional info = Ref.optional ref
  ∧ StronglySorted String.le (Info.providers info)
  ∧ NoDup (Info.providers info)
  ∧ (∀ m, m ∈ Info.providers info ↔
       ∃ obj, obj ∈ (objects g).*2 ∧ hasSignature (signatureForRef ref) obj
              ∧ m ∈ providerModulesForObject g obj)
  ∧ Info.modulePath info = default EmptyString (head (Info.providers info))
  ∧ (Info.modulePath info = EmptyString ↔ Info.providers info = [])
  ∧ (Info.isPrivate info = true ↔
       (∃ obj, obj ∈ (objects g).*2 ∧ hasSignature (signatureForRef ref) obj
               ∧ resolvable g obj)
       ∧ ∀ obj, obj ∈ (objects g).*2 → hasSignature (signatureForRef ref) obj →
                resolvable g obj → isPrivateObject g obj = true).
Proof.
  intros info. subst info. unfold objectInfoFromRef.
  cbn [Info.label Info.signature Info.optional Info.providers Info.modulePath
       Info.isPrivate].
  set (entries := default [] (objectRefIndex (buildObjectIndex localeCompare g)
                                !! signatureForRef ref)).
  assert (Hfound : ∀ m, m ∈ pickProviderModules entries ↔
            ∃ obj, obj ∈ (objects g).*2 ∧ hasSignature (signatureForRef ref) obj
                   ∧ m ∈ providerModulesForObject g obj)
    by (intros m; apply pickProviderModules_found).
  split; [done|]. split; [done|]. split; [done|].
  split; [apply sortedElements_sorted|]. split; [apply sortedElements_sorted|].
  split; [done|]. split; [apply orElse_empty|]. split.
  - rewrite orElse_empty.
    destruct (pickProviderModules entries) as [|m rest] eqn:Hpick; [done|].
    simpl. split; [|done]. intros ->.
    assert (Hin : EmptyString ∈ EmptyString :: rest) by (by left).
    apply Hfound in Hin as (obj & _ & _ & Hin).
    by apply elem_of_providerModulesForObject in Hin as (pid & _ & _ & ? & _).
  - subst entries. rewrite objectRefIndex_found.
    set (found := filter _ _).
    rewrite andb_true_iff, bool_decide_eq_true, forallb_forall, length_fmap.
    assert (Hin : ∀ obj, obj ∈ found ↔
              obj ∈ (objects g).*2 ∧ hasSignature (signatureForRef ref) obj
              ∧ resolvable g obj).
    { intros obj. subst found. rewrite list_elem_of_filter. tauto. }
    split.
    + intros [Hlen Hall]. split.
      * destruct found as [|obj found'] eqn:Hf; [simpl in Hlen; lia|].
        exists obj. apply Hin. by left.
      * intros obj Hobj Hsig Hres. apply (Hall (entryOf g obj)).
        apply list_elem_of_In, list_elem_of_fmap. exists obj. split; [done|].
        by apply Hin.
    + intros [(obj & Hobj) Hall]. split.
      * apply Hin in Hobj. destruct found; [by apply elem_of_nil in Hobj|simpl; lia].
      * intros entry (obj' & -> & Hobj')%list_elem_of_In%list_elem_of_fmap.
        apply Hin in Hobj' as (? & ? & ?). by apply Hall.
Qed.

Lemma objectInfoFromRef_spec_witness :
  let info := objectInfoFromRef (buildObjectIndex (λ _ _, 0%Z) demoGraph)
                (Ref.mk "Service" "X" EmptyString false) in
  Info.providers info = ["pkg.a.x"] ∧ Info.modulePath info ≠ EmptyString.
Proof.
  intros info.
  destruct (objectInfoFromRef_spec (λ _ _, 0%Z) demoGraph
              (Ref.mk "Service" "X" EmptyString false))
    as (_ & _ & _ & _ & _ & _ & _ & Hpath & _).
  assert (Hprov : Info.providers info = ["pkg.a.x"]) by (vm_compute; reflexivity).
  split; [exact Hprov|]. intros Hempty. apply Hpath in Hempty.
  fold info in Hempty. rewrite Hprov in Hempty. discriminate Hempty.
Defined.

(** ** Focusing an object *)

Lemma objectSignature_nonempty (type name group : string) :
  objectSignature type name group ≠ EmptyString.
Proof. unfold objectSignature. by destruct (orElse type EmptyString). Qed.

(** X17.  Focusing an object by its signature: when no object with a
    provider module has the signature nothing changes; otherwise the
    first, in sorted order, of the provider modules of the objects with
    that signature is focused: it is put in the expansion set, and when
    it is a module whose parent walk ends in a root of the program its
    node is visible afterwards. *)
Theorem focusObjectBySignature_reveals (localeCompare : string → string → Z)
    (st : State.t) (level : string → nat) (bound fuel : nat) (signature : string) :
  TreeOk (State.graph st) level bound → nodesBuilt st → bound < fuel →
  let g := State.graph st in
  let idx := buildObjectIndex localeCompare g in
  ((∀ obj, obj ∈ (objects g).*2 → hasSignature signature obj → ¬ resolvable g obj) →
   focusObjectBySignature idx st fuel signature = Some st)
  ∧ (∀ obj, obj ∈ (objects g).*2 → hasSignature signature obj → resolvable g obj →
     ∃ st' m,
       focusObjectBySignature idx st fuel signature = Some st'
       ∧ m ∈ State.expandedModules st'
       ∧ (is_Some (modules g !! m) → rooted g m → nodeVisible st' m = true)
       ∧ (∃ obj', obj' ∈ (objects g).*2 ∧ hasSignature signature obj'
                  ∧ m ∈ providerModulesForObject g obj')
       ∧ (∀ obj' m', obj' ∈ (objects g).*2 → hasSignature signature obj' →
                     m' ∈ providerModulesForObject g obj' → String.le m m')).
Proof.
  intros Hok Hbuilt Hfuel g idx. subst idx. unfold focusObjectBySignature.
  pose proof (pickProviderModules_found localeCompare g signature) as Hfound.
  pose proof (sortedElements_sorted
    (foldl (λ (modules : gset string) entry,
              foldl (λ modules modulePath, modules ∪ {[modulePath]}) modules
                    (Entry.providers entry))
           ∅ (default [] (objectRefIndex (buildObjectIndex localeCompare g) !! signature))))
    as [Hsorted _].
  fold (pickProviderModules
          (default [] (objectRefIndex (buildObjectIndex localeCompare g) !! signature)))
    in Hsorted.
  destruct (pickProviderModules _) as [|first rest] eqn:Hpick.
  - split; [by destruct (negb (truthy signature))|].
    intros obj Hobj Hsig Hres.
    destruct (providerModulesForObject g obj) as [|m0 ms] eqn:Hprov; [done|].
    assert (Hin : m0 ∈ @nil string); [|by apply elem_of_nil in Hin].
    apply Hfound. exists obj. split; [done|]. split; [done|]. rewrite Hprov. by left.
  - assert (Hfirst : ∃ obj', obj' ∈ (objects g).*2 ∧ hasSignature signature obj'
                             ∧ first ∈ providerModulesForObject g obj').
    { apply Hfound. by left. }
    split.
    + intros Hnone. destruct Hfirst as (obj' & Hobj' & Hsig' & Hin).
      destruct (Hnone obj' Hobj' Hsig'). unfold resolvable. intros Hnil.
      rewrite Hnil in Hin. by apply elem_of_nil in Hin.
    + intros obj Hobj Hsig _.
      assert (Hne : truthy signature = true).
      { apply truthy_true. unfold hasSignature in Hsig. rewrite <- Hsig.
        apply objectSignature_nonempty. }
      rewrite Hne. cbn [negb].
      assert (Hpath : first ≠ EmptyString ∧ isModule g first = true).
      { destruct Hfirst as (obj' & _ & _ & Hin).
        by apply elem_of_providerModulesForObject in Hin as (pid & _ & _ & ? & ?). }
      destruct Hpath as [Hfne Hfmod].
      assert (Hfroot : first ≠ ROOT_KEY).
      { intros ->. apply isModule_spec in Hfmod as [[x Hown]|Hinh]; [|done].
        pose proof (tree_no_root _ _ _ Hok) as Hnr. unfold g in Hown. congruence. }
      destruct (expandLoop_spec g level bound Hok fuel first (State.expandedModules st))
        as (E' & Hloop & Hsub & _ & Hself & Hanc).
      { intros Hm%(tree_bound _ _ _ Hok). lia. }
      { lia. }
      destruct (updateGraph_visible (withExpanded E' st) level bound fuel)
        as (st' & out & Hrun & _ & Hexpanded & _ & Hvis); [done|done|done|].
      exists st', first. unfold focusModulePath, expandModulePath.
      rewrite (proj2 (truthy_true first) Hfne).
      rewrite bool_decide_eq_false_2 by done. cbn [negb orb]. fold g. rewrite Hloop.
      cbn [mbind option_bind]. rewrite Hrun.
      split; [done|]. split; [|split; [|split; [done|]]].
      * rewrite Hexpanded. by apply Hself.
      * intros Hmod Hrooted. apply Hvis. right. split; [done|]. split; [|done].
        intros k _ Hk. by apply Hanc.
      * intros obj' m' Hobj' Hsig' Hin'.
        assert (Hm' : m' ∈ first :: rest) by (apply Hfound; eauto).
        apply StronglySorted_inv in Hsorted as [_ Hall].
        apply elem_of_cons in Hm' as [->|Hm']; [reflexivity|].
        rewrite Forall_forall in Hall. by apply Hall.
Qed.

Lemma focusObjectBySignature_reveals_witness :
  nodeVisible demoShown "pkg.a.x" = false
  ∧ ∃ st',
      focusObjectBySignature (buildObjectIndex codeUnitCompare (State.graph demoShown))
        demoShown 9 "Service|X|" = Some st'
      ∧ nodeVisible st' "pkg.a.x" = true.
Proof.
  split; [vm_compute; reflexivity|].
  set (obj := Obj.mk "obj:1" "Service" "X" EmptyString "pkg.a.x" ["ctor:x"] ["ctor:b"]
                     None None).
  assert (Hgraph : State.graph demoShown = demoGraph) by exact demoState_graph.
  assert (Hobj : obj ∈ (objects (State.graph demoShown)).*2).
  { apply list_elem_of_fmap. exists ("obj:1", obj). split; [reflexivity|].
    rewrite Hgraph. apply list_elem_of_here. }
  destruct (focusObjectBySignature_reveals codeUnitCompare demoShown String.length 8 9
              "Service|X|" demoShown_ok demoShown_built (le_n 9))
    as [_ Hfocus].
  destruct (Hfocus obj Hobj) as (st' & m & Hrun & _ & Hvis & Hfrom & _).
  - reflexivity.
  - unfold resolvable. vm_compute. discriminate.
  - exists st'. split; [exact Hrun|].
    assert (Hm : m = "pkg.a.x").
    { clear Hvis Hrun Hfocus Hobj.
      destruct Hfrom as (obj' & Hobj' & Hsig' & Hin). rewrite Hgraph in Hobj', Hin.
      apply list_elem_of_fmap in Hobj' as ([k o] & -> & Hk).
      cbn [snd] in Hsig', Hin. unfold objects, demoGraph in Hk.
      cbn [objectsTable default from_option id] in Hk.
      apply elem_of_cons in Hk as [[= -> ->]|Hk].
      { revert Hin. vm_compute. intros Hin%list_elem_of_singleton. exact Hin. }
      unfold hasSignature in Hsig'.
      apply elem_of_cons in Hk as [[= -> ->]|Hk]; [discriminate Hsig'|].
      apply elem_of_cons in Hk as [[= -> ->]|Hk]; [discriminate Hsig'|].
      by apply elem_of_nil in Hk. }
    subst m.
    assert (Hmod : is_Some (modules (State.graph demoState) !! "pkg.a.x"))
      by (apply (bool_decide_unpack _); vm_compute; exact I).
    apply Hvis; [exact Hmod|exact (demoState_rooted _ Hmod)].
Defined.

(** ** Subtrees and dependent modules *)

Lemma collectModuleSubtree_chain (g : Graph) (level : string → nat) (bound fuel : nat)
    (p : string) :
  TreeOk g level bound → is_Some (modules g !! p) → bound ≤ fuel →
  ∃ sub, collectModuleSubtree g fuel p = Some sub
         ∧ ∀ q, q ∈ sub ↔ ∃ k, chain g k p q.
Proof.
  intros Hok Hp Hfuel.
  assert (Hne : truthy p = true).
  { apply truthy_true. intros ->. rewrite (tree_no_empty _ _ _ Hok) in Hp.
    by destruct Hp. }
  unfold collectModuleSubtree. rewrite Hne. cbn [negb].
  destruct (walkSubtree_total g level bound Hok fuel p ∅ Hp) as [sub Hwalk]; [lia|].
  exists sub. split; [done|].
  destruct (walkSubtree_shown g sub fuel p ∅ sub Hwalk) as (D & HD & HpD & Hshown).
  assert (Hsub : sub = D) by set_solver. subst D. clear HD.
  specialize (Hshown ltac:(done)).
  assert (Hin : ∀ q, q ∈ sub ↔ q ∈ shownBelow g sub fuel p).
  { intros q. rewrite Hshown at 1. by rewrite elem_of_list_to_set. }
  intros q. split.
  - intros Hq%Hin. by apply shownBelow_chain in Hq.
  - intros [k Hchain]. revert q Hchain. induction k as [|k IH]; intros q Hchain.
    + inversion Hchain. by subst.
    + inversion Hchain as [|k' p' q' c Hprev Hc]; subst.
      apply Hin. apply (shownBelow_closed g sub level bound Hok fuel p q' q); try done.
      * apply (tree_bound _ _ _ Hok) in Hp. lia.
      * apply Hin. by apply IH.
      * by apply IH.
Qed.

(** X18.  [collectModuleSubtree] of the empty path is empty; of a module
    of a valid tree it is the set of the modules reached from it through
    the lists of children, the module itself included, all of them
    modules. *)
Theorem collectModuleSubtree_spec (g : Graph) (level : string → nat) (bound fuel : nat)
    (p : string) :
  collectModuleSubtree g fuel EmptyString = Some ∅
  ∧ (TreeOk g level bound → is_Some (modules g !! p) → bound ≤ fuel →
     ∃ sub, collectModuleSubtree g fuel p = Some sub
            ∧ p ∈ sub
            ∧ (∀ q, q ∈ sub ↔ ∃ k, chain g k p q)
            ∧ (∀ q, q ∈ sub → is_Some (modules g !! q))
            ∧ (∀ q, q ∈ sub → q ≠ p → properAncestor g p q)).
Proof.
  split; [done|]. intros Hok Hp Hfuel.
  destruct (collectModuleSubtree_chain g level bound fuel p Hok Hp Hfuel)
    as (sub & Hrun & Hsub).
  exists sub. split; [done|]. split; [apply Hsub; exists 0; constructor|].
  split; [done|]. split.
  - intros q [k Hchain]%Hsub. by apply (chain_module g level bound Hok k p q).
  - intros q [k Hchain]%Hsub Hne. split; [done|]. exists k. split.
    + destruct k as [|k]; [|lia]. inversion Hchain. by subst.
    + by apply (chain_parent g level bound Hok).
Qed.

Lemma collectModuleSubtree_spec_witness :
  ∃ sub, collectModuleSubtree demoGraph 8 "pkg.a" = Some sub
         ∧ "pkg.a.x" ∈ sub ∧ "pkg.b" ∉ sub.
Proof.
  destruct (collectModuleSubtree_spec demoGraph String.length 8 8 "pkg.a") as [_ Hsub].
  destruct (Hsub demoGraph_ok) as (sub & Hrun & _ & Hchain & _ & Hanc);
    [apply (bool_decide_unpack _); vm_compute; exact I|apply le_n|].
  exists sub. split; [exact Hrun|]. split.
  - apply Hchain. exists 1. apply (chain_step demoGraph 0 "pkg.a" "pkg.a" "pkg.a.x").
    + constructor.
    + apply (bool_decide_unpack _). vm_compute. exact I.
  - intros Hin. destruct (Hanc "pkg.b" Hin) as [_ (k & Hk & Hiter)]; [discriminate|].
    destruct k as [|[|k]]; [lia|discriminate Hiter|].
    assert (Hnot : ¬ is_Some (modules demoGraph
                               !! Nat.iter (S (S k)) (parentOf demoGraph) "pkg.b")).
    { rewrite !iter_parent_succ. apply (iter_nonmodule _ _ _ demoGraph_ok).
      apply (bool_decide_unpack _). vm_compute. exact I. }
    apply Hnot. rewrite Hiter. apply (bool_decide_unpack _). vm_compute. exact I.
Defined.


Lemma elem_of_consumers (g : Graph) (sub : gset string) (l : list string)
    (acc : gset string) (m : string) :
  m ∈ foldl (λ (dependents : gset string) consumerId,
               let consumerModule := moduleForNodeId g consumerId in
               if negb (truthy consumerModule)
                  || bool_decide (consumerModule = ROOT_KEY) then dependents
               else if bool_decide (consumerModule ∈ sub) then dependents
               else if isModule g consumerModule
               then dependents ∪ {[consumerModule]}
               else dependents) acc l
  ↔ m ∈ acc
    ∨ (∃ consumerId, consumerId ∈ l ∧ moduleForNodeId g consumerId = m)
      ∧ m ≠ EmptyString ∧ m ≠ ROOT_KEY ∧ (m ∉ sub) ∧ isModule g m = true.
Proof.
  revert acc. induction l as [|consumerId l IH]; intros acc; cbn [foldl].
  { split; [by left|]. intros [?|[(? & ?%elem_of_nil & _) _]]; done. }
  rewrite IH. clear IH. cbv zeta.
  set (cm := moduleForNodeId g consumerId).
  assert (Hhead : (m ∈ (if negb (truthy cm) || bool_decide (cm = ROOT_KEY) then acc
                        else if bool_decide (cm ∈ sub) then acc
                        else if isModule g cm then acc ∪ {[cm]} else acc))
                  ↔ m ∈ acc ∨ (cm = m ∧ m ≠ EmptyString ∧ m ≠ ROOT_KEY ∧ (m ∉ sub)
                               ∧ isModule g m = true)).
  { destruct (negb (truthy cm) || bool_decide (cm = ROOT_KEY)) eqn:Hskip.
    { split; [by left|]. intros [?|(<- & Hne & Hroot & _)]; [done|].
      apply orb_true_iff in Hskip as [Hskip|Hskip].
      - by apply negb_true_iff, truthy_false in Hskip.
      - by apply bool_decide_eq_true in Hskip. }
    apply orb_false_iff in Hskip as [Hne Hroot].
    apply negb_false_iff, truthy_true in Hne. apply bool_decide_eq_false in Hroot.
    case_bool_decide as Hsub.
    { split; [by left|]. by intros [?|(<- & _ & _ & ? & _)]. }
    destruct (isModule g cm) eqn:Hmod.
    - rewrite elem_of_union, elem_of_singleton.
      split; [intros [?| ->]; [by left|by right]|]. intros [?|(<- & _)]; [by left|by right].
    - split; [by left|]. intros [?|(<- & _ & _ & _ & ?)]; [done|congruence]. }
  rewrite Hhead. clear Hhead. split.
  - intros [[?|(Hcm & Hrest)]|[(c & Hc & Hm) Hrest]]; [by left|right..].
    + split; [|done]. exists consumerId. split; [by left|done].
    + split; [|done]. exists c. split; [by right|done].
  - intros [?|[(c & [->|Hc]%elem_of_cons & Hm) Hrest]].
    + left. by left.
    + left. right. by split.
    + right. split; [|done]. by exists c.
Qed.

Lemma elem_of_dependents (g : Graph) (sub : gset string) (objs : list Obj.t)
    (acc : gset string) (m : string) :
  m ∈ foldl (λ (dependents : gset string) obj,
               if bool_decide (Obj.modulePath obj ∉ sub) then dependents
               else if bool_decide (length (Obj.providedBy obj) = 0) then dependents
               else
                 foldl (λ (dependents : gset string) consumerId,
                          let consumerModule := moduleForNodeId g consumerId in
                          if negb (truthy consumerModule)
                             || bool_decide (consumerModule = ROOT_KEY) then dependents
                          else if bool_decide (consumerModule ∈ sub) then dependents
                          else if isModule g consumerModule
                          then dependents ∪ {[consumerModule]}
                          else dependents)
                       dependents (Obj.consumedBy obj))
            acc objs
  ↔ m ∈ acc
    ∨ (∃ obj consumerId,
         obj ∈ objs ∧ Obj.modulePath obj ∈ sub ∧ Obj.providedBy obj ≠ []
         ∧ consumerId ∈ Obj.consumedBy obj ∧ moduleForNodeId g consumerId = m)
      ∧ m ≠ EmptyString ∧ m ≠ ROOT_KEY ∧ (m ∉ sub) ∧ isModule g m = true.
Proof.
  revert acc. induction objs as [|obj objs IH]; intros acc; cbn [foldl].
  { split; [by left|]. intros [?|[(? & ? & ?%elem_of_nil & _) _]]; done. }
  rewrite IH. clear IH.
  assert (Hhead :
    m ∈ (if bool_decide (Obj.modulePath obj ∉ sub) then acc
         else if bool_decide (length (Obj.providedBy obj) = 0) then acc
         else foldl (λ (dependents : gset string) consumerId,
                       let consumerModule := moduleForNodeId g consumerId in
                       if negb (truthy consumerModule)
                          || bool_decide (consumerModule = ROOT_KEY) then dependents
                       else if bool_decide (consumerModule ∈ sub) then dependents
                       else if isModule g consumerModule
                       then dependents ∪ {[consumerModule]}
                       else dependents) acc (Obj.consumedBy obj))
    ↔ m ∈ acc
      ∨ (Obj.modulePath obj ∈ sub ∧ Obj.providedBy obj ≠ []
         ∧ ∃ consumerId, consumerId ∈ Obj.consumedBy obj
                         ∧ moduleForNodeId g consumerId = m)
        ∧ m ≠ EmptyString ∧ m ≠ ROOT_KEY ∧ (m ∉ sub) ∧ isModule g m = true).
  { case_bool_decide as Hin.
    { split; [by left|]. by intros [?|[(? & _) _]]. }
    case_bool_decide as Hlen.
    { split; [by left|]. intros [?|[(_ & Hne & _) _]]; [done|].
      by destruct (Obj.providedBy obj). }
    rewrite elem_of_consumers. split.
    - intros [?|[Hc Hrest]]; [by left|right]. split; [|done]. split; [done|].
      split; [|done]. intros Hnil. by rewrite Hnil in Hlen.
    - intros [?|[(_ & _ & Hc) Hrest]]; [by left|right]. by split. }
  rewrite Hhead. clear Hhead. split.
  - intros [[?|[(Hmp & Hpb & c & Hc & Hm) Hrest]]|[(o & c & Ho & Hx) Hrest]];
      [by left|right..].
    + split; [|done]. exists obj, c. split; [by left|done].
    + split; [|done]. exists o, c. split; [by right|done].
  - intros [?|[(o & c & [->|Ho]%elem_of_cons & Hmp & Hpb & Hc & Hm) Hrest]].
    + left. by left.
    + left. right. split; [|done]. split; [done|]. split; [done|]. by exists c.
    + right. split; [|done]. by exists o, c.
Qed.

(** X19.  The dependent modules of a module of a valid tree are listed
    sorted and without duplicates.  A path is listed exactly when it
    passes the module test of the program (it is a key of the module
    map or, the test being a plain read, a name that plain objects
    inherit), lies outside the subtree of the selected module, and is
    the module of a consumer of an object that lives in the subtree and
    has a provider; so neither the selected module nor a module below it
    is ever listed. *)
Theorem collectDependentModules_spec (g : Graph) (level : string → nat) (bound fuel : nat)
    (p : string) :
  TreeOk g level bound → is_Some (modules g !! p) → bound ≤ fuel →
  ∃ dependents,
    collectDependentModules g fuel p = Some dependents
    ∧ StronglySorted String.le dependents ∧ NoDup dependents
    ∧ (∀ m, m ∈ dependents ↔
         (is_Some (modules g !! m) ∨ inherited m = true) ∧ ¬ (∃ k, chain g k p m)
         ∧ ∃ obj consumerId,
             obj ∈ (objects g).*2 ∧ (∃ k, chain g k p (Obj.modulePath obj))
             ∧ Obj.providedBy obj ≠ []
             ∧ consumerId ∈ Obj.consumedBy obj ∧ moduleForNodeId g consumerId = m)
    ∧ p ∉ dependents.
Proof.
  intros Hok Hp Hfuel.
  destruct (collectModuleSubtree_chain g level bound fuel p Hok Hp Hfuel)
    as (sub & Hrun & Hsub).
  unfold collectDependentModules. rewrite Hrun. cbn [mbind option_bind].
  eexists. split; [done|].
  split; [apply sortedElements_sorted|]. split; [apply sortedElements_sorted|].
  assert (Hiff : ∀ m, m ∈ sortedElements _ ↔ _) by
    (intros m; rewrite elem_of_sortedElements; apply (elem_of_dependents g sub)).
  split.
  - intros m. rewrite Hiff, <- isModule_spec. clear Hiff. split.
    + intros [?%elem_of_empty|[(obj & c & Hobj & Hmp & Hpb & Hc & Hm) (_ & _ & Hout & Hmod)]];
        [done|].
      split; [done|]. split; [by rewrite <- Hsub|].
      exists obj, c. split; [done|]. split; [by apply Hsub|done].
    + intros (Hmod & Hout & obj & c & Hobj & Hmp & Hpb & Hc & Hm). right.
      split; [exists obj, c; split; [done|]; split; [by apply Hsub|done]|].
      split.
      { intros ->. apply isModule_spec in Hmod as [Hmod|?]; [|done].
        rewrite (tree_no_empty _ _ _ Hok) in Hmod. by destruct Hmod. }
      split.
      { intros ->. apply isModule_spec in Hmod as [Hmod|?]; [|done].
        rewrite (tree_no_root _ _ _ Hok) in Hmod. by destruct Hmod. }
      split; [by rewrite Hsub|done].
  - rewrite Hiff. intros [?%elem_of_empty|[_ (_ & _ & Hout & _)]]; [done|].
    apply Hout, Hsub. exists 0. constructor.
Qed.

Lemma collectDependentModules_spec_witness :
  ∃ dependents,
    collectDependentModules demoGraph 8 "pkg.a" = Some dependents
    ∧ dependents = ["pkg.b"] ∧ "pkg.a" ∉ dependents.
Proof.
  destruct (collectDependentModules_spec demoGraph String.length 8 8 "pkg.a" demoGraph_ok)
    as (dependents & Hrun & _ & _ & _ & Hself);
    [apply (bool_decide_unpack _); vm_compute; exact I|apply le_n|].
  exists dependents. split; [exact Hrun|]. split; [|exact Hself].
  assert (Hsome : collectDependentModules demoGraph 8 "pkg.a" = Some ["pkg.b"])
    by (vm_compute; reflexivity).
  rewrite Hrun in Hsome. by injection Hsome.
Defined.

(** ** The edges drawn *)

Lemma aggregated_from_pair (st : State.t) (fuel : nat)
    (consumers : list (string * list (string * gset string)))
    (dependents : list (string * list string)) (f t : string) :
  hasDep (Visible.deps (aggregated st fuel consumers dependents)) f t →
  ∃ c p, visiblePair st fuel c p = Some (f, t).
Proof.
  unfold aggregated. cbn [Visible.deps].
  pose proof (main_pass st fuel consumers) as (Hmain & _).
  case_bool_decide.
  - intros [Hdep|(m & d & _ & Hpair)]%foldl_addPair; [|by exists m, d].
    apply Hmain in Hdep as (c & p & _ & _ & Hpair). by exists c, p.
  - intros Hdep. apply Hmain in Hdep as (c & p & _ & _ & Hpair). by exists c, p.
Qed.

Lemma visiblePair_visible (st : State.t) (fuel : nat) (c p f t : string) :
  (∀ q, is_Some (walkVisible st fuel q)) →
  visiblePair st fuel c p = Some (f, t) →
  f ≠ ROOT_KEY ∧ t ≠ ROOT_KEY ∧ nodeVisible st f = true ∧ nodeVisible st t = true.
Proof.
  intros Hwalk. unfold visiblePair.
  destruct (skipEndpoint (standIn st fuel c)) eqn:Hc; [done|].
  destruct (skipEndpoint (standIn st fuel p)) eqn:Hp; [done|].
  simpl. case_bool_decide; [done|]. intros [= <- <-].
  unfold skipEndpoint in Hc, Hp.
  apply orb_false_iff in Hc as [_ Hc%bool_decide_eq_false].
  apply orb_false_iff in Hp as [_ Hp%bool_decide_eq_false].
  split; [done|]. split; [done|].
  destruct (standIn_cases st fuel c (Hwalk c)) as [?|[_ ?]]; [done|].
  destruct (standIn_cases st fuel p (Hwalk p)) as [?|[_ ?]]; [done|].
  done.
Qed.

Lemma depTubes_all (st : State.t) (out : Visible.t) :
  (∀ f t, hasDep (Visible.deps out) f t →
     f ≠ ROOT_KEY ∧ t ≠ ROOT_KEY ∧ isModule (State.graph st) f = true
     ∧ isModule (State.graph st) t = true
     ∧ nodeVisible st f = true ∧ nodeVisible st t = true) →
  depTubes st out
  = (λ '(f, t), Tube.mk f t (default [] (Visible.objects out !! edgeKey f t))
                        (curveBias (edgeKey f t))) <$> visibleEdges out.
Proof.
  intros Hall. unfold depTubes, visibleEdges. rewrite fmap_bind_list.
  apply bind_ext_in. intros [f ts] Hin. apply elem_of_map_to_list in Hin.
  assert (Hdep : ∀ t, t ∈ ts → hasDep (Visible.deps out) f t).
  { intros t Ht. unfold hasDep. by rewrite Hin. }
  destruct (elements ts) as [|t0 rest] eqn:Hts.
  { simpl. by destruct (_ || _). }
  assert (Ht0 : t0 ∈ ts) by (apply elem_of_elements; rewrite Hts; by left).
  destruct (Hall f t0 (Hdep t0 Ht0)) as (Hf & _ & Hfm & _ & Hfv & _).
  rewrite bool_decide_eq_false_2 by done. rewrite Hfm. cbn [negb orb].
  rewrite <- Hts. clear t0 rest Hts Ht0.
  rewrite <- list_fmap_compose.
  assert (Hgen : ∀ l, (∀ t, t ∈ l → t ∈ ts) →
    l ≫= (λ dep,
            if bool_decide (dep = ROOT_KEY) || negb (isModule (State.graph st) dep) then []
            else if negb (nodeVisible st f) || negb (nodeVisible st dep) then []
            else [Tube.mk f dep (default [] (Visible.objects out !! edgeKey f dep))
                          (curveBias (edgeKey f dep))])
    = ((λ '(f, t), Tube.mk f t (default [] (Visible.objects out !! edgeKey f t))
                           (curveBias (edgeKey f t))) ∘ (λ t, (f, t))) <$> l).
  { induction l as [|t l IH]; intros Hl; [done|].
    rewrite bind_cons, fmap_cons.
    rewrite IH by (intros t' Ht'; apply Hl; by right).
    assert (Hts : t ∈ ts) by (apply Hl; by left).
    destruct (Hall f t (Hdep t Hts)) as (_ & Ht & _ & Htm & _ & Htv).
    rewrite bool_decide_eq_false_2 by done. rewrite Htm, Hfv, Htv. cbn [negb orb].
    reflexivity. }
  apply Hgen. intros t. by rewrite elem_of_elements.
Qed.

(** X20.  After [updateGraph] on a valid tree the checks of
    [rebuildEdges] drop nothing: every tree edge of the layout gets a
    tube, and the dependency tubes are, one for one, the edges that
    [buildVisibleModuleDeps] returned: no tube is drawn twice, and a
    tube is drawn exactly when it joins the two ends of such an edge
    and carries the label list stored under the key of the edge (empty
    when there is none) and the bend of that key.  Nothing is said
    about the order in which the tubes are made. *)
Theorem rebuildEdges_draws_all (st : State.t) (level : string → nat) (bound fuel : nat) :
  TreeOk (State.graph st) level bound → nodesBuilt st → bound < fuel →
  ∃ st' out,
    updateGraph st fuel = Some (st', out)
    ∧ rebuildEdges st' fuel = Some (treeTubes st', depTubes st' out)
    ∧ treeTubes st' = State.edges st'
    ∧ NoDup (depTubes st' out)
    ∧ ∀ tube, tube ∈ depTubes st' out ↔
        ∃ f t, hasDep (Visible.deps out) f t
          ∧ tube = Tube.mk f t (default [] (Visible.objects out !! edgeKey f t))
                           (curveBias (edgeKey f t)).
Proof.
  intros Hok Hbuilt Hfuel. pose proof Hbuilt as [Hnodes Horder].
  destruct (layoutTree_total st Horder level bound Hok fuel) as [layout Hlayout]; [lia|].
  set (st' := applyLayout layout st).
  assert (Hwalk : ∀ q, is_Some (walkVisible st' fuel q))
    by (intros q; by apply (walkVisible_total st' level bound Hok)).
  pose proof (aggregate_aggregated st' fuel Hwalk (consumerEntries st') (dependentEntries st'))
    as Hagg.
  set (out := aggregated st' fuel (consumerEntries st') (dependentEntries st')) in Hagg.
  assert (Hout : buildVisibleModuleDeps st' fuel = Some out) by exact Hagg.
  exists st', out. split.
  { unfold updateGraph. rewrite Hlayout. cbn [mbind option_bind]. fold st'.
    by rewrite Hout. }
  split; [unfold rebuildEdges; by rewrite Hout|].
  assert (Hshown : ∀ m, nodeVisible st' m = true ↔
            is_Some (State.nodes st !! m) ∧ is_Some (Layout.positions layout !! m))
    by (intros m; apply nodeVisible_applyLayout).
  split.
  - unfold treeTubes. change (State.edges st') with (Layout.edges layout).
    assert (Hall : ∀ e, e ∈ Layout.edges layout →
              nodeVisible st' e.1 = true ∧ nodeVisible st' e.2 = true).
    { intros [a b] Hin. simpl.
      assert (Hb : (a, b) ∈ Layout.edges layout) by done.
      rewrite (layoutTree_edges st fuel layout Hlayout) in Hin.
      apply list_elem_of_bind in Hin as (r & Hin & Hr).
      pose proof Hr as [Hrm Hroot]%(layoutRoots_spec st Horder).
      assert (Hpos : ∀ m, m ∈ shownBelow (State.graph st) (State.expandedModules st) fuel r →
                is_Some (modules (State.graph st) !! m) ∧ nodeVisible st' m = true).
      { intros m Hm.
        assert (Hkey : m ∈ (rootPlacements st fuel).*1).
        { rewrite rootPlacements_keys. apply list_elem_of_bind. by exists r. }
        pose proof (rootPlacements_module st Horder level bound Hok fuel m Hkey) as Hmod.
        split; [done|]. apply Hshown. split; [apply Hnodes; by right|].
        apply list_elem_of_fmap in Hkey as ([m' pm] & -> & Hin').
        exists pm. by apply (layout_lookup st Horder level bound Hok fuel layout). }
      assert (Hroot' : nodeVisible st' ROOT_KEY = true).
      { apply Hshown. split; [apply Hnodes; by left|].
        apply (layout_shown st level bound Hok Horder fuel layout); [lia|done|by left]. }
      assert (Hr0 : r ∈ shownBelow (State.graph st) (State.expandedModules st) fuel r).
      { apply (open_shown _ _ level bound Hok); [done| |constructor].
        apply (tree_bound _ _ _ Hok) in Hrm. lia. }
      apply elem_of_cons in Hin as [[= -> ->]|Hin].
      - split; [done|]. by apply Hpos.
      - apply elem_of_drawn in Hin as (Ha & HaE & Hc). split; [by apply Hpos|].
        apply Hpos.
        apply (shownBelow_closed _ _ level bound Hok fuel r a b); try done.
        apply (tree_bound _ _ _ Hok) in Hrm. lia. }
    revert Hall. generalize (Layout.edges layout). intros l Hall.
    induction l as [|e l IH]; [done|].
    rewrite filter_cons_True by (apply Hall; by left).
    f_equal. apply IH. intros e' He'. apply Hall. by right.
  - assert (Heq : depTubes st' out
      = (λ '(f, t), Tube.mk f t (default [] (Visible.objects out !! edgeKey f t))
                            (curveBias (edgeKey f t))) <$> visibleEdges out).
    { apply depTubes_all. intros f t Hdep.
      apply aggregated_from_pair in Hdep as (c & p & Hpair).
      apply (visiblePair_visible st' fuel c p f t Hwalk) in Hpair
        as (Hf & Ht & Hfv & Htv).
      assert (Hmod : ∀ m, m ≠ ROOT_KEY → nodeVisible st' m = true →
                isModule (State.graph st') m = true).
      { intros m Hm [Hnode _]%Hshown. apply Hnodes in Hnode as [?|?]; [done|].
        by apply isModule_own. }
      repeat split; try done; by apply Hmod. }
    rewrite Heq. split.
    + apply NoDup_fmap_2; [|apply NoDup_visibleEdges].
      intros [f t] [f' t'] [= -> ->]. reflexivity.
    + intros tube. rewrite list_elem_of_fmap. split.
      * intros ([f t] & -> & Hin%visibleEdges_spec). by exists f, t.
      * intros (f & t & Hdep%visibleEdges_spec & ->). by exists (f, t).
Qed.

Lemma rebuildEdges_draws_all_witness :
  ∃ st' out,
    updateGraph demoState 9 = Some (st', out)
    ∧ treeTubes st' = State.edges st'
    ∧ length (depTubes st' out) = 2
    ∧ Tube.mk "pkg.a" "pkg.b" ["Config"] (curveBias (edgeKey "pkg.a" "pkg.b"))
      ∈ depTubes st' out.
Proof.
  destruct (rebuildEdges_draws_all demoState String.length 8 9 demoState_ok
              demoState_built (le_n 9))
    as (st' & out & Hrun & _ & Htree & Hnodup & Hdeps).
  exists st', out. split; [exact Hrun|]. split; [exact Htree|].
  assert (Hsome : (λ r, (length (depTubes r.1 r.2), Visible.objects r.2 !! edgeKey "pkg.a" "pkg.b",
                         bool_decide (("pkg.a", "pkg.b") ∈ visibleEdges r.2)))
                    <$> updateGraph demoState 9
                  = Some (2, Some ["Config"], true))
    by (vm_compute; reflexivity).
  rewrite Hrun in Hsome. cbn [fmap option_fmap option_map fst snd] in Hsome.
  injection Hsome as Hlen Hobj Hdep. split; [exact Hlen|].
  apply Hdeps. exists "pkg.a", "pkg.b". split.
  - apply visibleEdges_spec. by apply bool_decide_eq_true in Hdep.
  - by rewrite Hobj.
Defined.

(** ** Escaping for HTML *)

Lemma replaceAll_app (c : Ascii.ascii) (rep a b : string) :
  replaceAll c rep (a +:+ b) = replaceAll c rep a +:+ replaceAll c rep b.
Proof.
  induction a as [|x a IH]; [done|].
  change (String x a +:+ b) with (String x (a +:+ b)). cbn [replaceAll].
  destruct (Ascii.eqb x c).
  - by rewrite IH, string_app_assoc.
  - by rewrite IH.
Qed.

Lemma escapeHtml_cons (a : Ascii.ascii) (s : string) :
  escapeHtml (String a s) = escapeChar a +:+ escapeHtml s.
Proof.
  unfold escapeHtml. rewrite !orElse_empty.
  change (String a s) with (String a EmptyString +:+ s).
  rewrite !replaceAll_app. f_equal.
  unfold escapeChar. cbn [replaceAll].
  destruct (Ascii.eqb_spec a "&"%char) as [->|H1]; [reflexivity|].
  cbn [replaceAll].
  destruct (Ascii.eqb_spec a "<"%char) as [->|H2]; [reflexivity|].
  cbn [replaceAll].
  destruct (Ascii.eqb_spec a ">"%char) as [->|H3]; [reflexivity|].
  cbn [replaceAll].
  destruct (Ascii.eqb_spec a dquote) as [->|H4]; [reflexivity|].
  cbn [replaceAll].
  destruct (Ascii.eqb_spec a squote) as [->|H5]; [reflexivity|].
  reflexivity.
Qed.

Lemma escapeChar_cases (a : Ascii.ascii) :
  (a = "&"%char ∧ escapeChar a = "&amp;")
  ∨ (a = "<"%char ∧ escapeChar a = "&lt;")
  ∨ (a = ">"%char ∧ escapeChar a = "&gt;")
  ∨ (a = dquote ∧ escapeChar a = "&quot;")
  ∨ (a = squote ∧ escapeChar a = "&#39;")
  ∨ (a ≠ "&"%char ∧ htmlSpecial a = false ∧ escapeChar a = String a EmptyString).
Proof.
  unfold escapeChar, htmlSpecial.
  destruct (Ascii.eqb_spec a "&"%char) as [->|H1]; [by left|].
  destruct (Ascii.eqb_spec a "<"%char) as [->|H2]; [right; by left|].
  destruct (Ascii.eqb_spec a ">"%char) as [->|H3]; [do 2 right; by left|].
  destruct (Ascii.eqb_spec a dquote) as [->|H4]; [do 3 right; by left|].
  destruct (Ascii.eqb_spec a squote) as [->|H5]; [do 4 right; by left|].
  do 5 right. done.
Qed.

Lemma escapeChar_inj (a b : Ascii.ascii) (x y : string) :
  escapeChar a +:+ x = escapeChar b +:+ y → a = b ∧ x = y.
Proof.
  destruct (escapeChar_cases a) as [[-> ->]|[[-> ->]|[[-> ->]|[[-> ->]|[[-> ->]|(Ha & _ & ->)]]]]];
  destruct (escapeChar_cases b) as [[-> ->]|[[-> ->]|[[-> ->]|[[-> ->]|[[-> ->]|(Hb & _ & ->)]]]]];
  intros Heq; try (by injection Heq); try discriminate Heq;
  injection Heq; intros; subst; done.
Qed.

(** X21.  [escapeHtml] works character by character: the five passes
    together turn each of the five special characters into its entity
    and leave the others, so the ampersands of the entities are not
    escaped again.  The result holds no angle bracket and no quote, and
    different texts have different results. *)
Theorem escapeHtml_spec (s t : string) :
  escapeHtml EmptyString = EmptyString
  ∧ (∀ a, escapeHtml (String a s) = escapeChar a +:+ escapeHtml s)
  ∧ (∀ a, a ∈ String.list_ascii_of_string (escapeHtml s) → htmlSpecial a = false)
  ∧ (escapeHtml s = escapeHtml t → s = t).
Proof.
  split; [done|]. split; [intros a; apply escapeHtml_cons|]. split.
  - induction s as [|a s IH]; [by intros a ?%elem_of_nil|].
    intros c. rewrite escapeHtml_cons, list_ascii_of_string_app, elem_of_app.
    intros [Hc|Hc]; [|by apply IH].
    destruct (escapeChar_cases a)
      as [[-> Hx]|[[-> Hx]|[[-> Hx]|[[-> Hx]|[[-> Hx]|(Ha & Hs & Hx)]]]]];
      rewrite Hx in Hc; cbn [String.list_ascii_of_string] in Hc;
      repeat (apply elem_of_cons in Hc as [->|Hc]; [done|]);
      by apply elem_of_nil in Hc.
  - revert t. induction s as [|a s IH]; intros [|b t].
    + done.
    + rewrite escapeHtml_cons.
      destruct (escapeChar_cases b)
        as [[-> ->]|[[-> ->]|[[-> ->]|[[-> ->]|[[-> ->]|(_ & _ & ->)]]]]]; discriminate.
    + rewrite escapeHtml_cons.
      destruct (escapeChar_cases a)
        as [[-> ->]|[[-> ->]|[[-> ->]|[[-> ->]|[[-> ->]|(_ & _ & ->)]]]]]; discriminate.
    + rewrite !escapeHtml_cons. intros [-> Heq]%escapeChar_inj. f_equal. by apply IH.
Qed.

Lemma escapeHtml_spec_witness :
  escapeHtml "a<b & c" = "a&lt;b &amp; c"
  ∧ ∀ a, a ∈ String.list_ascii_of_string (escapeHtml "<script>") → a ≠ "<"%char.
Proof.
  split; [reflexivity|].
  destruct (escapeHtml_spec "<script>" EmptyString) as (_ & _ & Hplain & _).
  intros a Ha%Hplain ->. discriminate Ha.
Defined.

(** ** The nearest shown ancestor *)

Lemma walkVisible_nearest (st : State.t) (level : string → nat) (bound : nat) :
  TreeOk (State.graph st) level bound →
  (∀ r, is_Some (modules (State.graph st) !! r) → isRootModule (State.graph st) r = true →
        nodeVisible st r = true) →
  ∀ n p, is_Some (modules (State.graph st) !! p) → rooted (State.graph st) p →
    level p < n →
    ∃ k, walkVisible st n p = Some (Nat.iter k (parentOf (State.graph st)) p)
         ∧ is_Some (modules (State.graph st) !! Nat.iter k (parentOf (State.graph st)) p)
         ∧ nodeVisible st (Nat.iter k (parentOf (State.graph st)) p) = true
         ∧ ∀ j, j < k → nodeVisible st (Nat.iter j (parentOf (State.graph st)) p) = false.
Proof.
  intros Hok Hroots. induction n as [|n IH]; intros p Hp Hrooted Hn; [lia|].
  cbn [walkVisible].
  assert (Hne : truthy p = true).
  { apply truthy_true. intros ->. rewrite (tree_no_empty _ _ _ Hok) in Hp.
    by destruct Hp. }
  rewrite Hne. cbn [negb].
  destruct (nodeVisible st p) eqn:Hvis.
  { exists 0. split; [done|]. split; [done|]. split; [done|]. intros j Hj. lia. }
  assert (Hnroot : isRootModule (State.graph st) p = false).
  { destruct (isRootModule (State.graph st) p) eqn:Hroot; [|done].
    rewrite (Hroots p Hp Hroot) in Hvis. done. }
  destruct (rooted_parent _ _ _ Hok p Hnroot Hrooted) as [Hpm Hprooted].
  apply isRootModule_false in Hnroot as [Hpar _].
  rewrite (proj2 (truthy_true _) Hpar). cbn [negb orb].
  pose proof (tree_parent _ _ _ Hok p Hp Hpm) as Hchild.
  pose proof (tree_level _ _ _ Hok _ _ Hchild) as Hlv.
  rewrite bool_decide_eq_false_2 by (intros Heq; rewrite Heq in Hlv; lia).
  destruct (IH (parentOf (State.graph st) p) Hpm Hprooted)
    as (k & Hwalk & Hmod & Hshown & Hhidden); [lia|].
  exists (S k). rewrite iter_parent_succ. split; [done|]. split; [done|].
  split; [done|]. intros [|j] Hj; [done|].
  rewrite iter_parent_succ. apply Hhidden. lia.
Qed.

Lemma walkVisible_unrooted (st : State.t) (level : string → nat) (bound : nat) :
  TreeOk (State.graph st) level bound →
  (∀ m, nodeVisible st m = true → m = ROOT_KEY ∨ rooted (State.graph st) m) →
  ∀ n p, is_Some (modules (State.graph st) !! p) → ¬ rooted (State.graph st) p →
    level p + 2 ≤ n → walkVisible st n p = Some ROOT_KEY.
Proof.
  intros Hok Hvis. induction n as [|n IH]; intros p Hp Hnot Hn; [lia|].
  cbn [walkVisible].
  assert (Hne : truthy p = true).
  { apply truthy_true. intros ->. rewrite (tree_no_empty _ _ _ Hok) in Hp.
    by destruct Hp. }
  rewrite Hne. cbn [negb].
  assert (Hhid : nodeVisible st p = false).
  { destruct (nodeVisible st p) eqn:Hv; [|done].
    destruct (Hvis p Hv) as [->|?]; [|done].
    rewrite (tree_no_root _ _ _ Hok) in Hp. by destruct Hp. }
  rewrite Hhid.
  assert (Hnroot : isRootModule (State.graph st) p = false).
  { destruct (isRootModule (State.graph st) p) eqn:Hroot; [|done].
    destruct Hnot. by apply rooted_root. }
  apply isRootModule_false in Hnroot as [Hpar Hparent].
  rewrite (proj2 (truthy_true _) Hpar). cbn [negb orb].
  destruct (decide (is_Some (modules (State.graph st) !! parentOf (State.graph st) p)))
    as [Hpm|Hno].
  - pose proof (tree_parent _ _ _ Hok p Hp Hpm) as Hchild.
    pose proof (tree_level _ _ _ Hok _ _ Hchild) as Hlv.
    rewrite bool_decide_eq_false_2 by (intros Heq; rewrite Heq in Hlv; lia).
    apply IH; [done| |lia].
    intros (k & Hk & Hrk). apply Hnot. exists (S k). by rewrite iter_parent_succ.
  - destruct Hparent as [?|Hinh]; [done|].
    rewrite bool_decide_eq_false_2 by (intros Heq; apply Hno; by rewrite Heq).
    destruct n as [|n]; [lia|]. cbn [walkVisible].
    rewrite (proj2 (truthy_true _) Hpar). cbn [negb].
    assert (Hhid' : nodeVisible st (parentOf (State.graph st) p) = false).
    { destruct (nodeVisible st (parentOf (State.graph st) p)) eqn:Hv; [|done].
      destruct (Hvis _ Hv) as [Heq|Hr].
      - rewrite Heq in Hinh. vm_compute in Hinh. discriminate Hinh.
      - by apply (rooted_module _ _ _ Hok) in Hr. }
    rewrite Hhid'.
    assert (Hup : parentOf (State.graph st) (parentOf (State.graph st) p) = EmptyString).
    { unfold parentOf at 1. apply eq_None_not_Some in Hno. by rewrite Hno. }
    rewrite Hup. reflexivity.
Qed.

(** X22.  After [updateGraph] on a valid tree every module whose
    parent walk comes to a root of the layout resolves to its nearest
    shown ancestor: [resolveVisible] returns the first module on the
    parent walk from it, itself included, whose node is visible, and
    not the synthetic root.  A module whose parent walk comes to none
    (it ends at a module whose parent is a name that the module map
    answers with an inherited member) resolves to the synthetic
    root. *)
Theorem resolveVisible_nearest (st : State.t) (level : string → nat) (bound fuel : nat) :
  TreeOk (State.graph st) level bound → nodesBuilt st → bound < fuel →
  ∃ st' out,
    updateGraph st fuel = Some (st', out)
    ∧ (∀ p, is_Some (modules (State.graph st) !! p) → rooted (State.graph st) p →
        ∃ k, let r := Nat.iter k (parentOf (State.graph st)) p in
          (∀ cache, cacheOk st' cache →
             ∃ cache', resolveVisible st' fuel p cache = Some (r, cache'))
          ∧ is_Some (modules (State.graph st) !! r)
          ∧ r ≠ ROOT_KEY
          ∧ nodeVisible st' r = true
          ∧ ∀ j, j < k → nodeVisible st' (Nat.iter j (parentOf (State.graph st)) p) = false)
    ∧ (∀ p, is_Some (modules (State.graph st) !! p) → ¬ rooted (State.graph st) p →
        ∀ cache, cacheOk st' cache →
          ∃ cache', resolveVisible st' fuel p cache = Some (ROOT_KEY, cache')).
Proof.
  intros Hok Hbuilt Hfuel.
  destruct (updateGraph_visible st level bound fuel Hok Hbuilt Hfuel)
    as (st' & out & Hrun & Hgraph & _ & _ & Hvis).
  exists st', out. split; [done|].
  assert (Hok' : TreeOk (State.graph st') level bound) by (by rewrite Hgraph).
  assert (Hne : ∀ p, is_Some (modules (State.graph st) !! p) → truthy p = true).
  { intros p Hp. apply truthy_true. intros ->. rewrite (tree_no_empty _ _ _ Hok) in Hp.
    by destruct Hp. }
  assert (Hnr : ∀ p, is_Some (modules (State.graph st) !! p) → p ≠ ROOT_KEY).
  { intros p Hp ->. rewrite (tree_no_root _ _ _ Hok) in Hp. by destruct Hp. }
  split.
  - intros p Hp Hrooted.
    destruct (walkVisible_nearest st' level bound Hok') with (n := fuel) (p := p)
      as (k & Hwalk & Hmod & Hshown & Hhidden).
    { intros r Hr Hroot. rewrite Hgraph in Hr, Hroot. apply Hvis. right. split; [done|].
      split; [|by apply rooted_root].
      intros j Hj Hm. by apply (root_no_ancestor _ level bound Hok) in Hm. }
    { by rewrite Hgraph. }
    { by rewrite Hgraph. }
    { apply (tree_bound _ _ _ Hok) in Hp. lia. }
    rewrite Hgraph in Hwalk, Hmod, Hshown, Hhidden.
    exists k. cbv zeta. split; [|split; [done|split; [by apply Hnr|split; [done|done]]]].
    intros cache Hcache.
    destruct (resolveVisible_standIn st' fuel p cache Hcache) as (cache' & Hres & _).
    { rewrite Hwalk. by eexists. }
    exists cache'. rewrite Hres. f_equal. f_equal. unfold standIn. rewrite Hwalk.
    rewrite (Hne p Hp). cbn [negb orb].
    rewrite bool_decide_eq_false_2; [done|]. by apply Hnr.
  - intros p Hp Hnot cache Hcache.
    assert (Hwalk : walkVisible st' fuel p = Some ROOT_KEY).
    { apply (walkVisible_unrooted st' level bound Hok').
      - intros m [->|(_ & _ & Hr)]%Hvis; [by left|right; by rewrite Hgraph].
      - by rewrite Hgraph.
      - by rewrite Hgraph.
      - apply (tree_bound _ _ _ Hok) in Hp. lia. }
    destruct (resolveVisible_standIn st' fuel p cache Hcache) as (cache' & Hres & _).
    { rewrite Hwalk. by eexists. }
    exists cache'. rewrite Hres. f_equal. f_equal. unfold standIn. rewrite Hwalk.
    by destruct (negb (truthy p) || bool_decide (p = ROOT_KEY)).
Qed.

Lemma resolveVisible_nearest_witness :
  (∃ st' out,
     updateGraph demoState 9 = Some (st', out)
     ∧ ∃ cache', resolveVisible st' 9 "pkg.a.x" ∅ = Some ("pkg.a", cache'))
  ∧ ∃ st' out,
      updateGraph hangingState 9 = Some (st', out)
      ∧ ∃ cache', resolveVisible st' 9 "m" ∅ = Some (ROOT_KEY, cache').
Proof.
  split.
  - destruct (resolveVisible_nearest demoState String.length 8 9 demoState_ok
                demoState_built (le_n 9))
      as (st' & out & Hrun & Hnear & _).
    exists st', out. split; [exact Hrun|].
    destruct (Hnear "pkg.a.x") as (k & Hres & _ & _ & Hshown & Hhidden);
      [apply (bool_decide_unpack _); vm_compute; exact I
      |apply demoState_rooted; apply (bool_decide_unpack _); vm_compute; exact I|].
    assert (Hvis : ∀ m, nodeVisible st' m
                        = default false ((λ r, nodeVisible r.1 m) <$> updateGraph demoState 9))
      by (intros m; by rewrite Hrun).
    destruct k as [|[|k]].
    + exfalso. simpl in Hshown. rewrite Hvis in Hshown. vm_compute in Hshown.
      discriminate Hshown.
    + exact (Hres ∅ (cacheOk_empty st')).
    + exfalso. specialize (Hhidden 1 ltac:(lia)). simpl in Hhidden.
      change (parentOf (State.graph demoState) "pkg.a.x") with "pkg.a" in Hhidden.
      rewrite Hvis in Hhidden. vm_compute in Hhidden. discriminate Hhidden.
  - destruct (resolveVisible_nearest hangingState String.length 8 9 hangingState_ok
                hangingState_built (le_n 9))
      as (st' & out & Hrun & _ & Hfar).
    exists st', out. split; [exact Hrun|].
    apply (Hfar "m"); [|exact hanging_not_rooted|exact (cacheOk_empty st')].
    apply (bool_decide_unpack _). vm_compute. exact I.
Defined.

(** ** Signatures *)

Lemma bar_split (a a' r r' : string) :
  barFree a → barFree a' →
  a +:+ String "|" r = a' +:+ String "|" r' → a = a' ∧ r = r'.
Proof.
  unfold barFree. revert a'. induction a as [|c a IH]; intros [|c' a'] Ha Ha'.
  - by intros [= ->].
  - intros [= <- _]. destruct Ha'. simpl. by left.
  - intros [= -> _]. destruct Ha. simpl. by left.
  - intros [= -> Heq]. destruct (IH a') as [-> ->]; [| |done|done].
    + intros Hin. apply Ha. simpl. by right.
    + intros Hin. apply Ha'. simpl. by right.
Qed.

(** X23.  A signature tells the type, the name and the group apart as
    long as the type and the name hold no vertical bar: two such triples
    with the same signature are the same (an absent field counting as
    empty).  With a bar in a field two different triples can share a
    signature. *)
Theorem objectSignature_inj (type name group type' name' group' : string) :
  (barFree type → barFree name → barFree type' → barFree name' →
   objectSignature type name group = objectSignature type' name' group' →
   type = type' ∧ name = name' ∧ group = group')
  ∧ objectSignature "a|b" "c" EmptyString = objectSignature "a" "b|c" EmptyString.
Proof.
  split; [|reflexivity].
  unfold objectSignature. rewrite !orElse_empty.
  intros Ht Hn Ht' Hn' Heq.
  change ("|" +:+ name +:+ "|" +:+ group) with (String "|" (name +:+ "|" +:+ group)) in Heq.
  change ("|" +:+ name' +:+ "|" +:+ group')
    with (String "|" (name' +:+ "|" +:+ group')) in Heq.
  apply bar_split in Heq as [-> Heq]; [|done|done].
  change ("|" +:+ group) with (String "|" group) in Heq.
  change ("|" +:+ group') with (String "|" group') in Heq.
  apply bar_split in Heq as [-> ->]; done.
Qed.

Lemma objectSignature_inj_witness :
  barFree "Store" ∧ barFree "main"
  ∧ objectSignature "Store" "main" "g" = "Store|main|g"
  ∧ ("Store" = "Store" ∧ "main" = "main" ∧ "g" = "g").
Proof.
  assert (H1 : barFree "Store") by (apply (bool_decide_unpack _); vm_compute; exact I).
  assert (H2 : barFree "main") by (apply (bool_decide_unpack _); vm_compute; exact I).
  split; [exact H1|]. split; [exact H2|]. split; [reflexivity|].
  exact (proj1 (objectSignature_inj "Store" "main" "g" "Store" "main" "g")
           H1 H2 H1 H2 eq_refl).
Defined.

(** ** Provided objects *)

Section MapSetFacts.
Context {V : Type}.
Implicit Types (entries : list (string * V)) (key : string) (value : V).

Lemma elem_of_mapSet_inv key value entries (k : string) (v : V) :
  (k, v) ∈ mapSet key value entries → (k = key ∧ v = value) ∨ (k, v) ∈ entries.
Proof.
  induction entries as [|[k0 v0] entries IH]; cbn [mapSet].
  - intros [= -> ->]%list_elem_of_singleton. by left.
  - case_bool_decide as Hk.
    + intros [[= -> ->]|Hin]%elem_of_cons; [by left|]. right. by right.
    + intros [[= -> ->]|Hin]%elem_of_cons; [right; by left|].
      destruct (IH Hin) as [?|?]; [by left|]. right. by right.
Qed.

Lemma elem_of_mapSet_keys key value entries (k : string) :
  k ∈ (mapSet key value entries).*1 ↔ k = key ∨ k ∈ entries.*1.
Proof.
  induction entries as [|[k0 v0] entries IH]; cbn [mapSet].
  - rewrite fmap_cons, list_elem_of_singleton. simpl. rewrite elem_of_nil. tauto.
  - case_bool_decide as Hk; rewrite !fmap_cons, !elem_of_cons; simpl.
    + subst k0. tauto.
    + rewrite IH. tauto.
Qed.

Lemma NoDup_mapSet key value entries :
  NoDup entries.*1 → NoDup (mapSet key value entries).*1.
Proof.
  induction entries as [|[k0 v0] entries IH]; cbn [mapSet].
  - intros _. rewrite fmap_cons. simpl. apply NoDup_singleton.
  - rewrite fmap_cons. simpl. intros [Hk0 Hnd]%NoDup_cons.
    case_bool_decide as Hk.
    + rewrite fmap_cons. simpl. by apply NoDup_cons.
    + rewrite fmap_cons. simpl. apply NoDup_cons. split; [|by apply IH].
      rewrite elem_of_mapSet_keys. by intros [?|?].
Qed.
End MapSetFacts.

Lemma foldl_mapSet (l : list Info.t) :
  ∀ (seen : list Info.t) (m : list (string * Info.t)),
  NoDup m.*1 →
  (∀ k v, (k, v) ∈ m → v ∈ seen ∧ infoKey v = k) →
  (∀ v, v ∈ seen → infoKey v ∈ m.*1) →
  let m' := foldl (λ map info, mapSet (infoKey info) info map) m l in
  NoDup m'.*1
  ∧ (∀ k v, (k, v) ∈ m' → v ∈ seen ++ l ∧ infoKey v = k)
  ∧ (∀ v, v ∈ seen ++ l → infoKey v ∈ m'.*1).
Proof.
  induction l as [|info l IH]; intros seen m Hnd Hin Hkeys; cbn [foldl].
  { rewrite app_nil_r. done. }
  replace (seen ++ info :: l) with ((seen ++ [info]) ++ l) by (by rewrite <- app_assoc).
  apply IH.
  - by apply NoDup_mapSet.
  - intros k v [[-> ->]|Hkv]%elem_of_mapSet_inv.
    + split; [|done]. apply elem_of_app. right. by left.
    + destruct (Hin k v Hkv). split; [|done]. apply elem_of_app. by left.
  - intros v [Hv| ->%list_elem_of_singleton]%elem_of_app; apply elem_of_mapSet_keys.
    + right. by apply Hkeys.
    + by left.
Qed.

Lemma uniqueSortedObjects_ok (localeCompare : string → string → Z) (l : list Info.t) :
  NoDup (infoKey <$> uniqueSortedObjects localeCompare l)
  ∧ (∀ info, info ∈ uniqueSortedObjects localeCompare l → info ∈ l)
  ∧ (∀ info, info ∈ l →
       ∃ info', info' ∈ uniqueSortedObjects localeCompare l ∧ infoKey info' = infoKey info).
Proof.
  unfold uniqueSortedObjects.
  destruct (foldl_mapSet l [] []) as (Hnd & Hin & Hkeys);
    [constructor|by intros k v ?%elem_of_nil|by intros v ?%elem_of_nil|].
  cbn [app] in Hin, Hkeys.
  set (m := foldl _ [] l) in *.
  assert (Hfst : infoKey <$> m.*2 = m.*1).
  { clear Hnd Hkeys. induction m as [|[k v] m IH]; [done|].
    rewrite !fmap_cons. simpl. f_equal.
    - apply (Hin k v). by left.
    - apply IH. intros k' v' Hkv. apply Hin. by right. }
  split; [|split].
  - rewrite jsSortBy_perm, Hfst. done.
  - intros info Hinfo%elem_of_jsSortBy.
    apply list_elem_of_fmap in Hinfo as ([k v] & -> & Hkv). by apply (Hin k v).
  - intros info Hinfo. specialize (Hkeys info Hinfo).
    apply list_elem_of_fmap in Hkeys as ([k v] & Hk & Hkv). simpl in Hk. subst k.
    exists v. split; [|by apply (Hin _ v)].
    apply elem_of_jsSortBy, list_elem_of_fmap. by exists (infoKey info, v).
Qed.

Lemma elem_of_providedItems (g : Graph) (sub : gset string) (objs : list Obj.t)
    (acc : list Info.t) (info : Info.t) :
  info ∈ foldl (λ items obj,
                  if bool_decide (Obj.modulePath obj ∉ sub) then items
                  else if bool_decide (length (Obj.providedBy obj) = 0) then items
                  else items ++ [objectInfoFromGraphObject g obj]) acc objs
  ↔ info ∈ acc
    ∨ ∃ obj, obj ∈ objs ∧ Obj.modulePath obj ∈ sub ∧ Obj.providedBy obj ≠ []
             ∧ info = objectInfoFromGraphObject g obj.
Proof.
  revert acc. induction objs as [|obj objs IH]; intros acc; cbn [foldl].
  { split; [by left|]. intros [?|(? & ?%elem_of_nil & _)]; done. }
  rewrite IH. clear IH.
  assert (Hhead :
    info ∈ (if bool_decide (Obj.modulePath obj ∉ sub) then acc
            else if bool_decide (length (Obj.providedBy obj) = 0) then acc
            else acc ++ [objectInfoFromGraphObject g obj])
    ↔ info ∈ acc
      ∨ (Obj.modulePath obj ∈ sub ∧ Obj.providedBy obj ≠ []
         ∧ info = objectInfoFromGraphObject g obj)).
  { case_bool_decide as Hin.
    { split; [by left|]. by intros [?|(? & _)]. }
    case_bool_decide as Hlen.
    { split; [by left|]. intros [?|(_ & Hne & _)]; [done|].
      by destruct (Obj.providedBy obj). }
    rewrite elem_of_app, list_elem_of_singleton. split.
    - intros [?| ->]; [by left|right]. split; [done|]. split; [|done].
      intros Hnil. by rewrite Hnil in Hlen.
    - intros [?|(_ & _ & ->)]; [by left|by right]. }
  rewrite Hhead. clear Hhead. split.
  - intros [[?|(Hmp & Hpb & ->)]|(o & Ho & Hx)]; [by left|right..].
    + exists obj. split; [by left|done].
    + exists o. split; [by right|done].
  - intros [?|(o & [->|Ho]%elem_of_cons & Hmp & Hpb & ->)].
    + left. by left.
    + left. by right.
    + right. by exists o.
Qed.

(** X24.  The provided objects of a module of a valid tree: every item
    is the description of an object that lives in the subtree of the
    module and has a provider, every such object is represented by an
    item with its key (signature and module), and no two items have the
    same key. *)
Theorem collectProvidedObjects_spec (localeCompare : string → string → Z) (g : Graph)
    (level : string → nat) (bound fuel : nat) (p : string) :
  TreeOk g level bound → is_Some (modules g !! p) → bound ≤ fuel →
  ∃ items,
    collectProvidedObjects localeCompare g fuel p = Some items
    ∧ NoDup (infoKey <$> items)
    ∧ (∀ info, info ∈ items →
         ∃ obj, obj ∈ (objects g).*2 ∧ (∃ k, chain g k p (Obj.modulePath obj))
                ∧ Obj.providedBy obj ≠ [] ∧ info = objectInfoFromGraphObject g obj)
    ∧ (∀ obj, obj ∈ (objects g).*2 → (∃ k, chain g k p (Obj.modulePath obj)) →
              Obj.providedBy obj ≠ [] →
         ∃ info, info ∈ items ∧ infoKey info = infoKey (objectInfoFromGraphObject g obj)).
Proof.
  intros Hok Hp Hfuel.
  destruct (collectModuleSubtree_chain g level bound fuel p Hok Hp Hfuel)
    as (sub & Hrun & Hsub).
  unfold collectProvidedObjects. rewrite Hrun. cbn [mbind option_bind].
  eexists. split; [done|].
  match goal with |- context [uniqueSortedObjects _ ?l] => set (items := l) end.
  destruct (uniqueSortedObjects_ok localeCompare items) as (Hnd & Hfrom & Hkey).
  assert (Hitems : ∀ info, info ∈ items ↔
            ∃ obj, obj ∈ (objects g).*2 ∧ Obj.modulePath obj ∈ sub
                   ∧ Obj.providedBy obj ≠ [] ∧ info = objectInfoFromGraphObject g obj).
  { intros info. subst items. rewrite elem_of_providedItems. split; [|by right].
    intros [?%elem_of_nil|?]; done. }
  split; [done|]. split.
  - intros info (obj & Hobj & Hmp & Hpb & ->)%Hfrom%Hitems.
    exists obj. split; [done|]. split; [by apply Hsub|done].
  - intros obj Hobj Hchain Hpb. apply Hkey, Hitems.
    exists obj. split; [done|]. split; [by apply Hsub|done].
Qed.

Lemma collectProvidedObjects_spec_witness :
  ∃ items,
    collectProvidedObjects (λ _ _, 0%Z) demoGraph 8 "pkg.a" = Some items
    ∧ (Info.label <$> items) = ["Service (name=X)"].
Proof.
  destruct (collectProvidedObjects_spec (λ _ _, 0%Z) demoGraph String.length 8 8 "pkg.a"
              demoGraph_ok) as (items & Hrun & _);
    [apply (bool_decide_unpack _); vm_compute; exact I|apply le_n|].
  exists items. split; [exact Hrun|].
  assert (Hsome : fmap (M := list) Info.label
                    <$> collectProvidedObjects (λ _ _, 0%Z) demoGraph 8 "pkg.a"
                  = Some ["Service (name=X)"]) by (vm_compute; reflexivity).
  rewrite Hrun in Hsome. by injection Hsome.
Defined.

(** ** Tooltip of a dependency edge *)

Lemma filter_truthy_labels (labels : list string) :
  filter (λ line, truthy line = true) (map (λ label, "- " +:+ label) labels)
  = map (λ label, "- " +:+ label) labels.
Proof.
  induction labels as [|label labels IH]; [done|].
  cbn [map]. rewrite filter_cons_True by done. by rewrite IH.
Qed.

(** X25.  The tooltip of a dependency edge has a header, the line
    [Objects:], one line for each of the first eight labels and, when
    there are more than eight, a last line with the number left out.
    There is never an empty line: the spacer that the program puts
    after the header is removed with the other empty entries. *)
Theorem showEdgeTooltip_lines (data : Tube.t) :
  let objects := Tube.objects data in
  let header :=
    if truthy (Tube.fromModule data) && truthy (Tube.toModule data)
    then Tube.fromModule data +:+ " depends on " +:+ Tube.toModule data
    else "Dependency" in
  showEdgeTooltip data
  = join lineFeed
      ([header; "Objects:"]
       ++ map (λ label, "- " +:+ label) (take 8 objects)
       ++ (if bool_decide (8 < length objects)
           then ["+" +:+ pretty (length objects - 8) +:+ " more"] else []))
  ∧ length (take 8 objects) ≤ 8
  ∧ header ≠ EmptyString.
Proof.
  intros objects header.
  assert (Hheader : truthy header = true).
  { subst header. destruct (truthy (Tube.fromModule data)) eqn:Hf; [|done].
    destruct (truthy (Tube.toModule data)); [|done]. simpl.
    apply truthy_true in Hf. apply truthy_true.
    by destruct (Tube.fromModule data). }
  split; [|split; [rewrite length_take; lia|by apply truthy_true]].
  unfold showEdgeTooltip. fold objects. fold header. unfold EDGE_TOOLTIP_MAX. f_equal.
  rewrite !filter_app, filter_truthy_labels.
  rewrite filter_cons_True by done.
  rewrite filter_cons_False by done.
  rewrite filter_cons_True by done. rewrite filter_nil. cbn [app].
  do 3 f_equal. rewrite length_take.
  destruct (decide (8 < length objects)) as [Hlong|Hshort].
  - rewrite !bool_decide_eq_true_2 by lia. rewrite filter_cons_True by done.
    rewrite filter_nil. repeat f_equal. lia.
  - rewrite !bool_decide_eq_false_2 by lia. by rewrite filter_cons_False by done.
Qed.

Lemma showEdgeTooltip_lines_witness :
  showEdgeTooltip (Tube.mk "pkg.b" "pkg.a" ["Service (name=X)"] 1)
  = "pkg.b depends on pkg.a" +:+ lineFeed +:+ "Objects:" +:+ lineFeed
    +:+ "- Service (name=X)".
Proof.
  destruct (showEdgeTooltip_lines (Tube.mk "pkg.b" "pkg.a" ["Service (name=X)"] 1))
    as [Htext _].
  rewrite Htext. reflexivity.
Defined.

(** ** Display name of a module *)

Lemma string_app_nil_r (s : string) : s +:+ EmptyString = s.
Proof.
  induction s as [|c s IH]; [done|].
  change (String c s +:+ EmptyString) with (String c (s +:+ EmptyString)).
  by rewrite IH.
Qed.

Lemma dotted_ends (parts : list string) :
  parts = [] ∨ ∃ b, dotted parts = b +:+ ".".
Proof.
  induction parts as [|part parts IH]; [by left|]. right.
  destruct IH as [->|[b Hb]].
  - exists part. cbn [dotted foldr]. done.
  - exists (part +:+ "." +:+ b). cbn [dotted foldr]. fold (dotted parts). rewrite Hb.
    by rewrite !string_app_assoc.
Qed.

Lemma splitDot_last (s : string) :
  ∃ front name,
    splitDot s = front ++ [name] ∧ dotFree name ∧ s = dotted front +:+ name.
Proof.
  induction s as [|c s (front & name & Hsplit & Hfree & Hs)].
  { exists [], EmptyString. split; [done|]. split; [|done]. by intros ?%elem_of_nil. }
  cbn [splitDot]. destruct (Ascii.eqb_spec c ".") as [->|Hc].
  - exists (EmptyString :: front), name. rewrite Hsplit. split; [done|]. split; [done|].
    cbn [dotted foldr]. fold (dotted front). by rewrite Hs at 1.
  - rewrite Hsplit. destruct front as [|part front].
    + exists [], (String c name). split; [done|]. split.
      * unfold dotFree in *. simpl. intros [?|?]%elem_of_cons; [by subst|done].
      * rewrite Hs at 1. done.
    + exists (String c part :: front), name. split; [done|]. split; [done|].
      rewrite Hs at 1. done.
Qed.

(** X26.  The display name of a module: [root] for the synthetic root
    and for the empty path; otherwise the part of the path after its
    last dot, and the whole path when that part is empty.  It is never
    empty. *)
Theorem moduleDisplayName_spec (path : string) :
  (path = EmptyString ∨ path = ROOT_KEY → moduleDisplayName path = "root")
  ∧ (path ≠ EmptyString → path ≠ ROOT_KEY →
     moduleDisplayName path ≠ EmptyString
     ∧ ((dotFree (moduleDisplayName path)
         ∧ ∃ before, path = before +:+ moduleDisplayName path
                     ∧ (before = EmptyString ∨ ∃ b, before = b +:+ "."))
        ∨ (moduleDisplayName path = path ∧ ∃ b, path = b +:+ "."))).
Proof.
  split; [by intros [->| ->]|].
  intros Hne Hroot. unfold moduleDisplayName.
  rewrite (proj2 (truthy_true path) Hne). rewrite bool_decide_eq_false_2 by done.
  cbn [negb orb].
  destruct (splitDot_last path) as (front & name & Hsplit & Hfree & Hpath).
  rewrite Hsplit, length_app. cbn [length].
  replace (length front + 1 - 1) with (length front + 0) by lia.
  rewrite lookup_app_r by lia. replace (length front + 0 - length front) with 0 by lia.
  cbn [lookup list_lookup default from_option id]. unfold orElse.
  destruct (truthy name) eqn:Hname.
  - apply truthy_true in Hname. split; [done|]. left. split; [done|].
    exists (dotted front). split; [done|].
    destruct (dotted_ends front) as [->|?]; [by left|by right].
  - apply truthy_false in Hname. subst name. split; [done|]. right. split; [done|].
    rewrite string_app_nil_r in Hpath.
    destruct (dotted_ends front) as [->|[b Hb]]; [done|].
    exists b. by rewrite Hpath.
Qed.

Lemma moduleDisplayName_spec_witness :
  moduleDisplayName "pkg.a.x" = "x" ∧ moduleDisplayName "pkg." = "pkg."
  ∧ moduleDisplayName "pkg.a.x" ≠ EmptyString.
Proof.
  split; [reflexivity|]. split; [reflexivity|].
  destruct (moduleDisplayName_spec "pkg.a.x") as [_ Hname].
  destruct Hname as [Hne _]; [discriminate|discriminate|exact Hne].
Defined.

(** ** The edges shown, end to end *)

Lemma rooted_iter (g : Graph) (m : string) (k : nat) :
  rooted g (Nat.iter k (parentOf g) m) → rooted g m.
Proof.
  intros (j & Hmod & Hroot). exists (j + k). by rewrite Nat.iter_add.
Qed.

Lemma rooted_dec (g : Graph) (level : string → nat) (bound : nat) (m : string) :
  TreeOk g level bound → rooted g m ∨ ¬ rooted g m.
Proof.
  intros Hok. remember (level m) as n eqn:Hn. revert m Hn.
  induction n as [n IH] using lt_wf_ind. intros m ->.
  destruct (decide (is_Some (modules g !! m))) as [Hm|Hm].
  2:{ right. intros Hr. by apply (rooted_module _ _ _ Hok) in Hr. }
  destruct (isRootModule g m) eqn:Hroot; [left; by apply rooted_root|].
  destruct (decide (is_Some (modules g !! parentOf g m))) as [Hpm|Hpm].
  - pose proof (tree_parent _ _ _ Hok m Hm Hpm) as Hchild.
    pose proof (tree_level _ _ _ Hok _ _ Hchild) as Hlv.
    destruct (IH (level (parentOf g m)) Hlv (parentOf g m) eq_refl) as [Hr|Hr].
    + left. apply (rooted_iter g m 1). exact Hr.
    + right. intros Hm'. by apply (rooted_parent _ _ _ Hok m Hroot) in Hm' as [_ ?].
  - right. intros Hm'. by apply (rooted_parent _ _ _ Hok m Hroot) in Hm' as [? _].
Qed.

Section NearestFacts.
Context (st : State.t) (level : string → nat) (bound fuel : nat).
Hypothesis Hok : TreeOk (State.graph st) level bound.
Hypothesis Hbuilt : nodesBuilt st.
Hypothesis Hroots : ∀ r, is_Some (modules (State.graph st) !! r) →
  isRootModule (State.graph st) r = true → nodeVisible st r = true.
Hypothesis Hshown : ∀ m, nodeVisible st m = true →
  m = ROOT_KEY ∨ rooted (State.graph st) m.
Hypothesis Hfuel : bound < fuel.

Lemma standIn_nonmodule (c : string) :
  ¬ is_Some (modules (State.graph st) !! c) → standIn st fuel c = ROOT_KEY.
Proof.
  intros Hc. unfold standIn.
  destruct (negb (truthy c) || bool_decide (c = ROOT_KEY)) eqn:Hskip; [done|].
  apply orb_false_iff in Hskip as [Hne Hroot].
  apply negb_false_iff in Hne. apply bool_decide_eq_false in Hroot.
  destruct fuel as [|n]; [lia|]. cbn [walkVisible]. rewrite Hne. cbn [negb].
  assert (Hnode : nodeVisible st c = false).
  { unfold nodeVisible. destruct (State.nodes st !! c) as [flag|] eqn:Hnode; [|done].
    destruct (proj1 (proj1 Hbuilt c)) as [?|?]; [by eexists|done|done]. }
  rewrite Hnode.
  assert (Hpar : parentOf (State.graph st) c = EmptyString).
  { unfold parentOf. destruct (modules (State.graph st) !! c) eqn:Hm; [|done].
    destruct Hc. by eexists. }
  by rewrite Hpar.
Qed.

Lemma standIn_shownAncestor (c r : string) :
  standIn st fuel c = r ∧ r ≠ ROOT_KEY ↔ shownAncestor st c r.
Proof.
  destruct (decide (is_Some (modules (State.graph st) !! c))) as [Hc|Hc];
    [destruct (rooted_dec (State.graph st) level bound c Hok) as [Hrooted|Hnot]|].
  - destruct (walkVisible_nearest st level bound Hok Hroots fuel c Hc Hrooted)
      as (k & Hwalk & Hmod & Hvis & Hhidden).
    { apply (tree_bound _ _ _ Hok) in Hc. lia. }
    assert (Hstand : standIn st fuel c = Nat.iter k (parentOf (State.graph st)) c).
    { unfold standIn. rewrite Hwalk.
      assert (Hne : truthy c = true).
      { apply truthy_true. intros ->. rewrite (tree_no_empty _ _ _ Hok) in Hc.
        by destruct Hc. }
      rewrite Hne. cbn [negb orb]. rewrite bool_decide_eq_false_2; [done|].
      intros ->. rewrite (tree_no_root _ _ _ Hok) in Hc. by destruct Hc. }
    split.
    + intros [<- Hne]. rewrite Hstand. split; [done|]. by exists k.
    + intros [Hr (k' & -> & Hshown' & Hhidden')].
      assert (k' = k) as ->.
      { destruct (lt_eq_lt_dec k' k) as [[Hlt|?]|Hlt]; [|done|].
        - rewrite (Hhidden k' Hlt) in Hshown'. done.
        - rewrite (Hhidden' k Hlt) in Hvis. done. }
      split; [done|]. intros Heq. rewrite Heq, (tree_no_root _ _ _ Hok) in Hr.
      by destruct Hr.
  - assert (Hstand : standIn st fuel c = ROOT_KEY).
    { unfold standIn.
      destruct (negb (truthy c) || bool_decide (c = ROOT_KEY)); [done|].
      rewrite (walkVisible_unrooted st level bound Hok Hshown fuel c Hc Hnot); [done|].
      apply (tree_bound _ _ _ Hok) in Hc. lia. }
    split.
    + intros [<- Hne]. done.
    + intros [Hr (k & -> & Hvis & _)]. destruct Hnot.
      apply (rooted_iter _ c k).
      destruct (Hshown _ Hvis) as [Heq|?]; [|done].
      rewrite Heq, (tree_no_root _ _ _ Hok) in Hr. by destruct Hr.
  - split.
    + intros [<- Hne]. by rewrite standIn_nonmodule in Hne.
    + intros [Hr (k & -> & _)]. by apply (iter_nonmodule _ level bound Hok c k) in Hr.
Qed.

Lemma visiblePair_shownAncestor (c p f t : string) :
  visiblePair st fuel c p = Some (f, t)
  ↔ shownAncestor st c f ∧ shownAncestor st p t ∧ f ≠ t.
Proof.
  rewrite <- (standIn_shownAncestor c f), <- (standIn_shownAncestor p t).
  unfold visiblePair, skipEndpoint.
  assert (Htruthy : ∀ q, truthy (standIn st fuel q) = true).
  { intros q. apply standIn_truthy. by apply (walkVisible_total st level bound Hok). }
  rewrite !Htruthy. cbn [negb orb]. split.
  - destruct (bool_decide (standIn st fuel c = ROOT_KEY)) eqn:Hc; [done|].
    destruct (bool_decide (standIn st fuel p = ROOT_KEY)) eqn:Hp; [done|].
    cbn [orb].
    destruct (bool_decide (standIn st fuel p = standIn st fuel c)) eqn:Heq; [done|].
    intros [= <- <-].
    apply bool_decide_eq_false in Hc, Hp, Heq. repeat split; try done.
  - intros ([<- Hc] & [<- Hp] & Hne).
    rewrite !bool_decide_eq_false_2 by congruence. done.
Qed.
End NearestFacts.

(** X27.  What the picture shows, end to end: after [updateGraph] on a
    valid tree whose two pre-pass maps hold the same pairs, there is a
    dependency edge from [f] to [t] exactly when some recorded pair of a
    consumer and a provider has [f] and [t] as the nearest shown
    ancestors of its two modules and these differ.  No edge is listed
    twice. *)
Theorem updateGraph_edges_nearest (st : State.t) (level : string → nat)
    (bound fuel : nat) :
  TreeOk (State.graph st) level bound → nodesBuilt st → prepassConsistent st →
  bound < fuel →
  ∃ st' out,
    updateGraph st fuel = Some (st', out)
    ∧ NoDup (visibleEdges out)
    ∧ ∀ f t, (f, t) ∈ visibleEdges out ↔
        ∃ c p labels, recorded st c p labels
          ∧ shownAncestor st' c f ∧ shownAncestor st' p t ∧ f ≠ t.
Proof.
  intros Hok Hbuilt Hcons Hfuel. pose proof Hbuilt as [Hnodes Horder].
  destruct (layoutTree_total st Horder level bound Hok fuel) as [layout Hlayout]; [lia|].
  set (st' := applyLayout layout st).
  assert (Hwalk : ∀ q, is_Some (walkVisible st' fuel q))
    by (intros q; by apply (walkVisible_total st' level bound Hok)).
  pose proof (aggregate_aggregated st' fuel Hwalk (consumerEntries st') (dependentEntries st'))
    as Hagg.
  exists st', (aggregated st' fuel (consumerEntries st') (dependentEntries st')).
  split.
  { unfold updateGraph. rewrite Hlayout. cbn [mbind option_bind]. fold st'.
    unfold buildVisibleModuleDeps. by rewrite Hagg. }
  split; [apply NoDup_visibleEdges|].
  assert (Hroots : ∀ r, is_Some (modules (State.graph st') !! r) →
            isRootModule (State.graph st') r = true → nodeVisible st' r = true).
  { intros r Hr Hroot. apply nodeVisible_applyLayout. split; [apply Hnodes; by right|].
    apply (layout_shown st level bound Hok Horder fuel layout); [lia|done|]. right.
    split; [done|]. split; [|by apply rooted_root].
    intros j Hj Hm. by apply (root_no_ancestor _ level bound Hok) in Hm. }
  assert (Hshown : ∀ m, nodeVisible st' m = true →
            m = ROOT_KEY ∨ rooted (State.graph st') m).
  { intros m [_ Hpos]%nodeVisible_applyLayout.
    destruct (proj1 (layout_shown st level bound Hok Horder fuel layout m
                       ltac:(lia) Hlayout) Hpos) as [?|(_ & _ & ?)]; [by left|by right]. }
  intros f t. rewrite visibleEdges_spec.
  rewrite (aggregated_deps st' fuel).
  2:{ intros c p. rewrite rawDep_dependentEntries.
      setoid_rewrite rawPair_consumerEntries. apply (Hcons c p). }
  setoid_rewrite rawPair_consumerEntries.
  setoid_rewrite (visiblePair_shownAncestor st' level bound fuel Hok
                    (nodesBuilt_applyLayout layout st Hbuilt) Hroots Hshown Hfuel).
  done.
Qed.

Lemma updateGraph_edges_nearest_witness :
  ∃ st' out,
    updateGraph demoState 9 = Some (st', out)
    ∧ ("pkg.b", "pkg.a") ∈ visibleEdges out.
Proof.
  destruct (updateGraph_edges_nearest demoState String.length 8 9 demoState_ok
              demoState_built
              demoState_consistent (le_n 9))
    as (st' & out & Hrun & _ & Hedges).
  exists st', out. split; [exact Hrun|].
  assert (Hvis : ∀ m, nodeVisible st' m
                      = default false ((λ r, nodeVisible r.1 m) <$> updateGraph demoState 9))
    by (intros m; by rewrite Hrun).
  assert (Hgraph : State.graph st' = State.graph demoState).
  { assert (Hsome : (λ r, State.graph r.1) <$> updateGraph demoState 9
                    = Some (State.graph demoState)) by reflexivity.
    rewrite Hrun in Hsome. by injection Hsome. }
  apply Hedges. exists "pkg.b", "pkg.a.x", {[ "Service (name=X)" ]}.
  split; [vm_compute; reflexivity|]. split; [|split; [|discriminate]].
  - split; [rewrite Hgraph; apply (bool_decide_unpack _); vm_compute; exact I|].
    exists 0. split; [reflexivity|]. split; [|intros j Hj; lia].
    rewrite Hvis. vm_compute. reflexivity.
  - split; [rewrite Hgraph; apply (bool_decide_unpack _); vm_compute; exact I|].
    exists 1. rewrite Hgraph. split; [reflexivity|]. split.
    + rewrite Hvis. vm_compute. reflexivity.
    + intros [|j] Hj; [|lia]. rewrite Hvis. vm_compute. reflexivity.
Defined.

(** ** Order of the search entries *)

Section SortedBy.
Context {A : Type} (le : A → A → bool).
Hypothesis le_total : ∀ a b, le a b = false → le b a = true.
Hypothesis le_trans : ∀ a b c, le a b = true → le b c = true → le a c = true.

Lemma insertSorted_StronglySorted (x : A) (l : list A) :
  StronglySorted (λ a b, le a b = true) l →
  StronglySorted (λ a b, le a b = true) (insertSorted le x l).
Proof.
  induction 1 as [|y l Hl IH Hall]; cbn [insertSorted].
  { repeat constructor. }
  destruct (le x y) eqn:Hxy.
  - constructor; [by constructor|]. constructor; [done|].
    rewrite Forall_forall in Hall |- *. intros z Hz. by apply (le_trans x y z), Hall.
  - constructor; [done|]. rewrite Forall_forall in Hall |- *.
    intros z Hz. rewrite insertSorted_perm in Hz.
    apply elem_of_cons in Hz as [->|Hz]; [by apply le_total|by apply Hall].
Qed.

Lemma jsSortBy_StronglySorted (l : list A) :
  StronglySorted (λ a b, le a b = true) (jsSortBy le l).
Proof.
  induction l as [|x l IH]; [constructor|]. by apply insertSorted_StronglySorted.
Qed.
End SortedBy.

Lemma StronglySorted_sublist {A : Type} (R : A → A → Prop) (l1 l2 : list A) :
  sublist l1 l2 → StronglySorted R l2 → StronglySorted R l1.
Proof.
  induction 1 as [|x l1 l2 Hsub IH|x l1 l2 Hsub IH]; [done| |].
  - intros [Hl Hall]%StronglySorted_inv. constructor; [by apply IH|].
    rewrite Forall_forall in Hall |- *. intros z Hz. apply Hall.
    by apply (elem_of_sublist l1 l2).
  - intros [Hl _]%StronglySorted_inv. by apply IH.
Qed.

Lemma searchEntryLe_before (compare : string → string → Z) (a b : SearchEntry.t) :
  searchEntryLe compare a b = true ↔ entryBefore compare a b.
Proof.
  unfold searchEntryLe, entryBefore. rewrite bool_decide_eq_true.
  case_bool_decide as Hne; lia.
Qed.

Lemma searchEntryLe_order (compare : string → string → Z) :
  consistentComparator compare →
  (∀ a b, searchEntryLe compare a b = false → searchEntryLe compare b a = true)
  ∧ (∀ a b c, searchEntryLe compare a b = true → searchEntryLe compare b c = true →
              searchEntryLe compare a c = true).
Proof.
  intros [Hsgn Htrans].
  assert (Hzero : ∀ a b c, compare a b = 0%Z → compare b c = 0%Z → compare a c = 0%Z).
  { intros a b c Hab Hbc.
    assert (compare a c ≤ 0)%Z by (apply (Htrans a b c); lia).
    assert (compare c a ≤ 0)%Z.
    { apply (Htrans c b a).
      - pose proof (Hsgn b c). lia.
      - pose proof (Hsgn a b). lia. }
    pose proof (Hsgn a c). lia. }
  assert (Hlt : ∀ a b c, (compare a b ≤ 0)%Z → (compare b c ≤ 0)%Z →
                         (compare a b < 0 ∨ compare b c < 0)%Z → (compare a c < 0)%Z).
  { intros a b c Hab Hbc Hstrict.
    destruct (Z_lt_le_dec (compare a c) 0) as [?|Hge]; [done|].
    assert (Hca : (compare c a ≤ 0)%Z) by (pose proof (Hsgn a c); lia).
    destruct Hstrict as [Hs|Hs].
    - pose proof (Htrans b c a Hbc Hca). pose proof (Hsgn a b). lia.
    - pose proof (Htrans c a b Hca Hab). pose proof (Hsgn b c). lia. }
  split.
  - intros a b Hab. apply searchEntryLe_before.
    assert (Hnot : ¬ entryBefore compare a b).
    { intros H%searchEntryLe_before. by rewrite H in Hab. }
    unfold entryBefore in *.
    pose proof (Hsgn (SearchEntry.label a) (SearchEntry.label b)).
    pose proof (Hsgn (SearchEntry.modulePath a) (SearchEntry.modulePath b)). lia.
  - intros a b c [Hab|[Hab Hab']]%searchEntryLe_before
                 [Hbc|[Hbc Hbc']]%searchEntryLe_before; apply searchEntryLe_before.
    + left. apply (Hlt _ (SearchEntry.label b)); lia.
    + left. apply (Hlt _ (SearchEntry.label b)); lia.
    + left. apply (Hlt _ (SearchEntry.label b)); lia.
    + right. split; [by apply (Hzero _ (SearchEntry.label b))|].
      by apply (Htrans _ (SearchEntry.modulePath b)).
Qed.

Lemma codeUnitCompare_le (a b : string) :
  (codeUnitCompare a b ≤ 0)%Z ↔ String.le a b.
Proof.
  unfold codeUnitCompare, String.le, String.leb.
  destruct (String.compare a b); simpl; split; (done || lia).
Qed.

Lemma codeUnitCompare_consistent : consistentComparator codeUnitCompare.
Proof.
  split.
  - intros a b. unfold codeUnitCompare. rewrite (String.compare_antisym a b).
    by destruct (String.compare b a).
  - intros a b c Hab%codeUnitCompare_le Hbc%codeUnitCompare_le.
    apply codeUnitCompare_le. by trans b.
Qed.

Lemma StronglySorted_weaken {A : Type} (R1 R2 : A → A → Prop) (l : list A) :
  (∀ a b, R1 a b → R2 a b) → StronglySorted R1 l → StronglySorted R2 l.
Proof.
  intros Himpl. induction 1 as [|x l Hl IH Hall]; constructor; [done|].
  rewrite Forall_forall in Hall |- *. intros z Hz. by apply Himpl, Hall.
Qed.

(** X28.  With a comparator that sorts consistently, the search entries
    of the index are in order: every entry comes before every later one
    by label, and by module path when the labels tie.  The rows of the
    search results are made of matches taken in the order of the
    entries, so they are in that order too. *)
Theorem searchEntries_sorted (localeCompare : string → string → Z) (g : Graph)
    (query : string) :
  consistentComparator localeCompare →
  let entries := searchEntries (buildObjectIndex localeCompare g) in
  StronglySorted (entryBefore localeCompare) entries
  ∧ ∀ rows more, renderSearchResults entries query = Results rows more →
      ∃ shown, rows = resultRow <$> shown
               ∧ sublist shown entries
               ∧ StronglySorted (entryBefore localeCompare) shown.
Proof.
  intros Hcmp entries.
  destruct (searchEntryLe_order localeCompare Hcmp) as [Htotal Htrans].
  assert (Hsorted : StronglySorted (entryBefore localeCompare) entries).
  { subst entries. unfold buildObjectIndex. cbn [searchEntries].
    apply (StronglySorted_weaken (λ a b, searchEntryLe localeCompare a b = true)).
    - intros a b. apply searchEntryLe_before.
    - by apply jsSortBy_StronglySorted. }
  split; [done|]. intros rows more. unfold renderSearchResults.
  destruct (negb (truthy _)); [done|]. case_bool_decide; [done|].
  intros [= <- _].
  set (matches := searchMatches entries _).
  assert (Hsub : sublist (take 50 matches) entries).
  { etrans; [apply sublist_take|]. apply sublist_filter. }
  exists (take 50 matches). split; [done|]. split; [done|].
  by apply (StronglySorted_sublist _ _ entries).
Qed.

Lemma searchEntries_sorted_witness :
  StronglySorted (entryBefore codeUnitCompare)
    (searchEntries (buildObjectIndex codeUnitCompare demoGraph))
  ∧ SearchEntry.label <$> searchEntries (buildObjectIndex codeUnitCompare demoGraph)
    = ["Config"; "Service (name=X)"].
Proof.
  split; [|vm_compute; reflexivity].
  destruct (searchEntries_sorted codeUnitCompare demoGraph "x") as [Hsorted _].
  - exact codeUnitCompare_consistent.
  - exact Hsorted.
Defined.

(** ** The module list *)

Section ListFacts.
Context (g : Graph) (expanded : gset string) (level : string → nat) (bound : nat).
Hypothesis Hok : TreeOk g level bound.

Lemma forEachM_rows (f : list ListRow.t → string → option (list ListRow.t))
    (shown : string → list string) (l : list string) :
  (∀ c rows, c ∈ l →
     ∃ more, f rows c = Some (rows ++ more)
             ∧ ListRow.path <$> more ≡ₚ shown c
             ∧ Forall (λ row,
                 ListRow.title row = moduleDisplayName (ListRow.path row)
                 ∧ (ListRow.badge row = BadgeLeaf ↔ childrenOf g (ListRow.path row) = [])
                 ∧ (ListRow.badge row = BadgeOpen ↔
                      childrenOf g (ListRow.path row) ≠ []
                      ∧ ListRow.path row ∈ expanded)) more) →
  ∀ rows,
    ∃ more, forEachM f l rows = Some (rows ++ more)
            ∧ ListRow.path <$> more ≡ₚ l ≫= shown
            ∧ Forall (λ row,
                ListRow.title row = moduleDisplayName (ListRow.path row)
                ∧ (ListRow.badge row = BadgeLeaf ↔ childrenOf g (ListRow.path row) = [])
                ∧ (ListRow.badge row = BadgeOpen ↔
                     childrenOf g (ListRow.path row) ≠ []
                     ∧ ListRow.path row ∈ expanded)) more.
Proof.
  induction l as [|c l IH]; intros Hf rows.
  { exists []. rewrite app_nil_r. done. }
  cbn [forEachM]. destruct (Hf c rows) as (more1 & Hrun & Hperm & Hall); [by left|].
  rewrite Hrun. cbn [mbind option_bind].
  destruct (IH (λ c' rows' Hc', Hf c' rows' (list_elem_of_further _ _ _ Hc')) (rows ++ more1))
    as (more2 & Hrest & Hperm2 & Hall2).
  exists (more1 ++ more2). rewrite Hrest. split; [by rewrite <- app_assoc|]. split.
  - rewrite fmap_app, bind_cons. by rewrite Hperm, Hperm2.
  - by apply Forall_app.
Qed.

Lemma buildTreeRow_rows (n : nat) (p : string) (d : nat) (rows : list ListRow.t) :
  is_Some (modules g !! p) → bound - level p ≤ n →
  ∃ more, buildTreeRow g expanded n p d rows = Some (rows ++ more)
          ∧ ListRow.path <$> more ≡ₚ shownBelow g expanded n p
          ∧ Forall (λ row,
              ListRow.title row = moduleDisplayName (ListRow.path row)
              ∧ (ListRow.badge row = BadgeLeaf ↔ childrenOf g (ListRow.path row) = [])
              ∧ (ListRow.badge row = BadgeOpen ↔
                   childrenOf g (ListRow.path row) ≠ []
                   ∧ ListRow.path row ∈ expanded)) more.
Proof.
  revert p d rows. induction n as [|n IH]; intros p d rows Hp Hn.
  { apply (tree_bound _ _ _ Hok) in Hp. lia. }
  cbn [buildTreeRow shownBelow]. rewrite (isModule_own g p Hp). cbn [negb].
  destruct Hp as [module Hmod].
  assert (Hkids : childrenOf g p = children module) by (unfold childrenOf; by rewrite Hmod).
  rewrite !Hkids.
  set (row := ListRow.mk p d _ _ _).
  assert (Hrow : ListRow.title row = moduleDisplayName (ListRow.path row)
                 ∧ (ListRow.badge row = BadgeLeaf ↔ childrenOf g (ListRow.path row) = [])
                 ∧ (ListRow.badge row = BadgeOpen ↔
                      childrenOf g (ListRow.path row) ≠ [] ∧ ListRow.path row ∈ expanded)).
  { subst row. cbn [ListRow.title ListRow.path ListRow.badge]. rewrite Hkids.
    split; [done|].
    destruct (children module) as [|c kids]; cbn [length].
    - rewrite bool_decide_eq_false_2 by lia. split; [done|]. split; [done|]. by intros [? _].
    - rewrite bool_decide_eq_true_2 by lia. split; [by destruct (bool_decide _)|].
      case_bool_decide; split; try done; by intros [_ ?]. }
  destruct (bool_decide (0 < length (children module)) && bool_decide (p ∈ expanded))
    eqn:Hopen.
  - apply andb_true_iff in Hopen as [_ HE%bool_decide_eq_true].
    rewrite bool_decide_eq_false_2 by (by intros Hne; apply Hne).
    destruct (forEachM_rows
                (λ rows child, buildTreeRow g expanded n child (S d) rows)
                (shownBelow g expanded n) (children module)) with (rows := rows ++ [row])
      as (more & Hrun & Hperm & Hall).
    { intros c rows' Hc. rewrite <- Hkids in Hc.
      pose proof (tree_child_bound _ _ _ Hok p c Hc) as Hlv.
      apply IH; [by apply (tree_child _ _ _ Hok p c)|lia]. }
    exists (row :: more). rewrite Hrun. split; [by rewrite <- app_assoc|]. split.
    + rewrite fmap_cons. cbn [ListRow.path]. f_equiv. rewrite Hperm.
      by rewrite (jsSortBy_perm String.leb (children module)).
    + constructor; [exact Hrow|exact Hall].
  - exists [row]. split; [done|]. split; [|constructor; [exact Hrow|constructor]].
    rewrite fmap_cons. cbn [ListRow.path fmap list_fmap].
    destruct (bool_decide (p ∉ expanded)) eqn:HE; [done|].
    apply bool_decide_eq_false in HE. apply dec_stable in HE.
    apply andb_false_iff in Hopen as [Hlen|Hclosed].
    + apply bool_decide_eq_false in Hlen.
      destruct (children module); [done|simpl in Hlen; lia].
    + by apply bool_decide_eq_false in Hclosed.
Qed.
End ListFacts.

(** X29.  The module list shows the modules that the graph shows: on a
    valid tree, when [rootModules] lists the root modules once each,
    [buildModuleList] returns one row for each module that [layoutTree]
    gives a position, and no other row.  A row is titled with the
    display name of its module; its badge is the leaf badge exactly when
    the module has no children, and the open badge exactly when it has
    children and is expanded. *)
Theorem buildModuleList_matches_layout (st : State.t) (level : string → nat)
    (bound fuel : nat) (rootModules : list string) :
  TreeOk (State.graph st) level bound →
  State.moduleOrder st = sortedModules (State.graph st) →
  rootModules ≡ₚ layoutRoots st → bound ≤ fuel →
  ∃ rows layout,
    buildModuleList (State.graph st) (State.expandedModules st) fuel rootModules = Some rows
    ∧ layoutTree st fuel = Some layout
    ∧ NoDup (ListRow.path <$> rows)
    ∧ (∀ m, m ∈ ListRow.path <$> rows ↔
         m ≠ ROOT_KEY ∧ is_Some (Layout.positions layout !! m))
    ∧ ∀ row, row ∈ rows →
        ListRow.title row = moduleDisplayName (ListRow.path row)
        ∧ (ListRow.badge row = BadgeLeaf ↔
             childrenOf (State.graph st) (ListRow.path row) = [])
        ∧ (ListRow.badge row = BadgeOpen ↔
             childrenOf (State.graph st) (ListRow.path row) ≠ []
             ∧ ListRow.path row ∈ State.expandedModules st).
Proof.
  intros Hok Horder Hroots Hfuel.
  destruct (layoutTree_total st Horder level bound Hok fuel Hfuel) as [layout Hlayout].
  destruct (forEachM_rows (State.graph st) (State.expandedModules st)
              (λ rows path, buildTreeRow (State.graph st) (State.expandedModules st)
                                         fuel path 0 rows)
              (shownBelow (State.graph st) (State.expandedModules st) fuel)
              rootModules) with (rows := @nil ListRow.t)
    as (rows & Hrun & Hperm & Hall).
  { intros r rows' Hr. rewrite Hroots in Hr.
    apply (layoutRoots_spec st Horder) in Hr as [Hr _].
    apply (buildTreeRow_rows _ _ level bound Hok); [done|].
    apply (tree_bound _ _ _ Hok) in Hr. lia. }
  exists rows, layout. split; [done|]. split; [done|].
  assert (Hkeys : ListRow.path <$> rows ≡ₚ (rootPlacements st fuel).*1).
  { rewrite Hperm, rootPlacements_keys. by rewrite Hroots. }
  split; [rewrite Hkeys; apply (NoDup_rootPlacements st Horder level bound Hok)|].
  split.
  - intros m. rewrite Hkeys. split.
    + intros Hm.
      pose proof (rootPlacements_module st Horder level bound Hok fuel m Hm) as Hmod.
      split.
      * intros ->. rewrite (tree_no_root _ _ _ Hok) in Hmod. by destruct Hmod.
      * apply list_elem_of_fmap in Hm as ([m' pm] & -> & Hin).
        exists pm. by apply (layout_lookup st Horder level bound Hok fuel layout).
    + intros [Hne [pm Hpm]].
      destruct (layout_lookup_inv st Horder level bound Hok fuel layout m pm Hlayout Hpm)
        as [Hin|[? _]]; [|done].
      apply list_elem_of_fmap. by exists (m, pm).
  - intros row Hrow. rewrite Forall_forall in Hall. by apply Hall.
Qed.

Lemma buildModuleList_matches_layout_witness :
  ∃ rows,
    buildModuleList (State.graph demoState) (State.expandedModules demoState) 8 ["pkg"]
    = Some rows
    ∧ (ListRow.path <$> rows) = ["pkg"; "pkg.b"; "pkg.a"]
    ∧ NoDup (ListRow.path <$> rows).
Proof.
  destruct (buildModuleList_matches_layout demoState String.length 8 8 ["pkg"] demoState_ok
              demoState_order)
    as (rows & layout & Hrun & _ & Hnd & _); [reflexivity|apply le_n|].
  exists rows. split; [exact Hrun|]. split; [|exact Hnd].
  assert (Hsome : fmap (M := list) ListRow.path
                    <$> buildModuleList (State.graph demoState)
                          (State.expandedModules demoState) 8 ["pkg"]
                  = Some ["pkg"; "pkg.b"; "pkg.a"]) by (vm_compute; reflexivity).
  rewrite Hrun in Hsome. by injection Hsome.
Defined.

(** ** Highlighting *)

Lemma nodeId_inj (a b : string) : nodeId a = nodeId b → a = b.
Proof. unfold nodeId. apply (inj (String.app "module:")). Qed.

Lemma truthy_nodeId (a : string) : truthy (nodeId a) = true.
Proof. done. Qed.

Lemma elem_of_connectedIds (edges : list (string * string)) (selected x : string) :
  truthy selected = true →
  x ∈ connectedIds edges selected ↔
  ∃ a b, (a, b) ∈ edges ∧ (nodeId a = selected ∨ nodeId b = selected)
         ∧ (x = nodeId a ∨ x = nodeId b).
Proof.
  intros Hsel. unfold connectedIds. rewrite Hsel.
  assert (Hgen : ∀ acc : gset string,
    x ∈ foldl (λ connected '(from, to),
                 if bool_decide (nodeId from = selected) || bool_decide (nodeId to = selected)
                 then connected ∪ {[nodeId from]} ∪ {[nodeId to]}
                 else connected) acc edges ↔
    x ∈ acc ∨ ∃ a b, (a, b) ∈ edges ∧ (nodeId a = selected ∨ nodeId b = selected)
                     ∧ (x = nodeId a ∨ x = nodeId b)).
  { induction edges as [|[a b] edges IH]; intros acc; cbn [foldl].
    - split; [by left|]. intros [?|(a & b & Hin & _)]; [done|]. by apply elem_of_nil in Hin.
    - rewrite IH. clear IH.
      destruct (bool_decide (nodeId a = selected) || bool_decide (nodeId b = selected))
        eqn:Htouch.
      + assert (Hab : nodeId a = selected ∨ nodeId b = selected).
        { apply orb_true_iff in Htouch as [H%bool_decide_eq_true|H%bool_decide_eq_true];
            [by left|by right]. }
        rewrite !elem_of_union, !elem_of_singleton. split.
        * intros [[[?| ->]| ->]|(a' & b' & Hin & Hsel' & Hx)].
          -- by left.
          -- right. exists a, b. split; [by left|]. split; [done|by left].
          -- right. exists a, b. split; [by left|]. split; [done|by right].
          -- right. exists a', b'. split; [by right|done].
        * intros [?|(a' & b' & Hin & Hsel' & Hx)]; [by left; left; left|].
          apply elem_of_cons in Hin as [[= -> ->]|Hin].
          -- left. destruct Hx as [->| ->]; [left; by right|by right].
          -- right. by exists a', b'.
      + assert (Hab : ¬ (nodeId a = selected ∨ nodeId b = selected)).
        { apply orb_false_iff in Htouch as [Ha%bool_decide_eq_false Hb%bool_decide_eq_false].
          by intros [?|?]. }
        split.
        * intros [?|(a' & b' & Hin & Hsel' & Hx)]; [by left|].
          right. exists a', b'. split; [by right|done].
        * intros [?|(a' & b' & Hin & Hsel' & Hx)]; [by left|].
          apply elem_of_cons in Hin as [[= -> ->]|Hin]; [done|].
          right. by exists a', b'. }
  rewrite Hgen. split; [|by right]. intros [Hx|?]; [|done]. by apply elem_of_empty in Hx.
Qed.

(** X30.  What selecting a module colours.  After [updateGraph] on a
    valid tree, with the module [s] selected, [applyHighlight] gives the
    highlight colour to the node of [s] alone, and the connected colour
    exactly to the tree neighbours of a shown [s]: the node it hangs
    from (its parent, or the synthetic root for a root module) and, when
    [s] is expanded, its children.  Dependencies play no part in the
    colour of a node.  With nothing selected every visible node is
    white.  A dependency tube is visible after the pass exactly when it
    touches the selection, whatever is hovered, and none is visible when
    nothing is selected or hovered. *)
Theorem applyHighlight_tree_neighbours (st : State.t) (level : string → nat)
    (bound fuel : nat) (s hovered : string) :
  TreeOk (State.graph st) level bound → nodesBuilt st → bound < fuel →
  is_Some (modules (State.graph st) !! s) →
  ∃ st' out,
    updateGraph st fuel = Some (st', out)
    ∧ ∀ lines,
        (∀ m,
           ((applyHighlight st' (nodeId s) hovered lines).1 m = Some ColourHighlight ↔
              nodeVisible st' m = true ∧ m = s)
           ∧ ((applyHighlight st' (nodeId s) hovered lines).1 m = Some ColourConnected ↔
                nodeVisible st' s = true ∧ m ≠ s
                ∧ (m = (if isRootModule (State.graph st) s then ROOT_KEY
                        else parentOf (State.graph st) s)
                   ∨ (s ∈ State.expandedModules st
                      ∧ m ∈ childrenOf (State.graph st) s)))
           ∧ ((applyHighlight st' EmptyString hovered lines).1 m = Some ColourWhite ↔
                nodeVisible st' m = true))
        ∧ ∀ line,
            line ∈ lines → Line.isDep line = true →
            highlightLine (nodeId s) hovered line
              ∈ (applyHighlight st' (nodeId s) hovered lines).2
            ∧ (Line.visible (highlightLine (nodeId s) hovered line) = true ↔
                 Line.from line = nodeId s ∨ Line.to line = nodeId s)
            ∧ Line.visible (highlightLine EmptyString EmptyString line) = false.
Proof.
  intros Hok Hbuilt Hfuel Hs. pose proof Hbuilt as [_ Horder].
  assert (Hnr : modules (State.graph st) !! ROOT_KEY = None)
    by apply (tree_no_root _ _ _ Hok).
  destruct (updateGraph_visible st level bound fuel Hok Hbuilt Hfuel)
    as (st' & out & Hrun & _ & _ & _ & Hvis).
  destruct (updateGraph_total st level bound fuel Hok Horder Hfuel)
    as (layout & out' & Hlayout & Hrun').
  assert (Hedges : State.edges st' = Layout.edges layout).
  { rewrite Hrun in Hrun'. by injection Hrun' as -> _. }
  assert (Hfuel' : bound ≤ fuel) by lia.
  pose proof (layoutTree_edges_iff st level bound fuel layout Hok Horder Hfuel' Hlayout)
    as Hedge.
  assert (Hpos : ∀ x, is_Some (Layout.positions layout !! x) ↔ nodeVisible st' x = true).
  { intros x. rewrite Hvis.
    apply (layout_shown st level bound Hok Horder fuel layout x Hfuel' Hlayout). }
  assert (Hsroot : s ≠ ROOT_KEY).
  { intros ->. rewrite Hnr in Hs. by destruct Hs. }
  exists st', out. split; [done|]. intros lines. split.
  - intros m. cbn [applyHighlight fst]. unfold nodeColour.
    rewrite truthy_nodeId. cbn [andb].
    destruct (nodeVisible st' m) eqn:Hm; cbn [negb].
    2:{ split; [|split].
        - split; [done|]. by intros [? _].
        - split; [done|]. intros (Hsv & Hne & Hcase). exfalso.
          apply not_true_iff_false in Hm. apply Hm, Hvis.
          apply Hvis in Hsv as [?|(_ & Hanc & Hrooted)]; [done|].
          destruct Hcase as [->|[HE Hchild]].
          + destruct (isRootModule (State.graph st) s) eqn:Hroot; [by left|]. right.
            destruct (rooted_parent _ _ _ Hok s Hroot Hrooted) as [Hpm Hprooted].
            split; [done|]. split; [by apply ancestorsExpanded_parent|done].
          + right. split; [by apply (tree_child _ _ _ Hok s m)|].
            split; [by apply (ancestorsExpanded_child _ _ level bound Hok s m)|].
            by apply (rooted_child _ _ _ Hok s m).
        - done. }
    split; [|split].
    + destruct (bool_decide (nodeId m = nodeId s)) eqn:Heq.
      * apply bool_decide_eq_true, nodeId_inj in Heq. done.
      * apply bool_decide_eq_false in Heq.
        split; [by case_bool_decide|]. intros [_ ->]. done.
    + destruct (bool_decide (nodeId m = nodeId s)) eqn:Heq.
      { apply bool_decide_eq_true, nodeId_inj in Heq.
        split; [done|]. by intros (_ & ? & _). }
      apply bool_decide_eq_false in Heq.
      assert (Hms : m ≠ s) by (by intros ->).
      rewrite Hedges.
      destruct (bool_decide (nodeId m ∈ connectedIds (Layout.edges layout) (nodeId s)))
        eqn:Hconn.
      * apply bool_decide_eq_true in Hconn.
        apply elem_of_connectedIds in Hconn as (a & b & Hab & Hsel & Hx);
          [|apply truthy_nodeId].
        split; [intros _|done].
        assert (Hcases : (a = s ∧ b = m) ∨ (a = m ∧ b = s)).
        { destruct Hsel as [->%nodeId_inj| ->%nodeId_inj];
            destruct Hx as [Hx%nodeId_inj|Hx%nodeId_inj]; subst; try done;
            [by left|by right]. }
        destruct Hcases as [[-> ->]|[-> ->]].
        -- apply Hedge in Hab as (Hmr & Hmpos & Hsm).
           apply Hpos, Hvis in Hmpos as [?|(Hmm & Hanc & Hrooted)]; [done|].
           destruct (isRootModule (State.graph st) m) eqn:Hroot; [done|].
           destruct (rooted_parent _ _ _ Hok m Hroot Hrooted) as [Hpm Hprooted].
           split.
           { apply Hvis. right. split; [done|]. rewrite Hsm.
             split; [by apply ancestorsExpanded_parent|done]. }
           split; [done|]. right. split.
           ++ rewrite Hsm. apply (Hanc 1); [lia|done].
           ++ rewrite Hsm. by apply (tree_parent _ _ _ Hok).
        -- apply Hedge in Hab as (_ & Hspos & Hm').
           split; [by apply Hpos|]. split; [done|]. by left.
      * apply bool_decide_eq_false in Hconn.
        split; [done|]. intros (Hsv & _ & Hcase). exfalso. apply Hconn.
        apply elem_of_connectedIds; [apply truthy_nodeId|].
        destruct Hcase as [->|[HE Hchild]].
        -- eexists _, s. split; [|split; [by right|by left]].
           apply Hedge. split; [done|]. split; [by apply Hpos|done].
        -- exists s, m. split; [|split; [by left|by right]].
           apply Hedge.
           destruct (tree_child _ _ _ Hok s m Hchild) as [Hmm Hpar].
           split; [intros ->; rewrite Hnr in Hmm; by destruct Hmm|].
           split; [by apply Hpos|].
           by rewrite (child_not_root _ level bound Hok s m).
    + assert (Hno : truthy EmptyString = false) by done.
      unfold connectedIds. rewrite Hno. cbn [andb]. split; [done|]. intros _.
      rewrite bool_decide_eq_false_2; [done|].
      intros Hx. by apply elem_of_empty in Hx.
  - intros line Hin Hdep. split; [|split].
    + cbn [applyHighlight snd]. apply list_elem_of_fmap. by exists line.
    + unfold highlightLine, orElse. rewrite truthy_nodeId, Hdep. cbn [negb andb].
      destruct (bool_decide (Line.from line = nodeId s) || bool_decide (Line.to line = nodeId s))
        eqn:Htouch; cbn [negb Line.visible].
      * apply orb_true_iff in Htouch as [H%bool_decide_eq_true|H%bool_decide_eq_true];
          split; try done; intros _; [by left|by right].
      * apply orb_false_iff in Htouch as [Ha%bool_decide_eq_false Hb%bool_decide_eq_false].
        split; [done|]. by intros [?|?].
    + unfold highlightLine, orElse. by rewrite Hdep.
Qed.

Lemma applyHighlight_tree_neighbours_witness :
  ∃ st' out,
    updateGraph demoState 9 = Some (st', out)
    ∧ (applyHighlight st' (nodeId "pkg") EmptyString []).1 "pkg.a" = Some ColourConnected
    ∧ (applyHighlight st' (nodeId "pkg") EmptyString []).1 ROOT_KEY = Some ColourConnected.
Proof.
  assert (Hpkg : is_Some (modules (State.graph demoState) !! "pkg"))
    by (apply (bool_decide_unpack _); vm_compute; exact I).
  destruct (applyHighlight_tree_neighbours demoState String.length 8 9 "pkg" EmptyString
              demoState_ok demoState_built (le_n 9) Hpkg)
    as (st' & out & Hrun & Hall).
  destruct (Hall []) as [Hnodes _].
  destruct (updateGraph_visible demoState String.length 8 9 demoState_ok
              demoState_built (le_n 9))
    as (st2 & out2 & Hrun2 & _ & _ & _ & Hvis).
  assert (Hsame : st2 = st').
  { rewrite Hrun in Hrun2. by injection Hrun2 as -> _. }
  subst st2.
  assert (Hshown : nodeVisible st' "pkg" = true).
  { apply Hvis. right. split; [exact Hpkg|]. split; [|exact (demoState_rooted "pkg" Hpkg)].
    intros k Hk Hmod. exfalso.
    apply (root_no_ancestor (State.graph demoState) String.length 8 demoState_ok "pkg" k);
      [reflexivity|exact Hk|exact Hmod]. }
  exists st', out. split; [exact Hrun|]. split.
  - apply (Hnodes "pkg.a"). split; [exact Hshown|]. split; [discriminate|]. right.
    split; apply (bool_decide_unpack _); vm_compute; exact I.
  - apply (Hnodes ROOT_KEY). split; [exact Hshown|]. split; [discriminate|]. by left.
Defined.
